(** * TorchRec train-pipeline utilities: a shallow embedding

    Source files:
    - [torchrec/distributed/train_pipeline/utils.py]
    - [torchrec/metrics/precision_session.py]

    Python objects with identity whose fields are reassigned (training
    contexts, sharded modules, the context reference of a pipelined
    postproc) live in a store and are referred to by address, so that
    aliasing between the orchestrator, the intercepting forwards and the
    postproc wrappers is visible.  Every Python function becomes a function
    of the store that returns either a value or the exception raised,
    together with the store reached at that point.

    Calls into the tensor runtime that neither read nor write the Python
    state ([wait_stream], [record_stream], stream context managers,
    profiler scopes, logging) are left out; the assertions next to them are
    kept because they can raise. *)

From Stdlib Require Import Ascii String.
From stdpp Require Import gmap strings list fin_maps.

Set Warnings "-register-all".

Local Open Scope string_scope.
Local Open Scope Z_scope.

(** ** Exceptions and results *)

Inductive exn : Type :=
| AssertionError (msg : string)
| KeyError
| IndexError
| AttributeError (name : string)
| TypeError
| ValueError
| StopIteration
| RecMetricException (msg : string)
| RuntimeError (code : nat)
| DanglingReference.

Inductive result (A : Type) : Type :=
| Ok (a : A)
| Raise (e : exn).
Arguments Ok {A} a.
Arguments Raise {A} e.

(** ** Python values seen by the argument descriptors *)

Inductive subscript : Type :=
| IInt (i : Z)
| IStr (s : string).

Inductive value : Type :=
| VNone
| VBool (b : bool)
| VInt (z : Z)
| VStr (s : string)
| VList (l : list value)
| VDict (d : list (subscript * value))
| VObj (attrs : list (string * value))
| VTensor (id : nat)
| VMultistreamable (id : nat)
| VSlice (start stop step : option Z)
| VOpaque.

(** A key as the object it is; a string or a key stands for its object
    where an object is expected. *)
Definition subscript_value (key : subscript) : value :=
  match key with
  | IInt i => VInt i
  | IStr s => VStr s
  end.

Coercion VStr : string >-> value.
Coercion subscript_value : subscript >-> value.

Definition subscript_eqb (a b : subscript) : bool :=
  match a, b with
  | IInt i, IInt j => Z.eqb i j
  | IStr s, IStr t => String.eqb s t
  | _, _ => false
  end.

Fixpoint assoc {A : Type} (k : string) (l : list (string * A)) : option A :=
  match l with
  | [] => None
  | (k', v) :: l' => if String.eqb k k' then Some v else assoc k l'
  end.

Fixpoint assoc_subscript {A : Type} (k : subscript) (l : list (subscript * A)) : option A :=
  match l with
  | [] => None
  | (k', v) :: l' => if subscript_eqb k k' then Some v else assoc_subscript k l'
  end.

(** [getattr(arg, name)]: [name] has to be a string.  The attributes of an
    object are those its [VObj] lists; the attributes that Python gives to
    numbers, strings and containers (methods, [real], [__class__]) are not
    part of these values. *)
Definition py_getattr (arg : value) (name : value) : result value :=
  match name with
  | VStr name =>
      match arg with
      | VObj attrs =>
          match assoc name attrs with
          | Some v => Ok v
          | None => Raise (AttributeError name)
          end
      | _ => Raise (AttributeError name)
      end
  | _ => Raise TypeError
  end.

(** Position of a Python sequence index, negative indices counting from the
    end. *)
Definition seq_position (len : nat) (i : Z) : option nat :=
  if (0 <=? i) && (i <? Z.of_nat len) then Some (Z.to_nat i)
  else if (- Z.of_nat len <=? i) && (i <? 0) then Some (Z.to_nat (Z.of_nat len + i))
  else None.

Fixpoint string_nth (n : nat) (s : string) : option string :=
  match s, n with
  | EmptyString, _ => None
  | String c _, O => Some (String c EmptyString)
  | String _ s', S n' => string_nth n' s'
  end.

(** An object as a sequence index: an int, or a bool, which is the int 1
    or 0. *)
Definition as_index (item : value) : option Z :=
  match item with
  | VInt i => Some i
  | VBool b => Some (if b then 1 else 0)
  | _ => None
  end.

(** An object as a dict key: a string, or an int ([True] and [False] are
    the keys 1 and 0). *)
Definition as_key (item : value) : option subscript :=
  match item with
  | VStr s => Some (IStr s)
  | _ => option_map IInt (as_index item)
  end.

(** [hash(item)] is defined: lists, dicts and slices are not hashable
    (slices are from Python 3.12 on, where a dict then raises [KeyError]
    for them). *)
Definition hashable (item : value) : bool :=
  match item with
  | VList _ | VDict _ | VSlice _ _ _ => false
  | _ => true
  end.

(** [range(len)[start:stop:step]] for a step other than 0: the positions
    that a slice selects in a sequence of [len] items, in the order of the
    slice. *)
Definition slice_positions (len : nat) (start stop : option Z) (step : Z) : list nat :=
  let n := Z.of_nat len in
  let clamp (lo hi i : Z) :=
    let i := if i <? 0 then i + n else i in
    if i <? lo then lo else if hi <? i then hi else i in
  let first :=
    if 0 <? step then match start with Some i => clamp 0 n i | None => 0 end
    else match start with Some i => clamp (-1) (n - 1) i | None => n - 1 end in
  let last :=
    if 0 <? step then match stop with Some i => clamp 0 n i | None => n end
    else match stop with Some i => clamp (-1) (n - 1) i | None => -1 end in
  let count :=
    if 0 <? step then (if first <? last then (last - first - 1) / step + 1 else 0)
    else (if last <? first then (first - last - 1) / (- step) + 1 else 0) in
  map (fun k => Z.to_nat (first + Z.of_nat k * step)) (seq 0 (Z.to_nat count)).

(** [arg[item]] on a list, a string or a dict (whose keys are strings and
    ints); an object that is no int, bool or slice is no sequence index. *)
Definition py_getitem (arg : value) (item : value) : result value :=
  match arg with
  | VList l =>
      match item with
      | VSlice start stop step =>
          let step := default 1 step in
          if step =? 0 then Raise ValueError
          else Ok (VList (omap (fun n => nth_error l n)
                            (slice_positions (length l) start stop step)))
      | _ =>
          match as_index item with
          | Some i =>
              match seq_position (length l) i with
              | Some n => match nth_error l n with Some v => Ok v | None => Raise IndexError end
              | None => Raise IndexError
              end
          | None => Raise TypeError
          end
      end
  | VStr s =>
      match item with
      | VSlice start stop step =>
          let step := default 1 step in
          if step =? 0 then Raise ValueError
          else Ok (VStr (String.concat ""
                           (omap (fun n => string_nth n s)
                              (slice_positions (String.length s) start stop step))))
      | _ =>
          match as_index item with
          | Some i =>
              match seq_position (String.length s) i with
              | Some n =>
                  match string_nth n s with Some c => Ok (VStr c) | None => Raise IndexError end
              | None => Raise IndexError
              end
          | None => Raise TypeError
          end
      end
  | VDict d =>
      match as_key item with
      | Some k =>
          match assoc_subscript k d with
          | Some v => Ok v
          | None => Raise KeyError
          end
      | None => if hashable item then Raise KeyError else Raise TypeError
      end
  | _ => Raise TypeError
  end.

(** ** Modules, argument descriptors, postproc wrappers *)

Definition oid := nat.
Definition loc := nat.
Definition stream := nat.

(** The forward of a plain module: positional and keyword arguments to a
    result. *)
Definition module_fn : Type := list value -> list (string * value) -> result value.

(** What a plain module object answers to the two things the pipeline asks
    of it: [module(...)], its forward, and [bool(module)].  [nn.Module]
    defines neither [__bool__] nor [__len__], so a module is true, but a
    container class defines [__len__]: an empty [nn.Sequential] or
    [nn.ModuleList] is false.  No function of the pipeline adds or removes a
    child, so the truth value of a module stays what it is. *)
Record module_impl : Type := mkModuleImpl {
  impl_forward : module_fn;
  impl_bool : bool
}.

(** A module of a class that keeps the truth value of [nn.Module] *)
Definition nn_forward (forward : module_fn) : module_impl := mkModuleImpl forward true.

(** The module tree and the argument descriptors.  A sharded module is a
    mutable object, the tree holds its address; a [PipelinedPostproc] is
    immutable but for its [_context], which the store keeps under [self].
    An attribute step and an item step hold whatever object they were made
    with. *)
Inductive Module : Type :=
| NNModule (impl : module_impl) (parameters : list string)
           (children : list (string * Module))
| ShardedModuleRef (o : oid) (parameters : list string)
| PipelinedPostprocModule (p : PipelinedPostproc)
with BaseArgInfoStep : Type :=
| NoopArgInfoStep
| GetAttrArgInfoStep (attr_name : value)
| GetItemArgInfoStep (item_index : value)
| PostprocArgInfoStep (postproc_module : PipelinedPostproc)
| ScalarArgInfoStep (value : value)
| ListArgInfoStep (value : list ListElement)
| DictArgInfoStep (value : list (string * ListElement))
with ListElement : Type :=
| ElemObject (v : value)
| ElemArgInfo (a : ArgInfo)
with ArgInfo : Type :=
| mkArgInfo (steps : list BaseArgInfoStep)
with CallArgs : Type :=
| mkCallArgs (args : list ArgInfo) (kwargs : list (string * ArgInfo))
with PipelinedPostproc : Type :=
| mkPipelinedPostproc (self : oid) (_postproc_module : Module) (_fqn : string)
                      (_args : CallArgs)
                      (_default_stream _dist_stream : option stream).

Definition steps (a : ArgInfo) : list BaseArgInfoStep :=
  match a with mkArgInfo s => s end.

Definition pp_self (p : PipelinedPostproc) : oid :=
  match p with mkPipelinedPostproc o _ _ _ _ _ => o end.
Definition postproc_module (p : PipelinedPostproc) : Module :=
  match p with mkPipelinedPostproc _ m _ _ _ _ => m end.
Definition fqn (p : PipelinedPostproc) : string :=
  match p with mkPipelinedPostproc _ _ f _ _ _ => f end.
Definition pp_args (p : PipelinedPostproc) : CallArgs :=
  match p with mkPipelinedPostproc _ _ _ a _ _ => a end.

(** [ArgInfo.add_step] and [ArgInfo.append_step] *)
Definition add_step (a : ArgInfo) (step : BaseArgInfoStep) : ArgInfo :=
  mkArgInfo (step :: steps a).
Definition append_step (a : ArgInfo) (step : BaseArgInfoStep) : ArgInfo :=
  mkArgInfo (steps a ++ [step]).

(** ** The traced graph

    The tracer is a collaborator: its result, the node sequence, is an
    input.  An argument of a node is another node, a constant, or an
    immutable list or dict of arguments. *)

Inductive opcode : Type :=
| placeholder | call_module | call_function | call_method | get_attr | output.

Inductive fx_target : Type :=
| TargetName (s : string)
| TargetFunction (__module__ __name__ : string).

Inductive Argument : Type :=
| ArgNode (n : Node)
| ArgConst (v : value)
| ArgList (l : list Argument)
| ArgDict (d : list (string * Argument))
with Node : Type :=
| mkNode (op : opcode) (target : fx_target) (args : list Argument)
         (kwargs : list (string * Argument)) (ph_key : option string).

Definition node_op (n : Node) : opcode := match n with mkNode o _ _ _ _ => o end.
Definition node_target (n : Node) : fx_target := match n with mkNode _ t _ _ _ => t end.
Definition node_args (n : Node) : list Argument := match n with mkNode _ _ a _ _ => a end.
Definition node_kwargs (n : Node) : list (string * Argument) :=
  match n with mkNode _ _ _ k _ => k end.
Definition node_ph_key (n : Node) : option string := match n with mkNode _ _ _ _ k => k end.

Definition opcode_eqb (a b : opcode) : bool :=
  match a, b with
  | placeholder, placeholder | call_module, call_module
  | call_function, call_function | call_method, call_method
  | get_attr, get_attr | output, output => true
  | _, _ => false
  end.

(** ** Awaitables and the per-batch training context *)

Definition ModuleCtx := nat.

(** An awaitable is known by what its [wait()] yields. *)
Record Awaitable : Type := mkAwaitable { wait : result value }.

Inductive SplitsMember : Type :=
| KJTSplitsAllToAllMeta (pg : nat)
| OtherSplitsMember.

(** What [module.input_dist] returns: the splits exchange, which resolves to
    the awaitable of the tensors exchange. *)
Inductive SplitsAwaitable : Type :=
| KJTListSplitsAwaitable (awaitables : list SplitsMember) (tensors : result Awaitable)
| OtherSplitsAwaitable (tensors : result Awaitable).

Definition splits_tensors (r : SplitsAwaitable) : result Awaitable :=
  match r with
  | KJTListSplitsAwaitable _ t => t
  | OtherSplitsAwaitable t => t
  end.

Record FusedKJTListSplitsAwaitable : Type := mkFused {
  fused_requests : list SplitsAwaitable;
  fused_contexts : list ModuleCtx;
  fused_pg : option nat
}.

Inductive context_class : Type :=
| TrainPipelineContextClass
| PrefetchTrainPipelineContextClass.

(** Modelled from the spec: the class [TrainPipelineContext] and its subclass
    [PrefetchTrainPipelineContext] are declared in [pipeline_context.py];
    the fields are the maps the data model lists, under the names this file
    reads and writes them by.  [input_dist_splits_requests] keeps insertion
    order because [_fuse_input_dist_splits] iterates over it. *)
Record TrainPipelineContext : Type := mkContext {
  ctx_class : context_class;
  index : option Z;
  version : Z;
  input_dist_splits_requests : list (string * SplitsAwaitable);
  input_dist_tensors_requests : gmap string Awaitable;
  module_contexts : gmap string ModuleCtx;
  module_contexts_next_batch : gmap string ModuleCtx;
  fused_splits_awaitables : list (list string * FusedKJTListSplitsAwaitable);
  postproc_fwd_results : gmap string value;
  module_input_post_prefetch : gmap string value;
  module_contexts_post_prefetch : gmap string ModuleCtx
}.

Definition new_context (cls : context_class) (idx : Z) (ver : Z) : TrainPipelineContext :=
  {| ctx_class := cls; index := Some idx; version := ver;
     input_dist_splits_requests := [];
     input_dist_tensors_requests := ∅;
     module_contexts := ∅;
     module_contexts_next_batch := ∅;
     fused_splits_awaitables := [];
     postproc_fwd_results := ∅;
     module_input_post_prefetch := ∅;
     module_contexts_post_prefetch := ∅ |}.

Definition with_input_dist_splits_requests (c : TrainPipelineContext) x :=
  mkContext (ctx_class c) (index c) (version c) x (input_dist_tensors_requests c)
    (module_contexts c) (module_contexts_next_batch c) (fused_splits_awaitables c)
    (postproc_fwd_results c) (module_input_post_prefetch c)
    (module_contexts_post_prefetch c).
Definition with_input_dist_tensors_requests (c : TrainPipelineContext) x :=
  mkContext (ctx_class c) (index c) (version c) (input_dist_splits_requests c) x
    (module_contexts c) (module_contexts_next_batch c) (fused_splits_awaitables c)
    (postproc_fwd_results c) (module_input_post_prefetch c)
    (module_contexts_post_prefetch c).
Definition with_module_contexts (c : TrainPipelineContext) x :=
  mkContext (ctx_class c) (index c) (version c) (input_dist_splits_requests c)
    (input_dist_tensors_requests c) x (module_contexts_next_batch c)
    (fused_splits_awaitables c) (postproc_fwd_results c) (module_input_post_prefetch c)
    (module_contexts_post_prefetch c).
Definition with_module_contexts_next_batch (c : TrainPipelineContext) x :=
  mkContext (ctx_class c) (index c) (version c) (input_dist_splits_requests c)
    (input_dist_tensors_requests c) (module_contexts c) x
    (fused_splits_awaitables c) (postproc_fwd_results c) (module_input_post_prefetch c)
    (module_contexts_post_prefetch c).
Definition with_fused_splits_awaitables (c : TrainPipelineContext) x :=
  mkContext (ctx_class c) (index c) (version c) (input_dist_splits_requests c)
    (input_dist_tensors_requests c) (module_contexts c) (module_contexts_next_batch c)
    x (postproc_fwd_results c) (module_input_post_prefetch c)
    (module_contexts_post_prefetch c).
Definition with_postproc_fwd_results (c : TrainPipelineContext) x :=
  mkContext (ctx_class c) (index c) (version c) (input_dist_splits_requests c)
    (input_dist_tensors_requests c) (module_contexts c) (module_contexts_next_batch c)
    (fused_splits_awaitables c) x (module_input_post_prefetch c)
    (module_contexts_post_prefetch c).
Definition with_module_input_post_prefetch (c : TrainPipelineContext) x :=
  mkContext (ctx_class c) (index c) (version c) (input_dist_splits_requests c)
    (input_dist_tensors_requests c) (module_contexts c) (module_contexts_next_batch c)
    (fused_splits_awaitables c) (postproc_fwd_results c) x
    (module_contexts_post_prefetch c).
Definition with_module_contexts_post_prefetch (c : TrainPipelineContext) x :=
  mkContext (ctx_class c) (index c) (version c) (input_dist_splits_requests c)
    (input_dist_tensors_requests c) (module_contexts c) (module_contexts_next_batch c)
    (fused_splits_awaitables c) (postproc_fwd_results c) (module_input_post_prefetch c)
    x.

(** ** Intercepting forwards and sharded modules *)

Inductive forward_class : Type :=
| PipelinedForward
| EmbeddingPipelinedForward
| InSyncEmbeddingPipelinedForward
| PrefetchPipelinedForward.

Record BaseForward : Type := mkBaseForward {
  fwd_class : forward_class;
  _name : string;
  _args : CallArgs;
  _module : oid;
  _context : loc;
  _stream : option stream
}.

(** The callable bound to [module.forward]: the module's own forward, or a
    [BaseForward] object. *)
Inductive Forward : Type :=
| OriginalForward (id : nat)
| Intercepting (f : BaseForward).

(** The forward of a [KJTAllToAll]: its own, or the [KJTAllToAllForward]
    installed by [_override_input_dist_forwards]. *)
Inductive KJTDistForward : Type :=
| OriginalKJTForward (id : nat)
| KJTAllToAllForward (_pg : nat) (_splits : list Z) (_stagger : Z).

Record KJTAllToAll : Type := mkKJTAllToAll {
  dist_forward : KJTDistForward;
  dist_pg : nat;
  dist_splits : list Z;
  dist_stagger : Z
}.

(** An element of [child_module._input_dists]; [_dist] may be missing. *)
Record InputDist : Type := mkInputDist { _dist : option KJTAllToAll }.

(** A module yielded by [sharded_module.named_modules()], with the two
    attributes the pipeline looks for. *)
Record SubModule : Type := mkSubModule {
  _has_uninitialized_input_dist : option bool;
  _input_dists : option (list InputDist)
}.

(** A sharded module: its mutable [forward], its sub-modules, and the two
    capabilities of the sharded-module interface used here. *)
Record ShardedModule : Type := mkShardedModule {
  forward : Forward;
  named_modules : list (string * SubModule);
  input_dist : ModuleCtx -> list value -> list (string * value) -> result SplitsAwaitable;
  compute_and_output_dist : ModuleCtx -> value -> result Awaitable
}.

Definition with_forward (m : ShardedModule) (f : Forward) : ShardedModule :=
  mkShardedModule f (named_modules m) (input_dist m) (compute_and_output_dist m).
Definition with_named_modules (m : ShardedModule) x : ShardedModule :=
  mkShardedModule (forward m) x (input_dist m) (compute_and_output_dist m).

(** ** The orchestrator and the store *)

Inductive Model : Type :=
| DistributedModelParallel (module : Module)
| BareModel (m : Module).

Record SparseDataDistUtil : Type := mkSDD {
  model : Model;
  data_dist_stream : stream;
  apply_jit : bool;
  prefetch_stream : option stream;
  _next_index : Z;
  _contexts : list loc;
  initialized : bool;
  _pipelined_modules : list oid;
  _pipelined_postprocs : list PipelinedPostproc;
  fwd_hook : option nat;
  _original_forwards : list Forward;
  _original_kjt_dist_forwards : list KJTDistForward;
  _pipelined_forward : forward_class;
  _default_stream : option stream;
  _exhausting_mode : bool;
  _pipeline_postproc : bool
}.

(** Calls of the three phases and of the context advance, in program
    order, and executions of a wrapped postproc module. *)
Inductive event : Type :=
| PostprocModuleCall (o : oid) (name : string) (pos : list value) (kw : list (string * value))
| StartSparseDataDist (ctx : loc)
| WaitSparseDataDist (ctx : loc)
| AdvanceContext.

Record World : Type := mkWorld {
  contexts : gmap loc TrainPipelineContext;
  next_loc : loc;
  postproc_context : gmap oid loc;
  sharded : gmap oid ShardedModule;
  next_oid : oid;
  next_module_ctx : ModuleCtx;
  forward_hooks : gset nat;
  next_handle : nat;
  tracer : Module -> value -> result (list Node);
  graph_module_jit : Module -> list Node -> Module;
  sdd : SparseDataDistUtil;
  trace : list event
}.

Definition with_contexts (w : World) x :=
  mkWorld x (next_loc w) (postproc_context w) (sharded w) (next_oid w)
    (next_module_ctx w) (forward_hooks w) (next_handle w) (tracer w) (graph_module_jit w) (sdd w) (trace w).
Definition with_next_loc (w : World) x :=
  mkWorld (contexts w) x (postproc_context w) (sharded w) (next_oid w)
    (next_module_ctx w) (forward_hooks w) (next_handle w) (tracer w) (graph_module_jit w) (sdd w) (trace w).
Definition with_postproc_context (w : World) x :=
  mkWorld (contexts w) (next_loc w) x (sharded w) (next_oid w)
    (next_module_ctx w) (forward_hooks w) (next_handle w) (tracer w) (graph_module_jit w) (sdd w) (trace w).
Definition with_sharded (w : World) x :=
  mkWorld (contexts w) (next_loc w) (postproc_context w) x (next_oid w)
    (next_module_ctx w) (forward_hooks w) (next_handle w) (tracer w) (graph_module_jit w) (sdd w) (trace w).
Definition with_next_oid (w : World) x :=
  mkWorld (contexts w) (next_loc w) (postproc_context w) (sharded w) x
    (next_module_ctx w) (forward_hooks w) (next_handle w) (tracer w) (graph_module_jit w) (sdd w) (trace w).
Definition with_next_module_ctx (w : World) x :=
  mkWorld (contexts w) (next_loc w) (postproc_context w) (sharded w) (next_oid w)
    x (forward_hooks w) (next_handle w) (tracer w) (graph_module_jit w) (sdd w) (trace w).
Definition with_forward_hooks (w : World) x :=
  mkWorld (contexts w) (next_loc w) (postproc_context w) (sharded w) (next_oid w)
    (next_module_ctx w) x (next_handle w) (tracer w) (graph_module_jit w) (sdd w) (trace w).
Definition with_next_handle (w : World) x :=
  mkWorld (contexts w) (next_loc w) (postproc_context w) (sharded w) (next_oid w)
    (next_module_ctx w) (forward_hooks w) x (tracer w) (graph_module_jit w) (sdd w) (trace w).
Definition with_sdd (w : World) x :=
  mkWorld (contexts w) (next_loc w) (postproc_context w) (sharded w) (next_oid w)
    (next_module_ctx w) (forward_hooks w) (next_handle w) (tracer w) (graph_module_jit w) x (trace w).
Definition with_trace (w : World) x :=
  mkWorld (contexts w) (next_loc w) (postproc_context w) (sharded w) (next_oid w)
    (next_module_ctx w) (forward_hooks w) (next_handle w) (tracer w) (graph_module_jit w) (sdd w) x.

(** ** Python computations: a result or an exception, and the store *)

Definition Py (A : Type) : Type := World -> result A * World.

Definition ret {A} (a : A) : Py A := fun w => (Ok a, w).
Definition raise {A} (e : exn) : Py A := fun w => (Raise e, w).
Definition bind {A B} (m : Py A) (k : A -> Py B) : Py B :=
  fun w => match m w with
           | (Ok a, w') => k a w'
           | (Raise e, w') => (Raise e, w')
           end.
Definition lift {A} (r : result A) : Py A := fun w => (r, w).
Definition get : Py World := fun w => (Ok w, w).
Definition modify (f : World -> World) : Py unit := fun w => (Ok tt, f w).

Declare Scope py_scope.
Delimit Scope py_scope with py.
Notation "'let*' x ':=' c1 'in' c2" := (bind c1 (fun x => c2))
  (at level 10, x name, c1 at level 200, c2 at level 200) : py_scope.
Notation "'let*' ' pat ':=' c1 'in' c2" := (bind c1 (fun x => match x with pat => c2 end))
  (at level 10, pat pattern, c1 at level 200, c2 at level 200) : py_scope.
Local Open Scope py_scope.

Definition py_assert (b : bool) (msg : string) : Py unit :=
  if b then ret tt else raise (AssertionError msg).

Fixpoint mapM {A B} (f : A -> Py B) (l : list A) : Py (list B) :=
  match l with
  | [] => ret []
  | a :: l' => let* b := f a in let* bs := mapM f l' in ret (b :: bs)
  end.

Fixpoint foldM {A B} (f : A -> B -> Py B) (l : list A) (b : B) : Py B :=
  match l with
  | [] => ret b
  | a :: l' => let* b' := f a b in foldM f l' b'
  end.

Fixpoint forM_ {A} (f : A -> Py unit) (l : list A) : Py unit :=
  match l with
  | [] => ret tt
  | a :: l' => let* _ := f a in forM_ f l'
  end.

Definition emit (e : event) : Py unit :=
  modify (fun w => with_trace w (trace w ++ [e])).

Definition read_context (l : loc) : Py TrainPipelineContext :=
  fun w => match contexts w !! l with
           | Some c => (Ok c, w)
           | None => (Raise DanglingReference, w)
           end.

Definition write_context (l : loc) (c : TrainPipelineContext) : Py unit :=
  modify (fun w => with_contexts w (<[l := c]> (contexts w))).

Definition read_sharded (o : oid) : Py ShardedModule :=
  fun w => match sharded w !! o with
           | Some m => (Ok m, w)
           | None => (Raise DanglingReference, w)
           end.

Definition write_sharded (o : oid) (m : ShardedModule) : Py unit :=
  modify (fun w => with_sharded w (<[o := m]> (sharded w))).

(** [postproc._context] *)
Definition PipelinedPostproc_get_context (p : PipelinedPostproc) : Py loc :=
  fun w => match postproc_context w !! pp_self p with
           | Some l => (Ok l, w)
           | None => (Raise DanglingReference, w)
           end.

(** [postproc.set_context(context)] *)
Definition PipelinedPostproc_set_context (p : PipelinedPostproc) (context : loc) : Py unit :=
  modify (fun w => with_postproc_context w (<[pp_self p := context]> (postproc_context w))).

(** Calling a module object.  [NodeArgsHelper._handle_module] wraps only
    modules that are not already a [PipelinedPostproc], and a sharded
    module is called through its [forward]: the call of these two kinds of
    node as a wrapped postproc is not part of the embedding. *)
Definition Module_call (m : Module) (pos : list value) (kw : list (string * value))
  : result value :=
  match m with
  | NNModule f _ _ => impl_forward f pos kw
  | ShardedModuleRef _ _ => Raise TypeError
  | PipelinedPostprocModule _ => Raise TypeError
  end.

(** ** Argument descriptors: [process], [process_steps], [build_args_kwargs]
    and [PipelinedPostproc.forward] *)

Fixpoint process (step : BaseArgInfoStep) (arg : value) {struct step} : Py value :=
  match step with
  | NoopArgInfoStep => ret arg
  | GetAttrArgInfoStep attr_name => lift (py_getattr arg attr_name)
  | GetItemArgInfoStep item_index => lift (py_getitem arg item_index)
  | PostprocArgInfoStep postproc_module => PipelinedPostproc_forward postproc_module [arg] []
  | ScalarArgInfoStep value => ret value
  | ListArgInfoStep value =>
      let* vs := mapM (fun v => process_element v arg) value in
      ret (VList vs)
  | DictArgInfoStep value =>
      let* kvs := mapM (fun kv => let* v := process_element (snd kv) arg in
                                 ret (IStr (fst kv), v)) value in
      ret (VDict kvs)
  end
with process_element (v : ListElement) (arg : value) {struct v} : Py value :=
  match v with
  | ElemObject o => ret o
  | ElemArgInfo a => process_steps a arg
  end
with process_steps (self : ArgInfo) (arg : value) {struct self} : Py value :=
  match self with
  | mkArgInfo steps =>
      match steps with
      | [] => ret VNone
      | _ :: _ => foldM (fun step arg => process step arg) steps arg
      end
  end
with build_args_kwargs (self : CallArgs) (initial_input : value) {struct self}
  : Py (list value * list (string * value)) :=
  match self with
  | mkCallArgs args kwargs =>
      let* args' := mapM (fun arg => process_steps arg initial_input) args in
      let* kwargs' := mapM (fun kv => let* v := process_steps (snd kv) initial_input in
                                  ret (fst kv, v)) kwargs in
      ret (args', kwargs')
  end
with PipelinedPostproc_forward (self : PipelinedPostproc) (input : list value)
       (kwargs : list (string * value)) {struct self} : Py value :=
  match self with
  | mkPipelinedPostproc o _postproc_module _fqn _args _default_stream _dist_stream =>
      let* l := PipelinedPostproc_get_context self in
      let* c := read_context l in
      match postproc_fwd_results c !! _fqn with
      | Some res => ret res
      | None =>
          let* input0 := lift (match input with x :: _ => Ok x | [] => Raise IndexError end) in
          let* ' (args, kwargs') := build_args_kwargs _args input0 in
          let* _ := emit (PostprocModuleCall o _fqn args kwargs') in
          let* res := lift (Module_call _postproc_module args kwargs') in
          let* l' := PipelinedPostproc_get_context self in
          let* c' := read_context l' in
          let* _ := write_context l'
                      (with_postproc_fwd_results c' (<[_fqn := res]> (postproc_fwd_results c'))) in
          ret res
      end
  end.

(** ** Intercepting forwards: [__call__] *)

(** [isinstance(data, (torch.Tensor, Multistreamable))] *)
Definition is_multistreamable (data : value) : bool :=
  match data with
  | VTensor _ | VMultistreamable _ => true
  | _ => false
  end.

Definition is_Some_b {A} (o : option A) : bool :=
  match o with Some _ => true | None => false end.

(** [d.pop(key)] on a dict held in a context field *)
Definition dict_pop {A} (key : string) (d : gmap string A) : result (A * gmap string A) :=
  match d !! key with
  | Some a => Ok (a, delete key d)
  | None => Raise KeyError
  end.

Definition PipelinedForward_usage : string :=
  "Invalid PipelinedForward usage, please do not directly call model.forward()".
Definition PrefetchPipelinedForward_usage : string :=
  "Invalid PrefetchPipelinedForward usage, please do not directly call model.forward()".
Definition Multistreamable_required : string :=
  "must implement Multistreamable interface".

(** [PipelinedForward.__call__].  The values of
    [input_dist_tensors_requests] are awaitables by their type, which is what
    the second assertion of the source checks. *)
Definition PipelinedForward_call (self : BaseForward) (input : list value)
  (kwargs : list (string * value)) : Py Awaitable :=
  let* c := read_context (_context self) in
  let* _ := py_assert (is_Some_b (input_dist_tensors_requests c !! _name self))
              PipelinedForward_usage in
  let* ' (request, rest) := lift (dict_pop (_name self) (input_dist_tensors_requests c)) in
  let* _ := write_context (_context self) (with_input_dist_tensors_requests c rest) in
  let* data := lift (wait request) in
  let* c1 := read_context (_context self) in
  let* ' (ctx, rest1) := lift (dict_pop (_name self) (module_contexts c1)) in
  let* _ := write_context (_context self) (with_module_contexts c1 rest1) in
  let* _ := match _stream self with
            | Some _ => py_assert (is_multistreamable data) Multistreamable_required
            | None => ret tt
            end in
  let* m := read_sharded (_module self) in
  lift (compute_and_output_dist m ctx data).

(** [PrefetchPipelinedForward.__call__] *)
Definition PrefetchPipelinedForward_call (self : BaseForward) (input : list value)
  (kwargs : list (string * value)) : Py Awaitable :=
  let* c := read_context (_context self) in
  let* _ := py_assert (is_Some_b (module_input_post_prefetch c !! _name self))
              PrefetchPipelinedForward_usage in
  let* ' (data, rest) := lift (dict_pop (_name self) (module_input_post_prefetch c)) in
  let* _ := write_context (_context self) (with_module_input_post_prefetch c rest) in
  let* c1 := read_context (_context self) in
  let* ' (ctx, rest1) := lift (dict_pop (_name self) (module_contexts_post_prefetch c1)) in
  let* _ := write_context (_context self) (with_module_contexts_post_prefetch c1 rest1) in
  let* _ := match _stream self with
            | Some _ => py_assert (is_multistreamable data) Multistreamable_required
            | None => ret tt
            end in
  let* m := read_sharded (_module self) in
  lift (compute_and_output_dist m ctx data).

(** [forward.set_context(context)] on the forward bound to a sharded module;
    the module's own forward has no such method. *)
Definition forward_set_context (module : oid) (context : loc) : Py unit :=
  let* m := read_sharded module in
  match forward m with
  | Intercepting f =>
      write_sharded module
        (with_forward m (Intercepting (mkBaseForward (fwd_class f) (_name f) (_args f)
                                         (_module f) context (_stream f))))
  | OriginalForward _ => raise (AttributeError "set_context")
  end.

(** ** The module tree: traversal, lookup, swap *)

Definition join_path (path name : string) : string :=
  if String.eqb path "" then name else (path ++ "." ++ name)%string.

(** [module.named_modules(prefix=prefix)].  A [PipelinedPostproc] yields
    itself and then the modules of the wrapped module under the same
    prefix.  Modules are trees here, so the [memo] set of the source, which
    skips an object met twice, has nothing to skip. *)
Fixpoint Module_named_modules (m : Module) (prefix : string) {struct m}
  : list (string * Module) :=
  match m with
  | NNModule _ _ children =>
      (prefix, m) ::
      (fix go (cs : list (string * Module)) : list (string * Module) :=
         match cs with
         | [] => []
         | (name, child) :: cs' =>
             (Module_named_modules child (join_path prefix name) ++ go cs')%list
         end) children
  | ShardedModuleRef _ _ => [(prefix, m)]
  | PipelinedPostprocModule p =>
      match p with
      | mkPipelinedPostproc _ wrapped _ _ _ _ =>
          (prefix, m) :: Module_named_modules wrapped prefix
      end
  end.

(** The parameters registered on the module object itself, by name; a
    [PipelinedPostproc] registers none, the module it wraps is its child. *)
Definition Module_parameters (m : Module) : list string :=
  match m with
  | NNModule _ parameters _ => parameters
  | ShardedModuleRef _ parameters => parameters
  | PipelinedPostprocModule _ => []
  end.

(** [nn.Module.named_parameters(prefix=prefix, recurse=True)], by name: the
    own parameters of every module of [named_modules(prefix=prefix)], each
    under the name of its module.  Parameters are told apart by name here,
    so the [memo] set of the source has nothing to skip. *)
Definition own_parameters (modules : list (string * Module)) : list string :=
  flat_map (fun nm => map (join_path (fst nm)) (Module_parameters (snd nm))) modules.

Definition nn_Module_named_parameters (m : Module) (prefix : string) : list string :=
  own_parameters (Module_named_modules m prefix).

(** [module.named_parameters(prefix=prefix)];
    [PipelinedPostproc.named_parameters] hands the call on to the wrapped
    module, with the prefix it was given. *)
Fixpoint Module_named_parameters (m : Module) (prefix : string) {struct m} : list string :=
  match m with
  | PipelinedPostprocModule p =>
      match p with
      | mkPipelinedPostproc _ wrapped _ _ _ _ => Module_named_parameters wrapped prefix
      end
  | _ => nn_Module_named_parameters m prefix
  end.

Definition _check_postproc_pipelineable (module : Module) : bool :=
  match Module_named_parameters module "" with
  | [] => true
  | _ :: _ => false
  end.

(** [bool(module)] *)
Definition Module_bool (m : Module) : bool :=
  match m with
  | NNModule impl _ _ => impl_bool impl
  | ShardedModuleRef _ _ => true
  | PipelinedPostprocModule _ => true
  end.

Fixpoint first_named {A} (name : string) (l : list (string * A)) : option A :=
  match l with
  | [] => None
  | (n, a) :: l' => if String.eqb n name then Some a else first_named name l'
  end.

Definition _find_postproc_module_recursive (module : Module) (postproc_module_fqn : string)
  : option Module :=
  first_named postproc_module_fqn (Module_named_modules module "").

(** [NodeArgsHelper._swap_postproc_module_recursive] *)
Fixpoint _swap_postproc_module_recursive (module to_swap_module : Module)
  (postproc_module_fqn path : string) {struct module} : Module :=
  match module with
  | PipelinedPostprocModule _ => module
  | ShardedModuleRef _ _ =>
      if String.eqb path postproc_module_fqn then to_swap_module else module
  | NNModule f parameters children =>
      if String.eqb path postproc_module_fqn then to_swap_module
      else
        NNModule f parameters
          ((fix go (cs : list (string * Module)) : list (string * Module) :=
              match cs with
              | [] => []
              | (name, child) :: cs' =>
                  (name, _swap_postproc_module_recursive child to_swap_module
                           postproc_module_fqn (join_path path name)) :: go cs'
              end) children)
  end.

(** [setattr(module, name, child)] for a module-valued attribute: the entry
    of that name is replaced where it stands, a new name is added last.  The
    name is taken as it is, dots included. *)
Fixpoint dict_set {A} (key : string) (a : A) (d : list (string * A)) : list (string * A) :=
  match d with
  | [] => [(key, a)]
  | (k, x) :: d' => if String.eqb k key then (k, a) :: d' else (k, x) :: dict_set key a d'
  end.

Definition Module_setattr (module : Module) (name : string) (child : Module) : Module :=
  match module with
  | NNModule f parameters children => NNModule f parameters (dict_set name child children)
  | ShardedModuleRef _ _ => module
  | PipelinedPostprocModule _ => module
  end.

(** ** Argument resolution: [NodeArgsHelper] *)

Record NodeArgsHelper : Type := mkNodeArgsHelper {
  helper_model : Module;
  helper_context : loc;
  helper_pipeline_postproc : bool;
  helper_default_stream : option stream;
  helper_dist_stream : option stream;
  helper_pipelined_postprocs : list PipelinedPostproc;
  (** the object [model] the caller holds, as the swaps leave it *)
  helper_input_object : Module
}.

(** [self._pipelined_postprocs.add(p)]: a set of objects *)
Definition postprocs_add (p : PipelinedPostproc) (l : list PipelinedPostproc)
  : list PipelinedPostproc :=
  if existsb (fun q => Nat.eqb (pp_self q) (pp_self p)) l then l else (l ++ [p])%list.

Definition is_PipelinedPostproc (m : Module) : bool :=
  match m with PipelinedPostprocModule _ => true | _ => false end.

(** [self._model = self._swap_postproc_module_recursive(self._model, p, fqn)].
    The swap rebinds attributes of the module objects in place, so the
    caller's model sees it, unless the root itself is handed back as another
    object. *)
Definition helper_swap (h : NodeArgsHelper) (p : PipelinedPostproc) (name : string)
  : NodeArgsHelper :=
  let swapped :=
    _swap_postproc_module_recursive (helper_model h) (PipelinedPostprocModule p) name "" in
  mkNodeArgsHelper swapped (helper_context h) (helper_pipeline_postproc h)
    (helper_default_stream h) (helper_dist_stream h)
    (postprocs_add p (helper_pipelined_postprocs h))
    (if is_PipelinedPostproc (helper_model h) then helper_input_object h
     else if String.eqb "" name then helper_input_object h
     else swapped).

Definition helper_add (h : NodeArgsHelper) (p : PipelinedPostproc) : NodeArgsHelper :=
  mkNodeArgsHelper (helper_model h) (helper_context h) (helper_pipeline_postproc h)
    (helper_default_stream h) (helper_dist_stream h)
    (postprocs_add p (helper_pipelined_postprocs h)) (helper_input_object h).

(** [PipelinedPostproc(postproc_module, fqn, args, context, ...)]: a new
    object whose [_context] is [context] *)
Definition PipelinedPostproc_new (postproc_module : Module) (name : string)
  (args : CallArgs) (context : loc) (default_stream dist_stream : option stream)
  : Py PipelinedPostproc :=
  fun w =>
    let o := next_oid w in
    (Ok (mkPipelinedPostproc o postproc_module name args default_stream dist_stream),
     with_next_oid (with_postproc_context w (<[o := context]> (postproc_context w))) (S o)).

(** *** Strings of a placeholder key *)

Definition lbracket : ascii := "["%char.
Definition rbracket : ascii := "]"%char.
Definition dot : ascii := "."%char.

(** [s.replace("[", ".")] *)
Fixpoint replace_lbracket (s : string) : string :=
  match s with
  | EmptyString => EmptyString
  | String c s' => String (if Ascii.eqb c lbracket then dot else c) (replace_lbracket s')
  end.

(** [s.split(".")] *)
Fixpoint split_dot (s : string) : list string :=
  match s with
  | EmptyString => [EmptyString]
  | String c s' =>
      if Ascii.eqb c dot then EmptyString :: split_dot s'
      else match split_dot s' with
           | [] => [String c EmptyString]
           | x :: xs => String c x :: xs
           end
  end.

(** ["]" in key] *)
Fixpoint has_rbracket (s : string) : bool :=
  match s with
  | EmptyString => false
  | String c s' => Ascii.eqb c rbracket || has_rbracket s'
  end.

(** [key[:-1]] *)
Fixpoint drop_last (s : string) : string :=
  match s with
  | EmptyString => EmptyString
  | String c EmptyString => EmptyString
  | String c s' => String c (drop_last s')
  end.

Definition digit_of (c : ascii) : option Z :=
  let n := Z.of_nat (nat_of_ascii c) in
  if (48 <=? n) && (n <=? 57) then Some (n - 48) else None.

(** The whitespace that [int] skips in a string of ASCII characters: tab to
    carriage return, and the space *)
Definition is_space (c : ascii) : bool :=
  let n := Z.of_nat (nat_of_ascii c) in
  ((9 <=? n) && (n <=? 13)) || (n =? 32).

Fixpoint lstrip (s : string) : string :=
  match s with
  | EmptyString => EmptyString
  | String c s' => if is_space c then lstrip s' else s
  end.

Fixpoint spaces_only (s : string) : bool :=
  match s with
  | EmptyString => true
  | String c s' => is_space c && spaces_only s'
  end.

(** The digits of a numeral, with single underscores between digits, up to
    the end of the string or to the whitespace that ends it; [after_digit]
    tells whether the character before was a digit, which an underscore and
    the end of the numeral both need. *)
Fixpoint digits_value (s : string) (acc : Z) (after_digit : bool) : option Z :=
  match s with
  | EmptyString => if after_digit then Some acc else None
  | String c s' =>
      match digit_of c with
      | Some d => digits_value s' (10 * acc + d) true
      | None =>
          if Ascii.eqb c "_"%char then
            if after_digit then digits_value s' acc false else None
          else if after_digit && spaces_only s then Some acc
          else None
      end
  end.

(** [int(k_)] on a string of ASCII characters that is shorter than the
    limit Python sets on the digits of a numeral (4300): whitespace, an
    optional sign, decimal digits with single underscores between them,
    whitespace.  Any other string is a [ValueError], here [None].  Python
    takes the decimal digits and the whitespace of other scripts as well,
    which [ascii_key] below leaves out. *)
Definition py_int (s : string) : option Z :=
  match lstrip s with
  | EmptyString => None
  | String c s' =>
      if Ascii.eqb c "-"%char then option_map Z.opp (digits_value s' 0 false)
      else if Ascii.eqb c "+"%char then digits_value s' 0 false
      else digits_value (String c s') 0 false
  end.

(** Only ASCII characters, and fewer than the digit limit of [int] *)
Definition ascii_key (s : string) : bool :=
  forallb (fun c => (nat_of_ascii c <? 128)%nat) (list_ascii_of_string s)
  && (String.length s <=? 4300)%nat.

(** [NodeArgsHelper._handle_placeholder] *)
Definition _handle_placeholder (child_node : Node) (arg_info : ArgInfo) : ArgInfo :=
  match node_ph_key child_node with
  | Some ph_key =>
      fold_left
        (fun arg_info key =>
           if has_rbracket key then
             let k_ := drop_last key in
             append_step arg_info
               (GetItemArgInfoStep (match py_int k_ with
                                    | Some i => IInt i
                                    | None => IStr k_
                                    end))
           else append_step arg_info (GetAttrArgInfoStep key))
        (split_dot (replace_lbracket ph_key)) arg_info
  | None => add_step arg_info NoopArgInfoStep
  end.

(** [_check_args_for_call_module] *)
Fixpoint _check_args_for_call_module (node : Node) {struct node} : bool :=
  match node with
  | mkNode op _ args _ _ =>
      if opcode_eqb op call_module then true
      else
        (fix go (l : list Argument) : bool :=
           match l with
           | [] => false
           | ArgNode n :: l' => if _check_args_for_call_module n then true else go l'
           | _ :: l' => go l'
           end) args
  end.

(** *** The walk from an argument back to a ground truth *)

(** An argument as the object a step stores; a node stays an opaque
    object.  The walk stores the second argument of a traced [getattr],
    [getitem] or [get] as it finds it: nothing checks that an attribute
    name is a string or a key a string or an int. *)
Fixpoint Argument_to_value (a : Argument) {struct a} : value :=
  match a with
  | ArgNode _ => VOpaque
  | ArgConst v => v
  | ArgList l =>
      VList ((fix go (l : list Argument) : list value :=
                match l with
                | [] => []
                | x :: l' => Argument_to_value x :: go l'
                end) l)
  | ArgDict d =>
      VDict ((fix go (d : list (string * Argument)) : list (subscript * value) :=
                match d with
                | [] => []
                | (k, x) :: d' => (IStr k, Argument_to_value x) :: go d'
                end) d)
  end.

Definition target_str (t : fx_target) : string :=
  match t with
  | TargetName s => s
  | TargetFunction m n => (m ++ "." ++ n)%string
  end.

(** [target.__module__ == m and target.__name__ == n] *)
Definition target_is (t : fx_target) (m n : string) : result bool :=
  match t with
  | TargetFunction m' n' => Ok (String.eqb m' m && String.eqb n' n)
  | TargetName _ => Raise (AttributeError "__module__")
  end.

Definition Resolver : Type :=
  Argument -> bool -> NodeArgsHelper -> Py (option ArgInfo * NodeArgsHelper).

Fixpoint mapS {A B S} (f : A -> S -> Py (B * S)) (l : list A) (s : S) : Py (list B * S) :=
  match l with
  | [] => ret ([], s)
  | a :: l' =>
      let* ' (b, s1) := f a s in
      let* ' (bs, s2) := mapS f l' s1 in
      ret (b :: bs, s2)
  end.

(** [NodeArgsHelper._handle_collection_element] *)
Definition _handle_collection_element (inner : Resolver) (arg : Argument)
  (for_postproc_module : bool) (h : NodeArgsHelper) : Py (ListElement * NodeArgsHelper) :=
  match arg with
  | ArgNode _ =>
      let* ' (arg_info_nested, h') := inner arg for_postproc_module h in
      ret (match arg_info_nested with
           | Some a => ElemArgInfo a
           | None => ElemObject VNone
           end, h')
  | _ => ret (ElemObject (Argument_to_value arg), h)
  end.

(** [NodeArgsHelper._handle_constant] *)
Definition _handle_constant (inner : Resolver) (arg : Argument) (arg_info : ArgInfo)
  (for_postproc_module : bool) (h : NodeArgsHelper) : Py (option ArgInfo * NodeArgsHelper) :=
  if negb (helper_pipeline_postproc h) then ret (None, h)
  else
    match arg with
    | ArgDict d =>
        let* ' (kvs, h') :=
          mapS (fun kv h0 =>
                  let* ' (e, h1) :=
                    _handle_collection_element inner (snd kv) for_postproc_module h0 in
                  ret ((fst kv, e), h1)) d h in
        ret (Some (add_step arg_info (DictArgInfoStep kvs)), h')
    | ArgList l =>
        let* ' (vs, h') :=
          mapS (fun v h0 => _handle_collection_element inner v for_postproc_module h0) l h in
        ret (Some (add_step arg_info (ListArgInfoStep vs)), h')
    | _ => ret (Some (add_step arg_info (ScalarArgInfoStep (Argument_to_value arg))), h)
    end.

Definition is_None_arg (a : Argument) : bool :=
  match a with ArgConst VNone => true | _ => false end.

(** [NodeArgsHelper._get_node_args_helper], over the positional arguments
    ([proj] the identity) or over the keyword arguments ([proj] the value of
    an item) *)
Fixpoint _get_node_args_helper {X} (proj : X -> Argument) (inner : Resolver)
  (arguments : list X) (for_postproc_module : bool) (h : NodeArgsHelper)
  : Py ((list ArgInfo * nat) * NodeArgsHelper) :=
  match arguments with
  | [] => ret (([], O), h)
  | x :: rest =>
      if negb for_postproc_module && is_None_arg (proj x) then
        let* ' ((arg_info_list, num_found), h') :=
          _get_node_args_helper proj inner rest for_postproc_module h in
        ret ((mkArgInfo [ScalarArgInfoStep VNone] :: arg_info_list, S num_found), h')
      else
        let* ' (arg_info, h1) := inner (proj x) for_postproc_module h in
        let* ' ((arg_info_list, num_found), h2) :=
          _get_node_args_helper proj inner rest for_postproc_module h1 in
        ret (match arg_info with
             | Some a => (a :: arg_info_list, S num_found)
             | None => (arg_info_list, num_found)
             end, h2)
  end.

(** [NodeArgsHelper.get_node_args]; the keyword descriptors are zipped with
    the keyword names in order. *)
Definition get_node_args_with (inner : Resolver) (node : Node) (for_postproc_module : bool)
  (h : NodeArgsHelper) : Py ((CallArgs * nat) * NodeArgsHelper) :=
  let* ' ((pos_arg_info_list, args_found), h1) :=
    _get_node_args_helper (fun a => a) inner (node_args node) for_postproc_module h in
  let* ' ((kwargs_arg_info_list, kwargs_found), h2) :=
    _get_node_args_helper snd inner (node_kwargs node) for_postproc_module h1 in
  ret ((mkCallArgs pos_arg_info_list
          (zip (map fst (node_kwargs node)) kwargs_arg_info_list),
        (args_found + kwargs_found)%nat), h2).

(** [NodeArgsHelper._handle_module] *)
Definition _handle_module (inner : Resolver) (child_node : Node) (arg_info : ArgInfo)
  (h : NodeArgsHelper) : Py (option ArgInfo * NodeArgsHelper) :=
  let postproc_module_fqn := target_str (node_target child_node) in
  let postproc_module := _find_postproc_module_recursive (helper_model h) postproc_module_fqn in
  if negb (helper_pipeline_postproc h) then ret (None, h)
  else
    match postproc_module with
    | None => ret (None, h)
    | Some found =>
        (* [if not postproc_module]: a module that is false counts as not
           found *)
        if negb (Module_bool found) then ret (None, h)
        else
          match found with
          | PipelinedPostprocModule p =>
              ret (Some (add_step arg_info (PostprocArgInfoStep p)), helper_add h p)
          | _ =>
              if negb (_check_postproc_pipelineable found) then ret (None, h)
              else
                let total_num_args :=
                  (length (node_args child_node) + length (node_kwargs child_node))%nat in
                if Nat.eqb total_num_args 0 then ret (None, h)
                else
                  let* ' ((postproc_args, num_found_safe_postproc_args), h1) :=
                    get_node_args_with inner child_node true h in
                  if Nat.eqb num_found_safe_postproc_args total_num_args then
                    let* p := PipelinedPostproc_new found postproc_module_fqn postproc_args
                                (helper_context h1) (helper_default_stream h1)
                                (helper_dist_stream h1) in
                    ret (Some (add_step arg_info (PostprocArgInfoStep p)),
                         helper_swap h1 p postproc_module_fqn)
                  else ret (None, h1)
          end
    end.

(** [NodeArgsHelper._get_node_args_helper_inner]: the body of the
    [while True] loop, one turn per call, [arg_info] being the descriptor
    built so far.  Every turn moves to an argument of the node at hand. *)
Fixpoint _get_node_args_helper_inner_loop (arg : Argument) (arg_info : ArgInfo)
  (for_postproc_module : bool) (h : NodeArgsHelper) {struct arg}
  : Py (option ArgInfo * NodeArgsHelper) :=
  let inner : Resolver :=
    fun a f h' => _get_node_args_helper_inner_loop a (mkArgInfo []) f h' in
  match arg with
  | ArgNode child_node =>
      match child_node with
      | mkNode op target args kwargs _ =>
          if opcode_eqb op placeholder then
            ret (Some (_handle_placeholder child_node arg_info), h)
          else if opcode_eqb op call_module then
            _handle_module inner child_node arg_info h
          else if opcode_eqb op call_function then
            let* is_getattr := lift (target_is target "builtins" "getattr") in
            if is_getattr then
              match args with
              | a0 :: a1 :: _ =>
                  _get_node_args_helper_inner_loop a0
                    (add_step arg_info (GetAttrArgInfoStep (Argument_to_value a1)))
                    for_postproc_module h
              | _ => raise IndexError
              end
            else
            let* is_getitem := lift (target_is target "_operator" "getitem") in
            if is_getitem then
              match args with
              | a0 :: a1 :: _ =>
                  _get_node_args_helper_inner_loop a0
                    (add_step arg_info (GetItemArgInfoStep (Argument_to_value a1)))
                    for_postproc_module h
              | _ => raise IndexError
              end
            else
            let* is_unflatten := lift (target_is target "torch.utils._pytree" "tree_unflatten") in
            if is_unflatten then
              match steps arg_info with
              | [] => raise IndexError
              | GetItemArgInfoStep item_index :: _ =>
                  match args with
                  | [] => raise IndexError
                  | ArgList l :: _ =>
                      match item_index with
                      | VSlice _ _ _ =>
                          (* a slice of an immutable list is a plain list *)
                          let* v' := lift (py_getitem (Argument_to_value (ArgList l))
                                             item_index) in
                          _handle_constant inner (ArgConst v') arg_info for_postproc_module h
                      | _ =>
                          match as_index item_index with
                          | Some i =>
                              match seq_position (length l) i with
                              | Some n =>
                                  (fix at_position (l : list Argument) (n : nat) :=
                                     match l, n with
                                     | [], _ => raise IndexError
                                     | x :: _, O =>
                                         _get_node_args_helper_inner_loop x arg_info
                                           for_postproc_module h
                                     | _ :: l', S n' => at_position l' n'
                                     end) l n
                              | None => raise IndexError
                              end
                          | None => raise TypeError
                          end
                      end
                  | ArgDict d :: _ =>
                      match item_index with
                      | VStr k =>
                          (fix at_key (d : list (string * Argument)) :=
                             match d with
                             | [] => raise KeyError
                             | (k', x) :: d' =>
                                 if String.eqb k' k then
                                   _get_node_args_helper_inner_loop x arg_info
                                     for_postproc_module h
                                 else at_key d'
                             end) d
                      | _ => if hashable item_index then raise KeyError else raise TypeError
                      end
                  | ArgConst v :: _ =>
                      let* v' := lift (py_getitem v item_index) in
                      _handle_constant inner (ArgConst v') arg_info for_postproc_module h
                  | ArgNode _ :: _ => raise TypeError
                  end
              | _ :: _ => raise (AssertionError "")
              end
            else
            let* is_kjt :=
              lift (target_is target "torchrec.sparse.jagged_tensor" "KeyedJaggedTensor") in
            if is_kjt then
              let call_module_found :=
                existsb (fun arg_node =>
                           match arg_node with
                           | ArgNode n => _check_args_for_call_module n
                           | _ => false
                           end) (args ++ map snd kwargs)%list in
              if call_module_found then ret (None, h)
              else
                (fix values_of (kw : list (string * Argument)) :=
                   match kw with
                   | [] =>
                       match args with
                       | _ :: a1 :: _ =>
                           _get_node_args_helper_inner_loop a1 arg_info for_postproc_module h
                       | _ => raise IndexError
                       end
                   | (k, x) :: kw' =>
                       if String.eqb k "values" then
                         _get_node_args_helper_inner_loop x arg_info for_postproc_module h
                       else values_of kw'
                   end) kwargs
            else ret (None, h)
          else if opcode_eqb op call_method then
            match target with
            | TargetName s =>
                if String.eqb s "get" then
                  match args with
                  | a0 :: a1 :: _ =>
                      _get_node_args_helper_inner_loop a0
                        (add_step arg_info (GetItemArgInfoStep (Argument_to_value a1)))
                        for_postproc_module h
                  | _ => raise IndexError
                  end
                else ret (None, h)
            | TargetFunction _ _ => ret (None, h)
            end
          else ret (None, h)
      end
  | _ => _handle_constant inner arg arg_info for_postproc_module h
  end.

Definition _get_node_args_helper_inner : Resolver :=
  fun arg for_postproc_module h =>
    _get_node_args_helper_inner_loop arg (mkArgInfo []) for_postproc_module h.

Definition get_node_args (node : Node) (for_postproc_module : bool) (h : NodeArgsHelper)
  : Py ((CallArgs * nat) * NodeArgsHelper) :=
  get_node_args_with _get_node_args_helper_inner node for_postproc_module h.

(** ** Graph rewriting: [_rewrite_model] *)

Definition underlying (model : Model) : Module :=
  match model with
  | DistributedModelParallel module => module
  | BareModel m => m
  end.

(** [sharded_modules]: fqn to sharded module, from [model.named_modules()] *)
Definition collect_sharded_modules (model : Module) : gmap string oid :=
  fold_left (fun (d : gmap string oid) (nm : string * Module) =>
               match snd nm with
               | ShardedModuleRef o _ => <[fst nm := o]> d
               | _ => d
               end)
            (Module_named_modules model "") ∅.

Record Rewrite : Type := mkRewrite {
  pipelined_forwards : list oid;
  original_forwards : list Forward;
  non_pipelined_sharded_modules : list string;
  args_helper : NodeArgsHelper
}.

Definition sharded_target (sharded_modules : gmap string oid) (node : Node) : option oid :=
  if opcode_eqb (node_op node) call_module then
    match node_target node with
    | TargetName s => sharded_modules !! s
    | TargetFunction _ _ => None
    end
  else None.

Definition total_num_args (node : Node) : nat :=
  (length (node_args node) + length (node_kwargs node))%nat.

(** One turn of the loop over [graph.nodes] *)
Definition rewrite_node (sharded_modules : gmap string oid) (context : loc)
  (dist_stream : option stream) (pipelined_forward : forward_class)
  (node : Node) (st : Rewrite) : Py Rewrite :=
  match sharded_target sharded_modules node with
  | None => ret st
  | Some child =>
      if Nat.eqb (total_num_args node) 0 then ret st
      else
        let* ' ((arg_info_list, num_found), h) := get_node_args node false (args_helper st) in
        if Nat.eqb num_found (total_num_args node) then
          let* m := read_sharded child in
          let* _ := write_sharded child
                      (with_forward m
                         (Intercepting
                            (mkBaseForward pipelined_forward (target_str (node_target node))
                               arg_info_list child context dist_stream))) in
          ret (mkRewrite (pipelined_forwards st ++ [child])
                 (original_forwards st ++ [forward m])
                 (non_pipelined_sharded_modules st) h)
        else
          ret (mkRewrite (pipelined_forwards st) (original_forwards st)
                 (non_pipelined_sharded_modules st ++ [target_str (node_target node)]) h)
  end.

Definition _rewrite_model (model : Model) (context : loc) (dist_stream : option stream)
  (batch : value) (apply_jit : bool) (pipelined_forward : forward_class)
  (pipeline_postproc : bool) (default_stream : option stream)
  : Py (list oid * Model * list Forward * list PipelinedPostproc * list string) :=
  let input_model := model in
  let model := underlying input_model in
  let sharded_modules := collect_sharded_modules model in
  let* w := get in
  let* graph := lift (tracer w model batch) in
  let helper :=
    mkNodeArgsHelper model context pipeline_postproc default_stream dist_stream [] model in
  let* st := foldM (rewrite_node sharded_modules context dist_stream pipelined_forward)
               graph (mkRewrite [] [] [] helper) in
  let model := helper_input_object (args_helper st) in
  let input_model :=
    match input_model with
    | DistributedModelParallel _ =>
        DistributedModelParallel (if apply_jit then graph_module_jit w model graph else model)
    | BareModel _ => BareModel model
    end in
  ret (pipelined_forwards st, input_model, original_forwards st,
       helper_pipelined_postprocs (args_helper st), non_pipelined_sharded_modules st).

(** ** The orchestrator: [SparseDataDistUtil] *)

Definition set_model (s : SparseDataDistUtil) x : SparseDataDistUtil :=
  mkSDD x (data_dist_stream s) (apply_jit s) (prefetch_stream s) (_next_index s)
    (_contexts s) (initialized s) (_pipelined_modules s) (_pipelined_postprocs s)
    (fwd_hook s) (_original_forwards s) (_original_kjt_dist_forwards s)
    (_pipelined_forward s) (_default_stream s) (_exhausting_mode s) (_pipeline_postproc
    s).
Definition set_next_index (s : SparseDataDistUtil) x : SparseDataDistUtil :=
  mkSDD (model s) (data_dist_stream s) (apply_jit s) (prefetch_stream s) x (_contexts
    s) (initialized s) (_pipelined_modules s) (_pipelined_postprocs s) (fwd_hook s)
    (_original_forwards s) (_original_kjt_dist_forwards s) (_pipelined_forward s)
    (_default_stream s) (_exhausting_mode s) (_pipeline_postproc s).
Definition set_contexts (s : SparseDataDistUtil) x : SparseDataDistUtil :=
  mkSDD (model s) (data_dist_stream s) (apply_jit s) (prefetch_stream s) (_next_index
    s) x (initialized s) (_pipelined_modules s) (_pipelined_postprocs s) (fwd_hook s)
    (_original_forwards s) (_original_kjt_dist_forwards s) (_pipelined_forward s)
    (_default_stream s) (_exhausting_mode s) (_pipeline_postproc s).
Definition set_initialized (s : SparseDataDistUtil) x : SparseDataDistUtil :=
  mkSDD (model s) (data_dist_stream s) (apply_jit s) (prefetch_stream s) (_next_index
    s) (_contexts s) x (_pipelined_modules s) (_pipelined_postprocs s) (fwd_hook s)
    (_original_forwards s) (_original_kjt_dist_forwards s) (_pipelined_forward s)
    (_default_stream s) (_exhausting_mode s) (_pipeline_postproc s).
Definition set_pipelined_modules (s : SparseDataDistUtil) x : SparseDataDistUtil :=
  mkSDD (model s) (data_dist_stream s) (apply_jit s) (prefetch_stream s) (_next_index
    s) (_contexts s) (initialized s) x (_pipelined_postprocs s) (fwd_hook s)
    (_original_forwards s) (_original_kjt_dist_forwards s) (_pipelined_forward s)
    (_default_stream s) (_exhausting_mode s) (_pipeline_postproc s).
Definition set_pipelined_postprocs (s : SparseDataDistUtil) x : SparseDataDistUtil :=
  mkSDD (model s) (data_dist_stream s) (apply_jit s) (prefetch_stream s) (_next_index
    s) (_contexts s) (initialized s) (_pipelined_modules s) x (fwd_hook s)
    (_original_forwards s) (_original_kjt_dist_forwards s) (_pipelined_forward s)
    (_default_stream s) (_exhausting_mode s) (_pipeline_postproc s).
Definition set_fwd_hook (s : SparseDataDistUtil) x : SparseDataDistUtil :=
  mkSDD (model s) (data_dist_stream s) (apply_jit s) (prefetch_stream s) (_next_index
    s) (_contexts s) (initialized s) (_pipelined_modules s) (_pipelined_postprocs s) x
    (_original_forwards s) (_original_kjt_dist_forwards s) (_pipelined_forward s)
    (_default_stream s) (_exhausting_mode s) (_pipeline_postproc s).
Definition set_original_forwards (s : SparseDataDistUtil) x : SparseDataDistUtil :=
  mkSDD (model s) (data_dist_stream s) (apply_jit s) (prefetch_stream s) (_next_index
    s) (_contexts s) (initialized s) (_pipelined_modules s) (_pipelined_postprocs s)
    (fwd_hook s) x (_original_kjt_dist_forwards s) (_pipelined_forward s)
    (_default_stream s) (_exhausting_mode s) (_pipeline_postproc s).
Definition set_original_kjt_dist_forwards (s : SparseDataDistUtil) x : SparseDataDistUtil :=
  mkSDD (model s) (data_dist_stream s) (apply_jit s) (prefetch_stream s) (_next_index
    s) (_contexts s) (initialized s) (_pipelined_modules s) (_pipelined_postprocs s)
    (fwd_hook s) (_original_forwards s) x (_pipelined_forward s) (_default_stream s)
    (_exhausting_mode s) (_pipeline_postproc s).
Definition set_exhausting_mode (s : SparseDataDistUtil) x : SparseDataDistUtil :=
  mkSDD (model s) (data_dist_stream s) (apply_jit s) (prefetch_stream s) (_next_index
    s) (_contexts s) (initialized s) (_pipelined_modules s) (_pipelined_postprocs s)
    (fwd_hook s) (_original_forwards s) (_original_kjt_dist_forwards s)
    (_pipelined_forward s) (_default_stream s) x (_pipeline_postproc s).

Definition _TRAIN_CONTEXT_VERSION : Z := 1.
Definition _WITH_CONTEXT_ASSERTIONS : bool := false.

Definition get_sdd : Py SparseDataDistUtil := fun w => (Ok (sdd w), w).
Definition update_sdd (f : SparseDataDistUtil -> SparseDataDistUtil) : Py unit :=
  modify (fun w => with_sdd w (f (sdd w))).

Definition _with_prefetch (s : SparseDataDistUtil) : bool := is_Some_b (prefetch_stream s).

Definition _is_reattaching (s : SparseDataDistUtil) : bool :=
  negb (Nat.eqb (length (_contexts s)) 0).

(** [self._contexts[i]] *)
Definition context_at (i : nat) : Py loc :=
  let* s := get_sdd in
  match nth_error (_contexts s) i with
  | Some l => ret l
  | None => raise IndexError
  end.

(** The conjunction is evaluated left to right and stops at the first
    false operand, so [ctx.index] is read only when all before it hold. *)
Definition should_assert_context_invariants (ctx : loc) : Py bool :=
  let* s := get_sdd in
  if _WITH_CONTEXT_ASSERTIONS && initialized s && negb (_exhausting_mode s) then
    let* c := read_context ctx in
    ret (match index c with Some i => 0 <=? i | None => false end)
  else ret false.

(** [module.forward._name] for each pipelined module *)
Definition forward_name (module : oid) : Py string :=
  let* m := read_sharded module in
  match forward m with
  | Intercepting f => ret (_name f)
  | OriginalForward _ => raise (AttributeError "_name")
  end.

Definition _pipelined_modules_fqns : Py (gset string) :=
  let* s := get_sdd in
  let* names := mapM forward_name (_pipelined_modules s) in
  ret (list_to_set names).

Definition alloc_context (c : TrainPipelineContext) : Py loc :=
  fun w => (Ok (next_loc w),
            with_next_loc (with_contexts w (<[next_loc w := c]> (contexts w))) (S (next_loc w))).

Definition _create_context (idx : Z) : Py loc :=
  let* s := get_sdd in
  alloc_context (new_context (if _with_prefetch s then PrefetchTrainPipelineContextClass
                              else TrainPipelineContextClass) idx _TRAIN_CONTEXT_VERSION).

Definition contexts_append (l : loc) : Py unit :=
  update_sdd (fun s => set_contexts s (_contexts s ++ [l])%list).

Definition _add_context : Py unit :=
  let* s := get_sdd in
  let* l := _create_context (_next_index s) in
  let* _ := contexts_append l in
  update_sdd (fun s => set_next_index s (_next_index s + 1)).

Definition _assert_contexts_count : Py unit :=
  if negb _WITH_CONTEXT_ASSERTIONS then ret tt
  else
    let* s := get_sdd in
    let expected := if _with_prefetch s then 3%nat else 2%nat in
    py_assert (Nat.eqb (length (_contexts s)) expected) "Expected to have contexts".

Definition _set_module_context (context : loc) : Py unit :=
  let* s := get_sdd in
  let* _ := forM_ (fun module => forward_set_context module context) (_pipelined_modules s) in
  forM_ (fun postproc_module => PipelinedPostproc_set_context postproc_module context)
        (_pipelined_postprocs s).

Definition _current_context : Py loc := context_at 0.

Definition keys_are {A} (d : gmap string A) (expected_fqns : gset string) : bool :=
  bool_decide (dom d = expected_fqns).

Definition _context_for_model_forward : Py loc :=
  let* ctx := _current_context in
  let* check := should_assert_context_invariants ctx in
  let* _ :=
    if check then
      let* target_fqns := _pipelined_modules_fqns in
      let* s := get_sdd in
      let* c := read_context ctx in
      if _with_prefetch s then
        let* _ := py_assert (match ctx_class c with
                             | PrefetchTrainPipelineContextClass => true
                             | TrainPipelineContextClass => false
                             end) "" in
        let* _ := py_assert (keys_are (module_input_post_prefetch c) target_fqns)
                    "module_input_post_prefetch != pipelined modules fqns" in
        py_assert (keys_are (module_contexts_post_prefetch c) target_fqns)
          "module_contexts_post_prefetch != pipelined modules fqns"
      else
        let* _ := py_assert (keys_are (input_dist_tensors_requests c) target_fqns)
                    "input_dist_tensors_requests != pipelined modules fqns" in
        py_assert (keys_are (module_contexts c) target_fqns)
          "module_contexts != pipelined modules fqns"
    else ret tt in
  ret ctx.

(** [self._contexts.popleft()] *)
Definition contexts_popleft : Py loc :=
  let* s := get_sdd in
  match _contexts s with
  | [] => raise IndexError
  | l :: rest =>
      let* _ := update_sdd (fun s => set_contexts s rest) in
      ret l
  end.

Definition _advance_context : Py unit :=
  let* _ := emit AdvanceContext in
  let* _ := _assert_contexts_count in
  let* _ := contexts_popleft in
  let* _ := _add_context in
  let* ctx := _context_for_model_forward in
  _set_module_context ctx.

Definition _start_dist_context : Py loc :=
  let* s := get_sdd in
  if _with_prefetch s then context_at 2 else context_at 1.

Definition _wait_dist_context : Py loc :=
  let* ctx := _start_dist_context in
  let* check := should_assert_context_invariants ctx in
  let* _ :=
    if check then
      let* s := get_sdd in
      if negb (Nat.eqb (length (_pipelined_modules s)) 0) then
        let* c := read_context ctx in
        py_assert (negb (Nat.eqb (length (fused_splits_awaitables c)) 0))
          "fused_splits_awaitables was empty - was start_sparse_data_dist called?"
      else ret tt
    else ret tt in
  ret ctx.

(** *** Starting and waiting for the input distribution *)

(** Modelled from the spec: [FusedKJTListSplitsAwaitable] is declared in
    [embedding_sharding.py]; waiting on the fused splits exchange yields, for
    each request in order, the awaitable of its tensors exchange
    ("wait_communication ... populating resolved tensors into the
    context"). *)
Fixpoint fused_wait_requests (requests : list SplitsAwaitable) : result (list Awaitable) :=
  match requests with
  | [] => Ok []
  | r :: rest =>
      match splits_tensors r with
      | Ok a =>
          match fused_wait_requests rest with
          | Ok l => Ok (a :: l)
          | Raise e => Raise e
          end
      | Raise e => Raise e
      end
  end.

Definition fused_wait (f : FusedKJTListSplitsAwaitable) : result (list Awaitable) :=
  fused_wait_requests (fused_requests f).

Definition wait_sparse_data_dist : Py unit :=
  let* ctx := _wait_dist_context in
  let* _ := emit (WaitSparseDataDist ctx) in
  let* c := read_context ctx in
  let* _ :=
    forM_ (fun na : list string * FusedKJTListSplitsAwaitable =>
             let* requests := lift (fused_wait (snd na)) in
             forM_ (fun nr : string * Awaitable =>
                      let* c := read_context ctx in
                      write_context ctx
                        (with_input_dist_tensors_requests c
                           (<[fst nr := snd nr]> (input_dist_tensors_requests c))))
                   (zip (fst na) requests))
          (fused_splits_awaitables c) in
  let* c := read_context ctx in
  let* _ := write_context ctx (with_input_dist_splits_requests c []) in
  let* c := read_context ctx in
  write_context ctx (with_fused_splits_awaitables c []).

(** [pg] of the first [KJTSplitsAllToAllMeta] among the awaitables of a
    [KJTListSplitsAwaitable] *)
Definition request_pg (request : SplitsAwaitable) : option nat :=
  match request with
  | KJTListSplitsAwaitable awaitables _ =>
      (fix first (l : list SplitsMember) : option nat :=
         match l with
         | [] => None
         | KJTSplitsAllToAllMeta pg :: _ => Some pg
         | OtherSplitsMember :: l' => first l'
         end) awaitables
  | OtherSplitsAwaitable _ => None
  end.

(** [names_per_pg[pg].append(name)] on a [defaultdict(list)] *)
Fixpoint names_per_pg_append (pg : option nat) (name : string)
  (d : list (option nat * list string)) : list (option nat * list string) :=
  match d with
  | [] => [(pg, [name])]
  | (pg', names) :: d' =>
      if bool_decide (pg' = pg) then (pg', (names ++ [name])%list) :: d'
      else (pg', names) :: names_per_pg_append pg name d'
  end.

Definition dict_get {A} (key : string) (d : gmap string A) : result A :=
  match d !! key with
  | Some a => Ok a
  | None => Raise KeyError
  end.

Definition assoc_get {A} (key : string) (d : list (string * A)) : result A :=
  match assoc key d with
  | Some a => Ok a
  | None => Raise KeyError
  end.

Definition _fuse_input_dist_splits (context : loc) : Py unit :=
  let* c := read_context context in
  let names_per_pg :=
    fold_left (fun d (nr : string * SplitsAwaitable) =>
                 names_per_pg_append (request_pg (snd nr)) (fst nr) d)
              (input_dist_splits_requests c) [] in
  forM_ (fun pn : option nat * list string =>
           let* c := read_context context in
           let* requests :=
             mapM (fun name => lift (assoc_get name (input_dist_splits_requests c))) (snd pn) in
           let* ctxs :=
             mapM (fun name =>
                     lift (dict_get name (if version c =? 0 then module_contexts_next_batch c
                                          else module_contexts c))) (snd pn) in
           write_context context
             (with_fused_splits_awaitables c
                (fused_splits_awaitables c ++ [(snd pn, mkFused requests ctxs (fst pn))])%list))
        names_per_pg.

(** [module.create_context()]: a new module execution context *)
Definition create_context : Py ModuleCtx :=
  fun w => (Ok (next_module_ctx w), with_next_module_ctx w (S (next_module_ctx w))).

Definition _start_data_dist (pipelined_modules : list oid) (batch : value) (context : loc)
  : Py unit :=
  let* c := read_context context in
  let* _ :=
    if version c =? 0 then
      write_context context
        (with_fused_splits_awaitables
           (with_module_contexts_next_batch (with_input_dist_splits_requests c []) ∅) [])
    else ret tt in
  let* _ :=
    forM_ (fun module =>
             let* m := read_sharded module in
             match forward m with
             | OriginalForward _ => raise (AssertionError "")
             | Intercepting forward =>
                 let* ' (args, kwargs) := build_args_kwargs (_args forward) batch in
                 let* module_ctx := create_context in
                 let* c := read_context context in
                 let* _ :=
                   if version c =? 0 then
                     write_context context
                       (with_module_contexts_next_batch c
                          (<[_name forward := module_ctx]> (module_contexts_next_batch c)))
                   else
                     write_context context
                       (with_module_contexts c
                          (<[_name forward := module_ctx]> (module_contexts c))) in
                 let* request := lift (input_dist m module_ctx args kwargs) in
                 let* c := read_context context in
                 write_context context
                   (with_input_dist_splits_requests c
                      (dict_set (_name forward) request (input_dist_splits_requests c)))
             end)
          pipelined_modules in
  _fuse_input_dist_splits context.

(** [use_context_for_postprocs]: the body runs with every postproc pointed
    at [next_batch_context]; the contexts saved on entry are put back when
    the body returns. *)
Definition use_context_for_postprocs {A} (pipelined_postprocs : list PipelinedPostproc)
  (next_batch_context : loc) (body : Py A) : Py A :=
  let* original_contexts := mapM PipelinedPostproc_get_context pipelined_postprocs in
  let* _ := forM_ (fun postproc_mod => PipelinedPostproc_set_context postproc_mod next_batch_context)
              pipelined_postprocs in
  let* r := body in
  let* _ := forM_ (fun mc : PipelinedPostproc * loc => PipelinedPostproc_set_context (fst mc) (snd mc))
              (zip pipelined_postprocs original_contexts) in
  ret r.

(** *** Overriding and restoring the input-dist forwards *)

Definition override_input_dist (d : InputDist) : InputDist * list KJTDistForward :=
  match _dist d with
  | Some k =>
      (mkInputDist
         (Some (mkKJTAllToAll (KJTAllToAllForward (dist_pg k) (dist_splits k) (dist_stagger k))
                  (dist_pg k) (dist_splits k) (dist_stagger k))),
       [dist_forward k])
  | None => (d, [])
  end.

Fixpoint override_input_dists (l : list InputDist) : list InputDist * list KJTDistForward :=
  match l with
  | [] => ([], [])
  | d :: l' =>
      let (d', o) := override_input_dist d in
      let (l'', o') := override_input_dists l' in
      (d' :: l'', (o ++ o')%list)
  end.

Definition override_child (c : SubModule) : result (SubModule * list KJTDistForward) :=
  match _has_uninitialized_input_dist c with
  | Some true => Raise (AssertionError "has uninitialized input dist")
  | _ =>
      match _input_dists c with
      | None => Ok (c, [])
      | Some l =>
          let (l', o) := override_input_dists l in
          Ok (mkSubModule (_has_uninitialized_input_dist c) (Some l'), o)
      end
  end.

(** The sub-modules of one sharded module, up to the first failed
    assertion. *)
Fixpoint override_children (cs : list (string * SubModule))
  : list (string * SubModule) * list KJTDistForward * option exn :=
  match cs with
  | [] => ([], [], None)
  | (n, c) :: cs' =>
      match override_child c with
      | Raise e => (cs, [], Some e)
      | Ok (c', o) =>
          let '(cs'', o', e) := override_children cs' in
          ((n, c') :: cs'', (o ++ o')%list, e)
      end
  end.

Definition _override_input_dist_forwards (pipelined_modules : list oid)
  : Py (list KJTDistForward) :=
  foldM (fun module original_kjt_dist_forwards =>
           let* m := read_sharded module in
           let '(cs, o, e) := override_children (named_modules m) in
           let* _ := write_sharded module (with_named_modules m cs) in
           match e with
           | Some e => raise e
           | None => ret (original_kjt_dist_forwards ++ o)%list
           end)
        pipelined_modules [].

(** A [KJTAllToAll] object inside the store: sharded module, sub-module,
    input dist. *)
Definition kjt_ref : Type := oid * nat * nat.

Definition kjt_refs (o : oid) (m : ShardedModule) : list kjt_ref :=
  concat (imap (fun i (nc : string * SubModule) =>
                  match _input_dists (snd nc) with
                  | None => []
                  | Some l =>
                      concat (imap (fun j (d : InputDist) =>
                                      match _dist d with
                                      | Some _ => [(o, i, j)]
                                      | None => []
                                      end) l)
                  end) (named_modules m)).

Definition set_dist_forward (f : KJTDistForward) (d : InputDist) : InputDist :=
  match _dist d with
  | Some k => mkInputDist (Some (mkKJTAllToAll f (dist_pg k) (dist_splits k) (dist_stagger k)))
  | None => d
  end.

(** [kjt_dist.forward = original_kjt_dist_fwd] *)
Definition set_kjt_forward (r : kjt_ref) (f : KJTDistForward) : Py unit :=
  let '(o, i, j) := r in
  let* m := read_sharded o in
  write_sharded o
    (with_named_modules m
       (alter (fun nc : string * SubModule =>
                 (fst nc,
                  mkSubModule (_has_uninitialized_input_dist (snd nc))
                    (option_map (alter (set_dist_forward f) j) (_input_dists (snd nc)))))
              i (named_modules m))).

Definition with_underlying (model : Model) (m : Module) : Model :=
  match model with
  | DistributedModelParallel _ => DistributedModelParallel m
  | BareModel _ => BareModel m
  end.

(** [_pipeline_detach_model]; the model object is changed in place, the
    result is what it has become. *)
Definition _pipeline_detach_model (model : Model) (pipelined_modules : list oid)
  (original_forwards : list Forward) (original_kjt_dist_forwards : list KJTDistForward)
  (pipelined_postprocs : list PipelinedPostproc) : Py Model :=
  let* kjt_dists :=
    foldM (fun (mf : oid * Forward) kjt_dists =>
             let* m := read_sharded (fst mf) in
             let* _ := write_sharded (fst mf) (with_forward m (snd mf)) in
             ret (kjt_dists ++ kjt_refs (fst mf) m)%list)
          (zip pipelined_modules original_forwards) [] in
  let* _ := py_assert (Nat.eqb (length kjt_dists) (length original_kjt_dist_forwards))
              "Number of KJT dists does not match number of kjt dist forwards provided" in
  let* _ := forM_ (fun kf : kjt_ref * KJTDistForward => set_kjt_forward (fst kf) (snd kf))
              (zip kjt_dists original_kjt_dist_forwards) in
  ret (with_underlying model
         (fold_left (fun m postproc_mod =>
                       Module_setattr m (fqn postproc_mod) (postproc_module postproc_mod))
                    pipelined_postprocs (underlying model))).

(** [SparseDataDistUtil.detach] *)
Definition detach : Py Model :=
  let* s := get_sdd in
  let* _ :=
    if initialized s then
      match fwd_hook s with
      | None => raise (AssertionError "")
      | Some handle =>
          let* _ := modify (fun w => with_forward_hooks w (forward_hooks w ∖ {[handle]})) in
          let* model' := _pipeline_detach_model (model s) (_pipelined_modules s)
                           (_original_forwards s) (_original_kjt_dist_forwards s)
                           (_pipelined_postprocs s) in
          update_sdd (fun s => set_model s model')
      end
    else ret tt in
  let* _ := update_sdd (fun s => set_initialized s false) in
  let* s := get_sdd in
  ret (model s).

(** *** Attaching, the post-forward hook, the phases *)

(** The closure registered by [_initialize_or_reattach] *)
Definition forward_hook : Py unit :=
  let* _ := wait_sparse_data_dist in
  _advance_context.

(** [self.model.register_forward_hook(forward_hook)] *)
Definition register_forward_hook : Py nat :=
  fun w => (Ok (next_handle w),
            with_next_handle (with_forward_hooks w ({[next_handle w]} ∪ forward_hooks w))
              (S (next_handle w))).

Definition last_context : Py loc :=
  let* s := get_sdd in
  match last (_contexts s) with
  | Some l => ret l
  | None => raise IndexError
  end.

Definition _initialize_or_reattach (batch : value) : Py unit :=
  let* s := get_sdd in
  let* context_for_rewrite :=
    if _is_reattaching s then _current_context
    else
      let* _ := if _with_prefetch s then
                  let* l := _create_context (-2) in contexts_append l
                else ret tt in
      let* l := _create_context (-1) in
      let* _ := contexts_append l in
      let* _ := _add_context in
      last_context in
  let* _ := _assert_contexts_count in
  let* s := get_sdd in
  let* ' (pipelined, model', originals, postprocs, _) :=
    _rewrite_model (model s) context_for_rewrite (Some (data_dist_stream s)) batch
      (apply_jit s) (_pipelined_forward s) (_pipeline_postproc s) (_default_stream s) in
  let* _ := update_sdd (fun s =>
              set_pipelined_postprocs
                (set_original_forwards (set_model (set_pipelined_modules s pipelined) model')
                   originals) postprocs) in
  let* ctx := _start_dist_context in
  let* _ := _start_data_dist pipelined batch ctx in
  let* kjt := _override_input_dist_forwards pipelined in
  let* _ := update_sdd (fun s => set_original_kjt_dist_forwards s kjt) in
  let* handle := register_forward_hook in
  let* _ := update_sdd (fun s => set_fwd_hook s (Some handle)) in
  update_sdd (fun s => set_initialized s true).

Definition wait_sdd_fill_callback : Py unit :=
  let* _ := wait_sparse_data_dist in
  _advance_context.

Definition data_exhausted_callback : Py unit :=
  update_sdd (fun s => set_exhausting_mode s true).

Definition start_sparse_data_dist (batch : value) : Py value :=
  let* s := get_sdd in
  let* _ := if negb (initialized s) then _initialize_or_reattach batch else ret tt in
  let* ctx := _start_dist_context in
  let* _ := emit (StartSparseDataDist ctx) in
  let* s := get_sdd in
  let* _ := use_context_for_postprocs (_pipelined_postprocs s) ctx
              (_start_data_dist (_pipelined_modules s) batch ctx) in
  ret batch.

(** ** [PrecisionSessionMetric.__init__] *)

Inductive RecComputeMode : Type :=
| FUSED_TASKS_COMPUTATION
| UNFUSED_TASKS_COMPUTATION
| FUSED_TASKS_AND_STATES_COMPUTATION.

(** Modelled from the spec: [SessionMetricDef] and [RecTaskInfo] are
    declared in [metrics_config.py]; a task carries an optional session
    definition ("missing required configuration on a metric/session
    definition"), whose fields are those [precision_session.py] reads. *)
Record SessionMetricDef : Type := mkSessionMetricDef {
  session_var_name : option string;
  top_threshold : option Z;
  run_ranking_of_labels : bool
}.

Record RecTaskInfo : Type := mkRecTaskInfo {
  task_name : string;
  session_metric_def : option SessionMetricDef
}.

(** The arguments of the constructor, as the caller gave them *)
Record MetricArgs : Type := mkMetricArgs {
  world_size : Z;
  my_rank : Z;
  batch_size : Z;
  tasks : list RecTaskInfo;
  compute_mode : RecComputeMode;
  window_size : Z;
  fused_update_limit : Z;
  process_group : option nat;
  extra_kwargs : list (string * value)
}.

Definition is_fused_mode (m : RecComputeMode) : bool :=
  match m with
  | FUSED_TASKS_COMPUTATION | FUSED_TASKS_AND_STATES_COMPUTATION => true
  | UNFUSED_TASKS_COMPUTATION => false
  end.

(** The loop over [tasks] *)
Fixpoint check_tasks (ts : list RecTaskInfo) : option exn :=
  match ts with
  | [] => None
  | task :: rest =>
      match session_metric_def task with
      | None => Some (RecMetricException "Please, specify the session metric definition")
      | Some session_metric_def =>
          match top_threshold session_metric_def with
          | None => Some (RecMetricException "Please, specify the top threshold")
          | Some _ => check_tasks rest
          end
      end
  end.

(** [PrecisionSessionMetric.__init__]; [RecMetric_init] is the constructor
    of the parent class, which lives in [rec_metric.py]. *)
Definition PrecisionSessionMetric_init {T : Type} (RecMetric_init : MetricArgs -> result T)
  (a : MetricArgs) : result T :=
  if is_fused_mode (compute_mode a) then
    Raise (RecMetricException
             "Fused computation is not supported for precision session-level metrics")
  else if 0 <? fused_update_limit a then
    Raise (RecMetricException
             "Fused update is not supported for precision session-level metrics")
  else
    match check_tasks (tasks a) with
    | Some e => Raise e
    | None => RecMetric_init a
    end.

(** A task that lacks its session definition or the top threshold *)
Definition task_incomplete (task : RecTaskInfo) : bool :=
  match session_metric_def task with
  | None => true
  | Some d => negb (is_Some_b (top_threshold d))
  end.

(** ** [DataLoadingThread]: the one-slot hand-off

    The thread's [run] loop and the main thread, which calls
    [get_next_batch] and [stop], take turns one statement at a time; an
    [Event.wait()] can be passed only when the event is set. *)

Inductive producer_pc : Type :=
| P_while            (* while not self._stop *)
| P_wait_empty       (* self._buffer_empty_event.wait() *)
| P_if_stop          (* if self._stop *)
| P_stop_set_filled  (* self._buffer_filled_event.set(); return *)
| P_next             (* batch = next(self._dataloader_iter) *)
| P_exhausted_stop   (* except StopIteration: self._stop = True *)
| P_exhausted_filled (* self._buffer_filled_event.set(); return *)
| P_store (batch : value)  (* self._buffered = batch.to(...) *)
| P_clear_empty      (* self._buffer_empty_event.clear() *)
| P_set_filled       (* self._buffer_filled_event.set() *)
| P_returned.

Inductive consumer_pc : Type :=
| C_idle
| C_wait_filled      (* self._buffer_filled_event.wait() *)
| C_read             (* batch = self._buffered *)
| C_if_none (batch : option value)  (* if batch is None *)
| C_take (batch : value)            (* self._buffered = None *)
| C_clear_filled (batch : value)    (* self._buffer_filled_event.clear() *)
| C_set_empty (batch : value)       (* self._buffer_empty_event.set(); return batch *)
| S_stop             (* stop(): self._stop = True *)
| S_set_filled       (* self._buffer_filled_event.set() *)
| S_set_empty.       (* self._buffer_empty_event.set() *)

Record DataLoadingThread : Type := mkDLT {
  _stop : bool;
  _dataloader_iter : list value;
  _buffer_empty_event : bool;
  _buffer_filled_event : bool;
  _buffered : option value;
  producer : producer_pc;
  consumer : consumer_pc;
  (** batches [get_next_batch] has returned, oldest first *)
  returned : list value
}.

(** [DataLoadingThread.__init__], the thread started *)
Definition DataLoadingThread_init (dataloader_iter : list value) : DataLoadingThread :=
  mkDLT false dataloader_iter true false None P_while C_idle [].

(** [batch.to(self._device, ...)]: the batch on the device stands for the
    batch. *)
Definition to_device (batch : value) : value := batch.

(** One statement of [run] *)
Definition producer_step (t : DataLoadingThread) : option DataLoadingThread :=
  let set p := mkDLT (_stop t) (_dataloader_iter t) (_buffer_empty_event t)
                 (_buffer_filled_event t) (_buffered t) p (consumer t) (returned t) in
  match producer t with
  | P_while => Some (set (if _stop t then P_returned else P_wait_empty))
  | P_wait_empty => if _buffer_empty_event t then Some (set P_if_stop) else None
  | P_if_stop => Some (set (if _stop t then P_stop_set_filled else P_next))
  | P_stop_set_filled =>
      Some (mkDLT (_stop t) (_dataloader_iter t) (_buffer_empty_event t) true (_buffered t)
              P_returned (consumer t) (returned t))
  | P_next =>
      match _dataloader_iter t with
      | batch :: rest =>
          Some (mkDLT (_stop t) rest (_buffer_empty_event t) (_buffer_filled_event t)
                  (_buffered t) (P_store batch) (consumer t) (returned t))
      | [] => Some (set P_exhausted_stop)
      end
  | P_exhausted_stop =>
      Some (mkDLT true (_dataloader_iter t) (_buffer_empty_event t) (_buffer_filled_event t)
              (_buffered t) P_exhausted_filled (consumer t) (returned t))
  | P_exhausted_filled =>
      Some (mkDLT (_stop t) (_dataloader_iter t) (_buffer_empty_event t) true (_buffered t)
              P_returned (consumer t) (returned t))
  | P_store batch =>
      Some (mkDLT (_stop t) (_dataloader_iter t) (_buffer_empty_event t)
              (_buffer_filled_event t) (Some (to_device batch)) P_clear_empty (consumer t)
              (returned t))
  | P_clear_empty =>
      Some (mkDLT (_stop t) (_dataloader_iter t) false (_buffer_filled_event t) (_buffered t)
              P_set_filled (consumer t) (returned t))
  | P_set_filled =>
      Some (mkDLT (_stop t) (_dataloader_iter t) (_buffer_empty_event t) true (_buffered t)
              P_while (consumer t) (returned t))
  | P_returned => None
  end.

(** One statement of the main thread inside [get_next_batch] or [stop] *)
Definition consumer_step (t : DataLoadingThread) : option DataLoadingThread :=
  let set c := mkDLT (_stop t) (_dataloader_iter t) (_buffer_empty_event t)
                 (_buffer_filled_event t) (_buffered t) (producer t) c (returned t) in
  match consumer t with
  | C_idle => None
  | C_wait_filled => if _buffer_filled_event t then Some (set C_read) else None
  | C_read => Some (set (C_if_none (_buffered t)))
  | C_if_none None => Some (set C_idle)
  | C_if_none (Some batch) => Some (set (C_take batch))
  | C_take batch =>
      Some (mkDLT (_stop t) (_dataloader_iter t) (_buffer_empty_event t)
              (_buffer_filled_event t) None (producer t) (C_clear_filled batch) (returned t))
  | C_clear_filled batch =>
      Some (mkDLT (_stop t) (_dataloader_iter t) (_buffer_empty_event t) false (_buffered t)
              (producer t) (C_set_empty batch) (returned t))
  | C_set_empty batch =>
      Some (mkDLT (_stop t) (_dataloader_iter t) true (_buffer_filled_event t) (_buffered t)
              (producer t) C_idle (returned t ++ [batch]))
  | S_stop =>
      Some (mkDLT true (_dataloader_iter t) (_buffer_empty_event t) (_buffer_filled_event t)
              (_buffered t) (producer t) S_set_filled (returned t))
  | S_set_filled =>
      Some (mkDLT (_stop t) (_dataloader_iter t) (_buffer_empty_event t) true (_buffered t)
              (producer t) S_set_empty (returned t))
  | S_set_empty =>
      Some (mkDLT (_stop t) (_dataloader_iter t) true (_buffer_filled_event t) (_buffered t)
              (producer t) C_idle (returned t))
  end.

(** The main thread, between calls, enters [get_next_batch] or [stop]. *)
Definition enter (c : consumer_pc) (t : DataLoadingThread) : DataLoadingThread :=
  mkDLT (_stop t) (_dataloader_iter t) (_buffer_empty_event t) (_buffer_filled_event t)
    (_buffered t) (producer t) c (returned t).

Inductive dlt_step : DataLoadingThread -> DataLoadingThread -> Prop :=
| step_producer t t' : producer_step t = Some t' -> dlt_step t t'
| step_consumer t t' : consumer_step t = Some t' -> dlt_step t t'
| step_get_next_batch t : consumer t = C_idle -> dlt_step t (enter C_wait_filled t)
| step_stop t : consumer t = C_idle -> dlt_step t (enter S_stop t).

Inductive dlt_reachable (dataloader_iter : list value) : DataLoadingThread -> Prop :=
| reach_init : dlt_reachable dataloader_iter (DataLoadingThread_init dataloader_iter)
| reach_step t t' :
    dlt_reachable dataloader_iter t -> dlt_step t t' -> dlt_reachable dataloader_iter t'.

(** The slot is written while it holds a batch nobody has taken. *)
Definition overwrites (t : DataLoadingThread) : Prop :=
  exists batch, producer t = P_store batch /\ _buffered t <> None.

(** ** Descriptors free of postproc calls, and induction over descriptors *)

Fixpoint pure_step (step : BaseArgInfoStep) {struct step} : bool :=
  match step with
  | PostprocArgInfoStep _ => false
  | ListArgInfoStep value => forallb pure_element value
  | DictArgInfoStep value => forallb (fun kv => pure_element (snd kv)) value
  | _ => true
  end
with pure_element (v : ListElement) {struct v} : bool :=
  match v with
  | ElemObject _ => true
  | ElemArgInfo a => pure_arg_info a
  end
with pure_arg_info (a : ArgInfo) {struct a} : bool :=
  match a with
  | mkArgInfo steps => forallb pure_step steps
  end.

Definition pure_call_args (c : CallArgs) : bool :=
  match c with
  | mkCallArgs args kwargs =>
      forallb pure_arg_info args && forallb (fun kv => pure_arg_info (snd kv)) kwargs
  end.

Section descriptor_induction.
Variables (P : BaseArgInfoStep -> Prop) (Pe : ListElement -> Prop)
          (Pa : ArgInfo -> Prop) (Pc : CallArgs -> Prop)
          (Pp : PipelinedPostproc -> Prop).
Hypothesis HNoop : P NoopArgInfoStep.
Hypothesis HGetAttr : forall n, P (GetAttrArgInfoStep n).
Hypothesis HGetItem : forall i, P (GetItemArgInfoStep i).
Hypothesis HPostproc : forall p, Pp p -> P (PostprocArgInfoStep p).
Hypothesis HScalar : forall v, P (ScalarArgInfoStep v).
Hypothesis HList : forall l, Forall Pe l -> P (ListArgInfoStep l).
Hypothesis HDict : forall d, Forall (fun kv => Pe (snd kv)) d -> P (DictArgInfoStep d).
Hypothesis HObject : forall v, Pe (ElemObject v).
Hypothesis HElemArgInfo : forall a, Pa a -> Pe (ElemArgInfo a).
Hypothesis HArgInfo : forall l, Forall P l -> Pa (mkArgInfo l).
Hypothesis HCallArgs : forall args kwargs,
    Forall Pa args -> Forall (fun kv => Pa (snd kv)) kwargs -> Pc (mkCallArgs args kwargs).
Hypothesis HPipelinedPostproc : forall o m f a ds dd,
    Pc a -> Pp (mkPipelinedPostproc o m f a ds dd).

Fixpoint step_induction (s : BaseArgInfoStep) {struct s} : P s :=
  match s with
  | NoopArgInfoStep => HNoop
  | GetAttrArgInfoStep n => HGetAttr n
  | GetItemArgInfoStep i => HGetItem i
  | PostprocArgInfoStep p => HPostproc p (postproc_induction p)
  | ScalarArgInfoStep v => HScalar v
  | ListArgInfoStep l =>
      HList l ((fix go (l : list ListElement) : Forall Pe l :=
                  match l with
                  | [] => @List.Forall_nil _ _
                  | x :: l' => @List.Forall_cons _ _ x l' (element_induction x) (go l')
                  end) l)
  | DictArgInfoStep d =>
      HDict d ((fix go (d : list (string * ListElement))
                 : Forall (fun kv => Pe (snd kv)) d :=
                  match d with
                  | [] => @List.Forall_nil _ _
                  | x :: d' => @List.Forall_cons _ _ x d' (element_induction (snd x)) (go d')
                  end) d)
  end
with element_induction (e : ListElement) {struct e} : Pe e :=
  match e with
  | ElemObject v => HObject v
  | ElemArgInfo a => HElemArgInfo a (arg_info_induction a)
  end
with arg_info_induction (a : ArgInfo) {struct a} : Pa a :=
  match a with
  | mkArgInfo l =>
      HArgInfo l ((fix go (l : list BaseArgInfoStep) : Forall P l :=
                     match l with
                     | [] => @List.Forall_nil _ _
                     | x :: l' => @List.Forall_cons _ _ x l' (step_induction x) (go l')
                     end) l)
  end
with call_args_induction (c : CallArgs) {struct c} : Pc c :=
  match c with
  | mkCallArgs args kwargs =>
      HCallArgs args kwargs
        ((fix go (l : list ArgInfo) : Forall Pa l :=
            match l with
            | [] => @List.Forall_nil _ _
            | x :: l' => @List.Forall_cons _ _ x l' (arg_info_induction x) (go l')
            end) args)
        ((fix go (d : list (string * ArgInfo)) : Forall (fun kv => Pa (snd kv)) d :=
            match d with
            | [] => @List.Forall_nil _ _
            | x :: d' => @List.Forall_cons _ _ x d' (arg_info_induction (snd x)) (go d')
            end) kwargs)
  end
with postproc_induction (p : PipelinedPostproc) {struct p} : Pp p :=
  match p with
  | mkPipelinedPostproc o m f a ds dd =>
      HPipelinedPostproc o m f a ds dd (call_args_induction a)
  end.
End descriptor_induction.

Section argument_induction.
Variables (P : Argument -> Prop) (Pn : Node -> Prop).
Hypothesis HArgNode : forall n, Pn n -> P (ArgNode n).
Hypothesis HArgConst : forall v, P (ArgConst v).
Hypothesis HArgList : forall l, Forall P l -> P (ArgList l).
Hypothesis HArgDict : forall d, Forall (fun kv => P (snd kv)) d -> P (ArgDict d).
Hypothesis HNode : forall op target args kwargs ph,
    Forall P args -> Forall (fun kv => P (snd kv)) kwargs ->
    Pn (mkNode op target args kwargs ph).

Fixpoint argument_induction (a : Argument) {struct a} : P a :=
  match a with
  | ArgNode n => HArgNode n (node_induction n)
  | ArgConst v => HArgConst v
  | ArgList l =>
      HArgList l ((fix go (l : list Argument) : Forall P l :=
                     match l with
                     | [] => @List.Forall_nil _ _
                     | x :: l' => @List.Forall_cons _ _ x l' (argument_induction x) (go l')
                     end) l)
  | ArgDict d =>
      HArgDict d ((fix go (d : list (string * Argument)) : Forall (fun kv => P (snd kv)) d :=
                     match d with
                     | [] => @List.Forall_nil _ _
                     | x :: d' =>
                         @List.Forall_cons _ _ x d' (argument_induction (snd x)) (go d')
                     end) d)
  end
with node_induction (n : Node) {struct n} : Pn n :=
  match n with
  | mkNode op target args kwargs ph =>
      HNode op target args kwargs ph
        ((fix go (l : list Argument) : Forall P l :=
            match l with
            | [] => @List.Forall_nil _ _
            | x :: l' => @List.Forall_cons _ _ x l' (argument_induction x) (go l')
            end) args)
        ((fix go (d : list (string * Argument)) : Forall (fun kv => P (snd kv)) d :=
            match d with
            | [] => @List.Forall_nil _ _
            | x :: d' => @List.Forall_cons _ _ x d' (argument_induction (snd x)) (go d')
            end) kwargs)
  end.
End argument_induction.

(** ** Vocabulary of the statements *)

(** A computation that neither reads nor writes the store *)
Definition stateless {A} (m : Py A) : Prop := exists r, forall w, m w = (r, w).

(** A computation whose final store is related to the initial one by [R],
    whether it returns or raises *)
Definition preserves (R : World -> World -> Prop) {A} (m : Py A) : Prop :=
  forall w, R w (snd (m w)).

(** A resolver that preserves [R] on one argument, and the walk itself *)
Definition resolves (R : World -> World -> Prop) (inner : Resolver) (a : Argument) : Prop :=
  forall f h, preserves R (inner a f h).

Definition walks (R : World -> World -> Prop) (a : Argument) : Prop :=
  forall ai f h, preserves R (_get_node_args_helper_inner_loop a ai f h).

(** What the loop of [_rewrite_model] has established once it has seen
    [seen]: every sharded call with an argument is in one of the two lists,
    the lists have one entry per such call, and each pipelined module
    carries an intercepting forward. *)
Definition classified (sm : gmap string oid) (context : loc) (ds : option stream)
  (pf : forward_class) (seen : list Node) (st : Rewrite) (w : World) : Prop :=
  (forall node child, node ∈ seen -> sharded_target sm node = Some child ->
     total_num_args node <> 0%nat ->
     child ∈ pipelined_forwards st \/
     target_str (node_target node) ∈ non_pipelined_sharded_modules st) /\
  (length (pipelined_forwards st) + length (non_pipelined_sharded_modules st)
   = length (filter (fun node => is_Some (sharded_target sm node) /\
                                 total_num_args node <> 0%nat) seen))%nat /\
  length (original_forwards st) = length (pipelined_forwards st) /\
  (forall child, child ∈ pipelined_forwards st ->
     exists m f, sharded w !! child = Some m /\ forward m = Intercepting f /\
                 fwd_class f = pf /\ _context f = context /\ _stream f = ds /\
                 _module f = child).

(** The state in which the loop of [_rewrite_model] starts *)
Definition rewrite_start (model : Module) (context : loc) (pipeline_postproc : bool)
  (default_stream dist_stream : option stream) : Rewrite :=
  mkRewrite [] [] []
    (mkNodeArgsHelper model context pipeline_postproc default_stream dist_stream [] model).

(** The sharded call nodes with an argument, in graph order *)
Definition sharded_calls (sm : gmap string oid) (graph : list Node) : list Node :=
  filter (fun node => is_Some (sharded_target sm node) /\ total_num_args node <> 0%nat) graph.

(** What the loop of [_rewrite_model], started in [st0] and [w0], has made
    of the nodes [seen] when it is in [st] and [w].  Every sharded call node
    with an argument has had its turn, in the state [st1], [w1] the nodes
    before it left: when [get_node_args] found all its arguments, its
    module stands in the pipelined list at the place that list had reached,
    and the forward the module had at that moment stands at the same place
    of the original forwards; otherwise its name stands in the non-pipelined
    list at the place that list had reached.  A sharded module that is not
    in the pipelined list is as it was. *)
Definition placed (sm : gmap string oid) (context : loc) (ds : option stream)
  (pf : forward_class) (st0 : Rewrite) (w0 : World) (seen : list Node) (st : Rewrite)
  (w : World) : Prop :=
  foldM (rewrite_node sm context ds pf) seen st0 w0 = (Ok st, w) /\
  (forall before node after child,
     seen = (before ++ node :: after)%list ->
     sharded_target sm node = Some child -> total_num_args node <> 0%nat ->
     exists st1 w1 arg_info_list num_found h w2,
       foldM (rewrite_node sm context ds pf) before st0 w0 = (Ok st1, w1) /\
       get_node_args node false (args_helper st1) w1
       = (Ok ((arg_info_list, num_found), h), w2) /\
       (num_found = total_num_args node ->
        pipelined_forwards st !! length (pipelined_forwards st1) = Some child /\
        exists m, sharded w2 !! child = Some m /\
                  original_forwards st !! length (original_forwards st1)
                  = Some (forward m)) /\
       (num_found <> total_num_args node ->
        non_pipelined_sharded_modules st !! length (non_pipelined_sharded_modules st1)
        = Some (target_str (node_target node)))) /\
  (forall o, o ∉ pipelined_forwards st -> sharded w !! o = sharded w0 !! o).

(** The size of the sliding window of contexts *)
Definition window (s : SparseDataDistUtil) : nat :=
  if _with_prefetch s then 3%nat else 2%nat.

(** [n] calls of [_advance_context] in a row *)
Fixpoint advance_times (n : nat) : Py unit :=
  match n with
  | O => ret tt
  | S n' => let* _ := _advance_context in advance_times n'
  end.

(** Every pipelined module is in the store and carries an intercepting
    forward. *)
Definition attached (w : World) : Prop :=
  forall o, o ∈ _pipelined_modules (sdd w) ->
    exists m f, sharded w !! o = Some m /\ forward m = Intercepting f.

(** A sharded module whose intercepting forward points at [context] *)
Definition repoint (context : loc) (m : ShardedModule) : ShardedModule :=
  match forward m with
  | Intercepting f =>
      with_forward m (Intercepting (mkBaseForward (fwd_class f) (_name f) (_args f)
                                      (_module f) context (_stream f)))
  | OriginalForward _ => m
  end.

(** The store after one [_advance_context] from [w] *)
Definition advanced (w : World) : World :=
  let s := sdd w in
  let new := next_loc w in
  let deque := (tail (_contexts s) ++ [new])%list in
  let current := hd new deque in
  mkWorld
    (<[new := new_context (if _with_prefetch s then PrefetchTrainPipelineContextClass
                           else TrainPipelineContextClass)
                (_next_index s) _TRAIN_CONTEXT_VERSION]> (contexts w))
    (S new)
    (fold_left (fun pc p => <[pp_self p := current]> pc) (_pipelined_postprocs s)
       (postproc_context w))
    (fold_left (fun sh o => alter (repoint current) o sh) (_pipelined_modules s) (sharded w))
    (next_oid w) (next_module_ctx w) (forward_hooks w) (next_handle w) (tracer w)
    (graph_module_jit w)
    (set_next_index (set_contexts s deque) (_next_index s + 1))
    (trace w ++ [AdvanceContext])%list.

(** No context lies at or beyond the allocation pointer. *)
Definition heap_closed (w : World) : Prop :=
  (forall l, is_Some (contexts w !! l) -> (l < next_loc w)%nat) /\
  (forall l, l ∈ _contexts (sdd w) -> (l < next_loc w)%nat).

Definition is_postproc_call (e : event) : Prop :=
  match e with
  | PostprocModuleCall _ _ _ _ => True
  | _ => False
  end.

(** From [w] to [w'] the orchestrator, the forward of every sharded module,
    the hooks are the same, no context is lost, and the trace has grown
    by executions of postproc modules only. *)
Definition distributes (w w' : World) : Prop :=
  sdd w' = sdd w /\
  (forall o, forward <$> sharded w' !! o = forward <$> sharded w !! o) /\
  forward_hooks w' = forward_hooks w /\ next_handle w' = next_handle w /\
  next_loc w' = next_loc w /\
  (forall l, is_Some (contexts w !! l) -> is_Some (contexts w' !! l)) /\
  exists evs, trace w' = (trace w ++ evs)%list /\ Forall is_postproc_call evs.

(** From [w] to [w'] the orchestrator, the contexts, the hooks and the trace
    are the same. *)
Definition rewrites (w w' : World) : Prop :=
  sdd w' = sdd w /\ contexts w' = contexts w /\ next_loc w' = next_loc w /\
  forward_hooks w' = forward_hooks w /\ next_handle w' = next_handle w /\
  trace w' = trace w.

(** Everything in the store but the contexts and the trace *)
Definition frame_of (w : World) :=
  (next_loc w, postproc_context w, sharded w, next_oid w, next_module_ctx w,
   forward_hooks w, next_handle w, sdd w).

(** From [w] to [w'] only cached postproc results and the trace have
    changed. *)
Definition caches_only (w w' : World) : Prop :=
  frame_of w' = frame_of w /\
  (forall l, match contexts w !! l, contexts w' !! l with
             | Some c, Some c' => exists m, c' = with_postproc_fwd_results c m
             | None, None => True
             | _, _ => False
             end) /\
  exists evs, trace w' = (trace w ++ evs)%list.

(** From [w] to [w'] only postproc wrappers have been created. *)
Definition wrappers_only (w w' : World) : Prop :=
  contexts w' = contexts w /\ next_loc w' = next_loc w /\ sharded w' = sharded w /\
  next_module_ctx w' = next_module_ctx w /\ forward_hooks w' = forward_hooks w /\
  next_handle w' = next_handle w /\ sdd w' = sdd w /\ trace w' = trace w /\
  tracer w' = tracer w /\ graph_module_jit w' = graph_module_jit w /\
  (next_oid w <= next_oid w')%nat /\
  (forall o, (o < next_oid w)%nat -> postproc_context w' !! o = postproc_context w !! o).

(** ** Sample states *)

Definition sample_sdd : SparseDataDistUtil :=
  mkSDD (BareModel (NNModule (nn_forward (fun _ _ => Ok VNone)) [] [])) 0%nat false None 0 []
    false [] [] None [] [] PipelinedForward None false false.

Definition sample_world : World :=
  mkWorld ∅ 0%nat ∅ ∅ 0%nat 0%nat ∅ 0%nat (fun _ _ => Ok []) (fun m _ => m) sample_sdd [].

Definition sample_batch : value :=
  VObj [("ids", VList [VInt 7; VInt 8]); ("weights", VNone)].

(** A parameter-free module that hands back its positional arguments *)
Definition sample_postproc_module : Module :=
  NNModule (nn_forward (fun pos _ => Ok (VList pos))) [] [].

Definition sample_postproc : PipelinedPostproc :=
  mkPipelinedPostproc 0%nat sample_postproc_module "postproc"
    (mkCallArgs [mkArgInfo [GetAttrArgInfoStep "ids"]] []) None None.

(** One context, at address 0, to which [sample_postproc] points *)
Definition postproc_world : World :=
  mkWorld {[ 0%nat := new_context TrainPipelineContextClass 0 1 ]} 1%nat
    {[ 0%nat := 0%nat ]} ∅ 1%nat 0%nat ∅ 0%nat (fun _ _ => Ok []) (fun m _ => m)
    sample_sdd [].

Definition sample_sharded_module : ShardedModule :=
  mkShardedModule (OriginalForward 0) []
    (fun _ _ _ => Ok (OtherSplitsAwaitable (Ok (mkAwaitable (Ok (VTensor 0))))))
    (fun _ data => Ok (mkAwaitable (Ok data))).

Definition sample_forward : BaseForward :=
  mkBaseForward PipelinedForward "ebc" (mkCallArgs [mkArgInfo [NoopArgInfoStep]] [])
    0%nat 0%nat None.

(** A context in which the request of "ebc" is pending and its module
    execution context is recorded *)
Definition ready_context : TrainPipelineContext :=
  with_module_contexts
    (with_input_dist_tensors_requests (new_context TrainPipelineContextClass 0 1)
       {[ "ebc" := mkAwaitable (Ok (VTensor 1)) ]})
    {[ "ebc" := 5%nat ]}.

(** A context in which the request of "ebc" is pending and no module
    execution context is recorded *)
Definition pending_only_context : TrainPipelineContext :=
  with_input_dist_tensors_requests (new_context TrainPipelineContextClass 0 1)
    {[ "ebc" := mkAwaitable (Ok (VTensor 1)) ]}.

Definition world_of_context (c : TrainPipelineContext) : World :=
  mkWorld {[ 0%nat := c ]} 1%nat ∅ {[ 0%nat := sample_sharded_module ]} 1%nat 0%nat ∅ 0%nat
    (fun _ _ => Ok []) (fun m _ => m) sample_sdd [].

(** *** The hand-off invariant *)

(** Batches taken from the iterator and not yet returned: the one the main
    thread has taken out of the slot, the one in the slot, the one [run]
    holds in its local variable. *)
Definition in_flight (t : DataLoadingThread) : list value :=
  (match consumer t with
   | C_clear_filled batch | C_set_empty batch => [batch]
   | _ => []
   end ++
   match _buffered t with Some batch => [batch] | None => [] end ++
   match producer t with P_store batch => [batch] | _ => [] end)%list.

Definition loading (p : producer_pc) : bool :=
  match p with P_next | P_store _ => true | _ => false end.

Definition past_wait_empty (p : producer_pc) : bool :=
  match p with
  | P_if_stop | P_stop_set_filled | P_next | P_exhausted_stop | P_exhausted_filled
  | P_store _ | P_clear_empty => true
  | _ => false
  end.

Definition holding (c : consumer_pc) : bool :=
  match c with
  | C_if_none (Some _) | C_take _ | C_clear_filled _ | C_set_empty _ => true
  | _ => false
  end.

Definition past_wait_filled (c : consumer_pc) : bool :=
  match c with
  | C_read | C_if_none _ | C_take _ | C_clear_filled _ => true
  | _ => false
  end.

Definition handoff_invariant (dataloader_iter : list value) (t : DataLoadingThread) : Prop :=
  (loading (producer t) = true -> _buffered t = None) /\
  (producer t = P_if_stop -> _stop t = false -> _buffered t = None) /\
  (_buffer_empty_event t = true -> _buffered t <> None ->
   _stop t = true \/ producer t = P_clear_empty) /\
  (holding (consumer t) = true ->
   loading (producer t) = false /\
   (producer t = P_if_stop -> _stop t = true) /\
   (_buffer_empty_event t = true -> _stop t = true \/ producer t = P_clear_empty)) /\
  (forall batch, consumer t = C_clear_filled batch \/ consumer t = C_set_empty batch ->
                 _buffered t = None) /\
  (forall batch, consumer t = C_if_none (Some batch) \/ consumer t = C_take batch ->
                 _buffered t = Some batch) /\
  (consumer t = S_set_filled \/ consumer t = S_set_empty -> _stop t = true) /\
  (past_wait_empty (producer t) = true -> _buffer_empty_event t = true) /\
  (past_wait_filled (consumer t) = true -> _buffer_filled_event t = true) /\
  dataloader_iter = (returned t ++ in_flight t ++ _dataloader_iter t)%list.

(** A model with one sharded module, "ebc", and the store that holds it *)
Definition ebc_model : Model :=
  BareModel (NNModule (nn_forward (fun _ _ => Ok VNone)) [] [("ebc", ShardedModuleRef 0%nat ["weight"])]).

Definition batch_placeholder : Node := mkNode placeholder (TargetName "batch") [] [] None.

(** [ebc(batch)] *)
Definition ebc_call : Node :=
  mkNode call_module (TargetName "ebc") [ArgNode batch_placeholder] [] None.

(** [ebc()] *)
Definition ebc_call_no_input : Node := mkNode call_module (TargetName "ebc") [] [] None.

(** [relu(batch)], a call the walk does not see through, and
    [ebc(relu(batch))] *)
Definition relu_call : Node :=
  mkNode call_function (TargetFunction "torch.nn.functional" "relu")
    [ArgNode batch_placeholder] [] None.

Definition ebc_call_relu : Node :=
  mkNode call_module (TargetName "ebc") [ArgNode relu_call] [] None.

(** [batch[key]] and [ebc(batch[key])] *)
Definition batch_item (key : value) : Node :=
  mkNode call_function (TargetFunction "_operator" "getitem")
    [ArgNode batch_placeholder; ArgConst key] [] None.

Definition ebc_call_item (key : value) : Node :=
  mkNode call_module (TargetName "ebc") [ArgNode (batch_item key)] [] None.

(** A model with an empty [nn.Sequential] before its sharded module, and
    the calls [seq(batch)] and [ebc(seq(batch))] *)
Definition container_model : Model :=
  BareModel
    (NNModule (nn_forward (fun _ _ => Ok VNone)) []
       [("seq", NNModule (mkModuleImpl (fun pos _ => Ok (default VNone (head pos))) false)
                  [] []);
        ("ebc", ShardedModuleRef 0%nat ["weight"])]).

Definition seq_call : Node :=
  mkNode call_module (TargetName "seq") [ArgNode batch_placeholder] [] None.

Definition ebc_call_seq : Node :=
  mkNode call_module (TargetName "ebc") [ArgNode seq_call] [] None.

Definition world_of_graph (graph : list Node) : World :=
  mkWorld {[ 0%nat := new_context TrainPipelineContextClass 0 1 ]} 1%nat ∅
    {[ 0%nat := sample_sharded_module ]} 1%nat 0%nat ∅ 0%nat
    (fun _ _ => Ok graph) (fun m _ => m) sample_sdd [].

(** Every context of the window has been allocated. *)
Definition window_closed (w : World) : Prop :=
  forall l, l ∈ _contexts (sdd w) -> (l < next_loc w)%nat.

(** An orchestrator over [ebc_model] that has not started, and the store
    in which tracing the model gives [ebc(batch)] *)
Definition pipeline_sdd (prefetch : option stream) : SparseDataDistUtil :=
  mkSDD ebc_model 0%nat false prefetch 0 [] false [] [] None [] [] PipelinedForward None
    false false.

Definition pipeline_world (prefetch : option stream) : World :=
  mkWorld ∅ 0%nat ∅ {[ 0%nat := sample_sharded_module ]} 1%nat 0%nat ∅ 0%nat
    (fun _ _ => Ok [batch_placeholder; ebc_call]) (fun m _ => m) (pipeline_sdd prefetch) [].

(** From [w] to [w'] no event has been recorded. *)
Definition quiet (w w' : World) : Prop := trace w' = trace w.

(** What a run of the post-forward hook, or of the fill-phase callback,
    from [w] may add to the trace: on return the wait on the context in
    flight, then the advance; when an exception is raised, a prefix of
    these two. *)
Definition waits_then_advances (m : Py unit) (w : World) : Prop :=
  exists evs,
    trace (snd (m w)) = (trace w ++ evs)%list /\
    match fst (m w) with
    | Ok _ =>
        exists ctx, _start_dist_context w = (Ok ctx, w) /\
                    evs = [WaitSparseDataDist ctx; AdvanceContext]
    | Raise _ =>
        evs = [] \/
        exists ctx, evs = [WaitSparseDataDist ctx] \/
                    evs = [WaitSparseDataDist ctx; AdvanceContext]
    end.

(** The store once [start_sparse_data_dist] has run for a first batch *)
Definition running_world (prefetch : option stream) : World :=
  snd (start_sparse_data_dist sample_batch (pipeline_world prefetch)).

(** A model whose postproc module lies one level down, at "a.b", next to
    the sharded module it feeds, and the store in which tracing the model
    gives [a.ebc(a.b(batch))]; postprocs are pipelined. *)
Definition nested_module : Module :=
  NNModule (nn_forward (fun _ _ => Ok VNone)) []
    [("a", NNModule (nn_forward (fun _ _ => Ok VNone)) []
             [("b", sample_postproc_module); ("ebc", ShardedModuleRef 0%nat ["weight"])])].

Definition nested_postproc_call : Node :=
  mkNode call_module (TargetName "a.b") [ArgNode batch_placeholder] [] None.

Definition nested_ebc_call : Node :=
  mkNode call_module (TargetName "a.ebc") [ArgNode nested_postproc_call] [] None.

Definition nested_world : World :=
  mkWorld ∅ 0%nat ∅ {[ 0%nat := sample_sharded_module ]} 1%nat 0%nat ∅ 0%nat
    (fun _ _ => Ok [batch_placeholder; nested_postproc_call; nested_ebc_call]) (fun m _ => m)
    (mkSDD (BareModel nested_module) 0%nat false None 0 [] false [] [] None [] []
       PipelinedForward None false true) [].

(** The child of [module] reached by following [path] name by name *)
Fixpoint Module_get_submodule (module : Module) (path : list string) : option Module :=
  match path with
  | [] => Some module
  | name :: rest =>
      match module with
      | NNModule _ _ children =>
          match first_named name children with
          | Some child => Module_get_submodule child rest
          | None => None
          end
      | _ => None
      end
  end.

(** A model whose modules own parameters, "a.b" among them, and a wrapper
    of "a.b" *)
Definition owning_module : Module :=
  NNModule (nn_forward (fun _ _ => Ok VNone)) []
    [("a", NNModule (nn_forward (fun _ _ => Ok VNone)) ["bias"]
             [("b", NNModule (nn_forward (fun pos _ => Ok (VList pos))) ["w"] []);
              ("ebc", ShardedModuleRef 0%nat ["weight"])])].

Definition owning_postproc : PipelinedPostproc :=
  mkPipelinedPostproc 1%nat (NNModule (nn_forward (fun pos _ => Ok (VList pos))) ["w"] [])
    "a.b" (mkCallArgs [mkArgInfo [NoopArgInfoStep]] []) None (Some 0%nat).

(** The wrapper that attaching [nested_world] puts at "a.b" *)
Definition nested_postproc : PipelinedPostproc :=
  mkPipelinedPostproc 1%nat sample_postproc_module "a.b"
    (mkCallArgs [mkArgInfo [NoopArgInfoStep]] []) None (Some 0%nat).

Definition nested_attached : World :=
  snd (start_sparse_data_dist sample_batch nested_world).

(** [n] statements of [run] in a row, the main thread standing still *)
Fixpoint producer_steps (n : nat) (t : DataLoadingThread) : DataLoadingThread :=
  match n with
  | O => t
  | S n' =>
      match producer_step t with
      | Some t' => producer_steps n' t'
      | None => t
      end
  end.

(** ** Vocabulary of the further properties *)

(** From [w] to [w'] the work in flight is as it was: the window, the index
    of the next context, the contexts themselves, the contexts the postprocs
    point at, the trace. *)
Definition keeps_in_flight (w w' : World) : Prop :=
  _contexts (sdd w') = _contexts (sdd w) /\ _next_index (sdd w') = _next_index (sdd w) /\
  contexts w' = contexts w /\ next_loc w' = next_loc w /\
  postproc_context w' = postproc_context w /\ trace w' = trace w.

(** From [w] to [w'] the registered hooks are the same. *)
Definition keeps_hooks (w w' : World) : Prop := forward_hooks w' = forward_hooks w.

(** From [w] to [w'] only the context at [ctx] has changed, and in it only
    the tensors requests of the names in [names]. *)
Definition fills_requests (ctx : loc) (names : list string) (w w' : World) : Prop :=
  (forall l, l <> ctx -> contexts w' !! l = contexts w !! l) /\
  (forall c, contexts w !! ctx = Some c ->
     exists c', contexts w' !! ctx = Some c' /\
                c' = with_input_dist_tensors_requests c (input_dist_tensors_requests c') /\
                forall name, name ∉ names ->
                  input_dist_tensors_requests c' !! name
                  = input_dist_tensors_requests c !! name) /\
  frame_of w' = frame_of w /\ trace w' = trace w.

(** From [w] to [w'] the component [f] of the store is the same. *)
Definition keeps {A} (f : World -> A) (w w' : World) : Prop := f w' = f w.

(** The forwards saved by a rewriting from the store [w0]: as many as
    modules pipelined, a module not pipelined is in [w] what it was, and
    where a module is pipelined for the first time the forward saved with
    it is the one it had in [w0]. *)
Definition saves_forwards (w0 : World) (st : Rewrite) (w : World) : Prop :=
  length (original_forwards st) = length (pipelined_forwards st) /\
  (forall o, o ∉ pipelined_forwards st -> sharded w !! o = sharded w0 !! o) /\
  (forall i o f,
     pipelined_forwards st !! i = Some o -> original_forwards st !! i = Some f ->
     (forall j, (j < i)%nat -> pipelined_forwards st !! j <> Some o) ->
     forward <$> sharded w0 !! o = Some f).

(** ** Induction over module trees *)

Section module_induction.
Variable P : Module -> Prop.
Hypothesis HNNModule : forall f parameters children,
    Forall (fun nc => P (snd nc)) children -> P (NNModule f parameters children).
Hypothesis HShardedModuleRef : forall o parameters, P (ShardedModuleRef o parameters).
Hypothesis HPipelinedPostprocModule : forall o m f a ds dd,
    P m -> P (PipelinedPostprocModule (mkPipelinedPostproc o m f a ds dd)).

Fixpoint module_induction (m : Module) {struct m} : P m :=
  match m with
  | NNModule f parameters children =>
      HNNModule f parameters children
        ((fix go (cs : list (string * Module)) : Forall (fun nc => P (snd nc)) cs :=
            match cs with
            | [] => @List.Forall_nil _ _
            | (name, child) :: cs' =>
                @List.Forall_cons _ (fun nc => P (snd nc)) (name, child) cs'
                  (module_induction child) (go cs')
            end) children)
  | ShardedModuleRef o parameters => HShardedModuleRef o parameters
  | PipelinedPostprocModule p =>
      match p with
      | mkPipelinedPostproc o wrapped f a ds dd =>
          HPipelinedPostprocModule o wrapped f a ds dd (module_induction wrapped)
      end
  end.
End module_induction.

(** No [PipelinedPostproc] anywhere in the tree *)
Fixpoint wrapper_free (m : Module) {struct m} : bool :=
  match m with
  | NNModule _ _ children =>
      (fix go (cs : list (string * Module)) : bool :=
         match cs with
         | [] => true
         | (_, child) :: cs' => wrapper_free child && go cs'
         end) children
  | ShardedModuleRef _ _ => true
  | PipelinedPostprocModule _ => false
  end.

(** ** [PrecisionSessionMetric]: the per-task hooks *)

(** [task_config : Union[RecTaskInfo, List[RecTaskInfo]]] *)
Inductive task_config : Type :=
| OneTask (task : RecTaskInfo)
| TaskList (tasks : list RecTaskInfo).

(** [PrecisionSessionMetric._get_task_kwargs] *)
Definition _get_task_kwargs (config : task_config)
  : result (list (string * SessionMetricDef)) :=
  match config with
  | TaskList _ => Raise (RecMetricException "Session metric can only take one task at a time")
  | OneTask task =>
      match session_metric_def task with
      | None => Raise (RecMetricException "Please, specify the session metric definition")
      | Some d => Ok [("session_metric_def", d)]
      end
  end.

(** The truth value of an optional string: [None] and the empty string are
    false. *)
Definition truthy (s : option string) : bool :=
  match s with
  | Some (String _ _) => true
  | _ => false
  end.

(** [PrecisionSessionMetric._get_task_required_inputs] *)
Definition _get_task_required_inputs (config : task_config) : result (gset string) :=
  match config with
  | TaskList _ => Raise (RecMetricException "Session metric can only take one task at a time")
  | OneTask task =>
      match session_metric_def task with
      | None => Raise (RecMetricException "Please, specify the session metric definition")
      | Some d =>
          Ok (if truthy (session_var_name d)
              then match session_var_name d with Some n => {[ n ]} | None => ∅ end
              else ∅)
      end
  end.

(** ** Leaf modules for tracing, and scripting *)

(** [isinstance(m, ShardedModule)] *)
Definition is_ShardedModule (m : Module) : bool :=
  match m with
  | ShardedModuleRef _ _ => true
  | _ => false
  end.

(** [module.named_children()].  A [PipelinedPostproc] holds the wrapped
    module as its attribute [_postproc_module]; the sub-modules of a sharded
    module are kept in the store, and neither traversal below descends into
    a sharded module. *)
Definition Module_named_children (m : Module) : list (string * Module) :=
  match m with
  | NNModule _ _ children => children
  | ShardedModuleRef _ _ => []
  | PipelinedPostprocModule p => [("_postproc_module", postproc_module p)]
  end.

(** The module is a sharded module or has one below it. *)
Fixpoint contains_sharded (m : Module) {struct m} : bool :=
  match m with
  | NNModule _ _ children =>
      (fix go (cs : list (string * Module)) : bool :=
         match cs with
         | [] => false
         | (_, child) :: cs' => contains_sharded child || go cs'
         end) children
  | ShardedModuleRef _ _ => true
  | PipelinedPostprocModule p =>
      match p with
      | mkPipelinedPostproc _ wrapped _ _ _ _ => contains_sharded wrapped
      end
  end.

Section leaf_modules.
(** [getattr(child, "_is_pytorch_fx_traceable", False)] *)
Variable fx_traceable : Module -> bool.

(** The second loop of [_get_leaf_module_names_helper] *)
Fixpoint add_leaf_names (path : string) (sharded_children : gset string)
  (children : list (string * Module)) (leaf_module_names : gset string) : gset string :=
  match children with
  | [] => leaf_module_names
  | (name, child) :: rest =>
      add_leaf_names path sharded_children rest
        (if decide (name ∈ sharded_children) then leaf_module_names
         else if fx_traceable child then leaf_module_names
         else {[ (path ++ name)%string ]} ∪ leaf_module_names)
  end.

(** The first loop of [_get_leaf_module_names_helper], [visit] standing for
    the test on the child and the recursive call: the names of the children
    that are or hold a sharded module, and the set of leaf names *)
Fixpoint visit_children (visit : string -> Module -> gset string -> bool * gset string)
  (children : list (string * Module)) (leaf_module_names : gset string)
  : gset string * gset string :=
  match children with
  | [] => (∅, leaf_module_names)
  | (name, child) :: rest =>
      let (child_sharded, names) := visit name child leaf_module_names in
      let (sharded_children, names') := visit_children visit rest names in
      (if child_sharded then {[ name ]} ∪ sharded_children else sharded_children, names')
  end.

(** [_get_leaf_module_names_helper]: whether a child is or holds a sharded
    module, and the set of names as the call leaves it *)
Fixpoint _get_leaf_module_names_helper (model : Module) (path : string)
  (leaf_module_names : gset string) {struct model} : bool * gset string :=
  let visit (name : string) (child : Module) (names : gset string) :=
    match child with
    | ShardedModuleRef _ _ => (true, names)
    | _ => _get_leaf_module_names_helper child (path ++ name ++ ".")%string names
    end in
  let finish (children : list (string * Module)) (r : gset string * gset string) :=
    let (sharded_children, names) := r in
    if decide (sharded_children = ∅) then (false, names)
    else (true, add_leaf_names path sharded_children children names) in
  match model with
  | NNModule _ _ children =>
      finish children (visit_children visit children leaf_module_names)
  | ShardedModuleRef _ _ => (false, leaf_module_names)
  | PipelinedPostprocModule p =>
      match p with
      | mkPipelinedPostproc _ wrapped _ _ _ _ =>
          finish [("_postproc_module", wrapped)]
            (visit_children visit [("_postproc_module", wrapped)] leaf_module_names)
      end
  end.

(** What the test on a child and the recursive call are to satisfy for the
    loop over the children to be right *)
Definition visit_sound (visit : string -> Module -> gset string -> bool * gset string)
  (child : Module) : Prop :=
  forall name names,
    fst (visit name child names) = contains_sharded child /\
    names ⊆ snd (visit name child names) /\
    (contains_sharded child = false -> snd (visit name child names) = names).

Definition helper_sound (m : Module) : Prop :=
  forall path names,
    fst (_get_leaf_module_names_helper m path names)
    = (if is_ShardedModule m then false else contains_sharded m) /\
    names ⊆ snd (_get_leaf_module_names_helper m path names) /\
    (contains_sharded m = false ->
     snd (_get_leaf_module_names_helper m path names) = names).

(** [leaf_of m path n]: [n] names a module below [m], itself at [path],
    that is not marked traceable and holds no sharded module, while its
    parent does. *)
Inductive leaf_of : Module -> string -> string -> Prop :=
| leaf_here m path name child :
    (name, child) ∈ Module_named_children m ->
    contains_sharded m = true -> contains_sharded child = false ->
    fx_traceable child = false ->
    leaf_of m path (path ++ name)%string
| leaf_below m path name child n :
    (name, child) ∈ Module_named_children m ->
    is_ShardedModule child = false ->
    leaf_of child (path ++ name ++ ".")%string n ->
    leaf_of m path n.

Definition names_sound (m : Module) : Prop :=
  forall path names n,
    n ∈ snd (_get_leaf_module_names_helper m path names) ->
    n ∈ names \/ leaf_of m path n.

(** [_get_leaf_module_names]: the names, as a set *)
Definition _get_leaf_module_names (model : Module) : gset string :=
  snd (_get_leaf_module_names_helper model "" ∅).
End leaf_modules.

Section jit_modules.
(** [torch.jit.script(child)] *)
Variable jit_script : Module -> result Module.

(** The first loop of [_jit_modules], [visit] standing for the test on the
    child and the recursive call: the names of the children that are or hold
    a sharded module, and the children as the recursive calls leave them *)
Fixpoint jit_visit_children (visit : string -> Module -> result (bool * Module))
  (children : list (string * Module)) : result (gset string * list (string * Module)) :=
  match children with
  | [] => Ok (∅, [])
  | (name, child) :: rest =>
      match visit name child with
      | Raise e => Raise e
      | Ok (child_sharded, child') =>
          match jit_visit_children visit rest with
          | Raise e => Raise e
          | Ok (sharded_children, rest') =>
              Ok (if child_sharded then {[ name ]} ∪ sharded_children else sharded_children,
                  (name, child') :: rest')
          end
      end
  end.

(** The second loop of [_jit_modules] *)
Fixpoint script_children (optional : bool) (sharded_children : gset string)
  (children : list (string * Module)) : result (list (string * Module)) :=
  match children with
  | [] => Ok []
  | (name, child) :: rest =>
      let continue (child' : Module) :=
        match script_children optional sharded_children rest with
        | Raise e => Raise e
        | Ok rest' => Ok ((name, child') :: rest')
        end in
      if decide (name ∈ sharded_children) then continue child
      else
        match jit_script child with
        | Ok jit_child => continue jit_child
        | Raise error => if optional then continue child else Raise error
        end
  end.

(** [_jit_modules]: whether a child is or holds a sharded module, and the
    module as the call leaves it *)
Fixpoint _jit_modules (module : Module) (path : string) (optional : bool) {struct module}
  : result (bool * Module) :=
  let visit (name : string) (child : Module) :=
    match child with
    | ShardedModuleRef _ _ => Ok (true, child)
    | _ => _jit_modules child (path ++ name ++ ".")%string optional
    end in
  let finish (rebuild : list (string * Module) -> Module)
             (r : result (gset string * list (string * Module))) :=
    match r with
    | Raise e => Raise e
    | Ok (sharded_children, children) =>
        if decide (sharded_children = ∅) then Ok (false, rebuild children)
        else
          match script_children optional sharded_children children with
          | Raise e => Raise e
          | Ok children' => Ok (true, rebuild children')
          end
    end in
  match module with
  | NNModule f parameters children =>
      finish (NNModule f parameters) (jit_visit_children visit children)
  | ShardedModuleRef _ _ => Ok (false, module)
  | PipelinedPostprocModule p =>
      match p with
      | mkPipelinedPostproc o wrapped f a ds dd =>
          finish (fun children =>
                    match children with
                    | (_, wrapped') :: _ =>
                        PipelinedPostprocModule (mkPipelinedPostproc o wrapped' f a ds dd)
                    | [] => module
                    end)
                 (jit_visit_children visit [("_postproc_module", wrapped)])
      end
  end.

(** What [_jit_modules] is to do on [m] *)
Definition jit_sound (m : Module) : Prop :=
  forall path,
    (forall optional, contains_sharded m = false ->
                      _jit_modules m path optional = Ok (false, m)) /\
    (exists m', _jit_modules m path true
                = Ok (if is_ShardedModule m then false else contains_sharded m, m')) /\
    (forall optional b m',
       _jit_modules m path optional = Ok (b, m') ->
       b = if is_ShardedModule m then false else contains_sharded m).

Definition jit_visit_sound (visit : bool -> string -> Module -> result (bool * Module))
  (child : Module) : Prop :=
  forall name,
    (forall optional, contains_sharded child = false ->
                      visit optional name child = Ok (false, child)) /\
    (exists child', visit true name child = Ok (contains_sharded child, child')) /\
    (forall optional b child',
       visit optional name child = Ok (b, child') -> b = contains_sharded child).
End jit_modules.

(** ** Counting the KJT dists of a sharded module *)

(** The number of input dists with a [_dist] among those of a sub-module *)
Fixpoint dists_count (l : list InputDist) : nat :=
  match l with
  | [] => 0
  | d :: l' => (match _dist d with Some _ => 1 | None => 0 end + dists_count l')%nat
  end.

(** The number of KJT dists below the sub-modules [cs] *)
Fixpoint kjt_count (cs : list (string * SubModule)) : nat :=
  match cs with
  | [] => 0
  | (_, c) :: cs' =>
      (match _input_dists c with Some l => dists_count l | None => 0 end + kjt_count cs')%nat
  end.

(** The number of KJT dists of the sharded module at [o] in the store *)
Definition kjt_count_of (w : World) (o : oid) : nat :=
  match sharded w !! o with
  | Some m => kjt_count (named_modules m)
  | None => 0
  end.

(** From [w] to [w'] no sharded module has left the store and each has as
    many KJT dists as before. *)
Definition same_kjt_shape (w w' : World) : Prop :=
  forall o, kjt_count_of w' o = kjt_count_of w o /\
            (is_Some (sharded w !! o) -> is_Some (sharded w' !! o)).

(** [ebc(batch, weights=None)], and the helper [_rewrite_model] starts from
    on [ebc_model] without postproc pipelining *)
Definition ebc_call_weights : Node :=
  mkNode call_module (TargetName "ebc") [ArgNode batch_placeholder]
    [("weights", ArgConst VNone)] None.

Definition ebc_helper : NodeArgsHelper :=
  mkNodeArgsHelper (underlying ebc_model) 0%nat false None None [] (underlying ebc_model).

(** [names_per_pg] as the first loop of [_fuse_input_dist_splits] leaves it *)
Definition names_per_pg (requests : list (string * SplitsAwaitable))
  : list (option nat * list string) :=
  fold_left (fun d (nr : string * SplitsAwaitable) =>
               names_per_pg_append (request_pg (snd nr)) (fst nr) d)
            requests [].

(** The names of the requests of process group [pg], in the order of the
    requests *)
Definition names_of_pg (pg : option nat) (requests : list (string * SplitsAwaitable))
  : list string :=
  map fst (filter (fun nr : string * SplitsAwaitable => request_pg (snd nr) = pg) requests).

(** The module contexts [_fuse_input_dist_splits] reads, by the version of
    the context *)
Definition fused_module_contexts (c : TrainPipelineContext) : gmap string ModuleCtx :=
  if version c =? 0 then module_contexts_next_batch c else module_contexts c.

(** The entry of [fused_splits_awaitables] made for the group [pn]: its
    names, and for each name its request and its module context *)
Definition fused_entry (c : TrainPipelineContext) (pn : option nat * list string)
  (na : list string * FusedKJTListSplitsAwaitable) : Prop :=
  fst na = snd pn /\ fused_pg (snd na) = fst pn /\
  Forall2 (fun name r => assoc name (input_dist_splits_requests c) = Some r)
          (snd pn) (fused_requests (snd na)) /\
  Forall2 (fun name mc => fused_module_contexts c !! name = Some mc)
          (snd pn) (fused_contexts (snd na)).

(** A context with three splits requests pending, two of them of process
    group 0, and the module execution context of each *)
Definition requests_context : TrainPipelineContext :=
  with_module_contexts
    (with_input_dist_splits_requests (new_context TrainPipelineContextClass 0 1)
       [("t1", KJTListSplitsAwaitable [OtherSplitsMember; KJTSplitsAllToAllMeta 0]
                 (Ok (mkAwaitable (Ok (VTensor 1)))));
        ("t2", OtherSplitsAwaitable (Ok (mkAwaitable (Ok (VTensor 2)))));
        ("t3", KJTListSplitsAwaitable [KJTSplitsAllToAllMeta 0; KJTSplitsAllToAllMeta 1]
                 (Ok (mkAwaitable (Ok (VTensor 3)))))])
    {[ "t1" := 1%nat; "t2" := 2%nat; "t3" := 3%nat ]}.

(** What the loop of [_start_data_dist] has filed in the context [c] for
    the modules [seen] of the store [w]: the splits requests are under the
    names of the forwards of these modules, each name once, and every
    request has its module execution context. *)
Definition filed (w : World) (seen : list oid) (c : TrainPipelineContext) : Prop :=
  (forall name, name ∈ map fst (input_dist_splits_requests c) <->
     exists o f, o ∈ seen /\ forward <$> sharded w !! o = Some (Intercepting f) /\
                 _name f = name) /\
  NoDup (map fst (input_dist_splits_requests c)) /\
  (forall name, name ∈ map fst (input_dist_splits_requests c) ->
     is_Some (fused_module_contexts c !! name)).

(** The store once the input distribution of a first batch has been started
    and waited for, and the context the next one is started in *)
Definition waited_world : World := snd (wait_sparse_data_dist (running_world None)).

Definition waited_context : TrainPipelineContext :=
  default (new_context TrainPipelineContextClass 0 1) (contexts waited_world !! 1%nat).

(** ** Access paths

    What the traced model reads of its input before it hands it to a
    module: the input itself, an attribute of what a path reads, an item of
    it. *)
Inductive access : Type :=
| AccessInput
| AccessAttr (a : access) (name : string)
| AccessItem (a : access) (key : subscript).

(** The node the tracer records for a path: a placeholder, a call of
    [getattr], a call of [operator.getitem] *)
Fixpoint access_node (a : access) : Node :=
  match a with
  | AccessInput => mkNode placeholder (TargetName "batch") [] [] None
  | AccessAttr a name =>
      mkNode call_function (TargetFunction "builtins" "getattr")
        [ArgNode (access_node a); ArgConst (VStr name)] [] None
  | AccessItem a key =>
      mkNode call_function (TargetFunction "_operator" "getitem")
        [ArgNode (access_node a); ArgConst (subscript_value key)] [] None
  end.

(** What the model reads along a path, of the input [batch] *)
Fixpoint access_eval (a : access) (batch : value) : result value :=
  match a with
  | AccessInput => Ok batch
  | AccessAttr a name =>
      match access_eval a batch with
      | Ok v => py_getattr v name
      | Raise e => Raise e
      end
  | AccessItem a key =>
      match access_eval a batch with
      | Ok v => py_getitem v key
      | Raise e => Raise e
      end
  end.

(** The steps of a path, the first access first *)
Fixpoint access_steps (a : access) : list BaseArgInfoStep :=
  match a with
  | AccessInput => []
  | AccessAttr a name => (access_steps a ++ [GetAttrArgInfoStep name])%list
  | AccessItem a key => (access_steps a ++ [GetItemArgInfoStep key])%list
  end.

(** A computation of the argument resolution that leaves the store as it
    is and, when it returns, hands back the helper [h] it started from *)
Definition reads_only {A} (h : NodeArgsHelper) (m : Py (A * NodeArgsHelper)) : Prop :=
  forall w, snd (m w) = w /\ forall x h', fst (m w) = Ok (x, h') -> h' = h.

(** *** The alternation of the two threads

    While nobody has stopped the thread, [run] and [get_next_batch] take
    turns: the slot is empty and [run] may fill it, or [run] has filled it
    and is about to say so, or the slot is full and [get_next_batch] may
    take it. *)
Definition consumer_waits (c : consumer_pc) : Prop :=
  c = C_idle \/ c = C_wait_filled \/ c = S_stop.

Definition alternates (t : DataLoadingThread) : Prop :=
  _stop t = true \/
  match producer t with
  | P_while | P_wait_empty =>
      match consumer t with
      | C_idle | C_wait_filled | S_stop =>
          (_buffer_empty_event t = true /\ _buffer_filled_event t = false /\
           _buffered t = None) \/
          (_buffer_empty_event t = false /\ _buffer_filled_event t = true /\
           _buffered t <> None)
      | C_read =>
          _buffer_empty_event t = false /\ _buffer_filled_event t = true /\
          _buffered t <> None
      | C_if_none batch =>
          _buffer_empty_event t = false /\ _buffer_filled_event t = true /\
          _buffered t = batch /\ batch <> None
      | C_take batch =>
          _buffer_empty_event t = false /\ _buffer_filled_event t = true /\
          _buffered t = Some batch
      | C_clear_filled _ =>
          _buffer_empty_event t = false /\ _buffer_filled_event t = true /\
          _buffered t = None
      | C_set_empty _ =>
          _buffer_empty_event t = false /\ _buffer_filled_event t = false /\
          _buffered t = None
      | S_set_filled | S_set_empty => False
      end
  | P_if_stop | P_next | P_exhausted_stop | P_store _ =>
      consumer_waits (consumer t) /\ _buffer_empty_event t = true /\
      _buffer_filled_event t = false /\ _buffered t = None
  | P_clear_empty =>
      consumer_waits (consumer t) /\ _buffer_empty_event t = true /\
      _buffer_filled_event t = false /\ _buffered t <> None
  | P_set_filled =>
      consumer_waits (consumer t) /\ _buffer_empty_event t = false /\
      _buffer_filled_event t = false /\ _buffered t <> None
  | P_stop_set_filled | P_exhausted_filled | P_returned => False
  end.

(** A node that is the result of a module call, or has such a node among
    its positional arguments, or theirs, and so on *)
Inductive from_call_module : Node -> Prop :=
| from_call_module_here n : node_op n = call_module -> from_call_module n
| from_call_module_arg n a :
    ArgNode a ∈ node_args n -> from_call_module a -> from_call_module n.

(** A call of the [KeyedJaggedTensor] constructor *)
Definition KeyedJaggedTensor_call (args : list Argument) (kwargs : list (string * Argument))
  : Node :=
  mkNode call_function (TargetFunction "torchrec.sparse.jagged_tensor" "KeyedJaggedTensor")
    args kwargs None.

(** Every [PipelinedPostproc] in the tree wraps a module without
    parameters, as [_check_postproc_pipelineable] demands. *)
Fixpoint wrappers_checked (m : Module) {struct m} : bool :=
  match m with
  | NNModule _ _ children =>
      (fix go (cs : list (string * Module)) : bool :=
         match cs with
         | [] => true
         | (_, child) :: cs' => wrappers_checked child && go cs'
         end) children
  | ShardedModuleRef _ _ => true
  | PipelinedPostprocModule p =>
      match p with
      | mkPipelinedPostproc _ wrapped _ _ _ _ =>
          _check_postproc_pipelineable wrapped && wrappers_checked wrapped
      end
  end.

(** The same of the helper: of its model and of the postprocs it has
    collected *)
Definition helper_checked (h : NodeArgsHelper) : Prop :=
  wrappers_checked (helper_model h) = true /\
  Forall (fun p => _check_postproc_pipelineable (postproc_module p) = true)
         (helper_pipelined_postprocs h).

(** A computation of the argument resolution that, when it returns, hands
    back a helper with the property [I] *)
Definition keeps_helper {A} (I : NodeArgsHelper -> Prop) (m : Py (A * NodeArgsHelper))
  : Prop :=
  forall w x h' w', m w = (Ok (x, h'), w') -> I h'.

(** ** The KJT dists of a sharded module, position by position *)

(** The KJT dists among the input dists [l] of sub-module [i] of [o], the
    first of [l] standing at position [k] *)
Definition dist_refs_from (o : oid) (i k : nat) (l : list InputDist) : list kjt_ref :=
  concat (imap (fun j (d : InputDist) =>
                  match _dist d with
                  | Some _ => [(o, i, (k + j)%nat)]
                  | None => []
                  end) l).

(** The KJT dists below the sub-modules [cs] of [o], the first of [cs]
    standing at position [k] *)
Definition kjt_refs_from (o : oid) (k : nat) (cs : list (string * SubModule)) : list kjt_ref :=
  concat (imap (fun i (nc : string * SubModule) =>
                  match _input_dists (snd nc) with
                  | None => []
                  | Some l => dist_refs_from o (k + i) 0 l
                  end) cs).

(** What [set_kjt_forward] does to the sub-modules of its sharded module *)
Definition set_kjt_forward_in (cs : list (string * SubModule)) (r : kjt_ref)
  (f : KJTDistForward) : list (string * SubModule) :=
  alter (fun nc : string * SubModule =>
           (fst nc,
            mkSubModule (_has_uninitialized_input_dist (snd nc))
              (option_map (alter (set_dist_forward f) (snd r)) (_input_dists (snd nc)))))
        (snd (fst r)) cs.

(** A sharded module with KJT dists in two sub-modules *)
Definition kjt_sharded_module : ShardedModule :=
  mkShardedModule (OriginalForward 0)
    [("lookup", mkSubModule (Some false)
                  (Some [mkInputDist (Some (mkKJTAllToAll (OriginalKJTForward 1) 0 [2; 2] 1));
                         mkInputDist None;
                         mkInputDist (Some (mkKJTAllToAll (OriginalKJTForward 2) 0 [3] 1))]));
     ("plain", mkSubModule None None);
     ("pooled", mkSubModule None
                  (Some [mkInputDist (Some (mkKJTAllToAll (OriginalKJTForward 3) 1 [4] 0))]))]
    (fun _ _ _ => Ok (OtherSplitsAwaitable (Ok (mkAwaitable (Ok (VTensor 0))))))
    (fun _ data => Ok (mkAwaitable (Ok data))).

Definition kjt_world : World :=
  with_sharded sample_world {[ 0%nat := kjt_sharded_module ]}.

(** An argument that is a node the resolution gives up on, in the mode
    [f], from the helper [h] and the store [w], both left as they are *)
Definition unresolved (f : bool) (h : NodeArgsHelper) (w : World) (x : Argument) : Prop :=
  exists n, x = ArgNode n /\
            _get_node_args_helper_inner (ArgNode n) f h w = (Ok (None, h), w).

(** A node the resolution knows nothing of: [get_attr] of a parameter *)
Definition weight_node : Node := mkNode get_attr (TargetName "weight") [] [] None.

(** [ebc([weight])], and the helper of [ebc_model] that pipelines postprocs *)
Definition ebc_call_list : Node :=
  mkNode call_module (TargetName "ebc") [ArgList [ArgNode weight_node]] [] None.

Definition ebc_helper_postproc : NodeArgsHelper :=
  mkNodeArgsHelper (underlying ebc_model) 0%nat true None None [] (underlying ebc_model).

(** ** Placeholder keys

    A placeholder key as the export path writes it: a name, then accesses,
    each an attribute [.name] or an item [[key]]. *)
Inductive key_segment : Type :=
| AttrSegment (name : string)
| ItemSegment (key : string).

(** A string without [.], [[] and []] *)
Fixpoint plain (s : string) : bool :=
  match s with
  | EmptyString => true
  | String c s' =>
      negb (Ascii.eqb c dot) && negb (Ascii.eqb c lbracket) && negb (Ascii.eqb c rbracket)
      && plain s'
  end.

(** A name or a key without dot and bracket; a key is moreover one that
    [py_int] reads as Python's [int] does. *)
Definition segment_plain (seg : key_segment) : bool :=
  match seg with
  | AttrSegment name => plain name
  | ItemSegment key => plain key && ascii_key key
  end.

Fixpoint render_segments (segs : list key_segment) : string :=
  match segs with
  | [] => ""
  | AttrSegment name :: rest => ("." ++ name ++ render_segments rest)%string
  | ItemSegment key :: rest => ("[" ++ key ++ "]" ++ render_segments rest)%string
  end.

Definition render_key (first : string) (segs : list key_segment) : string :=
  (first ++ render_segments segs)%string.

(** The step [_handle_placeholder] makes of an access: an item key that
    reads as an integer is one *)
Definition segment_step (seg : key_segment) : BaseArgInfoStep :=
  match seg with
  | AttrSegment name => GetAttrArgInfoStep name
  | ItemSegment key =>
      GetItemArgInfoStep (match py_int key with
                          | Some i => IInt i
                          | None => IStr key
                          end)
  end.

(** The piece of the key that stands for an access once [[] has been
    replaced by [.] and the key split at the dots *)
Definition key_piece (seg : key_segment) : string :=
  match seg with
  | AttrSegment name => name
  | ItemSegment key => (key ++ "]")%string
  end.

(** The step [_handle_placeholder] makes of a piece *)
Definition piece_step (key : string) : BaseArgInfoStep :=
  if has_rbracket key then
    GetItemArgInfoStep (match py_int (drop_last key) with
                        | Some i => IInt i
                        | None => IStr (drop_last key)
                        end)
  else GetAttrArgInfoStep key.

(** * Properties *)

(** * Properties *)

(** ** Computations *)

Lemma bind_Ok {A B} (m : Py A) (k : A -> Py B) w a w' :
  m w = (Ok a, w') -> bind m k w = k a w'.
Proof. intros H. unfold bind. by rewrite H. Qed.

Lemma bind_Raise {A B} (m : Py A) (k : A -> Py B) w e w' :
  m w = (Raise e, w') -> bind m k w = (Raise e, w').
Proof. intros H. unfold bind. by rewrite H. Qed.

Lemma bind_inv_Ok {A B} (m : Py A) (k : A -> Py B) w b w' :
  bind m k w = (Ok b, w') -> exists a w1, m w = (Ok a, w1) /\ k a w1 = (Ok b, w').
Proof.
  unfold bind. destruct (m w) as [[a|e] w1]; [eauto | discriminate].
Qed.

Lemma mapM_lookup {A B} (f : A -> Py B) (l : list A) :
  forall w vs w', mapM f l w = (Ok vs, w') ->
    forall i a, l !! i = Some a ->
      exists v w1 w2, f a w1 = (Ok v, w2) /\ vs !! i = Some v.
Proof.
  induction l as [|x l IH]; intros w vs w' H i a Hi; [done|].
  simpl in H. apply bind_inv_Ok in H as (b & w1 & Hb & H).
  apply bind_inv_Ok in H as (bs & w2 & Hbs & H). injection H as <- <-.
  destruct i as [|i]; simpl in Hi.
  - injection Hi as <-. exists b, w, w1. done.
  - destruct (IH _ _ _ Hbs i a Hi) as (v & wa & wb & ? & ?). exists v, wa, wb. done.
Qed.

Lemma foldM_app {A B} (f : A -> B -> Py B) (l1 l2 : list A) b w :
  foldM f (l1 ++ l2) b w = bind (foldM f l1 b) (foldM f l2) w.
Proof.
  revert b w. induction l1 as [|a l1 IH]; intros b w; simpl; [reflexivity|].
  unfold bind. destruct (f a b w) as [[b'|e] w1]; [|reflexivity]. apply IH.
Qed.

Lemma stateless_ret {A} (a : A) : stateless (ret a).
Proof. by exists (Ok a). Qed.

Lemma stateless_lift {A} (r : result A) : stateless (lift r).
Proof. by exists r. Qed.

Lemma stateless_bind {A B} (m : Py A) (k : A -> Py B) :
  stateless m -> (forall a, stateless (k a)) -> stateless (bind m k).
Proof.
  intros [r Hm] Hk. destruct r as [a|e].
  - destruct (Hk a) as [r' Hr']. exists r'. intros w. unfold bind. by rewrite Hm, Hr'.
  - exists (Raise e). intros w. unfold bind. by rewrite Hm.
Qed.

Lemma stateless_mapM {A B} (f : A -> Py B) (l : list A) :
  Forall (fun a => stateless (f a)) l -> stateless (mapM f l).
Proof.
  induction 1 as [|a l Ha _ IH]; simpl.
  - apply stateless_ret.
  - apply stateless_bind; [done|]. intros b.
    apply stateless_bind; [done|]. intros bs. apply stateless_ret.
Qed.

Lemma stateless_foldM {A B} (f : A -> B -> Py B) (l : list A) :
  Forall (fun a => forall b, stateless (f a b)) l -> forall b, stateless (foldM f l b).
Proof.
  induction 1 as [|a l Ha _ IH]; intros b; simpl.
  - apply stateless_ret.
  - apply stateless_bind; [done|]. intros b'. apply IH.
Qed.

(** ** Frames: what a computation leaves alone *)

Section frames.
Variable R : World -> World -> Prop.
Hypothesis R_refl : forall w, R w w.
Hypothesis R_trans : forall w1 w2 w3, R w1 w2 -> R w2 w3 -> R w1 w3.

Local Abbreviation preserves := (preserves R).

Lemma preserves_ret {A} (a : A) : preserves (ret a).
Proof. intros w. apply R_refl. Qed.

Lemma preserves_raise {A} e : preserves (@raise A e).
Proof. intros w. apply R_refl. Qed.

Lemma preserves_lift {A} (r : result A) : preserves (lift r).
Proof. intros w. apply R_refl. Qed.

Lemma preserves_bind {A B} (m : Py A) (k : A -> Py B) :
  preserves m -> (forall a, preserves (k a)) -> preserves (bind m k).
Proof.
  intros Hm Hk w. unfold bind. specialize (Hm w).
  destruct (m w) as [[a|e] w1]; simpl in *; [|done].
  eapply R_trans; [exact Hm | apply Hk].
Qed.

Lemma preserves_mapM {A B} (f : A -> Py B) (l : list A) :
  Forall (fun a => preserves (f a)) l -> preserves (mapM f l).
Proof.
  induction 1 as [|a l Ha _ IH]; simpl; [apply preserves_ret|].
  apply preserves_bind; [done|]. intros b.
  apply preserves_bind; [done|]. intros bs. apply preserves_ret.
Qed.

Lemma preserves_foldM {A B} (f : A -> B -> Py B) (l : list A) :
  Forall (fun a => forall b, preserves (f a b)) l -> forall b, preserves (foldM f l b).
Proof.
  induction 1 as [|a l Ha _ IH]; intros b; simpl; [apply preserves_ret|].
  apply preserves_bind; [done|]. intros b'. apply IH.
Qed.

Lemma preserves_forM_ {A} (f : A -> Py unit) (l : list A) :
  Forall (fun a => preserves (f a)) l -> preserves (forM_ f l).
Proof.
  induction 1 as [|a l Ha _ IH]; simpl; [apply preserves_ret|].
  apply preserves_bind; [done|]. intros _. apply IH.
Qed.

Lemma preserves_mapS {A B S} (f : A -> S -> Py (B * S)) (l : list A) :
  Forall (fun a => forall s, preserves (f a s)) l -> forall s, preserves (mapS f l s).
Proof.
  induction 1 as [|a l Ha _ IH]; intros s; simpl; [apply preserves_ret|].
  apply preserves_bind; [done|]. intros [b s1].
  apply preserves_bind; [apply IH|]. intros [bs s2]. apply preserves_ret.
Qed.

(** The descriptors' computations preserve whatever the emission of an
    event and the caching of a postproc result preserve. *)
Hypothesis R_emit : forall o name pos kw, preserves (emit (PostprocModuleCall o name pos kw)).
Hypothesis R_cache : forall l name res w c,
    contexts w !! l = Some c ->
    R w (with_contexts w (<[l := with_postproc_fwd_results c
                                    (<[name := res]> (postproc_fwd_results c))]> (contexts w))).

Lemma preserves_get_context p : preserves (PipelinedPostproc_get_context p).
Proof.
  intros w. unfold PipelinedPostproc_get_context.
  destruct (postproc_context w !! pp_self p); apply R_refl.
Qed.

Lemma preserves_read_context l : preserves (read_context l).
Proof. intros w. unfold read_context. destruct (contexts w !! l); apply R_refl. Qed.

Lemma preserves_cache {B} l name res (k : Py B) :
  preserves k ->
  preserves (let* c := read_context l in
             let* _ := write_context l (with_postproc_fwd_results c
                                          (<[name := res]> (postproc_fwd_results c))) in
             k).
Proof.
  intros Hk w. unfold bind, read_context. destruct (contexts w !! l) as [c|] eqn:E; simpl.
  - eapply R_trans; [by apply R_cache | apply Hk].
  - apply R_refl.
Qed.

Lemma descriptors_preserve :
  (forall s arg, preserves (process s arg)) /\
  (forall a arg, preserves (process_steps a arg)) /\
  (forall c x, preserves (build_args_kwargs c x)) /\
  (forall p input kwargs, preserves (PipelinedPostproc_forward p input kwargs)).
Proof.
  pose (P := fun s => forall arg, preserves (process s arg)).
  pose (Pe := fun e => forall arg, preserves (process_element e arg)).
  pose (Pa := fun a => forall arg, preserves (process_steps a arg)).
  pose (Pc := fun c => forall x, preserves (build_args_kwargs c x)).
  pose (Pp := fun p => forall input kwargs, preserves (PipelinedPostproc_forward p input kwargs)).
  assert (HNoop : P NoopArgInfoStep) by (intros arg; apply preserves_ret).
  assert (HGetAttr : forall n, P (GetAttrArgInfoStep n)) by (intros n arg; apply preserves_lift).
  assert (HGetItem : forall i, P (GetItemArgInfoStep i)) by (intros n arg; apply preserves_lift).
  assert (HPostproc : forall p, Pp p -> P (PostprocArgInfoStep p)) by (intros p Hp arg; apply Hp).
  assert (HScalar : forall v, P (ScalarArgInfoStep v)) by (intros n arg; apply preserves_ret).
  assert (HList : forall l, Forall Pe l -> P (ListArgInfoStep l)).
  { intros l Hl arg. simpl. apply preserves_bind; [|intros; apply preserves_ret].
    apply preserves_mapM. eapply Forall_impl; [exact Hl|]. intros e He. apply He. }
  assert (HDict : forall d, Forall (fun kv => Pe (snd kv)) d -> P (DictArgInfoStep d)).
  { intros d Hd arg. simpl. apply preserves_bind; [|intros; apply preserves_ret].
    apply preserves_mapM. eapply Forall_impl; [exact Hd|]. intros e He. simpl in He.
    apply preserves_bind; [apply He|intros; apply preserves_ret]. }
  assert (HObject : forall v, Pe (ElemObject v)) by (intros v arg; apply preserves_ret).
  assert (HElem : forall a, Pa a -> Pe (ElemArgInfo a)) by (intros a Ha arg; apply Ha).
  assert (HArgInfo : forall l, Forall P l -> Pa (mkArgInfo l)).
  { intros l Hl arg. simpl. destruct l as [|s l]; [apply preserves_ret|].
    apply preserves_foldM. eapply Forall_impl; [exact Hl|]. intros e He b. apply He. }
  assert (HCallArgs : forall args kwargs, Forall Pa args ->
             Forall (fun kv => Pa (snd kv)) kwargs -> Pc (mkCallArgs args kwargs)).
  { intros args kwargs Ha Hk x. simpl. apply preserves_bind.
    - apply preserves_mapM. eapply Forall_impl; [exact Ha|]. intros e He. apply He.
    - intros vs. apply preserves_bind; [|intros; apply preserves_ret].
      apply preserves_mapM. eapply Forall_impl; [exact Hk|]. intros e He. simpl in He.
      apply preserves_bind; [apply He|intros; apply preserves_ret]. }
  assert (HPP : forall o m f a ds dd, Pc a -> Pp (mkPipelinedPostproc o m f a ds dd)).
  { intros o m f a ds dd Ha input kwargs. simpl.
    apply preserves_bind; [apply preserves_get_context|]. intros l.
    apply preserves_bind; [apply preserves_read_context|]. intros c.
    destruct (postproc_fwd_results c !! f); [apply preserves_ret|].
    apply preserves_bind; [apply preserves_lift|]. intros x.
    apply preserves_bind; [apply Ha|]. intros [args kw].
    apply preserves_bind; [apply R_emit|]. intros _.
    apply preserves_bind; [apply preserves_lift|]. intros res.
    apply preserves_bind; [apply preserves_get_context|]. intros l'.
    apply preserves_cache. apply preserves_ret. }
  split; [|split; [|split]].
  - apply (step_induction P Pe Pa Pc Pp); assumption.
  - apply (arg_info_induction P Pe Pa Pc Pp); assumption.
  - apply (call_args_induction P Pe Pa Pc Pp); assumption.
  - apply (postproc_induction P Pe Pa Pc Pp); assumption.
Qed.
End frames.

(** ** Descriptors without postproc calls *)

Lemma pure_descriptors_stateless :
  (forall a, pure_arg_info a = true -> forall arg, stateless (process_steps a arg)) /\
  (forall c, pure_call_args c = true -> forall x, stateless (build_args_kwargs c x)).
Proof.
  pose (P := fun s => pure_step s = true -> forall arg, stateless (process s arg)).
  pose (Pe := fun e => pure_element e = true -> forall arg, stateless (process_element e arg)).
  pose (Pa := fun a => pure_arg_info a = true -> forall arg, stateless (process_steps a arg)).
  assert (Hs : forall s, P s).
  { apply (step_induction P Pe Pa (fun _ => True) (fun _ => True)); subst P Pe Pa; simpl;
      try done.
    - intros; apply stateless_ret.
    - intros; apply stateless_lift.
    - intros; apply stateless_lift.
    - intros; apply stateless_ret.
    - intros l Hl Hp arg. apply stateless_bind; [|intros; apply stateless_ret].
      apply stateless_mapM. rewrite forallb_forall in Hp.
      rewrite Forall_forall in Hl |- *. intros x Hx. apply Hl; [done|].
      apply Hp. by apply list_elem_of_In.
    - intros d Hd Hp arg. apply stateless_bind; [|intros; apply stateless_ret].
      apply stateless_mapM. rewrite forallb_forall in Hp.
      rewrite Forall_forall in Hd |- *. intros x Hx.
      apply stateless_bind; [|intros; apply stateless_ret].
      apply Hd; [done|]. apply Hp. by apply list_elem_of_In.
    - intros; apply stateless_ret.
    - intros l Hl Hp arg. destruct l as [|s l]; [apply stateless_ret|].
      apply stateless_foldM. rewrite forallb_forall in Hp.
      rewrite Forall_forall in Hl |- *. intros x Hx b. apply Hl; [done|].
      apply Hp. by apply list_elem_of_In. }
  assert (Ha : forall a, Pa a).
  { subst Pa. intros [l] Hp arg. simpl in *. destruct l as [|s l]; [apply stateless_ret|].
    apply stateless_foldM. rewrite forallb_forall in Hp.
    rewrite Forall_forall. intros x Hx b. apply Hs. apply Hp. by apply list_elem_of_In. }
  split; [exact Ha|].
  intros [args kwargs] Hp x. simpl in *. apply andb_prop in Hp as [Hp1 Hp2].
  rewrite forallb_forall in Hp1. rewrite forallb_forall in Hp2.
  apply stateless_bind.
  - apply stateless_mapM. rewrite Forall_forall. intros a Hin. apply Ha, Hp1.
    by apply list_elem_of_In.
  - intros vs. apply stateless_bind; [|intros; apply stateless_ret].
    apply stateless_mapM. rewrite Forall_forall. intros a Hin.
    apply stateless_bind; [|intros; apply stateless_ret]. apply Ha, Hp2.
    by apply list_elem_of_In.
Qed.


(** C10: with no steps, [process_steps] returns [None] whatever the input,
    and [build_args_kwargs] has [None] at every position whose descriptor
    has no steps. *)
Theorem process_steps_empty_is_None :
  (forall arg w, process_steps (mkArgInfo []) arg w = (Ok VNone, w)) /\
  (forall args kwargs initial_input w vs kws w',
     build_args_kwargs (mkCallArgs args kwargs) initial_input w = (Ok (vs, kws), w') ->
     (forall i, args !! i = Some (mkArgInfo []) -> vs !! i = Some VNone) /\
     (forall i k, kwargs !! i = Some (k, mkArgInfo []) -> kws !! i = Some (k, VNone))).
Proof.
  split; [reflexivity|].
  intros args kwargs input w vs kws w' H.
  simpl in H. apply bind_inv_Ok in H as (vs' & w1 & Hargs & H).
  apply bind_inv_Ok in H as (kws' & w2 & Hkw & H). injection H as <- <- <-.
  split.
  - intros i Hi. destruct (mapM_lookup _ _ _ _ _ Hargs i _ Hi) as (v & wa & wb & Hv & ?).
    cbv in Hv. by injection Hv as <- <-.
  - intros i k Hi. destruct (mapM_lookup _ _ _ _ _ Hkw i _ Hi) as (v & wa & wb & Hv & ?).
    cbv in Hv. by injection Hv as <- <-.
Qed.

Lemma process_steps_empty_is_None_witness :
  build_args_kwargs
    (mkCallArgs [mkArgInfo []; mkArgInfo [NoopArgInfoStep]] [("weights", mkArgInfo [])])
    (VInt 5) sample_world
  = (Ok ([VNone; VInt 5], [("weights", VNone)]), sample_world)
  /\ [VNone; VInt 5] !! 0%nat = Some VNone
  /\ [("weights", VNone)] !! 0%nat = Some ("weights", VNone).
Proof.
  assert (H : build_args_kwargs
    (mkCallArgs [mkArgInfo []; mkArgInfo [NoopArgInfoStep]] [("weights", mkArgInfo [])])
    (VInt 5) sample_world
  = (Ok ([VNone; VInt 5], [("weights", VNone)]), sample_world)) by reflexivity.
  split; [exact H|].
  destruct (proj2 process_steps_empty_is_None _ _ _ _ _ _ _ H) as [Ha Hk].
  split; [apply (Ha 0%nat); reflexivity | apply (Hk 0%nat "weights"); reflexivity].
Defined.


(** ** Applying descriptors *)

(** C7: a non-empty step list is folded over in list order, each step fed
    the output of the one before and the last output returned; an attribute
    step is [getattr], an item step indexing, a scalar step its constant, a
    no-op step its input; [build_args_kwargs] applies each descriptor to the
    same initial input; descriptors without postproc calls give a result
    that does not depend on the store and leave the store as it is. *)
Theorem process_steps_in_order :
  (forall step rest arg w,
      process_steps (mkArgInfo (step :: rest)) arg w
      = bind (process step arg)
             (fun out => match rest with
                         | [] => ret out
                         | _ :: _ => process_steps (mkArgInfo rest) out
                         end) w) /\
  (forall init last arg w,
      init <> [] ->
      process_steps (mkArgInfo (init ++ [last])) arg w
      = bind (process_steps (mkArgInfo init) arg) (fun out => process last out) w) /\
  (forall arg w,
      process NoopArgInfoStep arg w = (Ok arg, w) /\
      (forall name, process (GetAttrArgInfoStep name) arg w = (py_getattr arg name, w)) /\
      (forall item, process (GetItemArgInfoStep item) arg w = (py_getitem arg item, w)) /\
      (forall v, process (ScalarArgInfoStep v) arg w = (Ok v, w))) /\
  (forall args kwargs initial_input w,
      build_args_kwargs (mkCallArgs args kwargs) initial_input w
      = bind (mapM (fun a => process_steps a initial_input) args)
             (fun pos =>
                bind (mapM (fun kv => bind (process_steps (snd kv) initial_input)
                                        (fun v => ret (fst kv, v))) kwargs)
                     (fun kw => ret (pos, kw))) w) /\
  (forall a arg, pure_arg_info a = true -> stateless (process_steps a arg)) /\
  (forall c initial_input,
      pure_call_args c = true -> stateless (build_args_kwargs c initial_input)).
Proof.
  split; [|split; [|split; [|split; [|split]]]].
  - intros step rest arg w. simpl. unfold bind.
    destruct (process step arg w) as [[out|e] w1]; [|done]. by destruct rest.
  - intros init last arg w Hne. destruct init as [|s init]; [done|].
    change (foldM (fun step arg => process step arg) ((s :: init) ++ [last]) arg w
            = bind (foldM (fun step arg => process step arg) (s :: init) arg)
                   (fun out => process last out) w).
    rewrite foldM_app. unfold bind.
    destruct (foldM _ (s :: init) arg w) as [[out|e] w1]; [|done].
    simpl. unfold bind. by destruct (process last out w1) as [[?|?] ?].
  - intros arg w. repeat split.
  - reflexivity.
  - intros a arg Hp. by apply (proj1 pure_descriptors_stateless).
  - intros c x Hp. by apply (proj2 pure_descriptors_stateless).
Qed.

Lemma process_steps_in_order_witness :
  process_steps (mkArgInfo ([GetAttrArgInfoStep "ids"] ++ [GetItemArgInfoStep (IInt (-1))]))
    sample_batch sample_world = (Ok (VInt 8), sample_world) /\
  stateless (process_steps (mkArgInfo [GetAttrArgInfoStep "ids"]) sample_batch) /\
  stateless (build_args_kwargs
               (mkCallArgs [mkArgInfo [GetAttrArgInfoStep "ids"]]
                  [("weights", mkArgInfo [ScalarArgInfoStep VNone])]) sample_batch).
Proof.
  destruct process_steps_in_order as (_ & Hsnoc & _ & _ & Hpure & Hcall).
  split; [|split].
  - rewrite (Hsnoc [GetAttrArgInfoStep "ids"] (GetItemArgInfoStep (IInt (-1))) sample_batch
               sample_world); [reflexivity | discriminate].
  - apply Hpure. reflexivity.
  - apply Hcall. reflexivity.
Defined.


(** ** Cached postproc results *)

Lemma with_postproc_fwd_results_id c :
  with_postproc_fwd_results c (postproc_fwd_results c) = c.
Proof. by destruct c. Qed.

Lemma caches_only_refl w : caches_only w w.
Proof.
  repeat split.
  - intros l. destruct (contexts w !! l) as [c|]; [|done].
    exists (postproc_fwd_results c). by rewrite with_postproc_fwd_results_id.
  - exists []. by rewrite app_nil_r.
Qed.

Lemma caches_only_trans w1 w2 w3 :
  caches_only w1 w2 -> caches_only w2 w3 -> caches_only w1 w3.
Proof.
  intros (F1 & C1 & [e1 T1]) (F2 & C2 & [e2 T2]). repeat split.
  - congruence.
  - intros l. specialize (C1 l). specialize (C2 l).
    destruct (contexts w1 !! l), (contexts w2 !! l), (contexts w3 !! l); try done.
    destruct C1 as [m1 ->], C2 as [m2 ->]. by exists m2.
  - exists (e1 ++ e2)%list. by rewrite T2, T1, app_assoc.
Qed.

Lemma caches_only_emit e : preserves caches_only (emit e).
Proof.
  intros w. repeat split; simpl.
  - intros l. destruct (contexts w !! l) as [c|]; [|done].
    exists (postproc_fwd_results c). by rewrite with_postproc_fwd_results_id.
  - by exists [e].
Qed.

Lemma caches_only_cache l name res w c :
  contexts w !! l = Some c ->
  caches_only w (with_contexts w (<[l := with_postproc_fwd_results c
                                    (<[name := res]> (postproc_fwd_results c))]> (contexts w))).
Proof.
  intros H. repeat split; simpl.
  - intros l'. destruct (decide (l = l')) as [<-|Hne].
    + rewrite H, lookup_insert_eq. by eexists.
    + rewrite lookup_insert_ne by done. destruct (contexts w !! l') as [c'|]; [|done].
      exists (postproc_fwd_results c'). by rewrite with_postproc_fwd_results_id.
  - exists []. by rewrite app_nil_r.
Qed.

Lemma build_args_kwargs_caches_only c x : preserves caches_only (build_args_kwargs c x).
Proof.
  apply (descriptors_preserve caches_only caches_only_refl caches_only_trans
           (fun o n p k => caches_only_emit _) caches_only_cache).
Qed.

Lemma PipelinedPostproc_forward_hit p input kwargs w l c res :
  postproc_context w !! pp_self p = Some l ->
  contexts w !! l = Some c ->
  postproc_fwd_results c !! fqn p = Some res ->
  PipelinedPostproc_forward p input kwargs w = (Ok res, w).
Proof.
  intros Hl Hc Hres. destruct p as [o m f a ds dd]. simpl in *.
  unfold bind, PipelinedPostproc_get_context, read_context. simpl.
  by rewrite Hl, Hc, Hres.
Qed.

(** C3: a cached result is returned as it is and nothing runs; without one
    the arguments are built from the input, the wrapped module runs once,
    its result is stored under the wrapper's name and returned, and a second
    call in that state returns the same result and changes nothing. *)
Theorem PipelinedPostproc_forward_caches :
  forall (p : PipelinedPostproc) (w : World) (l : loc) (c : TrainPipelineContext),
    postproc_context w !! pp_self p = Some l ->
    contexts w !! l = Some c ->
    (forall res input kwargs,
        postproc_fwd_results c !! fqn p = Some res ->
        PipelinedPostproc_forward p input kwargs w = (Ok res, w)) /\
    (forall x input kwargs args kw w1 res,
        postproc_fwd_results c !! fqn p = None ->
        build_args_kwargs (pp_args p) x w = (Ok (args, kw), w1) ->
        Module_call (postproc_module p) args kw = Ok res ->
        exists w2 c2,
          PipelinedPostproc_forward p (x :: input) kwargs w = (Ok res, w2) /\
          trace w2 = (trace w1 ++ [PostprocModuleCall (pp_self p) (fqn p) args kw])%list /\
          postproc_context w2 !! pp_self p = Some l /\
          contexts w2 !! l = Some c2 /\
          postproc_fwd_results c2 !! fqn p = Some res /\
          forall input' kwargs',
            PipelinedPostproc_forward p input' kwargs' w2 = (Ok res, w2)).
Proof.
  intros p w l c Hl Hc. split.
  - intros res input kwargs Hres. by eapply PipelinedPostproc_forward_hit.
  - intros x input kwargs args kw w1 res Hmiss Hbuild Hcall.
    pose proof (build_args_kwargs_caches_only (pp_args p) x w) as (HF & HC & _).
    rewrite Hbuild in HF, HC. simpl in HF, HC.
    assert (Hl1 : postproc_context w1 !! pp_self p = Some l).
    { unfold frame_of in HF. injection HF as _ -> _. done. }
    specialize (HC l). rewrite Hc in HC.
    destruct (contexts w1 !! l) as [c1|] eqn:Hc1; [|done].
    set (c2 := with_postproc_fwd_results c1 (<[fqn p := res]> (postproc_fwd_results c1))).
    set (w1e := with_trace w1 (trace w1 ++ [PostprocModuleCall (pp_self p) (fqn p) args kw])).
    set (w2 := with_contexts w1e (<[l := c2]> (contexts w1e))).
    exists w2, c2.
    assert (Hl2 : postproc_context w2 !! pp_self p = Some l) by done.
    assert (Hc2 : contexts w2 !! l = Some c2) by (simpl; apply lookup_insert_eq).
    assert (Hres2 : postproc_fwd_results c2 !! fqn p = Some res)
      by (simpl; apply lookup_insert_eq).
    split; [|repeat split; try done].
    + destruct p as [o m f a ds dd]. simpl in *.
      unfold bind at 1, PipelinedPostproc_get_context. simpl. rewrite Hl.
      unfold bind at 1, read_context. rewrite Hc, Hmiss.
      unfold bind at 1, lift. unfold bind at 1. rewrite Hbuild.
      unfold bind at 1, emit, modify. unfold bind at 1, lift. rewrite Hcall.
      unfold bind at 1, PipelinedPostproc_get_context. simpl. rewrite Hl1.
      unfold bind at 1, read_context. simpl. rewrite Hc1.
      reflexivity.
    + intros input' kwargs'. by eapply PipelinedPostproc_forward_hit.
Qed.


Lemma PipelinedPostproc_forward_caches_witness :
  exists w2,
    PipelinedPostproc_forward sample_postproc [sample_batch] [] postproc_world
    = (Ok (VList [VList [VInt 7; VInt 8]]), w2) /\
    PipelinedPostproc_forward sample_postproc [] [] w2
    = (Ok (VList [VList [VInt 7; VInt 8]]), w2).
Proof.
  destruct (PipelinedPostproc_forward_caches sample_postproc postproc_world 0%nat
              (new_context TrainPipelineContextClass 0 1) eq_refl eq_refl) as [_ Hmiss].
  destruct (Hmiss sample_batch [] [] [VList [VInt 7; VInt 8]] [] postproc_world
              (VList [VList [VInt 7; VInt 8]]) eq_refl eq_refl eq_refl)
    as (w2 & c2 & H1 & _ & _ & _ & _ & H2).
  exists w2. split; [exact H1 | apply H2].
Defined.


(** ** Intercepting forwards *)

Lemma read_context_Ok l w c : contexts w !! l = Some c -> read_context l w = (Ok c, w).
Proof. intros H. unfold read_context. by rewrite H. Qed.

Lemma read_sharded_Ok o w m : sharded w !! o = Some m -> read_sharded o w = (Ok m, w).
Proof. intros H. unfold read_sharded. by rewrite H. Qed.

Ltac step_call :=
  unfold PipelinedForward_call, PrefetchPipelinedForward_call, bind, read_context,
    read_sharded, write_context, modify, py_assert, lift, dict_pop, ret, raise; simpl.

(** C4, as the code has it: the call fails on its first assertion, the
    context untouched, exactly when the module name is missing from the
    pending map; with the name present, the request resolved, an entry for
    the name in the map of module execution contexts and, when a stream is
    set, data that is a tensor or Multistreamable, both entries are popped
    and the result of [compute_and_output_dist] is returned; without the
    execution-context entry the call raises [KeyError], the pending entry
    already popped. *)
Theorem intercepting_forward_call :
  forall (self : BaseForward) (w : World) (c : TrainPipelineContext)
         (input : list value) (kwargs : list (string * value)),
    contexts w !! _context self = Some c ->
    (PipelinedForward_call self input kwargs w
       = (Raise (AssertionError PipelinedForward_usage), w)
     <-> input_dist_tensors_requests c !! _name self = None) /\
    (forall request data ctx m,
        input_dist_tensors_requests c !! _name self = Some request ->
        wait request = Ok data ->
        module_contexts c !! _name self = Some ctx ->
        _stream self = None \/ is_multistreamable data = true ->
        sharded w !! _module self = Some m ->
        PipelinedForward_call self input kwargs w
        = (compute_and_output_dist m ctx data,
           with_contexts w
             (<[_context self :=
                  with_module_contexts
                    (with_input_dist_tensors_requests c
                       (delete (_name self) (input_dist_tensors_requests c)))
                    (delete (_name self) (module_contexts c))]> (contexts w)))) /\
    (forall request data,
        input_dist_tensors_requests c !! _name self = Some request ->
        wait request = Ok data ->
        module_contexts c !! _name self = None ->
        PipelinedForward_call self input kwargs w
        = (Raise KeyError,
           with_contexts w
             (<[_context self :=
                  with_input_dist_tensors_requests c
                    (delete (_name self) (input_dist_tensors_requests c))]> (contexts w)))) /\
    (PrefetchPipelinedForward_call self input kwargs w
       = (Raise (AssertionError PrefetchPipelinedForward_usage), w)
     <-> module_input_post_prefetch c !! _name self = None) /\
    (forall data ctx m,
        module_input_post_prefetch c !! _name self = Some data ->
        module_contexts_post_prefetch c !! _name self = Some ctx ->
        _stream self = None \/ is_multistreamable data = true ->
        sharded w !! _module self = Some m ->
        PrefetchPipelinedForward_call self input kwargs w
        = (compute_and_output_dist m ctx data,
           with_contexts w
             (<[_context self :=
                  with_module_contexts_post_prefetch
                    (with_module_input_post_prefetch c
                       (delete (_name self) (module_input_post_prefetch c)))
                    (delete (_name self) (module_contexts_post_prefetch c))]> (contexts w)))) /\
    (forall data,
        module_input_post_prefetch c !! _name self = Some data ->
        module_contexts_post_prefetch c !! _name self = None ->
        PrefetchPipelinedForward_call self input kwargs w
        = (Raise KeyError,
           with_contexts w
             (<[_context self :=
                  with_module_input_post_prefetch c
                    (delete (_name self) (module_input_post_prefetch c))]> (contexts w)))).
Proof.
  intros self w c input kwargs Hc.
  split; [|split; [|split; [|split; [|split]]]].
  - split.
    + intros H. destruct (input_dist_tensors_requests c !! _name self) as [request|] eqn:E;
        [exfalso|done].
      assert (Hw : exists c', contexts (snd (PipelinedForward_call self input kwargs w))
                              !! _context self = Some c' /\
                              input_dist_tensors_requests c' !! _name self = None).
      { clear H. step_call. rewrite Hc. simpl. rewrite E. simpl.
        destruct (wait request) as [data|e]; simpl.
        2:{ rewrite lookup_insert_eq. eexists; split; [done|]. simpl. apply lookup_delete_eq. }
        rewrite lookup_insert_eq. simpl.
        destruct (module_contexts c !! _name self) as [ctx|]; simpl.
        2:{ rewrite lookup_insert_eq. eexists; split; [done|]. simpl. apply lookup_delete_eq. }
        destruct (_stream self); [destruct (is_multistreamable data)|]; simpl;
          try destruct (sharded w !! _module self); simpl;
          rewrite lookup_insert_eq; eexists; (split; [done|]); simpl; apply lookup_delete_eq. }
      rewrite H in Hw. simpl in Hw. destruct Hw as (c' & Hc' & Hn). congruence.
    + intros E. step_call. rewrite Hc. simpl. by rewrite E.
  - intros request data ctx m E Hwait Hctx Hs Hm.
    step_call. rewrite Hc. simpl. rewrite E. simpl. rewrite Hwait. simpl.
    rewrite lookup_insert_eq. simpl. rewrite Hctx. simpl.
    rewrite insert_insert_eq.
    destruct Hs as [-> | Hd]; [|rewrite Hd; destruct (_stream self)]; simpl;
      by rewrite Hm.
  - intros request data E Hwait Hctx.
    step_call. rewrite Hc. simpl. rewrite E. simpl. rewrite Hwait. simpl.
    rewrite lookup_insert_eq. simpl. by rewrite Hctx.
  - split.
    + intros H. destruct (module_input_post_prefetch c !! _name self) as [data|] eqn:E;
        [exfalso|done].
      assert (Hw : exists c', contexts (snd (PrefetchPipelinedForward_call self input kwargs w))
                              !! _context self = Some c' /\
                              module_input_post_prefetch c' !! _name self = None).
      { clear H. step_call. rewrite Hc. simpl. rewrite E. simpl.
        rewrite lookup_insert_eq. simpl.
        destruct (module_contexts_post_prefetch c !! _name self) as [ctx|]; simpl.
        2:{ rewrite lookup_insert_eq. eexists; split; [done|]. simpl. apply lookup_delete_eq. }
        destruct (_stream self); [destruct (is_multistreamable data)|]; simpl;
          try destruct (sharded w !! _module self); simpl;
          rewrite lookup_insert_eq; eexists; (split; [done|]); simpl; apply lookup_delete_eq. }
      rewrite H in Hw. simpl in Hw. destruct Hw as (c' & Hc' & Hn). congruence.
    + intros E. step_call. rewrite Hc. simpl. by rewrite E.
  - intros data ctx m E Hctx Hs Hm.
    step_call. rewrite Hc. simpl. rewrite E. simpl.
    rewrite lookup_insert_eq. simpl. rewrite Hctx. simpl.
    rewrite insert_insert_eq.
    destruct Hs as [-> | Hd]; [|rewrite Hd; destruct (_stream self)]; simpl;
      by rewrite Hm.
  - intros data E Hctx.
    step_call. rewrite Hc. simpl. rewrite E. simpl.
    rewrite lookup_insert_eq. simpl. by rewrite Hctx.
Qed.


Lemma intercepting_forward_call_witness :
  fst (PipelinedForward_call sample_forward [] [] (world_of_context ready_context))
  = Ok (mkAwaitable (Ok (VTensor 1))).
Proof.
  destruct (intercepting_forward_call sample_forward (world_of_context ready_context)
              ready_context [] [] eq_refl) as (_ & Hcall & _).
  rewrite (Hcall (mkAwaitable (Ok (VTensor 1))) (VTensor 1) 5%nat sample_sharded_module
             eq_refl eq_refl eq_refl (or_introl eq_refl) eq_refl).
  reflexivity.
Defined.

(** The claim as the spec words it fails where the pending request is there
    and the module execution context is not: nothing is returned. *)
Lemma intercepting_forward_call_counterexample :
  ~ (is_Some (input_dist_tensors_requests pending_only_context !! "ebc") ->
     exists ctx data,
       fst (PipelinedForward_call sample_forward [] [] (world_of_context pending_only_context))
       = compute_and_output_dist sample_sharded_module ctx data).
Proof.
  intros H. destruct H as (ctx & data & H); [by eexists|].
  vm_compute in H. discriminate.
Qed.


(** ** Constructing the session-level precision metric *)

Lemma check_tasks_rejects ts :
  (exists task, task ∈ ts /\ task_incomplete task = true) ->
  exists msg, check_tasks ts = Some (RecMetricException msg).
Proof.
  induction ts as [|t ts IH]; intros (task & Hin & Hbad).
  - by apply elem_of_nil in Hin.
  - simpl. unfold task_incomplete in *.
    destruct (session_metric_def t) as [d|] eqn:Ed; [|eauto].
    destruct (top_threshold d) as [k|] eqn:Ek; [|eauto].
    apply elem_of_cons in Hin as [->|Hin]; [|eauto].
    rewrite Ed, Ek in Hbad. discriminate.
Qed.

Lemma check_tasks_accepts ts :
  (forall task, task ∈ ts -> task_incomplete task = false) -> check_tasks ts = None.
Proof.
  induction ts as [|t ts IH]; intros H; [done|]. simpl.
  pose proof (H t (list_elem_of_here _ _)) as Ht. unfold task_incomplete in Ht.
  destruct (session_metric_def t) as [d|]; [|discriminate].
  destruct (top_threshold d); [|discriminate].
  apply IH. intros task Hin. apply H. by apply list_elem_of_further.
Qed.

(** C8: a fused compute mode, a positive [fused_update_limit], or a task
    without session definition or without top threshold makes the
    constructor raise [RecMetricException]; otherwise it hands the
    arguments, as given, to the constructor of the parent class. *)
Theorem PrecisionSessionMetric_init_validates :
  forall (T : Type) (RecMetric_init : MetricArgs -> result T) (a : MetricArgs),
    (is_fused_mode (compute_mode a) = true \/
     0 < fused_update_limit a \/
     (exists task, task ∈ tasks a /\
        (session_metric_def task = None \/
         exists d, session_metric_def task = Some d /\ top_threshold d = None)) ->
     exists msg, PrecisionSessionMetric_init RecMetric_init a = Raise (RecMetricException msg)) /\
    (is_fused_mode (compute_mode a) = false ->
     fused_update_limit a <= 0 ->
     (forall task, task ∈ tasks a ->
        exists d k, session_metric_def task = Some d /\ top_threshold d = Some k) ->
     PrecisionSessionMetric_init RecMetric_init a = RecMetric_init a).
Proof.
  intros T init a. unfold PrecisionSessionMetric_init. split.
  - intros H. destruct (is_fused_mode (compute_mode a)); [eauto|].
    destruct (0 <? fused_update_limit a) eqn:El; [eauto|].
    destruct H as [H|[H|(task & Hin & Hbad)]]; [discriminate| |].
    + apply Z.ltb_ge in El. lia.
    + destruct (check_tasks_rejects (tasks a)) as [msg ->]; [|eauto].
      exists task. split; [done|]. unfold task_incomplete.
      destruct Hbad as [->|(d & -> & ->)]; done.
  - intros -> Hl Hts. replace (0 <? fused_update_limit a) with false
      by (symmetry; apply Z.ltb_ge; lia).
    rewrite check_tasks_accepts; [done|].
    intros task Hin. destruct (Hts task Hin) as (d & k & Hd & Hk).
    unfold task_incomplete. by rewrite Hd, Hk.
Qed.

Lemma PrecisionSessionMetric_init_validates_witness :
  (exists msg,
     PrecisionSessionMetric_init (fun a => Ok (length (tasks a)))
       (mkMetricArgs 1 0 8 [mkRecTaskInfo "t" None] UNFUSED_TASKS_COMPUTATION 100 0 None [])
     = Raise (RecMetricException msg)) /\
  PrecisionSessionMetric_init (fun a => Ok (length (tasks a)))
    (mkMetricArgs 1 0 8 [mkRecTaskInfo "t" (Some (mkSessionMetricDef None (Some 3) false))]
       UNFUSED_TASKS_COMPUTATION 100 0 None [])
  = Ok 1%nat.
Proof.
  split.
  - apply (proj1 (PrecisionSessionMetric_init_validates nat (fun a => Ok (length (tasks a)))
                    (mkMetricArgs 1 0 8 [mkRecTaskInfo "t" None] UNFUSED_TASKS_COMPUTATION
                       100 0 None []))).
    right; right. exists (mkRecTaskInfo "t" None). split; [apply list_elem_of_here|by left].
  - refine (eq_trans
              (proj2 (PrecisionSessionMetric_init_validates nat
                        (fun a => Ok (length (tasks a)))
                        (mkMetricArgs 1 0 8
                           [mkRecTaskInfo "t" (Some (mkSessionMetricDef None (Some 3) false))]
                           UNFUSED_TASKS_COMPUTATION 100 0 None [])) eq_refl _ _) eq_refl).
    + simpl. lia.
    + intros task Hin. apply list_elem_of_singleton in Hin as ->. by eexists _, _.
Defined.


(** ** The one-slot hand-off of [DataLoadingThread] *)

Lemma handoff_invariant_init it : handoff_invariant it (DataLoadingThread_init it).
Proof. unfold handoff_invariant. simpl. intuition (congruence || discriminate). Qed.

Ltac handoff_case :=
  unfold handoff_invariant, in_flight in *; simpl in *;
  rewrite ?app_nil_r in *; simpl in *;
  intuition (try congruence; try discriminate; subst; simpl in *;
             rewrite <- ?app_assoc in *; simpl in *; try congruence; try discriminate).

Ltac with_batch v :=
  match goal with
  | I : handoff_invariant _ _ |- _ =>
      let I' := fresh in
      pose proof I as I';
      destruct I' as (_ & _ & _ & _ & ?O & ?G & _);
      pose proof (O v); pose proof (G v); clear O G
  end.

Ltac handoff_cases c b p :=
  try (solve [handoff_case]);
  try (solve [destruct c as [| | |[?|]| | | | | |]; destruct b; handoff_case]);
  try (solve [destruct p; destruct b; handoff_case]).

Lemma handoff_invariant_step it t t' :
  handoff_invariant it t -> dlt_step t t' -> handoff_invariant it t'.
Proof.
  intros I Hstep. destruct Hstep as [t t' H | t t' H | t H | t H].
  - destruct t as [stop rest e f b p c r]. unfold producer_step in H. simpl in H.
    destruct p; simpl in H; try destruct e; try destruct stop; try destruct rest;
      inversion H; subst; clear H; handoff_cases c b P_while.
  - destruct t as [stop rest e f b p c r]. unfold consumer_step in H. simpl in H.
    destruct c as [| | |[?|]| | | | | |]; simpl in H; try destruct f;
      inversion H; subst; clear H; handoff_cases C_idle b p.
    all: try match goal with v : value |- _ => with_batch v; handoff_cases C_idle b p end.
  - destruct t as [stop rest e f b p c r]. simpl in H. subst c.
    unfold enter. simpl. handoff_cases C_idle b p.
  - destruct t as [stop rest e f b p c r]. simpl in H. subst c.
    unfold enter. simpl. handoff_cases C_idle b p.
Qed.

Lemma handoff_invariant_reachable it t :
  dlt_reachable it t -> handoff_invariant it t.
Proof.
  induction 1 as [|t t' _ IH Hstep].
  - apply handoff_invariant_init.
  - by eapply handoff_invariant_step.
Qed.

Lemma producer_steps_reachable dataloader_iter n :
  forall t, dlt_reachable dataloader_iter t ->
            dlt_reachable dataloader_iter (producer_steps n t).
Proof.
  induction n as [|n IH]; intros t Hr; simpl; [exact Hr|].
  destruct (producer_step t) as [t'|] eqn:E; [|exact Hr].
  apply IH. eapply reach_step; [exact Hr|]. by apply step_producer.
Qed.

(** C9: in every state the two threads can reach, [run] never writes the
    slot while it holds a batch; [run] is at its write only with the
    buffer-empty event set and [get_next_batch] at its take only with the
    buffer-filled event set and its batch in the slot; at most one batch is
    in flight, and the batches returned, the one in flight and those left in
    the iterator are the iterator's batches in order. *)
Theorem handoff_never_overwrites :
  forall (dataloader_iter : list value) (t : DataLoadingThread),
    dlt_reachable dataloader_iter t ->
    ~ overwrites t /\
    (forall batch, producer t = P_store batch -> _buffer_empty_event t = true) /\
    (forall batch, consumer t = C_take batch ->
                   _buffer_filled_event t = true /\ _buffered t = Some batch) /\
    (length (in_flight t) <= 1)%nat /\
    dataloader_iter = (returned t ++ in_flight t ++ _dataloader_iter t)%list.
Proof.
  intros it t Hr. apply handoff_invariant_reachable in Hr.
  destruct Hr as (J & K & L & N & O & G & S & E & F & C).
  split; [|split; [|split; [|split]]].
  - intros (batch & Hp & Hb). apply Hb, J. by rewrite Hp.
  - intros batch Hp. apply E. by rewrite Hp.
  - intros batch Hc. split; [apply F; by rewrite Hc | apply G; by right].
  - unfold in_flight.
    destruct (consumer t) as [| | |[?|]| | | | | |] eqn:Ec; simpl in *;
      destruct (producer t) eqn:Ep; simpl in *;
      destruct (_buffered t) eqn:Eb; simpl; try lia;
      try (specialize (J eq_refl); discriminate);
      try (destruct (N eq_refl) as [? _]; discriminate);
      try (specialize (O batch (or_introl eq_refl)); discriminate);
      try (specialize (O batch (or_intror eq_refl)); discriminate).
  - exact C.
Qed.


Lemma handoff_never_overwrites_witness :
  producer (producer_steps 4 (DataLoadingThread_init [sample_batch])) = P_store sample_batch /\
  ~ overwrites (producer_steps 4 (DataLoadingThread_init [sample_batch])).
Proof.
  split; [reflexivity|].
  exact (proj1 (handoff_never_overwrites [sample_batch] _
                  (producer_steps_reachable [sample_batch] 4 _ (reach_init _)))).
Defined.


(** ** Frames of the argument resolution *)

Section resolver_frames.
Variable R : World -> World -> Prop.
Hypothesis R_refl : forall w, R w w.
Hypothesis R_trans : forall w1 w2 w3, R w1 w2 -> R w2 w3 -> R w1 w3.
Hypothesis R_new : forall m n a c ds dd, preserves R (PipelinedPostproc_new m n a c ds dd).

Local Abbreviation preserves := (preserves R).
Local Abbreviation p_ret := (preserves_ret R R_refl).
Local Abbreviation p_raise := (preserves_raise R R_refl).
Local Abbreviation p_lift := (preserves_lift R R_refl).
Local Abbreviation p_bind := (preserves_bind R R_trans).

Local Abbreviation resolves := (resolves R).

Lemma preserves_handle_collection_element inner arg f h :
  resolves inner arg -> preserves (_handle_collection_element inner arg f h).
Proof.
  intros H. destruct arg; simpl; try apply p_ret.
  apply p_bind; [apply H|]. intros [r h']. apply p_ret.
Qed.

Lemma preserves_handle_constant inner arg ai f h :
  match arg with
  | ArgList l => Forall (resolves inner) l
  | ArgDict d => Forall (fun kv => resolves inner (snd kv)) d
  | _ => True
  end ->
  preserves (_handle_constant inner arg ai f h).
Proof.
  intros H. unfold _handle_constant.
  destruct (negb (helper_pipeline_postproc h)); [apply p_ret|].
  destruct arg; try apply p_ret.
  - apply p_bind; [|intros [vs h']; apply p_ret].
    apply (preserves_mapS R R_refl R_trans). eapply Forall_impl; [exact H|].
    intros v Hv h0. by apply preserves_handle_collection_element.
  - apply p_bind; [|intros [vs h']; apply p_ret].
    apply (preserves_mapS R R_refl R_trans). eapply Forall_impl; [exact H|].
    intros v Hv h0. apply p_bind; [|intros [e h1]; apply p_ret].
    by apply preserves_handle_collection_element.
Qed.

Lemma preserves_get_node_args_helper {X} (proj : X -> Argument) inner (l : list X) :
  Forall (fun x => resolves inner (proj x)) l ->
  forall f h, preserves (_get_node_args_helper proj inner l f h).
Proof.
  induction 1 as [|x l Hx _ IH]; intros f h; simpl; [apply p_ret|].
  destruct (negb f && is_None_arg (proj x)).
  - apply p_bind; [apply IH|]. intros [[? ?] ?]. apply p_ret.
  - apply p_bind; [apply Hx|]. intros [? ?].
    apply p_bind; [apply IH|]. intros [[? ?] ?]. apply p_ret.
Qed.

Lemma preserves_get_node_args_with inner node f h :
  Forall (resolves inner) (node_args node) ->
  Forall (fun kv => resolves inner (snd kv)) (node_kwargs node) ->
  preserves (get_node_args_with inner node f h).
Proof.
  intros Ha Hk. unfold get_node_args_with.
  apply p_bind; [by apply preserves_get_node_args_helper|]. intros [[? ?] ?].
  apply p_bind; [by apply preserves_get_node_args_helper|]. intros [[? ?] ?].
  apply p_ret.
Qed.

Lemma preserves_handle_module inner node ai h :
  Forall (resolves inner) (node_args node) ->
  Forall (fun kv => resolves inner (snd kv)) (node_kwargs node) ->
  preserves (_handle_module inner node ai h).
Proof.
  intros Ha Hk. unfold _handle_module.
  destruct (negb (helper_pipeline_postproc h)); [apply p_ret|].
  destruct (_find_postproc_module_recursive _ _) as [found|]; [|apply p_ret].
  destruct (negb (Module_bool found)); [apply p_ret|].
  destruct found as [? ? ?|? ?|?]; [| |apply p_ret].
  - destruct (negb _); [apply p_ret|]. destruct (Nat.eqb _ 0); [apply p_ret|].
    apply p_bind; [by apply preserves_get_node_args_with|]. intros [[? ?] ?].
    destruct (Nat.eqb _ _); [|apply p_ret].
    apply p_bind; [apply R_new|]. intros; apply p_ret.
  - destruct (negb _); [apply p_ret|]. destruct (Nat.eqb _ 0); [apply p_ret|].
    apply p_bind; [by apply preserves_get_node_args_with|]. intros [[? ?] ?].
    destruct (Nat.eqb _ _); [|apply p_ret].
    apply p_bind; [apply R_new|]. intros; apply p_ret.
Qed.

Local Abbreviation walks := (walks R).

Lemma walks_resolves a : walks a -> resolves _get_node_args_helper_inner a.
Proof. intros H f h. apply H. Qed.

Lemma inner_loop_preserves : forall a, walks a.
Proof.
  pose (P := fun a => walks a /\
               match a with
               | ArgList l => Forall walks l
               | ArgDict d => Forall (fun kv => walks (snd kv)) d
               | _ => True
               end).
  pose (Pn := fun n => walks (ArgNode n)).
  assert (HP : forall a, P a); [|intros a; apply HP].
  apply (argument_induction P Pn); subst P Pn; simpl.
  - intros n Hn. split; [exact Hn|done].
  - intros v. split; [|done]. intros ai f h. simpl.
    by apply preserves_handle_constant.
  - intros l Hl. assert (Hw : Forall walks l).
    { eapply Forall_impl; [exact Hl|]. by intros a [? _]. }
    split; [|done]. intros ai f h. simpl.
    apply preserves_handle_constant. eapply Forall_impl; [exact Hw|].
    intros a Ha f' h'. apply Ha.
  - intros d Hd. assert (Hw : Forall (fun kv => walks (snd kv)) d).
    { eapply Forall_impl; [exact Hd|]. by intros a [? _]. }
    split; [|done]. intros ai f h. simpl.
    apply preserves_handle_constant. eapply Forall_impl; [exact Hw|].
    intros a Ha f' h'. apply Ha.
  - intros op target args kwargs ph Ha Hk.
    assert (Hwa : Forall walks args).
    { eapply Forall_impl; [exact Ha|]. by intros a [? _]. }
    assert (Hwk : Forall (fun kv => walks (snd kv)) kwargs).
    { eapply Forall_impl; [exact Hk|]. by intros a [? _]. }
    assert (Hra : Forall (resolves (fun a f h' =>
               _get_node_args_helper_inner_loop a (mkArgInfo []) f h')) args).
    { eapply Forall_impl; [exact Hwa|]. intros a Hw f' h'. apply Hw. }
    assert (Hrk : Forall (fun kv => resolves (fun a f h' =>
               _get_node_args_helper_inner_loop a (mkArgInfo []) f h') (snd kv)) kwargs).
    { eapply Forall_impl; [exact Hwk|]. intros a Hw f' h'. apply Hw. }
    intros ai f h. simpl.
    destruct (opcode_eqb op placeholder); [apply p_ret|].
    destruct (opcode_eqb op call_module); [by apply preserves_handle_module|].
    destruct (opcode_eqb op call_function).
    + apply p_bind; [apply p_lift|]. intros [|].
      { destruct args as [|a0 [|a1 args]]; try apply p_raise.
        apply Forall_cons in Hwa as [H0 _]. apply H0. }
      apply p_bind; [apply p_lift|]. intros [|].
      { destruct args as [|a0 [|a1 args]]; try apply p_raise.
        apply Forall_cons in Hwa as [H0 _]. apply H0. }
      apply p_bind; [apply p_lift|]. intros [|].
      { destruct (steps ai) as [|[| |item| | | |] ?]; try apply p_raise.
        destruct args as [|a0 args]; [apply p_raise|].
        apply Forall_cons in Ha as [[_ H0] _].
        destruct a0 as [n|v|la|da]; try apply p_raise.
        - apply p_bind; [apply p_lift|]. intros v'.
          by apply preserves_handle_constant.
        - assert (Hpos : forall i,
                     preserves
                       (match seq_position (length la) i with
                        | Some n =>
                            (fix at_position (l : list Argument) (n : nat) :=
                               match l, n with
                               | [], _ => raise IndexError
                               | x :: _, O => _get_node_args_helper_inner_loop x ai f h
                               | _ :: l', S n' => at_position l' n'
                               end) la n
                        | None => raise IndexError
                        end)).
          { intros i. destruct (seq_position (length la) i) as [n|]; [|apply p_raise].
            clear Hwa Hra. revert n.
            induction H0 as [|x l' Hx _ IH]; intros n; [apply p_raise|].
            destruct n as [|n]; [apply Hx | apply IH]. }
          destruct item; simpl; try apply p_raise; try apply Hpos.
          apply p_bind; [apply p_lift|]. intros v'.
          by apply preserves_handle_constant.
        - destruct item as [| | |s| | | | | | |];
            try (destruct (hashable _); apply p_raise).
          clear Hwa Hra. induction H0 as [|[k' x] d' Hx _ IH]; [apply p_raise|].
          destruct (String.eqb k' s); [apply Hx | apply IH]. }
      apply p_bind; [apply p_lift|]. intros [|]; [|apply p_ret].
      destruct (existsb _ _); [apply p_ret|].
      clear Hk Hrk. induction Hwk as [|[k x] kw Hx _ IH].
      { destruct args as [|a0 [|a1 args]]; try apply p_raise.
        apply Forall_cons in Hwa as [_ Hwa]. apply Forall_cons in Hwa as [H1 _]. apply H1. }
      destruct (String.eqb k "values"); [apply Hx|]. apply IH.
    + destruct (opcode_eqb op call_method); [|apply p_ret].
      destruct target as [s|? ?]; [|apply p_ret].
      destruct (String.eqb s "get"); [|apply p_ret].
      destruct args as [|a0 [|a1 args]]; try apply p_raise.
      apply Forall_cons in Hwa as [H0 _]. apply H0.
Qed.

Lemma get_node_args_preserves node f h : preserves (get_node_args node f h).
Proof.
  unfold get_node_args. apply preserves_get_node_args_with.
  - apply Forall_forall. intros a _. apply walks_resolves, inner_loop_preserves.
  - apply Forall_forall. intros a _. apply walks_resolves, inner_loop_preserves.
Qed.
End resolver_frames.


(** ** Graph rewriting *)

Lemma wrappers_only_refl w : wrappers_only w w.
Proof. unfold wrappers_only. repeat split; auto. Qed.

Lemma wrappers_only_trans w1 w2 w3 :
  wrappers_only w1 w2 -> wrappers_only w2 w3 -> wrappers_only w1 w3.
Proof.
  unfold wrappers_only.
  intros (?&?&?&?&?&?&?&?&?&?&Hle1&Hp1) (?&?&?&?&?&?&?&?&?&?&Hle2&Hp2).
  repeat split; try congruence; [lia|].
  intros o Ho. rewrite Hp2 by lia. by apply Hp1.
Qed.

Lemma wrappers_only_new m n a c ds dd :
  preserves wrappers_only (PipelinedPostproc_new m n a c ds dd).
Proof.
  intros w. unfold wrappers_only. simpl. repeat split; auto.
  intros o Ho. apply lookup_insert_ne. lia.
Qed.

Lemma get_node_args_wrappers_only node f h :
  preserves wrappers_only (get_node_args node f h).
Proof.
  apply (get_node_args_preserves wrappers_only wrappers_only_refl wrappers_only_trans
           wrappers_only_new).
Qed.

Lemma get_node_args_sharded node f h w : sharded (snd (get_node_args node f h w)) = sharded w.
Proof. by destruct (get_node_args_wrappers_only node f h w) as (_&_&?&_). Qed.

Lemma rewrite_node_skip sm context ds pf node st w :
  sharded_target sm node = None -> rewrite_node sm context ds pf node st w = (Ok st, w).
Proof. intros H. unfold rewrite_node. by rewrite H. Qed.

Lemma rewrite_node_no_input sm context ds pf node child st w :
  sharded_target sm node = Some child -> total_num_args node = 0%nat ->
  rewrite_node sm context ds pf node st w = (Ok st, w).
Proof. intros H H0. unfold rewrite_node. by rewrite H, H0. Qed.

Lemma rewrite_node_pipelined sm context ds pf node child st w arg_info_list h w1 m :
  sharded_target sm node = Some child -> total_num_args node <> 0%nat ->
  get_node_args node false (args_helper st) w
  = (Ok ((arg_info_list, total_num_args node), h), w1) ->
  sharded w1 !! child = Some m ->
  rewrite_node sm context ds pf node st w
  = (Ok (mkRewrite (pipelined_forwards st ++ [child]) (original_forwards st ++ [forward m])
           (non_pipelined_sharded_modules st) h),
     with_sharded w1
       (<[child := with_forward m
                     (Intercepting (mkBaseForward pf (target_str (node_target node))
                                      arg_info_list child context ds))]> (sharded w1))).
Proof.
  intros H H0 Hg Hm. unfold rewrite_node. rewrite H.
  apply Nat.eqb_neq in H0. rewrite H0. unfold bind at 1. rewrite Hg.
  rewrite Nat.eqb_refl. unfold bind, read_sharded. by rewrite Hm.
Qed.

Lemma rewrite_node_not_pipelined sm context ds pf node child st w arg_info_list num_found h w1 :
  sharded_target sm node = Some child -> total_num_args node <> 0%nat ->
  get_node_args node false (args_helper st) w = (Ok ((arg_info_list, num_found), h), w1) ->
  num_found <> total_num_args node ->
  rewrite_node sm context ds pf node st w
  = (Ok (mkRewrite (pipelined_forwards st) (original_forwards st)
           (non_pipelined_sharded_modules st ++ [target_str (node_target node)]) h), w1).
Proof.
  intros H H0 Hg Hn. unfold rewrite_node. rewrite H.
  apply Nat.eqb_neq in H0. rewrite H0. unfold bind at 1. rewrite Hg.
  apply Nat.eqb_neq in Hn. by rewrite Hn.
Qed.

Lemma rewrite_node_classified sm context ds pf seen node st w st' w' :
  classified sm context ds pf seen st w ->
  rewrite_node sm context ds pf node st w = (Ok st', w') ->
  classified sm context ds pf (seen ++ [node]) st' w'.
Proof.
  intros (Hin & Hlen & Hor & Hfw) Hstep.
  destruct (sharded_target sm node) as [child|] eqn:Et.
  2:{ rewrite rewrite_node_skip in Hstep by done. injection Hstep as <- <-.
      repeat split; [|rewrite filter_app, length_app, Hlen|done|done].
      - intros n c Hn Hc Ht. apply elem_of_app in Hn as [Hn|Hn]; [eauto|].
        apply list_elem_of_singleton in Hn as ->. congruence.
      - rewrite filter_cons_False; [simpl; lia|]. rewrite Et. by intros [[? ?] _]. }
  destruct (decide (total_num_args node = 0%nat)) as [H0|H0].
  { rewrite (rewrite_node_no_input _ _ _ _ _ child) in Hstep by done.
    injection Hstep as <- <-.
    repeat split; [|rewrite filter_app, length_app, Hlen|done|done].
    - intros n c Hn Hc Ht. apply elem_of_app in Hn as [Hn|Hn]; [eauto|].
      apply list_elem_of_singleton in Hn as ->. congruence.
    - rewrite filter_cons_False; [simpl; lia|]. by intros [_ ?]. }
  pose proof (get_node_args_sharded node false (args_helper st) w) as Hsh.
  destruct (get_node_args node false (args_helper st) w) as [[[[ail nf] h]|e] w1] eqn:Eg.
  2:{ unfold rewrite_node in Hstep. rewrite Et in Hstep.
      apply Nat.eqb_neq in H0. rewrite H0 in Hstep. unfold bind in Hstep.
      rewrite Eg in Hstep. discriminate. }
  simpl in Hsh.
  assert (Hfilter : length (filter (fun node => is_Some (sharded_target sm node) /\
                                      total_num_args node <> 0%nat) (seen ++ [node])%list)
                    = S (length (filter (fun node => is_Some (sharded_target sm node) /\
                                      total_num_args node <> 0%nat) seen))).
  { rewrite filter_app, length_app, filter_cons_True; [simpl; lia|]. rewrite Et. eauto. }
  destruct (decide (nf = total_num_args node)) as [->|Hne].
  - destruct (sharded w1 !! child) as [m|] eqn:Em.
    2:{ unfold rewrite_node in Hstep. rewrite Et in Hstep.
        apply Nat.eqb_neq in H0. rewrite H0 in Hstep. unfold bind at 1 in Hstep.
        rewrite Eg, Nat.eqb_refl in Hstep. unfold bind, read_sharded in Hstep.
        rewrite Em in Hstep. discriminate. }
    rewrite (rewrite_node_pipelined _ _ _ _ _ child _ _ ail h w1 m) in Hstep by done.
    injection Hstep as <- <-. repeat split; simpl.
    + intros n c Hn Hc Ht. apply elem_of_app in Hn as [Hn|Hn].
      * destruct (Hin n c Hn Hc Ht) as [?|?]; [left|by right].
        apply elem_of_app. by left.
      * apply list_elem_of_singleton in Hn as ->. left. apply elem_of_app. right.
        apply list_elem_of_singleton. congruence.
    + rewrite Hfilter, length_app. simpl. lia.
    + rewrite !length_app. simpl. lia.
    + intros c Hc. destruct (decide (c = child)) as [->|Hcc].
      * rewrite lookup_insert_eq. by eexists _, _.
      * rewrite lookup_insert_ne by done. rewrite Hsh. apply Hfw.
        apply elem_of_app in Hc as [Hc|Hc]; [done|].
        by apply list_elem_of_singleton in Hc.
  - rewrite (rewrite_node_not_pipelined _ _ _ _ _ child _ _ ail nf h w1) in Hstep by done.
    injection Hstep as <- <-. repeat split; simpl.
    + intros n c Hn Hc Ht. apply elem_of_app in Hn as [Hn|Hn].
      * destruct (Hin n c Hn Hc Ht) as [?|?]; [by left|right].
        apply elem_of_app. by left.
      * apply list_elem_of_singleton in Hn as ->. right. apply elem_of_app. right.
        by apply list_elem_of_singleton.
    + rewrite Hfilter, length_app. simpl. lia.
    + done.
    + intros c Hc. rewrite Hsh. by apply Hfw.
Qed.

Lemma rewrite_loop_classified sm context ds pf rest :
  forall seen st w st' w',
    classified sm context ds pf seen st w ->
    foldM (rewrite_node sm context ds pf) rest st w = (Ok st', w') ->
    classified sm context ds pf (seen ++ rest) st' w'.
Proof.
  induction rest as [|node rest IH]; intros seen st w st' w' Hc Hf; simpl in Hf.
  - injection Hf as <- <-. by rewrite app_nil_r.
  - apply bind_inv_Ok in Hf as (st1 & w1 & Hstep & Hf).
    replace (seen ++ node :: rest)%list with ((seen ++ [node]) ++ rest)%list
      by (by rewrite <- app_assoc).
    eapply IH; [|exact Hf]. by eapply rewrite_node_classified.
Qed.

Lemma rewrite_node_cases sm context ds pf node st w st' w' :
  rewrite_node sm context ds pf node st w = (Ok st', w') ->
  (st' = st /\ w' = w /\
   (sharded_target sm node = None \/ total_num_args node = 0%nat)) \/
  (exists child arg_info_list num_found h w1,
     sharded_target sm node = Some child /\ total_num_args node <> 0%nat /\
     get_node_args node false (args_helper st) w
     = (Ok ((arg_info_list, num_found), h), w1) /\
     ((num_found = total_num_args node /\
       exists m, sharded w1 !! child = Some m /\
         st' = mkRewrite (pipelined_forwards st ++ [child])
                 (original_forwards st ++ [forward m])
                 (non_pipelined_sharded_modules st) h /\
         w' = with_sharded w1
                (<[child := with_forward m
                              (Intercepting
                                 (mkBaseForward pf (target_str (node_target node))
                                    arg_info_list child context ds))]> (sharded w1))) \/
      (num_found <> total_num_args node /\
       st' = mkRewrite (pipelined_forwards st) (original_forwards st)
               (non_pipelined_sharded_modules st ++ [target_str (node_target node)]) h /\
       w' = w1))).
Proof.
  intros Hstep.
  destruct (sharded_target sm node) as [child|] eqn:Et.
  2:{ rewrite rewrite_node_skip in Hstep by done. injection Hstep as <- <-. left. auto. }
  destruct (decide (total_num_args node = 0%nat)) as [H0|H0].
  { rewrite (rewrite_node_no_input _ _ _ _ _ child) in Hstep by done.
    injection Hstep as <- <-. left. auto. }
  destruct (get_node_args node false (args_helper st) w) as [[[[ail nf] h]|e] w1] eqn:Eg.
  2:{ unfold rewrite_node in Hstep. rewrite Et in Hstep.
      apply Nat.eqb_neq in H0. rewrite H0 in Hstep. unfold bind in Hstep.
      rewrite Eg in Hstep. discriminate. }
  right. exists child, ail, nf, h, w1. split; [done|]. split; [done|]. split; [done|].
  destruct (decide (nf = total_num_args node)) as [->|Hne].
  - left. split; [done|].
    destruct (sharded w1 !! child) as [m|] eqn:Em.
    2:{ unfold rewrite_node in Hstep. rewrite Et in Hstep.
        apply Nat.eqb_neq in H0. rewrite H0 in Hstep. unfold bind at 1 in Hstep.
        rewrite Eg, Nat.eqb_refl in Hstep. unfold bind, read_sharded in Hstep.
        rewrite Em in Hstep. discriminate. }
    rewrite (rewrite_node_pipelined _ _ _ _ _ child _ _ ail h w1 m) in Hstep by done.
    injection Hstep as <- <-. by exists m.
  - right. split; [done|].
    rewrite (rewrite_node_not_pipelined _ _ _ _ _ child _ _ ail nf h w1) in Hstep by done.
    by injection Hstep as <- <-.
Qed.

Lemma rewrite_node_grows sm context ds pf node st w st' w' :
  rewrite_node sm context ds pf node st w = (Ok st', w') ->
  exists p o n,
    pipelined_forwards st' = (pipelined_forwards st ++ p)%list /\
    original_forwards st' = (original_forwards st ++ o)%list /\
    non_pipelined_sharded_modules st' = (non_pipelined_sharded_modules st ++ n)%list.
Proof.
  intros Hstep.
  apply rewrite_node_cases in Hstep
    as [(-> & _ & _)|(child & ail & nf & h & w1 & _ & _ & _ &
                      [(_ & m & _ & -> & _)|(_ & -> & _)])].
  - exists [], [], []. by rewrite !app_nil_r.
  - exists [child], [forward m], []. by rewrite app_nil_r.
  - exists [], [], [target_str (node_target node)]. by rewrite !app_nil_r.
Qed.

Lemma split_snoc {A} (seen before after : list A) (node n : A) :
  (seen ++ [node] = before ++ n :: after)%list ->
  (before = seen /\ n = node /\ after = []) \/
  (exists after', after = (after' ++ [node])%list /\ seen = (before ++ n :: after')%list).
Proof.
  intros H. destruct after as [|a after _] using rev_ind.
  - apply app_inj_tail in H as [-> ->]. by left.
  - right. exists after.
    replace (before ++ n :: after ++ [a])%list with ((before ++ n :: after) ++ [a])%list in H
      by (by rewrite <- app_assoc).
    by apply app_inj_tail in H as [-> ->].
Qed.

Lemma placed_start sm context ds pf st0 w0 : placed sm context ds pf st0 w0 [] st0 w0.
Proof.
  split; [reflexivity|]. split; [|done].
  intros before node after child H. by destruct before.
Qed.

Lemma rewrite_node_placed sm context ds pf st0 w0 seen node st w st' w' :
  placed sm context ds pf st0 w0 seen st w ->
  rewrite_node sm context ds pf node st w = (Ok st', w') ->
  placed sm context ds pf st0 w0 (seen ++ [node]) st' w'.
Proof.
  intros (Hrun & Hturn & Hout) Hstep. split; [|split].
  - rewrite foldM_app. unfold bind at 1. rewrite Hrun. simpl. unfold bind.
    by rewrite Hstep.
  - intros before n after child Hsplit Ht H0.
    apply split_snoc in Hsplit as [(-> & -> & ->)|(after' & -> & ->)].
    + apply rewrite_node_cases in Hstep
        as [(_ & _ & [Hn|Hn])|(child' & ail & nf & h & w1 & Ht' & _ & Hg & Hcases)];
        [congruence|done|].
      rewrite Ht in Ht'. injection Ht' as <-.
      exists st, w, ail, nf, h, w1. split; [done|]. split; [done|].
      destruct Hcases as [(Hnf & m & Hm & -> & _)|(Hnf & -> & _)]; simpl.
      * split; [|done]. intros _. split; [by apply list_lookup_middle|].
        exists m. split; [done|]. by apply list_lookup_middle.
      * split; [done|]. intros _. by apply list_lookup_middle.
    + destruct (Hturn before n after' child eq_refl Ht H0)
        as (st1 & w1 & ail & nf & h & w2 & Hb & Hg & Hres & Hunres).
      apply rewrite_node_grows in Hstep as (p & o & np & -> & -> & ->).
      exists st1, w1, ail, nf, h, w2. split; [done|]. split; [done|]. split.
      * intros Hnf. destruct (Hres Hnf) as (Hp & m & Hm & Ho).
        split; [by apply lookup_app_l_Some|]. exists m. split; [done|].
        by apply lookup_app_l_Some.
      * intros Hnf. by apply lookup_app_l_Some, Hunres.
  - intros o Ho.
    pose proof (get_node_args_sharded node false (args_helper st) w) as Hsh.
    apply rewrite_node_cases in Hstep
      as [(-> & -> & _)|(child & ail & nf & h & w1 & _ & _ & Hg &
                         [(_ & m & _ & -> & ->)|(_ & -> & ->)])].
    + by apply Hout.
    + rewrite Hg in Hsh. simpl in Hsh, Ho. apply not_elem_of_app in Ho as [Ho Hne].
      simpl. rewrite lookup_insert_ne; [rewrite Hsh; by apply Hout|].
      intros ->. apply Hne, list_elem_of_here.
    + rewrite Hg in Hsh. simpl in Hsh, Ho. rewrite Hsh. by apply Hout.
Qed.

Lemma rewrite_loop_placed sm context ds pf st0 w0 rest :
  forall seen st w st' w',
    placed sm context ds pf st0 w0 seen st w ->
    foldM (rewrite_node sm context ds pf) rest st w = (Ok st', w') ->
    placed sm context ds pf st0 w0 (seen ++ rest) st' w'.
Proof.
  induction rest as [|node rest IH]; intros seen st w st' w' Hp Hf; simpl in Hf.
  - injection Hf as <- <-. by rewrite app_nil_r.
  - apply bind_inv_Ok in Hf as (st1 & w1 & Hstep & Hf).
    replace (seen ++ node :: rest)%list with ((seen ++ [node]) ++ rest)%list
      by (by rewrite <- app_assoc).
    eapply IH; [|exact Hf]. by eapply rewrite_node_placed.
Qed.


(** C1, as the code has it.  The loop of [_rewrite_model] takes the nodes
    in graph order and classifies call nodes, not modules.  A sharded call
    node without arguments is passed over: nothing changes.  For a sharded
    call node with an argument [get_node_args] is called, which changes no
    sharded module; when it finds as many arguments as the node has, the
    forward the module has at that moment is appended to the original
    forwards, the module gets the intercepting forward and is appended to
    the pipelined list; otherwise only the name of the node's target is
    appended to the non-pipelined list.

    For what [_rewrite_model] returns: every sharded call node with an
    argument has had its turn in the state the nodes before it left, and
    its entry stands where that turn put it, the module in the pipelined
    list and its forward of that moment in the original forwards, or the
    name in the non-pipelined list; the two lists have together one entry
    per such node; every module of the pipelined list carries an
    intercepting forward of the class, context and stream given; and a
    sharded module that is not in the pipelined list is as it was. *)
Theorem rewrite_model_classifies :
  forall (model : Model) (context : loc) (dist_stream : option stream) (batch : value)
         (apply_jit : bool) (pipelined_forward : forward_class) (pipeline_postproc : bool)
         (default_stream : option stream) (w : World) (graph : list Node),
    tracer w (underlying model) batch = Ok graph ->
    let sm := collect_sharded_modules (underlying model) in
    let loop := foldM (rewrite_node sm context dist_stream pipelined_forward) in
    let start := rewrite_start (underlying model) context pipeline_postproc default_stream
                   dist_stream in
    (forall node child st w0,
        sharded_target sm node = Some child ->
        (total_num_args node = 0%nat ->
         rewrite_node sm context dist_stream pipelined_forward node st w0 = (Ok st, w0)) /\
        (total_num_args node <> 0%nat ->
         forall arg_info_list num_found h w1,
           get_node_args node false (args_helper st) w0
           = (Ok ((arg_info_list, num_found), h), w1) ->
           sharded w1 = sharded w0 /\
           (num_found = total_num_args node ->
            forall m, sharded w1 !! child = Some m ->
              rewrite_node sm context dist_stream pipelined_forward node st w0
              = (Ok (mkRewrite (pipelined_forwards st ++ [child])
                       (original_forwards st ++ [forward m])
                       (non_pipelined_sharded_modules st) h),
                 with_sharded w1
                   (<[child := with_forward m
                                 (Intercepting
                                    (mkBaseForward pipelined_forward
                                       (target_str (node_target node)) arg_info_list
                                       child context dist_stream))]> (sharded w1)))) /\
           (num_found <> total_num_args node ->
            rewrite_node sm context dist_stream pipelined_forward node st w0
            = (Ok (mkRewrite (pipelined_forwards st) (original_forwards st)
                     (non_pipelined_sharded_modules st ++ [target_str (node_target node)])
                     h), w1)))) /\
    (forall pipelined model' originals postprocs non_pipelined w',
        _rewrite_model model context dist_stream batch apply_jit pipelined_forward
          pipeline_postproc default_stream w
        = (Ok (pipelined, model', originals, postprocs, non_pipelined), w') ->
        (forall before node after child,
            graph = (before ++ node :: after)%list ->
            sharded_target sm node = Some child -> total_num_args node <> 0%nat ->
            exists st w0 arg_info_list num_found h w1,
              loop before start w = (Ok st, w0) /\
              get_node_args node false (args_helper st) w0
              = (Ok ((arg_info_list, num_found), h), w1) /\
              (num_found = total_num_args node ->
               pipelined !! length (pipelined_forwards st) = Some child /\
               exists m, sharded w1 !! child = Some m /\
                         originals !! length (original_forwards st) = Some (forward m)) /\
              (num_found <> total_num_args node ->
               non_pipelined !! length (non_pipelined_sharded_modules st)
               = Some (target_str (node_target node)))) /\
        (length pipelined + length non_pipelined = length (sharded_calls sm graph))%nat /\
        length originals = length pipelined /\
        (forall child, child ∈ pipelined ->
           exists m f, sharded w' !! child = Some m /\ forward m = Intercepting f /\
                       fwd_class f = pipelined_forward /\ _context f = context /\
                       _stream f = dist_stream /\ _module f = child) /\
        (forall o, o ∉ pipelined -> sharded w' !! o = sharded w !! o)).
Proof.
  intros model context ds batch jit pf pp dfs w graph Htr sm loop start. split.
  - intros node child st w0 Ht. split.
    + intros H0. by eapply rewrite_node_no_input.
    + intros H0 ail nf h w1 Hg. split; [|split].
      * pose proof (get_node_args_sharded node false (args_helper st) w0) as Hsh.
        by rewrite Hg in Hsh.
      * intros -> m Hm. by eapply rewrite_node_pipelined.
      * intros Hne. by eapply rewrite_node_not_pipelined.
  - intros pipelined model' originals postprocs non_pipelined w' H.
    unfold _rewrite_model in H. unfold bind at 1, get in H.
    unfold bind at 1, lift in H. rewrite Htr in H.
    apply bind_inv_Ok in H as (st & w1 & Hloop & H). injection H as <- _ <- _ <- <-.
    pose proof (rewrite_loop_placed sm context ds pf start w graph [] start w st w1
                  (placed_start sm context ds pf start w) Hloop) as (_ & Hturn & Hout).
    apply (rewrite_loop_classified sm context ds pf graph [] _ _ _ _) in Hloop
      as (_ & Hlen & Hor & Hfw).
    2:{ repeat split; simpl; try done.
        - intros ? ? Hn. by apply elem_of_nil in Hn.
        - intros ? Hn. by apply elem_of_nil in Hn. }
    split; [|split; [exact Hlen|split; [exact Hor|split; [exact Hfw|exact Hout]]]].
    intros before node after child -> Ht H0.
    exact (Hturn before node after child eq_refl Ht H0).
Qed.

Lemma rewrite_model_classifies_witness :
  exists result w',
    _rewrite_model ebc_model 0%nat None VNone false PipelinedForward false None
      (world_of_graph [batch_placeholder; ebc_call; relu_call; ebc_call_relu])
    = (Ok result, w') /\
    result.1.1.1.1 !! 0%nat = Some 0%nat /\ result.2 !! 0%nat = Some "ebc" /\
    (length result.1.1.1.1 + length result.2 = 2)%nat.
Proof.
  eexists (_, _, _, _, _), _. split; [vm_compute; reflexivity|].
  destruct (proj2 (rewrite_model_classifies ebc_model 0%nat None VNone false
                     PipelinedForward false None
                     (world_of_graph [batch_placeholder; ebc_call; relu_call; ebc_call_relu])
                     [batch_placeholder; ebc_call; relu_call; ebc_call_relu] eq_refl)
              _ _ _ _ _ _ ltac:(vm_compute; reflexivity))
    as (Hturn & Hlen & _).
  split; [|split; [|exact Hlen]].
  - destruct (Hturn [batch_placeholder] ebc_call [relu_call; ebc_call_relu] 0%nat
                eq_refl eq_refl ltac:(discriminate))
      as (st & w0 & ail & nf & h & w1 & Hrun & Hg & Hres & _).
    injection Hrun as <- <-. injection Hg as _ <- _ _.
    exact (proj1 (Hres eq_refl)).
  - destruct (Hturn [batch_placeholder; ebc_call; relu_call] ebc_call_relu [] 0%nat
                eq_refl eq_refl ltac:(discriminate))
      as (st & w0 & ail & nf & h & w1 & Hrun & Hg & _ & Hunres).
    injection Hrun as <- <-. injection Hg as _ <- _ _.
    exact (Hunres ltac:(discriminate)).
Defined.

(** The claim as the spec words it fails twice.  On a sharded call without
    arguments: its module is in neither of the returned lists.  And on a
    module called at two nodes, [ebc(batch)] and [ebc(relu(batch))]: at the
    second node [get_node_args] does not find the argument, yet the module
    is pipelined, by the first. *)
Lemma rewrite_model_counterexample :
  ~ (forall pipelined model' originals postprocs non_pipelined w',
       _rewrite_model ebc_model 0%nat None VNone false PipelinedForward false None
         (world_of_graph [ebc_call_no_input])
       = (Ok (pipelined, model', originals, postprocs, non_pipelined), w') ->
       sharded_target (collect_sharded_modules (underlying ebc_model)) ebc_call_no_input
       = Some 0%nat ->
       0%nat ∈ pipelined \/ "ebc" ∈ non_pipelined) /\
  ~ (forall pipelined model' originals postprocs non_pipelined w',
       _rewrite_model ebc_model 0%nat None VNone false PipelinedForward false None
         (world_of_graph [batch_placeholder; ebc_call; relu_call; ebc_call_relu])
       = (Ok (pipelined, model', originals, postprocs, non_pipelined), w') ->
       forall st w0 arg_info_list num_found h w1,
         foldM (rewrite_node (collect_sharded_modules (underlying ebc_model)) 0%nat None
                  PipelinedForward)
           [batch_placeholder; ebc_call; relu_call]
           (rewrite_start (underlying ebc_model) 0%nat false None None)
           (world_of_graph [batch_placeholder; ebc_call; relu_call; ebc_call_relu])
         = (Ok st, w0) ->
         get_node_args ebc_call_relu false (args_helper st) w0
         = (Ok ((arg_info_list, num_found), h), w1) ->
         num_found <> total_num_args ebc_call_relu ->
         (0%nat ∉ pipelined) /\
         forall m, sharded w' !! 0%nat = Some m -> forward m = OriginalForward 0).
Proof.
  split.
  - intros H.
    destruct (H [] ebc_model [] [] [] (world_of_graph [ebc_call_no_input])) as [Hin|Hin].
    + vm_compute. reflexivity.
    + vm_compute. reflexivity.
    + by apply elem_of_nil in Hin.
    + by apply elem_of_nil in Hin.
  - intros H.
    destruct (H _ _ _ _ _ _ ltac:(vm_compute; reflexivity) _ _ _ _ _ _
                ltac:(vm_compute; reflexivity) ltac:(vm_compute; reflexivity)
                ltac:(discriminate)) as [Hin _].
    apply Hin, list_elem_of_here.
Qed.

(** The walk takes any object as the key of a [getitem]: [ebc(batch[None])],
    [ebc(batch[True])] and [ebc(batch[1:2])] are pipelined.  A module that
    is false, as an empty [nn.Sequential] is, counts as not found: with
    postprocs pipelined, [ebc(seq(batch))] is not pipelined and [seq] is
    not wrapped. *)
Lemma rewrite_model_keys_and_empty_containers :
  (forall key, key ∈ [VNone; VBool true; VSlice (Some 1) (Some 2) None] ->
     exists originals w',
       _rewrite_model ebc_model 0%nat None VNone false PipelinedForward false None
         (world_of_graph [batch_placeholder; batch_item key; ebc_call_item key])
       = (Ok ([0%nat], ebc_model, originals, [], []), w')) /\
  (exists w',
     _rewrite_model container_model 0%nat None VNone false PipelinedForward true None
       (world_of_graph [batch_placeholder; seq_call; ebc_call_seq])
     = (Ok ([], container_model, [], [], ["ebc"]), w')).
Proof.
  split.
  - intros key Hkey. repeat (apply elem_of_cons in Hkey as [->|Hkey]);
      [| | |by apply elem_of_nil in Hkey]; eexists _, _; vm_compute; reflexivity.
  - eexists. vm_compute. reflexivity.
Qed.


(** ** Frames of the attach path *)

Ltac framed Hr Ht :=
  repeat match goal with
  | |- preserves _ (ret _) => apply (preserves_ret _ Hr)
  | |- preserves _ (raise _) => apply (preserves_raise _ Hr)
  | |- preserves _ (lift _) => apply (preserves_lift _ Hr)
  | |- preserves _ (bind _ _) => apply (preserves_bind _ Ht); [|intros]
  | |- preserves _ (forM_ _ _) => apply (preserves_forM_ _ Hr Ht); apply Forall_forall; intros
  | |- preserves _ (mapM _ _) => apply (preserves_mapM _ Hr Ht); apply Forall_forall; intros
  | |- preserves _ (foldM _ _ _) =>
      apply (preserves_foldM _ Hr Ht); apply Forall_forall; intros
  | |- preserves _ (py_assert _ _) => unfold py_assert
  | |- preserves _ (match ?x with _ => _ end) => destruct x
  end.

Lemma rewrites_refl w : rewrites w w.
Proof. unfold rewrites. auto 10. Qed.

Lemma rewrites_trans w1 w2 w3 : rewrites w1 w2 -> rewrites w2 w3 -> rewrites w1 w3.
Proof. unfold rewrites. intros (?&?&?&?&?&?) (?&?&?&?&?&?). repeat split; congruence. Qed.

Lemma wrappers_only_rewrites w w' : wrappers_only w w' -> rewrites w w'.
Proof. unfold wrappers_only, rewrites. intros (?&?&?&?&?&?&?&?&_). auto 10. Qed.

Lemma rewrite_node_rewrites sm context ds pf node st :
  preserves rewrites (rewrite_node sm context ds pf node st).
Proof.
  unfold rewrite_node. destruct (sharded_target sm node); [|apply preserves_ret, rewrites_refl].
  destruct (Nat.eqb _ 0); [apply preserves_ret, rewrites_refl|].
  apply (preserves_bind _ rewrites_trans).
  { intros w. apply wrappers_only_rewrites, get_node_args_wrappers_only. }
  intros [[ail nf] h]. destruct (Nat.eqb nf _); [|apply preserves_ret, rewrites_refl].
  framed rewrites_refl rewrites_trans.
  - intros w. unfold read_sharded. destruct (_ !! _); apply rewrites_refl.
  - intros w. unfold write_sharded, modify, rewrites. simpl. auto 10.
Qed.

Lemma rewrite_model_rewrites model context ds batch jit pf pp dfs :
  preserves rewrites (_rewrite_model model context ds batch jit pf pp dfs).
Proof.
  unfold _rewrite_model. framed rewrites_refl rewrites_trans.
  - intros w. apply rewrites_refl.
  - apply rewrite_node_rewrites.
Qed.

Lemma distributes_refl w : distributes w w.
Proof.
  unfold distributes. repeat split; auto. exists []. by rewrite app_nil_r.
Qed.

Lemma distributes_trans w1 w2 w3 : distributes w1 w2 -> distributes w2 w3 -> distributes w1 w3.
Proof.
  unfold distributes.
  intros (?&F1&?&?&?&D1&e1&T1&P1) (?&F2&?&?&?&D2&e2&T2&P2).
  split; [congruence|]. split; [intros o; by rewrite F2|].
  split; [congruence|]. split; [congruence|]. split; [congruence|].
  split; [intros l Hl; by apply D2, D1|].
  exists (e1 ++ e2)%list. split; [by rewrite T2, T1, app_assoc|]. by apply Forall_app.
Qed.

Ltac distributes_prim :=
  intros w; unfold distributes; simpl;
  repeat split; auto; try (exists []; by rewrite app_nil_r).

Lemma distributes_read_context l : preserves distributes (read_context l).
Proof. intros w. unfold read_context. destruct (_ !! _); apply distributes_refl. Qed.

Lemma distributes_read_sharded o : preserves distributes (read_sharded o).
Proof. intros w. unfold read_sharded. destruct (_ !! _); apply distributes_refl. Qed.

Lemma distributes_write_context l c : preserves distributes (write_context l c).
Proof.
  intros w. unfold distributes. simpl. repeat split; auto.
  - intros l0 [x Hx]. destruct (decide (l0 = l)) as [->|Hne].
    + rewrite lookup_insert_eq. by eexists.
    + rewrite lookup_insert_ne by done. by eexists.
  - exists []. by rewrite app_nil_r.
Qed.

Lemma distributes_emit o n p k : preserves distributes (emit (PostprocModuleCall o n p k)).
Proof.
  intros w. unfold distributes. simpl. repeat split; auto.
  eexists; split; [done|]. by apply Forall_singleton.
Qed.

Lemma distributes_cache l name res w c :
  contexts w !! l = Some c ->
  distributes w (with_contexts w (<[l := with_postproc_fwd_results c
                                    (<[name := res]> (postproc_fwd_results c))]> (contexts w))).
Proof. intros _. apply (distributes_write_context l _ w). Qed.

Lemma distributes_build_args_kwargs c x : preserves distributes (build_args_kwargs c x).
Proof.
  apply (descriptors_preserve distributes distributes_refl distributes_trans
           distributes_emit distributes_cache).
Qed.

Lemma distributes_set_context p l : preserves distributes (PipelinedPostproc_set_context p l).
Proof. distributes_prim. Qed.

Lemma distributes_get_context p : preserves distributes (PipelinedPostproc_get_context p).
Proof.
  intros w. unfold PipelinedPostproc_get_context. destruct (_ !! _); apply distributes_refl.
Qed.

Lemma distributes_create_context : preserves distributes create_context.
Proof. distributes_prim. Qed.

Ltac distributes_framed :=
  framed distributes_refl distributes_trans;
  try apply distributes_read_context; try apply distributes_read_sharded;
  try apply distributes_write_context; try apply distributes_build_args_kwargs;
  try apply distributes_set_context; try apply distributes_get_context;
  try apply distributes_create_context.

Lemma distributes_fuse context : preserves distributes (_fuse_input_dist_splits context).
Proof. unfold _fuse_input_dist_splits. distributes_framed. Qed.

Lemma distributes_start_data_dist mods batch context :
  preserves distributes (_start_data_dist mods batch context).
Proof.
  unfold _start_data_dist. distributes_framed. apply distributes_fuse.
Qed.

Lemma distributes_use_context {A} pps ctx (body : Py A) :
  preserves distributes body -> preserves distributes (use_context_for_postprocs pps ctx body).
Proof. intros Hb. unfold use_context_for_postprocs. distributes_framed. exact Hb. Qed.

Lemma distributes_override mods : preserves distributes (_override_input_dist_forwards mods).
Proof.
  unfold _override_input_dist_forwards.
  apply (preserves_foldM _ distributes_refl distributes_trans). apply Forall_forall.
  intros o _ acc w. unfold bind, read_sharded.
  destruct (sharded w !! o) as [m|] eqn:E; simpl; [|apply distributes_refl].
  destruct (override_children (named_modules m)) as [[cs os] e].
  assert (H : distributes w (with_sharded w (<[o := with_named_modules m cs]> (sharded w)))).
  { unfold distributes. simpl. repeat split; auto.
    - intros o'. destruct (decide (o' = o)) as [->|Hne].
      + by rewrite lookup_insert_eq, E.
      + by rewrite lookup_insert_ne.
    - exists []. by rewrite app_nil_r. }
  unfold write_sharded, modify. simpl. by destruct e.
Qed.


(** ** Advancing the window of contexts *)

Lemma repoint_idem ctx m : repoint ctx (repoint ctx m) = repoint ctx m.
Proof. unfold repoint. destruct m as [[|f] ? ? ?]; simpl; done. Qed.

Lemma set_module_contexts_run ctx mods :
  forall w,
    (forall o, o ∈ mods -> exists m f, sharded w !! o = Some m /\ forward m = Intercepting f) ->
    forM_ (fun module => forward_set_context module ctx) mods w
    = (Ok tt, with_sharded w (fold_left (fun sh o => alter (repoint ctx) o sh) mods (sharded w))).
Proof.
  induction mods as [|o mods IH]; intros w H.
  - simpl. unfold ret. by destruct w.
  - destruct (H o) as (m & f & Hm & Hf); [apply list_elem_of_here|].
    simpl. unfold bind at 1. unfold forward_set_context at 1.
    unfold bind at 1, read_sharded. rewrite Hm, Hf. unfold write_sharded, modify.
    rewrite IH.
    + simpl. f_equal. f_equal. f_equal.
      apply map_eq. intros i. destruct (decide (i = o)) as [->|Hne].
      * rewrite lookup_alter_eq, lookup_insert_eq, Hm. simpl. unfold repoint. by rewrite Hf.
      * by rewrite lookup_alter_ne, lookup_insert_ne.
    + intros o' Ho'. simpl. destruct (decide (o' = o)) as [->|Hne].
      * rewrite lookup_insert_eq. by eexists _, _.
      * rewrite lookup_insert_ne by done. apply H. by apply list_elem_of_further.
Qed.

Lemma set_postproc_contexts_run ctx pps :
  forall w,
    forM_ (fun p => PipelinedPostproc_set_context p ctx) pps w
    = (Ok tt, with_postproc_context w
                (fold_left (fun pc p => <[pp_self p := ctx]> pc) pps (postproc_context w))).
Proof.
  induction pps as [|p pps IH]; intros w.
  - simpl. unfold ret. by destruct w.
  - simpl. unfold bind at 1. unfold PipelinedPostproc_set_context at 1, modify.
    rewrite IH. reflexivity.
Qed.

Lemma advance_context_run w front rest :
  _contexts (sdd w) = front :: rest -> attached w ->
  _advance_context w = (Ok tt, advanced w).
Proof.
  intros Hc Ha.
  unfold _advance_context, _assert_contexts_count, contexts_popleft, _add_context,
    _create_context, alloc_context, contexts_append, _context_for_model_forward,
    _current_context, context_at, should_assert_context_invariants, _set_module_context,
    bind, emit, update_sdd, modify, get_sdd, ret, raise.
  simpl. rewrite Hc. simpl.
  destruct rest as [|second rest]; simpl.
  - rewrite set_module_contexts_run by (simpl; apply Ha).
    rewrite set_postproc_contexts_run. unfold advanced. rewrite Hc. reflexivity.
  - rewrite set_module_contexts_run by (simpl; apply Ha).
    rewrite set_postproc_contexts_run. unfold advanced. rewrite Hc. reflexivity.
Qed.

Lemma lookup_repoint_all ctx mods :
  forall (sh : gmap oid ShardedModule) o,
    fold_left (fun sh o => alter (repoint ctx) o sh) mods sh !! o
    = if decide (o ∈ mods) then repoint ctx <$> sh !! o else sh !! o.
Proof.
  induction mods as [|x mods IH]; intros sh o; simpl.
  - destruct (decide (o ∈ [])) as [H|_]; [by apply elem_of_nil in H|done].
  - rewrite IH. destruct (decide (o = x)) as [->|Hne].
    + rewrite lookup_alter_eq.
      destruct (decide (x ∈ x :: mods)) as [_|Hn]; [|by destruct Hn; apply list_elem_of_here].
      destruct (decide (x ∈ mods)); [|done].
      destruct (sh !! x); simpl; [|done]. by rewrite repoint_idem.
    + rewrite lookup_alter_ne by done.
      destruct (decide (o ∈ mods)) as [Hin|Hn];
        destruct (decide (o ∈ x :: mods)) as [Hin'|Hn']; try done.
      * destruct Hn'. by apply list_elem_of_further.
      * apply elem_of_cons in Hin' as [?|?]; done.
Qed.

Lemma lookup_set_contexts_key ctx pps :
  forall (pc : gmap oid loc) k,
    fold_left (fun pc p => <[pp_self p := ctx]> pc) pps pc !! k
    = if decide (k ∈ map pp_self pps) then Some ctx else pc !! k.
Proof.
  induction pps as [|x pps IH]; intros pc k; simpl.
  - destruct (decide (k ∈ [])) as [H|_]; [by apply elem_of_nil in H|done].
  - rewrite IH.
    destruct (decide (k ∈ map pp_self pps)) as [Hin|Hn];
      destruct (decide (k ∈ pp_self x :: map pp_self pps)) as [Hin'|Hn']; try done.
    + destruct Hn'. by apply list_elem_of_further.
    + apply elem_of_cons in Hin' as [E|?]; [|done]. subst k. apply lookup_insert_eq.
    + apply lookup_insert_ne. intros E. subst k. apply Hn', list_elem_of_here.
Qed.

Lemma lookup_set_contexts ctx pps (pc : gmap oid loc) p :
  p ∈ pps ->
  fold_left (fun pc p => <[pp_self p := ctx]> pc) pps pc !! pp_self p = Some ctx.
Proof.
  intros Hp. rewrite lookup_set_contexts_key, decide_True; [done|].
  apply list_elem_of_In, in_map, list_elem_of_In, Hp.
Qed.

Lemma advanced_attached w : attached w -> attached (advanced w).
Proof.
  intros Ha o Ho. simpl in Ho. destruct (Ha o Ho) as (m & f & Hm & Hf).
  simpl. rewrite lookup_repoint_all, decide_True by done. rewrite Hm. simpl.
  eexists _, _. split; [done|]. unfold repoint. by rewrite Hf.
Qed.

Lemma advanced_length w :
  _contexts (sdd w) <> [] ->
  length (_contexts (sdd (advanced w))) = length (_contexts (sdd w)).
Proof.
  intros H. simpl. destruct (_contexts (sdd w)); [done|]. rewrite length_app. simpl. lia.
Qed.

Lemma advanced_closed w : window_closed w -> window_closed (advanced w).
Proof.
  intros Hc l Hl. simpl in Hl. simpl. apply elem_of_app in Hl as [Hl|Hl].
  - assert (l ∈ _contexts (sdd w)) as Hin.
    { destruct (_contexts (sdd w)); [done|]. by apply list_elem_of_further. }
    specialize (Hc l Hin). lia.
  - apply list_elem_of_singleton in Hl. lia.
Qed.

Lemma advance_times_run n :
  forall w,
    attached w -> length (_contexts (sdd w)) = window (sdd w) ->
    exists w',
      advance_times n w = (Ok tt, w') /\
      attached w' /\
      length (_contexts (sdd w')) = window (sdd w') /\
      window (sdd w') = window (sdd w) /\
      _next_index (sdd w') = _next_index (sdd w) + Z.of_nat n /\
      _pipelined_modules (sdd w') = _pipelined_modules (sdd w) /\
      _pipelined_postprocs (sdd w') = _pipelined_postprocs (sdd w) /\
      (window_closed w -> window_closed w').
Proof.
  induction n as [|n IH]; intros w Ha Hl.
  - exists w. simpl. repeat split; try done. lia.
  - assert (Hne : _contexts (sdd w) <> []).
    { intros E. rewrite E in Hl. unfold window in Hl. by destruct (_with_prefetch _). }
    destruct (_contexts (sdd w)) as [|front rest] eqn:Ec; [done|].
    destruct (IH (advanced w)) as (w' & Hrun & Ha' & Hl' & Hw' & Hi' & Hm' & Hp' & Hc').
    + by apply advanced_attached.
    + rewrite advanced_length by (by rewrite Ec). by rewrite Ec.
    + exists w'. simpl. unfold bind. rewrite (advance_context_run w front rest) by done.
      repeat split; try done; [rewrite Hi'; simpl; lia|].
      intros Hc. apply Hc'. by apply advanced_closed.
Qed.


Lemma rewrite_model_classified model context ds batch jit pf pp dfs w
      pipelined model' originals postprocs non_pipelined w' :
  _rewrite_model model context ds batch jit pf pp dfs w
  = (Ok (pipelined, model', originals, postprocs, non_pipelined), w') ->
  exists graph st,
    tracer w (underlying model) batch = Ok graph /\
    pipelined_forwards st = pipelined /\ original_forwards st = originals /\
    non_pipelined_sharded_modules st = non_pipelined /\
    classified (collect_sharded_modules (underlying model)) context ds pf graph st w'.
Proof.
  intros H. unfold _rewrite_model in H. unfold bind at 1, get in H.
  unfold bind at 1, lift in H.
  destruct (tracer w (underlying model) batch) as [graph|e] eqn:Htr; [|discriminate].
  apply bind_inv_Ok in H as (st & w1 & Hloop & H). injection H as <- _ <- _ <- <-.
  exists graph, st. repeat split; try done.
  1-4: apply (rewrite_loop_classified _ context ds pf graph [] _ _ _ _) in Hloop;
    [apply Hloop|].
  all: repeat split; simpl; try done.
  all: try (intros ? ? Hn; by apply elem_of_nil in Hn).
  all: try (intros ? Hn; by apply elem_of_nil in Hn).
Qed.

Lemma context_at_pure i w : snd (context_at i w) = w.
Proof.
  unfold context_at, bind, get_sdd. by destruct (nth_error (_contexts (sdd w)) i).
Qed.

Lemma start_dist_context_pure w : snd (_start_dist_context w) = w.
Proof.
  unfold _start_dist_context, bind, get_sdd. destruct (_with_prefetch (sdd w));
    apply context_at_pure.
Qed.

Lemma create_context_run idx w l w' :
  _create_context idx w = (Ok l, w') ->
  sdd w' = sdd w /\ l = next_loc w /\ next_loc w' = S (next_loc w).
Proof.
  unfold _create_context, bind, get_sdd, alloc_context. intros H.
  injection H as <- <-. done.
Qed.

Lemma contexts_append_run l w u w' :
  contexts_append l w = (Ok u, w') ->
  sdd w' = set_contexts (sdd w) (_contexts (sdd w) ++ [l])%list /\ next_loc w' = next_loc w.
Proof.
  unfold contexts_append, update_sdd, modify. intros H. injection H as _ <-. done.
Qed.

Lemma add_context_run w u w' :
  _add_context w = (Ok u, w') ->
  sdd w' = set_next_index (set_contexts (sdd w) (_contexts (sdd w) ++ [next_loc w])%list)
             (_next_index (sdd w) + 1) /\
  next_loc w' = S (next_loc w).
Proof.
  unfold _add_context. unfold bind at 1, get_sdd. intros H.
  apply bind_inv_Ok in H as (l & w1 & H1 & H). apply create_context_run in H1 as (H1 & -> & N1).
  apply bind_inv_Ok in H as (u1 & w2 & H2 & H). apply contexts_append_run in H2 as (H2 & N2).
  unfold update_sdd, modify in H. injection H as _ <-.
  change (sdd (with_sdd w2 ?s)) with s. change (next_loc (with_sdd w2 ?s)) with (next_loc w2).
  rewrite H2, H1, N2, N1. done.
Qed.

Lemma last_context_pure w : snd (last_context w) = w.
Proof.
  unfold last_context, bind, get_sdd. by destruct (last (_contexts (sdd w))).
Qed.

Lemma initial_contexts_run w ctx w0 :
  (if _is_reattaching (sdd w) then _current_context
   else
     let* _ := if _with_prefetch (sdd w) then
                 let* l := _create_context (-2) in contexts_append l
               else ret tt in
     let* l := _create_context (-1) in
     let* _ := contexts_append l in
     let* _ := _add_context in
     last_context) w = (Ok ctx, w0) ->
    prefetch_stream (sdd w0) = prefetch_stream (sdd w) /\
    (_contexts (sdd w) = [] ->
     length (_contexts (sdd w0)) = window (sdd w0) /\ window_closed w0) /\
    (_contexts (sdd w) <> [] ->
     _contexts (sdd w0) = _contexts (sdd w) /\ _next_index (sdd w0) = _next_index (sdd w)).
Proof.
  intros H0. unfold _is_reattaching in H0.
  destruct (_contexts (sdd w)) as [|c cs] eqn:Ec.
  - change (negb (length (@nil loc) =? 0)%nat) with false in H0. cbv iota in H0.
    apply bind_inv_Ok in H0 as (u0 & w1 & Hpre & H0).
    apply bind_inv_Ok in H0 as (l1 & w2 & H1 & H0).
    apply create_context_run in H1 as (H1 & -> & N1).
    apply bind_inv_Ok in H0 as (u1 & w3 & H2 & H0).
    apply contexts_append_run in H2 as (H2 & N2).
    apply bind_inv_Ok in H0 as (u2 & w4 & H3 & H0). apply add_context_run in H3 as (H3 & N3).
    pose proof (last_context_pure w4) as H4. rewrite H0 in H4. simpl in H4. subst w0.
    assert (Hs1 : exists pre, sdd w1 = set_contexts (sdd w) pre /\
              length pre = (if _with_prefetch (sdd w) then 1%nat else 0%nat) /\
              forall l, l ∈ pre -> (l < next_loc w1)%nat).
    { destruct (_with_prefetch (sdd w)).
      - apply bind_inv_Ok in Hpre as (l0 & w0 & Ha & Hb).
        apply create_context_run in Ha as (Ha & -> & Na).
        apply contexts_append_run in Hb as (Hb & Nb).
        exists [next_loc w]. rewrite Hb, Ha, Ec. split; [done|]. split; [done|].
        intros l Hl. apply list_elem_of_singleton in Hl. lia.
      - injection Hpre as _ <-. exists []. split; [|split; [done|]].
        + rewrite <- Ec. by destruct (sdd w).
        + intros l Hl. by apply elem_of_nil in Hl. }
    destruct Hs1 as (pre & Hs1 & Hlen & Hcl).
    split; [|split; [|done]].
    + rewrite H3, H2, H1, Hs1. done.
    + intros _. split.
      * rewrite H3, H2, H1, Hs1. unfold window, _with_prefetch. simpl.
        rewrite !length_app, Hlen. unfold _with_prefetch. simpl.
        by destruct (prefetch_stream (sdd w)).
      * intros l. unfold window_closed. rewrite N3, N2, N1, H3, H2, H1, Hs1. simpl.
        rewrite !elem_of_app, !list_elem_of_singleton. intros [[Hl| ->]| ->]; [|lia..].
        specialize (Hcl l Hl). lia.
  - change (negb (length (c :: cs) =? 0)%nat) with true in H0. cbv iota in H0.
    pose proof (context_at_pure 0 w) as Hp. unfold _current_context in H0.
    rewrite H0 in Hp. simpl in Hp. subst w0. rewrite Ec. done.
Qed.

Lemma initialize_or_reattach_run batch w w' :
  _initialize_or_reattach batch w = (Ok tt, w') ->
  (_contexts (sdd w) = [] ->
   length (_contexts (sdd w')) = window (sdd w') /\ window_closed w') /\
  (_contexts (sdd w) <> [] ->
   _contexts (sdd w') = _contexts (sdd w) /\ _next_index (sdd w') = _next_index (sdd w)) /\
  prefetch_stream (sdd w') = prefetch_stream (sdd w) /\
  attached w' /\
  initialized (sdd w') = true /\
  (exists handle, fwd_hook (sdd w') = Some handle /\ handle ∈ forward_hooks w').
Proof.
  intros H. unfold _initialize_or_reattach in H.
  unfold bind at 1, get_sdd in H.
  apply bind_inv_Ok in H as (ctx & w0 & H0 & H).
  apply initial_contexts_run in H0 as Hstage.
  destruct Hstage as (Hp0 & Hinit & Hre).
  apply bind_inv_Ok in H as ([] & w0' & Hassert & H).
  unfold _assert_contexts_count in Hassert. simpl in Hassert. injection Hassert as <-.
  unfold bind at 1, get_sdd in H.
  apply bind_inv_Ok in H as ([[[[pipelined model'] originals] postprocs] np] & w1 & Hrw & H).
  pose proof (rewrite_model_rewrites (model (sdd w0)) ctx (Some (data_dist_stream (sdd w0)))
                batch (apply_jit (sdd w0)) (_pipelined_forward (sdd w0))
                (_pipeline_postproc (sdd w0)) (_default_stream (sdd w0)) w0) as Hfr.
  rewrite Hrw in Hfr. simpl in Hfr. destruct Hfr as (Hs1 & _ & Hn1 & Hh1 & _).
  apply rewrite_model_classified in Hrw as (graph & st & _ & Hpf & _ & _ & (_&_&_&Hatt)).
  rewrite Hpf in Hatt.
  unfold bind at 1, update_sdd, modify in H.
  set (w2 := with_sdd w1 _) in H.
  apply bind_inv_Ok in H as (sctx & w2' & Hsc & H).
  assert (w2' = w2) as ->.
  { pose proof (start_dist_context_pure w2) as Hp. by rewrite Hsc in Hp. }
  apply bind_inv_Ok in H as ([] & w3 & Hstart & H).
  pose proof (distributes_start_data_dist pipelined batch sctx w2) as D3.
  rewrite Hstart in D3. simpl in D3.
  apply bind_inv_Ok in H as (kjt & w4 & Hov & H).
  pose proof (distributes_override pipelined w3) as D4.
  rewrite Hov in D4. simpl in D4.
  pose proof (distributes_trans _ _ _ D3 D4) as (Hs4 & Hf4 & Hh4 & Hn4 & Hl4 & _).
  unfold bind, update_sdd, modify, register_forward_hook in H. simpl in H.
  injection H as <-. simpl. rewrite Hs4. simpl. rewrite Hs1.
  split; [|split; [exact Hre|]; split; [exact Hp0|]].
  { intros E. destruct (Hinit E) as [HL HC]. split; [exact HL|].
    intros l Hl. simpl in Hl. simpl. rewrite Hl4. simpl. rewrite Hn1. by apply HC. }
  split; [|split; [done|]].
  - intros o Ho. simpl in Ho. simpl.
    destruct (Hatt o Ho) as (m & f & Hm & Hf & _).
    specialize (Hf4 o). simpl in Hf4. rewrite Hm in Hf4. simpl in Hf4.
    destruct (sharded w4 !! o) as [m4|]; [|discriminate]. simpl in Hf4.
    exists m4, f. split; [reflexivity|]. injection Hf4 as ->. exact Hf.
  - eexists. split; [reflexivity|]. simpl. apply elem_of_union_l, elem_of_singleton. reflexivity.
Qed.

(** C2: once the orchestrator has been initialised from an empty window,
    any number [n] of calls of [_advance_context] succeeds and leaves a
    window of 3 contexts when a prefetch stream is configured and of 2
    otherwise; one more call removes exactly the front context, puts
    exactly one context at the back, which this call has created and which
    was not in the window, and leaves the forward of every pipelined module
    and every pipelined postproc pointing at the new front of the window. *)
Theorem advance_context_slides_window batch w0 w n :
  _contexts (sdd w0) = [] ->
  _initialize_or_reattach batch w0 = (Ok tt, w) ->
  exists wn front rest,
    advance_times n w = (Ok tt, wn) /\
    length (_contexts (sdd wn)) = (if _with_prefetch (sdd w0) then 3 else 2)%nat /\
    _contexts (sdd wn) = front :: rest /\
    let fresh := next_loc wn in
    let current := hd fresh (rest ++ [fresh]) in
    exists wn',
      _advance_context wn = (Ok tt, wn') /\
      (fresh ∉ _contexts (sdd wn)) /\
      _contexts (sdd wn') = (rest ++ [fresh])%list /\
      _next_index (sdd wn') = _next_index (sdd wn) + 1 /\
      contexts wn' !! fresh
      = Some (new_context (if _with_prefetch (sdd w0) then PrefetchTrainPipelineContextClass
                           else TrainPipelineContextClass)
                (_next_index (sdd wn)) _TRAIN_CONTEXT_VERSION) /\
      (forall o, o ∈ _pipelined_modules (sdd wn') ->
         exists m f, sharded wn' !! o = Some m /\ forward m = Intercepting f /\
                     _context f = current) /\
      (forall p, p ∈ _pipelined_postprocs (sdd wn') ->
         postproc_context wn' !! pp_self p = Some current).
Proof.
  intros Hempty Hinit.
  apply initialize_or_reattach_run in Hinit as (Hlen & _ & Hpre & Hatt & _).
  destruct (Hlen Hempty) as [Hl Hc]. clear Hlen.
  destruct (advance_times_run n w Hatt Hl) as (wn & Hrun & Hattn & Hln & Hwn & _ & _ & _ & Hcn).
  specialize (Hcn Hc).
  assert (Hw : _with_prefetch (sdd wn) = _with_prefetch (sdd w0)).
  { unfold window in Hwn. unfold _with_prefetch at 2. rewrite <- Hpre.
    fold (_with_prefetch (sdd w)).
    by destruct (_with_prefetch (sdd wn)), (_with_prefetch (sdd w)). }
  destruct (_contexts (sdd wn)) as [|front rest] eqn:Ec.
  { unfold window in Hln. by destruct (_with_prefetch (sdd wn)). }
  exists wn, front, rest. split; [exact Hrun|]. split.
  { rewrite Ec, <- Hw. exact Hln. }
  split; [done|]. intros fresh current. exists (advanced wn).
  split; [by apply (advance_context_run wn front rest)|].
  split.
  { intros Hin. specialize (Hcn _ Hin). unfold fresh in Hcn. lia. }
  assert (Hcur : hd (next_loc wn) (tail (_contexts (sdd wn)) ++ [next_loc wn]) = current).
  { by rewrite Ec. }
  split; [simpl; by rewrite Ec|]. split; [done|]. split.
  { simpl. rewrite lookup_insert_eq, Hw. done. }
  split.
  - intros o Ho. simpl in Ho. destruct (Hattn o Ho) as (m & f & Hm & Hf).
    simpl. rewrite lookup_repoint_all, decide_True by done. rewrite Hm. simpl.
    rewrite Hcur. eexists _, _. split; [done|]. unfold repoint. rewrite Hf. simpl. done.
  - intros p Hp. simpl in Hp. simpl. rewrite Hcur. by apply lookup_set_contexts.
Qed.

Lemma advance_context_slides_window_witness :
  exists w,
    _initialize_or_reattach sample_batch (pipeline_world (Some 1%nat)) = (Ok tt, w) /\
    exists wn, advance_times 4 w = (Ok tt, wn) /\ length (_contexts (sdd wn)) = 3%nat.
Proof.
  eexists. split; [vm_compute; reflexivity|].
  destruct (advance_context_slides_window sample_batch (pipeline_world (Some 1%nat)) _ 4
              eq_refl ltac:(vm_compute; reflexivity))
    as (wn & front & rest & Hrun & Hlen & _).
  exists wn. split; [exact Hrun | exact Hlen].
Defined.

(** ** The order of waiting, advancing and starting *)

Lemma quiet_refl w : quiet w w.
Proof. reflexivity. Qed.

Lemma quiet_trans w1 w2 w3 : quiet w1 w2 -> quiet w2 w3 -> quiet w1 w3.
Proof. unfold quiet. congruence. Qed.

Lemma quiet_modify f : (forall w, trace (f w) = trace w) -> preserves quiet (modify f).
Proof. intros H w. apply H. Qed.

Lemma quiet_read_context l : preserves quiet (read_context l).
Proof. apply preserves_read_context, quiet_refl. Qed.

Lemma quiet_read_sharded o : preserves quiet (read_sharded o).
Proof. intros w. unfold read_sharded. destruct (_ !! _); apply quiet_refl. Qed.

Lemma quiet_get_sdd : preserves quiet get_sdd.
Proof. intros w. apply quiet_refl. Qed.

Lemma quiet_alloc_context c : preserves quiet (alloc_context c).
Proof. intros w. reflexivity. Qed.

Ltac quiet_framed :=
  framed quiet_refl quiet_trans;
  try apply quiet_read_context; try apply quiet_read_sharded; try apply quiet_get_sdd;
  try apply quiet_alloc_context;
  try (apply quiet_modify; intros; reflexivity).

Lemma quiet_context_at i : preserves quiet (context_at i).
Proof. unfold context_at. quiet_framed. Qed.

Lemma quiet_should_assert ctx : preserves quiet (should_assert_context_invariants ctx).
Proof. unfold should_assert_context_invariants. quiet_framed. Qed.

Lemma quiet_add_context : preserves quiet _add_context.
Proof.
  unfold _add_context, _create_context, contexts_append, update_sdd. quiet_framed.
Qed.

Lemma quiet_set_module_context ctx : preserves quiet (_set_module_context ctx).
Proof.
  unfold _set_module_context, forward_set_context, PipelinedPostproc_set_context, write_sharded.
  quiet_framed.
Qed.

Lemma quiet_context_for_model_forward : preserves quiet _context_for_model_forward.
Proof.
  unfold _context_for_model_forward, _current_context, _pipelined_modules_fqns, forward_name.
  quiet_framed; try apply quiet_context_at; try apply quiet_should_assert.
Qed.

Lemma advance_context_trace w :
  trace (snd (_advance_context w)) = (trace w ++ [AdvanceContext])%list.
Proof.
  unfold _advance_context.
  assert (H : forall u : unit, preserves quiet
            (let* _ := _assert_contexts_count in
             let* _ := contexts_popleft in
             let* _ := _add_context in
             let* ctx := _context_for_model_forward in
             _set_module_context ctx)).
  { intros _. unfold _assert_contexts_count, contexts_popleft, update_sdd. quiet_framed;
      try apply quiet_add_context; try apply quiet_context_for_model_forward;
      try apply quiet_set_module_context. }
  unfold bind at 1. unfold emit at 1, modify. apply (H tt).
Qed.

Lemma quiet_write_context l c : preserves quiet (write_context l c).
Proof. intros w. reflexivity. Qed.

Lemma wait_dist_context_run w : _wait_dist_context w = _start_dist_context w.
Proof.
  unfold _wait_dist_context, bind.
  pose proof (start_dist_context_pure w) as Hp.
  destruct (_start_dist_context w) as [[ctx|e] w0]; simpl in Hp; subst w0; reflexivity.
Qed.

Lemma wait_sparse_data_dist_run w :
  exists evs,
    trace (snd (wait_sparse_data_dist w)) = (trace w ++ evs)%list /\
    sdd (snd (wait_sparse_data_dist w)) = sdd w /\
    (forall o, forward <$> sharded (snd (wait_sparse_data_dist w)) !! o
               = forward <$> sharded w !! o) /\
    next_loc (snd (wait_sparse_data_dist w)) = next_loc w /\
    match fst (wait_sparse_data_dist w) with
    | Ok _ => exists ctx, _start_dist_context w = (Ok ctx, w) /\ evs = [WaitSparseDataDist ctx]
    | Raise _ => evs = [] \/ exists ctx, evs = [WaitSparseDataDist ctx]
    end.
Proof.
  destruct (wait_sparse_data_dist w) as [r w'] eqn:HX. simpl.
  unfold wait_sparse_data_dist in HX. unfold bind at 1 in HX.
  rewrite wait_dist_context_run in HX.
  pose proof (start_dist_context_pure w) as Hp.
  destruct (_start_dist_context w) as [[ctx|e] w0]; simpl in Hp; subst w0.
  - unfold bind at 1, emit at 1, modify in HX. set (w1 := with_trace w _) in HX.
    match type of HX with
    | ?m w1 = _ =>
        assert (Hq : preserves quiet m)
          by (quiet_framed; apply quiet_write_context);
        assert (Hd : preserves distributes m) by distributes_framed;
        specialize (Hq w1); specialize (Hd w1); rewrite HX in Hq, Hd
    end.
    simpl in Hq, Hd. destruct Hd as (Hs & Hf & _ & _ & Hn & _).
    exists [WaitSparseDataDist ctx]. split; [exact Hq|]. split; [exact Hs|].
    split; [exact Hf|]. split; [exact Hn|].
    destruct r; [by exists ctx | right; by exists ctx].
  - injection HX as <- <-. exists []. rewrite app_nil_r. repeat split; try done. by left.
Qed.

Lemma wait_then_advance_run w :
  waits_then_advances (let* _ := wait_sparse_data_dist in _advance_context) w.
Proof.
  destruct (wait_sparse_data_dist_run w) as (evs & Ht & _ & _ & _ & Hr).
  unfold waits_then_advances, bind.
  destruct (wait_sparse_data_dist w) as [[u|e] w1]; simpl in Ht, Hr.
  - destruct Hr as (ctx & Hctx & ->).
    exists [WaitSparseDataDist ctx; AdvanceContext]. split.
    + rewrite advance_context_trace, Ht, <- app_assoc. reflexivity.
    + destruct (fst (_advance_context w1)); [by exists ctx|].
      right. exists ctx. by right.
  - exists evs. split; [exact Ht|]. simpl. destruct Hr as [->|(ctx & ->)]; [by left|].
    right. exists ctx. by left.
Qed.

Lemma start_dist_context_elem w ctx :
  _start_dist_context w = (Ok ctx, w) -> ctx ∈ _contexts (sdd w).
Proof.
  unfold _start_dist_context, context_at, bind, get_sdd. intros H.
  assert (Hn : exists i, nth_error (_contexts (sdd w)) i = Some ctx).
  { destruct (_with_prefetch (sdd w));
      [exists 2%nat | exists 1%nat]; destruct (nth_error _ _); by inversion H. }
  destruct Hn as (i & Hn). apply list_elem_of_In. eapply nth_error_In, Hn.
Qed.

Lemma start_dist_context_advanced w :
  length (_contexts (sdd w)) = window (sdd w) ->
  _start_dist_context (advanced w) = (Ok (next_loc w), advanced w).
Proof.
  intros H.
  assert (Hc : _contexts (sdd (advanced w)) = (tail (_contexts (sdd w)) ++ [next_loc w])%list)
    by reflexivity.
  assert (Hp : _with_prefetch (sdd (advanced w)) = _with_prefetch (sdd w)) by reflexivity.
  unfold _start_dist_context, context_at, bind, get_sdd. rewrite Hp. clear Hp.
  unfold window in H.
  destruct (_with_prefetch (sdd w)); cbv beta; rewrite Hc; clear Hc;
    destruct (_contexts (sdd w)) as [|a [|b [|c [|d l]]]]; simpl in H; try discriminate;
    reflexivity.
Qed.

Lemma hook_then_start_run batch w b w' :
  initialized (sdd w) = true -> attached w ->
  length (_contexts (sdd w)) = window (sdd w) -> window_closed w ->
  (let* _ := forward_hook in start_sparse_data_dist batch) w = (Ok b, w') ->
  exists ctx evs,
    ctx ∈ _contexts (sdd w) /\ ctx <> next_loc w /\
    trace w' = (trace w ++ [WaitSparseDataDist ctx; AdvanceContext;
                            StartSparseDataDist (next_loc w)] ++ evs)%list /\
    Forall is_postproc_call evs.
Proof.
  intros Hinit Hatt Hlen Hcl Hrun.
  apply bind_inv_Ok in Hrun as ([] & w2 & Hhook & Hstart).
  unfold forward_hook in Hhook. apply bind_inv_Ok in Hhook as ([] & w1 & Hwait & Hadv).
  destruct (wait_sparse_data_dist_run w) as (evs & Ht & Hs & Hf & Hn & Hr).
  rewrite Hwait in Ht, Hs, Hf, Hn, Hr. simpl in Ht, Hs, Hf, Hn, Hr.
  destruct Hr as (ctx & Hctx & ->).
  assert (Hatt1 : attached w1).
  { intros o Ho. rewrite Hs in Ho. destruct (Hatt o Ho) as (m & f & Hm & Hfw).
    specialize (Hf o). rewrite Hm in Hf. simpl in Hf.
    destruct (sharded w1 !! o) as [m1|]; [|discriminate]. simpl in Hf.
    exists m1, f. split; [reflexivity|]. injection Hf as ->. exact Hfw. }
  assert (Hlen1 : length (_contexts (sdd w1)) = window (sdd w1)) by (by rewrite Hs).
  destruct (_contexts (sdd w1)) as [|front rest] eqn:Ec.
  { unfold window in Hlen1. by destruct (_with_prefetch (sdd w1)). }
  rewrite (advance_context_run w1 front rest Ec Hatt1) in Hadv. injection Hadv as <-.
  rewrite <- Ec in Hlen1.
  pose proof (start_dist_context_elem _ _ Hctx) as Hin.
  exists ctx. 
  unfold start_sparse_data_dist in Hstart. unfold bind at 1, get_sdd in Hstart.
  assert (Hi : initialized (sdd (advanced w1)) = true) by (simpl; by rewrite Hs).
  rewrite Hi in Hstart. simpl negb in Hstart. cbv iota in Hstart.
  unfold bind at 1, ret at 1 in Hstart. unfold bind at 1 in Hstart.
  rewrite (start_dist_context_advanced w1 Hlen1) in Hstart.
  unfold bind at 1, emit at 1, modify in Hstart.
  set (w3 := with_trace _ _) in Hstart.
  match type of Hstart with
  | ?m w3 = _ =>
      assert (Hd : preserves distributes m)
        by (unfold bind at 1, get_sdd; intros w0; unfold bind at 1;
            match goal with
            | |- distributes _ (snd (match ?u w0 with _ => _ end)) =>
                assert (Hu : preserves distributes u)
                  by (apply distributes_use_context, distributes_start_data_dist);
                specialize (Hu w0); destruct (u w0) as [[?|?] ?]; exact Hu
            end);
      specialize (Hd w3); rewrite Hstart in Hd
  end.
  simpl in Hd. destruct Hd as (_ & _ & _ & _ & _ & _ & pevs & Hpt & Hpf).
  exists pevs. split; [exact Hin|]. split.
  { specialize (Hcl ctx Hin). lia. }
  split; [|exact Hpf].
  rewrite Hpt. subst w3. simpl. rewrite Ht, Hn, <- !app_assoc. reflexivity.
Qed.

(** C5: whatever the store, a run of the post-forward hook records the wait
    on the context whose distribution is in flight and then the advance,
    in this order and nothing else, and so does the fill-phase callback;
    an exception cuts this sequence short and never reorders it.  In an
    iteration of an attached pipeline with a full window, the hook followed
    by [start_sparse_data_dist] for the next batch records the wait on a
    context of the window, then the advance, then the start on the context
    the advance has created, which is not the one waited on. *)
Theorem hook_waits_advances_then_starts batch w :
  waits_then_advances forward_hook w /\
  waits_then_advances wait_sdd_fill_callback w /\
  (initialized (sdd w) = true -> attached w ->
   length (_contexts (sdd w)) = window (sdd w) -> window_closed w ->
   forall b w',
     (let* _ := forward_hook in start_sparse_data_dist batch) w = (Ok b, w') ->
     exists ctx evs,
       ctx ∈ _contexts (sdd w) /\ ctx <> next_loc w /\
       trace w' = (trace w ++ [WaitSparseDataDist ctx; AdvanceContext;
                               StartSparseDataDist (next_loc w)] ++ evs)%list /\
       Forall is_postproc_call evs).
Proof.
  split; [apply wait_then_advance_run|]. split; [apply wait_then_advance_run|].
  intros Hi Ha Hl Hc b w' Hrun. by apply (hook_then_start_run batch w b w').
Qed.

Lemma hook_waits_advances_then_starts_witness :
  exists ctx evs,
    trace (snd ((let* _ := forward_hook in start_sparse_data_dist sample_batch)
                  (running_world None)))
    = (trace (running_world None)
       ++ [WaitSparseDataDist ctx; AdvanceContext; StartSparseDataDist 2%nat] ++ evs)%list.
Proof.
  assert (Hm : _pipelined_modules (sdd (running_world None)) = [0%nat])
    by (vm_compute; reflexivity).
  assert (Hc : _contexts (sdd (running_world None)) = [0%nat; 1%nat])
    by (vm_compute; reflexivity).
  assert (Ha : attached (running_world None)).
  { intros o Ho. rewrite Hm in Ho. apply list_elem_of_singleton in Ho. subst o.
    eexists _, _. split; vm_compute; reflexivity. }
  assert (Hw : window_closed (running_world None)).
  { intros l Hl. rewrite Hc in Hl. change (next_loc (running_world None)) with 2%nat.
    apply elem_of_cons in Hl as [->|Hl]; [lia|].
    apply list_elem_of_singleton in Hl. lia. }
  destruct (proj2 (proj2 (hook_waits_advances_then_starts sample_batch (running_world None)))
              ltac:(vm_compute; reflexivity) Ha ltac:(vm_compute; reflexivity) Hw
              sample_batch _ ltac:(vm_compute; reflexivity))
    as (ctx & evs & _ & _ & Ht & _).
  exists ctx, evs. exact Ht.
Defined.

(** ** Detaching *)

(** C6: on the model whose postproc module lies at "a.b", attaching wraps
    that module where it lies; [detach] then returns, with the forward of
    the sharded module restored, the hook removed and the window as it was,
    and yet the module at "a.b" is still the wrapper: the original has been
    set as an attribute named "a.b" of the model itself. *)
Theorem detach_keeps_nested_postproc :
  fst (start_sparse_data_dist sample_batch nested_world) = Ok sample_batch /\
  Module_get_submodule nested_module ["a"; "b"] = Some sample_postproc_module /\
  _pipelined_postprocs (sdd nested_attached) = [nested_postproc] /\
  Module_get_submodule (underlying (model (sdd nested_attached))) ["a"; "b"]
  = Some (PipelinedPostprocModule nested_postproc) /\
  exists model',
    fst (detach nested_attached) = Ok model' /\
    Module_get_submodule (underlying model') ["a"; "b"]
    = Some (PipelinedPostprocModule nested_postproc) /\
    _find_postproc_module_recursive (underlying model') "a.b"
    = Some (PipelinedPostprocModule nested_postproc) /\
    Module_get_submodule (underlying model') ["a.b"] = Some sample_postproc_module /\
    forward <$> sharded (snd (detach nested_attached)) !! 0%nat
    = forward <$> sharded nested_world !! 0%nat /\
    forward_hooks (snd (detach nested_attached)) = ∅ /\
    _contexts (sdd (snd (detach nested_attached))) = _contexts (sdd nested_attached) /\
    _next_index (sdd (snd (detach nested_attached))) = _next_index (sdd nested_attached).
Proof.
  split; [vm_compute; reflexivity|].
  split; [reflexivity|].
  split; [vm_compute; reflexivity|].
  split; [vm_compute; reflexivity|].
  exists (BareModel (Module_setattr (underlying (model (sdd nested_attached))) "a.b"
                       sample_postproc_module)).
  split; [vm_compute; reflexivity|].
  split; [vm_compute; reflexivity|].
  split; [vm_compute; reflexivity|].
  split; [vm_compute; reflexivity|].
  split; [vm_compute; reflexivity|].
  split; [vm_compute; reflexivity|].
  split; vm_compute; reflexivity.
Qed.

(** ** Detaching: what is kept, what is undone *)

Lemma keeps_in_flight_refl w : keeps_in_flight w w.
Proof. unfold keeps_in_flight. auto 10. Qed.

Lemma keeps_in_flight_trans w1 w2 w3 :
  keeps_in_flight w1 w2 -> keeps_in_flight w2 w3 -> keeps_in_flight w1 w3.
Proof.
  unfold keeps_in_flight. intros (?&?&?&?&?&?) (?&?&?&?&?&?). repeat split; congruence.
Qed.

Lemma keeps_in_flight_read_sharded o : preserves keeps_in_flight (read_sharded o).
Proof. intros w. unfold read_sharded. destruct (_ !! _); apply keeps_in_flight_refl. Qed.

Lemma keeps_in_flight_write_sharded o m : preserves keeps_in_flight (write_sharded o m).
Proof. intros w. unfold keeps_in_flight. simpl. auto 10. Qed.

Lemma keeps_in_flight_set_kjt_forward r f : preserves keeps_in_flight (set_kjt_forward r f).
Proof.
  destruct r as [[o i] j]. unfold set_kjt_forward.
  framed keeps_in_flight_refl keeps_in_flight_trans.
  - apply keeps_in_flight_read_sharded.
  - apply keeps_in_flight_write_sharded.
Qed.

Lemma keeps_in_flight_detach_model model mods ofs kfs pps :
  preserves keeps_in_flight (_pipeline_detach_model model mods ofs kfs pps).
Proof.
  unfold _pipeline_detach_model. framed keeps_in_flight_refl keeps_in_flight_trans;
    try apply keeps_in_flight_read_sharded; try apply keeps_in_flight_write_sharded;
    try apply keeps_in_flight_set_kjt_forward.
Qed.

Lemma keeps_in_flight_detach : preserves keeps_in_flight detach.
Proof.
  unfold detach, get_sdd, update_sdd.
  framed keeps_in_flight_refl keeps_in_flight_trans;
    try apply keeps_in_flight_detach_model;
    try (intros w; unfold keeps_in_flight; simpl; auto 10).
Qed.

(** X1: in every store, and whatever its outcome, [detach] leaves the window
    of contexts, the index of the next context, the contexts, the contexts
    of the postprocs and the trace as they are; on return the orchestrator
    is marked uninitialised and the model returned is the one it holds; on
    an orchestrator that is not initialised nothing else changes. *)
Theorem detach_keeps_in_flight_state w :
  keeps_in_flight w (snd (detach w)) /\
  (forall model' w', detach w = (Ok model', w') ->
     initialized (sdd w') = false /\ model' = model (sdd w')) /\
  (initialized (sdd w) = false ->
   detach w = (Ok (model (sdd w)), with_sdd w (set_initialized (sdd w) false))).
Proof.
  split; [apply keeps_in_flight_detach|]. split.
  - intros model' w' H. unfold detach in H. unfold bind at 1, get_sdd in H.
    apply bind_inv_Ok in H as (u & w1 & _ & H).
    unfold bind, update_sdd, modify, get_sdd, ret in H. injection H as <- <-. done.
  - intros Hi. unfold detach, bind, get_sdd, update_sdd, modify, ret. rewrite Hi. reflexivity.
Qed.

Lemma read_sharded_inv o w m w' :
  read_sharded o w = (Ok m, w') -> sharded w !! o = Some m /\ w' = w.
Proof.
  unfold read_sharded. destruct (sharded w !! o); intros H; by inversion H.
Qed.

Lemma read_context_inv l w c w' :
  read_context l w = (Ok c, w') -> contexts w !! l = Some c /\ w' = w.
Proof.
  unfold read_context. destruct (contexts w !! l); intros H; by inversion H.
Qed.

Lemma restore_forwards_run (l : list (oid * Forward)) :
  forall acc w refs w1,
    foldM (fun (mf : oid * Forward) kjt_dists =>
             let* m := read_sharded (fst mf) in
             let* _ := write_sharded (fst mf) (with_forward m (snd mf)) in
             ret (kjt_dists ++ kjt_refs (fst mf) m)%list) l acc w = (Ok refs, w1) ->
    keeps_hooks w w1 /\
    (forall o, o ∉ map fst l -> sharded w1 !! o = sharded w !! o) /\
    (NoDup (map fst l) ->
     forall o f, (o, f) ∈ l -> forward <$> sharded w1 !! o = Some f) /\
    (forall r, r ∈ refs -> r ∈ acc \/ r.1.1 ∈ map fst l).
Proof.
  induction l as [|[o f] l IH]; intros acc w refs w1 H; simpl in H.
  - injection H as <- <-. split; [reflexivity|]. split; [done|]. split.
    + intros _ o f Hin. by apply elem_of_nil in Hin.
    + intros r Hr. by left.
  - apply bind_inv_Ok in H as (acc' & w0 & Hstep & H).
    apply bind_inv_Ok in Hstep as (m & w' & Hread & Hstep).
    apply read_sharded_inv in Hread as [Hm ->].
    unfold bind, write_sharded, modify, ret in Hstep. injection Hstep as <- <-.
    apply IH in H as (Hh & Hout & Hin & Hrefs). clear IH.
    split; [exact Hh|]. split; [|split].
    + intros o' Ho'. simpl in Ho'. apply not_elem_of_cons in Ho' as [Hne Ho'].
      rewrite (Hout o' Ho'). simpl. by rewrite lookup_insert_ne.
    + intros Hnd o' f' Hof. simpl in Hnd. apply NoDup_cons in Hnd as [Hfresh Hnd].
      apply elem_of_cons in Hof as [Heq|Hof].
      * injection Heq as -> ->. rewrite (Hout o Hfresh). simpl.
        by rewrite lookup_insert_eq.
      * by apply Hin.
    + intros r Hr. destruct (Hrefs r Hr) as [Hacc|Hl].
      * apply elem_of_app in Hacc as [Hacc|Hnew]; [by left|]. right. simpl.
        assert (r.1.1 = o) as ->; [|apply list_elem_of_here].
        unfold kjt_refs in Hnew. apply list_elem_of_In, in_concat in Hnew as (x & Hx & Hr').
        apply list_elem_of_In, elem_of_lookup_imap in Hx as (i & nc & -> & _).
        destruct (_input_dists nc.2) as [ds|]; [|by destruct Hr'].
        apply in_concat in Hr' as (y & Hy & Hr'').
        apply list_elem_of_In, elem_of_lookup_imap in Hy as (j & d & -> & _).
        destruct (_dist d); [|by destruct Hr''].
        destruct Hr'' as [<-|[]]. reflexivity.
      * right. simpl. by apply list_elem_of_further.
Qed.

Lemma set_kjt_forwards_run (l : list (kjt_ref * KJTDistForward)) :
  forall w w2,
    forM_ (fun kf : kjt_ref * KJTDistForward => set_kjt_forward (fst kf) (snd kf)) l w
    = (Ok tt, w2) ->
    keeps_hooks w w2 /\
    (forall o, forward <$> sharded w2 !! o = forward <$> sharded w !! o) /\
    (forall o, o ∉ map (fun kf : kjt_ref * KJTDistForward => kf.1.1.1) l ->
               sharded w2 !! o = sharded w !! o).
Proof.
  induction l as [|[[[o i] j] f] l IH]; intros w w2 H; simpl in H.
  - injection H as <-. done.
  - apply bind_inv_Ok in H as ([] & w1 & Hstep & H).
    apply bind_inv_Ok in Hstep as (m & w' & Hread & Hstep).
    apply read_sharded_inv in Hread as [Hm ->].
    unfold write_sharded, modify in Hstep. injection Hstep as <-.
    apply IH in H as (Hh & Hf & Hout). clear IH.
    split; [exact Hh|]. split.
    + intros o'. rewrite Hf. simpl. destruct (decide (o' = o)) as [->|Hne].
      * by rewrite lookup_insert_eq, Hm.
      * by rewrite lookup_insert_ne.
    + intros o' Ho'. simpl in Ho'. apply not_elem_of_cons in Ho' as [Hne Ho'].
      rewrite (Hout o' Ho'). simpl. by rewrite lookup_insert_ne.
Qed.

Lemma detach_model_run model mods ofs kfs pps w model' w' :
  _pipeline_detach_model model mods ofs kfs pps w = (Ok model', w') ->
  keeps_hooks w w' /\
  (forall o, o ∉ mods -> sharded w' !! o = sharded w !! o) /\
  (NoDup mods -> length ofs = length mods ->
   forall i o f, mods !! i = Some o -> ofs !! i = Some f ->
                 forward <$> sharded w' !! o = Some f).
Proof.
  intros Hdetach. unfold _pipeline_detach_model in Hdetach.
  apply bind_inv_Ok in Hdetach as (refs & w1 & Hrestore & Hdetach).
  apply bind_inv_Ok in Hdetach as ([] & w1' & Hassert & Hdetach).
  assert (w1' = w1) as ->.
  { unfold py_assert in Hassert. destruct (_ =? _)%nat; by inversion Hassert. }
  clear Hassert.
  apply bind_inv_Ok in Hdetach as ([] & w2 & Hkjt & Hdetach).
  unfold ret in Hdetach. injection Hdetach as _ <-.
  apply restore_forwards_run in Hrestore as (Hh1 & Hout1 & Hin1 & Hrefs).
  apply set_kjt_forwards_run in Hkjt as (Hh2 & Hf2 & Hout2).
  split; [unfold keeps_hooks in *; congruence|]. split.
  - intros o Ho. rewrite Hout2, Hout1; [reflexivity| |].
    + intros Hin. apply Ho. apply list_elem_of_fmap in Hin as ([o' f'] & -> & Hin).
      by apply elem_of_zip_l in Hin.
    + intros Hin. apply Ho. apply list_elem_of_fmap in Hin as ([[[o1 i1] j1] f'] & -> & Hin).
      apply elem_of_zip_l in Hin. destruct (Hrefs _ Hin) as [Hnil|Hmod].
      * by apply elem_of_nil in Hnil.
      * simpl in Hmod. apply list_elem_of_fmap in Hmod as ([o' f''] & Heq & Hmod).
        simpl in Heq. subst o1. by apply elem_of_zip_l in Hmod.
  - intros Hnd Hlen i o f Ho Hf. rewrite Hf2. apply Hin1.
    + rewrite fst_zip by lia. exact Hnd.
    + apply list_elem_of_lookup. exists i. apply lookup_zip_with_Some. by exists o, f.
Qed.

Lemma detach_inv w model' w' :
  initialized (sdd w) = true ->
  detach w = (Ok model', w') ->
  exists handle m' w2,
    fwd_hook (sdd w) = Some handle /\
    _pipeline_detach_model (model (sdd w)) (_pipelined_modules (sdd w))
      (_original_forwards (sdd w)) (_original_kjt_dist_forwards (sdd w))
      (_pipelined_postprocs (sdd w))
      (with_forward_hooks w (forward_hooks w ∖ {[handle]})) = (Ok m', w2) /\
    sharded w' = sharded w2 /\ forward_hooks w' = forward_hooks w2.
Proof.
  intros Hi H. unfold detach in H. unfold bind at 1, get_sdd in H. rewrite Hi in H.
  destruct (fwd_hook (sdd w)) as [handle|] eqn:Eh.
  2:{ unfold bind at 1, raise in H. discriminate. }
  apply bind_inv_Ok in H as ([] & w3 & Hbody & H).
  assert (Hs3 : sharded w' = sharded w3 /\ forward_hooks w' = forward_hooks w3).
  { unfold bind, update_sdd, modify, get_sdd, ret in H. injection H as _ <-. done. }
  destruct Hs3 as [Hs3 Hh3]. clear H.
  unfold bind at 1, modify at 1 in Hbody.
  apply bind_inv_Ok in Hbody as (m' & w2 & Hdetach & Hbody).
  unfold update_sdd, modify in Hbody. injection Hbody as <-.
  exists handle, m', w2. split; [done|]. split; [exact Hdetach|]. by rewrite Hs3, Hh3.
Qed.

(** X2: when [detach] returns on an initialised orchestrator, the handle of
    the post-forward hook is no longer registered; a module that is not
    pipelined is what it was; and, the pipelined modules being distinct
    objects with one saved forward each, the forward of the i-th pipelined
    module is the i-th saved forward. *)
Theorem detach_undoes_attachment w model' w' :
  initialized (sdd w) = true ->
  detach w = (Ok model', w') ->
  exists handle,
    fwd_hook (sdd w) = Some handle /\
    forward_hooks w' = forward_hooks w ∖ {[handle]} /\
    (handle ∉ forward_hooks w') /\
    (forall o, o ∉ _pipelined_modules (sdd w) -> sharded w' !! o = sharded w !! o) /\
    (NoDup (_pipelined_modules (sdd w)) ->
     length (_original_forwards (sdd w)) = length (_pipelined_modules (sdd w)) ->
     forall i o f,
       _pipelined_modules (sdd w) !! i = Some o -> _original_forwards (sdd w) !! i = Some f ->
       forward <$> sharded w' !! o = Some f).
Proof.
  intros Hi H.
  destruct (detach_inv w model' w' Hi H) as (handle & m' & w2 & Hh & Hrun & Hs & Hk).
  apply detach_model_run in Hrun as (Hhooks & Hout & Hin).
  unfold keeps_hooks in Hhooks. simpl in Hhooks.
  exists handle. split; [exact Hh|]. rewrite Hk, Hhooks, Hs.
  split; [reflexivity|]. split.
  { intros Hin'. apply elem_of_difference in Hin' as [_ Hin']. apply Hin'.
    by apply elem_of_singleton. }
  split; [exact Hout | exact Hin].
Qed.

Lemma detach_undoes_attachment_witness :
  exists handle,
    fwd_hook (sdd (running_world None)) = Some handle /\
    (handle ∉ forward_hooks (snd (detach (running_world None)))).
Proof.
  destruct (detach_undoes_attachment (running_world None) ebc_model
              (snd (detach (running_world None)))
              ltac:(vm_compute; reflexivity) ltac:(vm_compute; reflexivity))
    as (handle & Hh & _ & Hn & _).
  exists handle. split; [exact Hh | exact Hn].
Defined.

(** ** Re-attaching *)

Lemma current_context_inv w ctx w0 :
  _current_context w = (Ok ctx, w0) -> w0 = w /\ hd_error (_contexts (sdd w)) = Some ctx.
Proof.
  unfold _current_context, context_at, bind, get_sdd.
  destruct (_contexts (sdd w)) as [|c cs]; simpl; intros H; by inversion H.
Qed.

(** X3: re-attaching, that is [_initialize_or_reattach] on a window that
    holds contexts, leaves the window and the index of the next context as
    they are, marks the orchestrator initialised, registers a hook, and
    every module it pipelines carries an intercepting forward of the
    configured class that points at the front context of the window. *)
Theorem reattach_continues_in_flight batch w w' front rest :
  _contexts (sdd w) = front :: rest ->
  _initialize_or_reattach batch w = (Ok tt, w') ->
  _contexts (sdd w') = front :: rest /\
  _next_index (sdd w') = _next_index (sdd w) /\
  initialized (sdd w') = true /\
  (exists handle, fwd_hook (sdd w') = Some handle /\ handle ∈ forward_hooks w') /\
  (forall o, o ∈ _pipelined_modules (sdd w') ->
     exists m f, sharded w' !! o = Some m /\ forward m = Intercepting f /\
                 _context f = front /\ fwd_class f = _pipelined_forward (sdd w)).
Proof.
  intros Hc H. unfold _initialize_or_reattach in H.
  unfold bind at 1, get_sdd in H.
  apply bind_inv_Ok in H as (ctx & w0 & H0 & H).
  unfold _is_reattaching in H0. rewrite Hc in H0.
  change (negb (length (front :: rest) =? 0)%nat) with true in H0. cbv iota in H0.
  apply current_context_inv in H0 as [-> Hctx]. rewrite Hc in Hctx. injection Hctx as <-.
  apply bind_inv_Ok in H as ([] & w0' & Hassert & H).
  unfold _assert_contexts_count in Hassert. simpl in Hassert. injection Hassert as <-.
  unfold bind at 1, get_sdd in H.
  apply bind_inv_Ok in H as ([[[[pipelined model'] originals] postprocs] np] & w1 & Hrw & H).
  pose proof (rewrite_model_rewrites (model (sdd w)) front (Some (data_dist_stream (sdd w)))
                batch (apply_jit (sdd w)) (_pipelined_forward (sdd w))
                (_pipeline_postproc (sdd w)) (_default_stream (sdd w)) w) as Hfr.
  rewrite Hrw in Hfr. simpl in Hfr. destruct Hfr as (Hs1 & _).
  apply rewrite_model_classified in Hrw as (graph & st & _ & Hpf & _ & _ & (_&_&_&Hatt)).
  rewrite Hpf in Hatt.
  unfold bind at 1, update_sdd, modify in H.
  set (w2 := with_sdd w1 _) in H.
  apply bind_inv_Ok in H as (sctx & w2' & Hsc & H).
  assert (w2' = w2) as ->.
  { pose proof (start_dist_context_pure w2) as Hp. by rewrite Hsc in Hp. }
  apply bind_inv_Ok in H as ([] & w3 & Hstart & H).
  pose proof (distributes_start_data_dist pipelined batch sctx w2) as D3.
  rewrite Hstart in D3. simpl in D3.
  apply bind_inv_Ok in H as (kjt & w4 & Hov & H).
  pose proof (distributes_override pipelined w3) as D4.
  rewrite Hov in D4. simpl in D4.
  pose proof (distributes_trans _ _ _ D3 D4) as (Hs4 & Hf4 & _).
  unfold bind, update_sdd, modify, register_forward_hook in H. simpl in H.
  injection H as <-. simpl. rewrite Hs4. simpl. rewrite Hs1, Hc.
  split; [reflexivity|]. split; [reflexivity|]. split; [reflexivity|]. split.
  - eexists. split; [reflexivity|].
    apply elem_of_union_l, elem_of_singleton. reflexivity.
  - intros o Ho.
    destruct (Hatt o Ho) as (m & f & Hm & Hf & Hcls & Hctx & _).
    specialize (Hf4 o). simpl in Hf4. rewrite Hm in Hf4. simpl in Hf4.
    destruct (sharded w4 !! o) as [m4|]; [|discriminate]. simpl in Hf4.
    exists m4, f. split; [reflexivity|]. injection Hf4 as ->. done.
Qed.

Lemma reattach_continues_in_flight_witness :
  _contexts (sdd (snd (_initialize_or_reattach sample_batch
                         (snd (detach (running_world None))))))
  = [0%nat; 1%nat].
Proof.
  exact (proj1 (reattach_continues_in_flight sample_batch
                  (snd (detach (running_world None)))
                  (snd (_initialize_or_reattach sample_batch
                          (snd (detach (running_world None)))))
                  0%nat [1%nat]
                  ltac:(vm_compute; reflexivity) ltac:(vm_compute; reflexivity))).
Defined.

(** ** Waiting for the input distribution *)

Lemma fills_requests_refl ctx names w : fills_requests ctx names w w.
Proof.
  split; [done|]. split; [|done]. intros c Hc. exists c. split; [done|].
  split; [by destruct c|done].
Qed.

Lemma fills_requests_trans ctx names w1 w2 w3 :
  fills_requests ctx names w1 w2 -> fills_requests ctx names w2 w3 ->
  fills_requests ctx names w1 w3.
Proof.
  intros (Ho1 & Hc1 & Hf1 & Ht1) (Ho2 & Hc2 & Hf2 & Ht2).
  split; [intros l Hl; by rewrite Ho2, Ho1|]. split; [|split; congruence].
  intros c Hc. destruct (Hc1 c Hc) as (c' & Hc' & E1 & K1).
  destruct (Hc2 c' Hc') as (c'' & Hc'' & E2 & K2).
  exists c''. split; [done|]. split.
  - rewrite E2. rewrite E1 at 1. reflexivity.
  - intros name Hn. by rewrite K2, K1.
Qed.

Lemma fills_requests_store ctx names name r :
  name ∈ names ->
  preserves (fills_requests ctx names)
    (let* c := read_context ctx in
     write_context ctx
       (with_input_dist_tensors_requests c (<[name := r]> (input_dist_tensors_requests c)))).
Proof.
  intros Hin w. unfold bind, read_context, write_context, modify.
  destruct (contexts w !! ctx) as [c|] eqn:Hc; simpl; [|apply fills_requests_refl].
  split; [intros l Hl; simpl; by rewrite lookup_insert_ne|]. split; [|done].
  intros c0 Hc0. rewrite Hc in Hc0. injection Hc0 as <-.
  eexists. split; [apply lookup_insert_eq|]. split; [reflexivity|].
  intros name' Hn. simpl. apply lookup_insert_ne. intros ->. by apply Hn.
Qed.

Lemma fills_requests_loop ctx (groups : list (list string * FusedKJTListSplitsAwaitable)) :
  preserves (fills_requests ctx (concat (map fst groups)))
    (forM_ (fun na : list string * FusedKJTListSplitsAwaitable =>
              let* requests := lift (fused_wait (snd na)) in
              forM_ (fun nr : string * Awaitable =>
                       let* c := read_context ctx in
                       write_context ctx
                         (with_input_dist_tensors_requests c
                            (<[fst nr := snd nr]> (input_dist_tensors_requests c))))
                    (zip (fst na) requests))
           groups).
Proof.
  set (R := fills_requests ctx (concat (map fst groups))).
  assert (Hr : forall w, R w w) by apply fills_requests_refl.
  assert (Ht : forall w1 w2 w3, R w1 w2 -> R w2 w3 -> R w1 w3) by apply fills_requests_trans.
  apply (preserves_forM_ _ Hr Ht). apply Forall_forall. intros [names f] Hg.
  apply (preserves_bind _ Ht); [apply (preserves_lift _ Hr)|]. intros requests.
  apply (preserves_forM_ _ Hr Ht). apply Forall_forall. intros [name r] Hnr.
  apply fills_requests_store. apply elem_of_zip_l in Hnr.
  apply list_elem_of_In, in_concat. exists names. split; [|by apply list_elem_of_In].
  apply in_map_iff. exists (names, f). split; [done|]. by apply list_elem_of_In.
Qed.

(** X4: when [wait_sparse_data_dist] returns, the context it waited on is
    the one [_start_dist_context] names; in it the splits requests and the
    fused awaitables are empty, the tensors requests of names outside the
    fused groups are what they were, and every other field is untouched; no
    other context and nothing else in the store has changed. *)
Theorem wait_sparse_data_dist_fills w w' :
  wait_sparse_data_dist w = (Ok tt, w') ->
  exists ctx c c',
    _start_dist_context w = (Ok ctx, w) /\
    contexts w !! ctx = Some c /\ contexts w' !! ctx = Some c' /\
    input_dist_splits_requests c' = [] /\ fused_splits_awaitables c' = [] /\
    c' = with_fused_splits_awaitables
           (with_input_dist_splits_requests
              (with_input_dist_tensors_requests c (input_dist_tensors_requests c')) []) [] /\
    (forall name, name ∉ concat (map fst (fused_splits_awaitables c)) ->
       input_dist_tensors_requests c' !! name = input_dist_tensors_requests c !! name) /\
    (forall l, l <> ctx -> contexts w' !! l = contexts w !! l) /\
    frame_of w' = frame_of w.
Proof.
  intros H. unfold wait_sparse_data_dist in H. unfold bind at 1 in H.
  rewrite wait_dist_context_run in H.
  pose proof (start_dist_context_pure w) as Hp.
  destruct (_start_dist_context w) as [[ctx|e] w0] eqn:Hctx; simpl in Hp; subst w0;
    [|discriminate].
  unfold bind at 1, emit at 1, modify in H. set (w1 := with_trace w _) in H.
  apply bind_inv_Ok in H as (c & w1' & Hread & H).
  apply read_context_inv in Hread as [Hc ->].
  apply bind_inv_Ok in H as ([] & w2 & Hloop & H).
  pose proof (fills_requests_loop ctx (fused_splits_awaitables c) w1) as Hfill.
  rewrite Hloop in Hfill. simpl in Hfill. destruct Hfill as (Ho & Hk & Hf & _).
  destruct (Hk c Hc) as (c2 & Hc2 & E2 & K2).
  apply bind_inv_Ok in H as (c2' & w2' & Hread & H).
  apply read_context_inv in Hread as [Hc2' ->]. rewrite Hc2 in Hc2'. injection Hc2' as <-.
  apply bind_inv_Ok in H as ([] & w3 & Hw3 & H).
  unfold write_context, modify in Hw3. injection Hw3 as <-.
  apply bind_inv_Ok in H as (c3 & w3' & Hread & H).
  apply read_context_inv in Hread as [Hc3 ->]. simpl in Hc3.
  rewrite lookup_insert_eq in Hc3. injection Hc3 as <-.
  unfold write_context, modify in H. injection H as <-.
  exists ctx, c, (with_fused_splits_awaitables (with_input_dist_splits_requests c2 []) []).
  split; [reflexivity|]. split; [exact Hc|]. split; [simpl; apply lookup_insert_eq|].
  split; [reflexivity|]. split; [reflexivity|]. split.
  { rewrite E2 at 1. reflexivity. }
  split; [exact K2|]. split.
  - intros l Hl. simpl. rewrite !lookup_insert_ne by done. by apply Ho.
  - simpl. exact Hf.
Qed.

Lemma wait_sparse_data_dist_fills_witness :
  exists ctx c',
    contexts (snd (wait_sparse_data_dist (running_world None))) !! ctx = Some c' /\
    input_dist_splits_requests c' = [] /\ fused_splits_awaitables c' = [].
Proof.
  destruct (wait_sparse_data_dist_fills (running_world None)
              (snd (wait_sparse_data_dist (running_world None)))
              ltac:(vm_compute; reflexivity))
    as (ctx & c & c' & _ & _ & Hc' & Hs & Hf & _).
  exists ctx, c'. split; [exact Hc'|]. split; [exact Hs | exact Hf].
Defined.

(** ** Borrowing the postprocs for the next batch *)

Lemma get_contexts_run (pps : list PipelinedPostproc) w :
  (forall p, p ∈ pps -> is_Some (postproc_context w !! pp_self p)) ->
  exists origs,
    mapM PipelinedPostproc_get_context pps w = (Ok origs, w) /\
    Forall2 (fun p l => postproc_context w !! pp_self p = Some l) pps origs.
Proof.
  induction pps as [|p pps IH]; intros H.
  - exists []. split; [reflexivity|constructor].
  - destruct (H p) as [l Hl]; [apply list_elem_of_here|].
    destruct IH as (origs & Hrun & Hall).
    { intros q Hq. apply H. by apply list_elem_of_further. }
    exists (l :: origs). split; [|by constructor].
    simpl. unfold bind at 1. unfold PipelinedPostproc_get_context at 1. rewrite Hl.
    unfold bind at 1. rewrite Hrun. reflexivity.
Qed.

Lemma restore_contexts_run (l : list (PipelinedPostproc * loc)) :
  forall w,
    forM_ (fun mc : PipelinedPostproc * loc => PipelinedPostproc_set_context (fst mc) (snd mc))
          l w
    = (Ok tt, with_postproc_context w
                (fold_left (fun pc (mc : PipelinedPostproc * loc) =>
                              <[pp_self (fst mc) := snd mc]> pc) l (postproc_context w))).
Proof.
  induction l as [|mc l IH]; intros w.
  - simpl. unfold ret. by destruct w.
  - simpl. unfold bind at 1. unfold PipelinedPostproc_set_context at 1, modify.
    rewrite IH. reflexivity.
Qed.

Lemma restore_lookup (pc : gmap oid loc) pps origs :
  Forall2 (fun p l => pc !! pp_self p = Some l) pps origs ->
  forall (pc0 : gmap oid loc) k,
    fold_left (fun pc (mc : PipelinedPostproc * loc) => <[pp_self (fst mc) := snd mc]> pc)
      (zip pps origs) pc0 !! k
    = if decide (k ∈ map pp_self pps) then pc !! k else pc0 !! k.
Proof.
  induction 1 as [|p l pps origs Hp _ IH]; intros pc0 k; simpl.
  - destruct (decide (k ∈ [])) as [Hn|_]; [by apply elem_of_nil in Hn|done].
  - rewrite IH.
    destruct (decide (k ∈ map pp_self pps)) as [Hin|Hn];
      destruct (decide (k ∈ pp_self p :: map pp_self pps)) as [Hin'|Hn']; try done.
    + destruct Hn'. by apply list_elem_of_further.
    + apply elem_of_cons in Hin' as [->|?]; [|done]. by rewrite lookup_insert_eq.
    + apply lookup_insert_ne. intros <-. apply Hn', list_elem_of_here.
Qed.

(** X5: let every postproc in the list have a context, and let the body
    leave the contexts of postprocs alone.  When the block returns, every
    postproc points where it pointed on entry, the body having run with all
    the listed postprocs pointing at the context of the next batch.  When
    the body raises, nothing is put back: the listed postprocs are left
    pointing at the context of the next batch. *)
Theorem use_context_for_postprocs_restores {A} pps next_batch_context (body : Py A) w :
  (forall p, p ∈ pps -> is_Some (postproc_context w !! pp_self p)) ->
  (forall w0, postproc_context (snd (body w0)) = postproc_context w0) ->
  exists w1,
    (forall p, p ∈ pps -> postproc_context w1 !! pp_self p = Some next_batch_context) /\
    match body w1 with
    | (Ok r, w2) =>
        use_context_for_postprocs pps next_batch_context body w
        = (Ok r, with_postproc_context w2 (postproc_context w))
    | (Raise e, w2) =>
        use_context_for_postprocs pps next_batch_context body w = (Raise e, w2) /\
        forall p, p ∈ pps -> postproc_context w2 !! pp_self p = Some next_batch_context
    end.
Proof.
  intros Hall Hbody.
  destruct (get_contexts_run pps w Hall) as (origs & Hget & Horig).
  set (w1 := with_postproc_context w
               (fold_left (fun pc p => <[pp_self p := next_batch_context]> pc) pps
                  (postproc_context w))).
  exists w1. split.
  { intros p Hp. simpl. by apply lookup_set_contexts. }
  assert (Hrun : use_context_for_postprocs pps next_batch_context body w
                 = match body w1 with
                   | (Ok r, w2) =>
                       (let* _ := forM_ (fun mc : PipelinedPostproc * loc =>
                                           PipelinedPostproc_set_context (fst mc) (snd mc))
                                    (zip pps origs) in ret r) w2
                   | (Raise e, w2) => (Raise e, w2)
                   end).
  { unfold use_context_for_postprocs. unfold bind at 1. rewrite Hget.
    unfold bind at 1. rewrite set_postproc_contexts_run. fold w1. reflexivity. }
  rewrite Hrun. clear Hrun. specialize (Hbody w1).
  destruct (body w1) as [[r|e] w2]; simpl in Hbody.
  - unfold bind at 1. rewrite restore_contexts_run. unfold ret. f_equal. f_equal.
    apply map_eq. intros k. rewrite (restore_lookup (postproc_context w)) by done.
    destruct (decide (k ∈ map pp_self pps)) as [Hin|Hn]; [done|].
    rewrite Hbody. simpl. by rewrite lookup_set_contexts_key, decide_False.
  - split; [reflexivity|]. intros p Hp. rewrite Hbody. simpl. by apply lookup_set_contexts.
Qed.

Lemma use_context_for_postprocs_restores_witness :
  postproc_context
    (snd (use_context_for_postprocs [sample_postproc] 7%nat (ret tt) postproc_world))
  = postproc_context postproc_world.
Proof.
  assert (Hall : forall p, p ∈ [sample_postproc] ->
                           is_Some (postproc_context postproc_world !! pp_self p)).
  { intros p Hp. apply list_elem_of_singleton in Hp. subst p. by eexists. }
  destruct (use_context_for_postprocs_restores [sample_postproc] 7%nat (ret tt)
              postproc_world Hall (fun w0 => eq_refl)) as (w1 & _ & Hrun).
  simpl in Hrun. rewrite Hrun. reflexivity.
Defined.

(** ** Rewriting: the forwards saved *)

Lemma rewrite_node_inv sm context ds pf node st w st' w' :
  rewrite_node sm context ds pf node st w = (Ok st', w') ->
  (pipelined_forwards st' = pipelined_forwards st /\
   original_forwards st' = original_forwards st /\ sharded w' = sharded w) \/
  (exists child m,
     sharded w !! child = Some m /\
     pipelined_forwards st' = (pipelined_forwards st ++ [child])%list /\
     original_forwards st' = (original_forwards st ++ [forward m])%list /\
     exists m', sharded w' = <[child := m']> (sharded w)).
Proof.
  intros H. unfold rewrite_node in H.
  destruct (sharded_target sm node) as [child|]; [|injection H as <- <-; by left].
  destruct (Nat.eqb _ 0); [injection H as <- <-; by left|].
  apply bind_inv_Ok in H as ([[ail nf] h] & w1 & Hg & H).
  pose proof (get_node_args_sharded node false (args_helper st) w) as Hsh.
  rewrite Hg in Hsh. simpl in Hsh.
  destruct (Nat.eqb nf _).
  - apply bind_inv_Ok in H as (m & w1' & Hread & H).
    unfold read_sharded in Hread. destruct (sharded w1 !! child) as [m0|] eqn:Em;
      [|discriminate]. injection Hread as -> <-.
    unfold bind, write_sharded, modify, ret in H. injection H as <- <-.
    right. exists child, m. rewrite <- Hsh. split; [done|]. split; [done|]. split; [done|].
    by eexists.
  - injection H as <- <-. left. by rewrite Hsh.
Qed.

Lemma rewrite_node_saves w0 sm context ds pf node st w st' w' :
  saves_forwards w0 st w ->
  rewrite_node sm context ds pf node st w = (Ok st', w') ->
  saves_forwards w0 st' w'.
Proof.
  intros (Hlen & Hout & Hfirst) Hstep.
  apply rewrite_node_inv in Hstep as [(Ep & Eo & Es)|(child & m & Hm & Ep & Eo & m' & Es)].
  - unfold saves_forwards. by rewrite Ep, Eo, Es.
  - unfold saves_forwards. rewrite Ep, Eo, Es. split; [|split].
    + rewrite !length_app. simpl. lia.
    + intros o Ho. apply not_elem_of_app in Ho as [Ho Hne].
      rewrite lookup_insert_ne; [by apply Hout|].
      intros ->. apply Hne, list_elem_of_here.
    + intros i o f Hi Hf Hj.
      destruct (decide (i < length (pipelined_forwards st))%nat) as [Hlt|Hge].
      * rewrite lookup_app_l in Hi by done. rewrite lookup_app_l in Hf by lia.
        apply (Hfirst i o f Hi Hf). intros j Hjlt Hjo. apply (Hj j Hjlt).
        rewrite lookup_app_l by lia. exact Hjo.
      * rewrite lookup_app_r in Hi by lia. rewrite lookup_app_r in Hf by lia.
        rewrite Hlen in Hf.
        destruct (i - length (pipelined_forwards st))%nat as [|k] eqn:Ek; [|done].
        simpl in Hi, Hf. injection Hi as <-. injection Hf as <-.
        assert (Hnew : child ∉ pipelined_forwards st).
        { intros Hin. apply list_elem_of_lookup in Hin as (j & Hjo).
          apply (Hj j); [apply lookup_lt_Some in Hjo; lia|].
          by rewrite lookup_app_l by (by eapply lookup_lt_Some). }
        rewrite <- (Hout child Hnew), Hm. reflexivity.
Qed.

Lemma rewrite_loop_saves w0 sm context ds pf graph :
  forall st w st' w',
    saves_forwards w0 st w ->
    foldM (rewrite_node sm context ds pf) graph st w = (Ok st', w') ->
    saves_forwards w0 st' w'.
Proof.
  induction graph as [|node graph IH]; intros st w st' w' Hs Hf; simpl in Hf.
  - by injection Hf as <- <-.
  - apply bind_inv_Ok in Hf as (st1 & w1 & Hstep & Hf).
    eapply IH; [|exact Hf]. by eapply rewrite_node_saves.
Qed.

(** X6: when [_rewrite_model] returns, it hands back one saved forward per
    pipelined module; a sharded module that is not in the pipelined list is
    in the store what it was; and at the first place a module stands in the
    pipelined list, the forward saved at that place is the forward the
    module had before the rewriting. *)
Theorem rewrite_model_saves_forwards model context dist_stream batch apply_jit
    pipelined_forward pipeline_postproc default_stream w
    pipelined model' originals postprocs non_pipelined w' :
  _rewrite_model model context dist_stream batch apply_jit pipelined_forward
    pipeline_postproc default_stream w
  = (Ok (pipelined, model', originals, postprocs, non_pipelined), w') ->
  length originals = length pipelined /\
  (forall o, o ∉ pipelined -> sharded w' !! o = sharded w !! o) /\
  (forall i o f,
     pipelined !! i = Some o -> originals !! i = Some f ->
     (forall j, (j < i)%nat -> pipelined !! j <> Some o) ->
     forward <$> sharded w !! o = Some f).
Proof.
  intros H. unfold _rewrite_model in H. unfold bind at 1, get in H.
  apply bind_inv_Ok in H as (graph & w0 & Htr & H).
  unfold lift in Htr. injection Htr as _ <-.
  apply bind_inv_Ok in H as (st & w1 & Hloop & H). injection H as <- _ <- _ _ <-.
  apply (rewrite_loop_saves w) in Hloop; [exact Hloop|].
  split; [done|]. split; [done|]. intros i o f Hi. simpl in Hi. by destruct i.
Qed.

Lemma rewrite_model_saves_forwards_witness :
  forward <$> sharded (world_of_graph [batch_placeholder; ebc_call]) !! 0%nat
  = Some (OriginalForward 0).
Proof.
  refine (proj2 (proj2 (rewrite_model_saves_forwards ebc_model 0%nat None VNone false
                          PipelinedForward false None
                          (world_of_graph [batch_placeholder; ebc_call])
                          [0%nat] ebc_model [OriginalForward 0] [] []
                          (snd (_rewrite_model ebc_model 0%nat None VNone false
                                  PipelinedForward false None
                                  (world_of_graph [batch_placeholder; ebc_call])))
                          _)) 0%nat 0%nat (OriginalForward 0) eq_refl eq_refl _).
  - vm_compute. reflexivity.
  - intros j Hj. lia.
Defined.

(** ** Attaching and detaching: the round trip of the forwards *)

Lemma keeps_refl {A} (f : World -> A) w : keeps f w w.
Proof. reflexivity. Qed.

Lemma keeps_trans {A} (f : World -> A) w1 w2 w3 :
  keeps f w1 w2 -> keeps f w2 w3 -> keeps f w1 w3.
Proof. unfold keeps. congruence. Qed.

Lemma keeps_modify {A} (f : World -> A) g :
  (forall w, f (g w) = f w) -> preserves (keeps f) (modify g).
Proof. intros H w. apply H. Qed.

Lemma keeps_context_at {A} (f : World -> A) i : preserves (keeps f) (context_at i).
Proof.
  intros w. pose proof (context_at_pure i w) as H. unfold keeps. by rewrite H.
Qed.

Lemma keeps_last_context {A} (f : World -> A) : preserves (keeps f) last_context.
Proof.
  intros w. pose proof (last_context_pure w) as H. unfold keeps. by rewrite H.
Qed.

Lemma rewrite_model_saves model context ds batch jit pf pp dfs w
      pipelined model' originals postprocs non_pipelined w' :
  _rewrite_model model context ds batch jit pf pp dfs w
  = (Ok (pipelined, model', originals, postprocs, non_pipelined), w') ->
  exists st,
    pipelined_forwards st = pipelined /\ original_forwards st = originals /\
    saves_forwards w st w'.
Proof.
  intros H. unfold _rewrite_model in H. unfold bind at 1, get in H.
  apply bind_inv_Ok in H as (graph & w0 & Htr & H).
  unfold lift in Htr. injection Htr as _ <-.
  apply bind_inv_Ok in H as (st & w1 & Hloop & H). injection H as <- _ <- _ _ <-.
  exists st. split; [done|]. split; [done|].
  apply (rewrite_loop_saves w) in Hloop; [exact Hloop|].
  split; [done|]. split; [done|]. intros i o f Hi. simpl in Hi. by destruct i.
Qed.

Lemma initialize_or_reattach_inv batch w w' :
  _initialize_or_reattach batch w = (Ok tt, w') ->
  exists ctx w0 pipelined model' originals postprocs np w1,
    sharded w0 = sharded w /\
    _rewrite_model (model (sdd w0)) ctx (Some (data_dist_stream (sdd w0))) batch
      (apply_jit (sdd w0)) (_pipelined_forward (sdd w0)) (_pipeline_postproc (sdd w0))
      (_default_stream (sdd w0)) w0
    = (Ok (pipelined, model', originals, postprocs, np), w1) /\
    _pipelined_modules (sdd w') = pipelined /\ _original_forwards (sdd w') = originals /\
    _pipelined_postprocs (sdd w') = postprocs /\ model (sdd w') = model' /\
    initialized (sdd w') = true /\
    (forall o, forward <$> sharded w' !! o = forward <$> sharded w1 !! o).
Proof.
  intros H. unfold _initialize_or_reattach in H.
  unfold bind at 1, get_sdd in H.
  apply bind_inv_Ok in H as (ctx & w0 & H0 & H).
  assert (Hsh0 : sharded w0 = sharded w).
  { match type of H0 with
    | ?m w = _ =>
        assert (Hk : preserves (keeps sharded) m)
          by (unfold _current_context, _create_context, contexts_append, _add_context,
                alloc_context, update_sdd, get_sdd;
              framed (@keeps_refl _ sharded) (@keeps_trans _ sharded);
              try apply keeps_context_at; try apply keeps_last_context;
              try (intros w2; reflexivity));
        specialize (Hk w); rewrite H0 in Hk; exact Hk
    end. }
  apply bind_inv_Ok in H as ([] & w0' & Hassert & H).
  unfold _assert_contexts_count in Hassert. simpl in Hassert. injection Hassert as <-.
  unfold bind at 1, get_sdd in H.
  apply bind_inv_Ok in H as ([[[[pipelined model'] originals] postprocs] np] & w1 & Hrw & H).
  exists ctx, w0, pipelined, model', originals, postprocs, np, w1.
  split; [exact Hsh0|]. split; [exact Hrw|].
  unfold bind at 1, update_sdd, modify in H.
  set (w2 := with_sdd w1 _) in H.
  apply bind_inv_Ok in H as (sctx & w2' & Hsc & H).
  assert (w2' = w2) as ->.
  { pose proof (start_dist_context_pure w2) as Hp. by rewrite Hsc in Hp. }
  apply bind_inv_Ok in H as ([] & w3 & Hstart & H).
  pose proof (distributes_start_data_dist pipelined batch sctx w2) as D3.
  rewrite Hstart in D3. simpl in D3.
  apply bind_inv_Ok in H as (kjt & w4 & Hov & H).
  pose proof (distributes_override pipelined w3) as D4.
  rewrite Hov in D4. simpl in D4.
  pose proof (distributes_trans _ _ _ D3 D4) as (Hs4 & Hf4 & _).
  unfold bind, update_sdd, modify, register_forward_hook in H. simpl in H.
  injection H as <-. simpl. rewrite Hs4. simpl.
  repeat (split; [reflexivity|]). intros o. apply Hf4.
Qed.

(** X7: attach, then detach.  When no sharded module has been pipelined
    twice, the forward of every sharded module is after [detach] the one it
    was before [_initialize_or_reattach], and the orchestrator is marked
    uninitialised. *)
Theorem attach_detach_restores_forwards batch w w1 model' w2 :
  _initialize_or_reattach batch w = (Ok tt, w1) ->
  detach w1 = (Ok model', w2) ->
  NoDup (_pipelined_modules (sdd w1)) ->
  initialized (sdd w2) = false /\
  forall o, forward <$> sharded w2 !! o = forward <$> sharded w !! o.
Proof.
  intros Hattach Hdetach Hnd.
  apply initialize_or_reattach_inv in Hattach
    as (ctx & w0 & pipelined & m1 & originals & postprocs & np & wr
        & Hsh0 & Hrw & Hp & Ho & _ & _ & Hi & Hfw).
  apply rewrite_model_saves in Hrw as (st & Ep & Eo & Hlen & Hout & Hfirst).
  destruct (detach_inv w1 model' w2 Hi Hdetach) as (handle & m' & w3 & _ & Hrun & Hs & _).
  assert (Hinit : initialized (sdd w2) = false).
  { unfold detach in Hdetach. unfold bind at 1, get_sdd in Hdetach.
    apply bind_inv_Ok in Hdetach as (u & wd & _ & Hdetach).
    unfold bind, update_sdd, modify, get_sdd, ret in Hdetach. by injection Hdetach as _ <-. }
  split; [exact Hinit|]. clear Hinit.
  apply detach_model_run in Hrun as (_ & Hkeep & Hrestore). simpl in Hkeep.
  rewrite Hp, Ho in *. rewrite Ep in *. rewrite Eo in *.
  intros o. rewrite Hs. destruct (decide (o ∈ pipelined)) as [Hin|Hn].
  - apply list_elem_of_lookup in Hin as (i & Hio).
    destruct (lookup_lt_is_Some_2 originals i) as [f Hf].
    { rewrite Hlen. by eapply lookup_lt_Some. }
    rewrite (Hrestore Hnd Hlen i o f Hio Hf). symmetry. rewrite <- Hsh0.
    apply (Hfirst i o f Hio Hf). intros j Hj Hjo.
    pose proof (NoDup_lookup _ _ _ _ Hnd Hio Hjo). lia.
  - rewrite (Hkeep o Hn), Hfw, (Hout o Hn), Hsh0. reflexivity.
Qed.

Lemma attach_detach_restores_forwards_witness :
  forward <$> sharded (snd (detach (snd (_initialize_or_reattach sample_batch
                                           (pipeline_world None))))) !! 0%nat
  = forward <$> sharded (pipeline_world None) !! 0%nat.
Proof.
  refine (proj2 (attach_detach_restores_forwards sample_batch (pipeline_world None)
                   (snd (_initialize_or_reattach sample_batch (pipeline_world None)))
                   ebc_model
                   (snd (detach (snd (_initialize_or_reattach sample_batch
                                        (pipeline_world None)))))
                   _ _ _) 0%nat).
  - vm_compute. reflexivity.
  - vm_compute. reflexivity.
  - assert (E : _pipelined_modules
                  (sdd (snd (_initialize_or_reattach sample_batch (pipeline_world None))))
                = [0%nat]) by (vm_compute; reflexivity).
    rewrite E. apply NoDup_singleton.
Defined.

(** ** Collection steps *)

Lemma mapM_Forall2 {A B} (f : A -> Py B) (l : list A) :
  forall w vs w', mapM f l w = (Ok vs, w') ->
    Forall2 (fun a v => exists w1 w2, f a w1 = (Ok v, w2)) l vs.
Proof.
  induction l as [|x l IH]; intros w vs w' H; simpl in H.
  - injection H as <- <-. constructor.
  - apply bind_inv_Ok in H as (b & w1 & Hb & H).
    apply bind_inv_Ok in H as (bs & w2 & Hbs & H). injection H as <- <-.
    constructor; [by exists w, w1 | by eapply IH].
Qed.

(** X8: a list step that returns gives a list with one value per element
    of its description, in order: the object itself where the element is
    an object, the outcome of the element's own steps on the same input
    where it is a descriptor.  A dict step that returns gives a dict with
    the keys of its description, in order, and values obtained likewise. *)
Theorem collection_steps_keep_shape arg w r w' :
  (forall value,
     process (ListArgInfoStep value) arg w = (Ok r, w') ->
     exists vs,
       r = VList vs /\ length vs = length value /\
       (forall i v, value !! i = Some (ElemObject v) -> vs !! i = Some v) /\
       (forall i a, value !! i = Some (ElemArgInfo a) ->
          exists v w1 w2, process_steps a arg w1 = (Ok v, w2) /\ vs !! i = Some v)) /\
  (forall value,
     process (DictArgInfoStep value) arg w = (Ok r, w') ->
     exists kvs,
       r = VDict kvs /\
       map fst kvs = map (fun kv : string * ListElement => IStr (fst kv)) value /\
       (forall i k v, value !! i = Some (k, ElemObject v) -> kvs !! i = Some (IStr k, v)) /\
       (forall i k a, value !! i = Some (k, ElemArgInfo a) ->
          exists v w1 w2, process_steps a arg w1 = (Ok v, w2) /\
                          kvs !! i = Some (IStr k, v))).
Proof.
  split.
  - intros value H. simpl in H. apply bind_inv_Ok in H as (vs & w1 & Hm & H).
    injection H as <- <-. exists vs. split; [reflexivity|].
    pose proof (mapM_Forall2 _ _ _ _ _ Hm) as Hall.
    split; [symmetry; by eapply Forall2_length|]. split.
    + intros i v Hi. destruct (Forall2_lookup_l _ _ _ _ _ Hall Hi) as (x & Hx & w2 & w3 & Hr).
      simpl in Hr. injection Hr as <- _. exact Hx.
    + intros i a Hi. destruct (Forall2_lookup_l _ _ _ _ _ Hall Hi) as (x & Hx & w2 & w3 & Hr).
      simpl in Hr. by exists x, w2, w3.
  - intros value H. simpl in H. apply bind_inv_Ok in H as (kvs & w1 & Hm & H).
    injection H as <- <-. exists kvs. split; [reflexivity|].
    pose proof (mapM_Forall2 _ _ _ _ _ Hm) as Hall.
    split; [|split].
    + clear Hm. induction Hall as [|[k e] [k' v] value kvs (w2 & w3 & Hr) _ IH]; [done|].
      simpl. rewrite IH. f_equal.
      apply bind_inv_Ok in Hr as (x & w4 & _ & Hr). by injection Hr as <- _.
    + intros i k v Hi.
      destruct (Forall2_lookup_l _ _ _ _ _ Hall Hi) as (x & Hx & w2 & w3 & Hr).
      simpl in Hr. unfold bind, ret in Hr. injection Hr as <- _. exact Hx.
    + intros i k a Hi.
      destruct (Forall2_lookup_l _ _ _ _ _ Hall Hi) as (x & Hx & w2 & w3 & Hr).
      simpl in Hr. apply bind_inv_Ok in Hr as (v & w4 & Hp & Hr). injection Hr as <- _.
      by exists v, w2, w4.
Qed.

Lemma collection_steps_keep_shape_witness :
  exists vs,
    fst (process (ListArgInfoStep [ElemObject (VInt 1);
                                   ElemArgInfo (mkArgInfo [GetAttrArgInfoStep "ids"])])
           sample_batch sample_world) = Ok (VList vs) /\
    vs !! 0%nat = Some (VInt 1).
Proof.
  destruct (proj1 (collection_steps_keep_shape sample_batch sample_world
                     (VList [VInt 1; VList [VInt 7; VInt 8]]) sample_world)
              [ElemObject (VInt 1); ElemArgInfo (mkArgInfo [GetAttrArgInfoStep "ids"])]
              eq_refl) as (vs & Hr & _ & Hobj & _).
  exists vs. split; [by rewrite <- Hr|]. by apply Hobj.
Defined.

(** ** Swapping a module in the tree *)

Lemma named_modules_head m path :
  exists rest, Module_named_modules m path = (path, m) :: rest.
Proof. destruct m as [f ps cs|o ps|[o wrapped f a ds dd]]; simpl; by eexists. Qed.

Lemma first_named_app {A} name (l1 l2 : list (string * A)) :
  first_named name (l1 ++ l2)
  = match first_named name l1 with
    | Some a => Some a
    | None => first_named name l2
    end.
Proof.
  induction l1 as [|[n a] l1 IH]; simpl; [done|]. by destruct (String.eqb n name).
Qed.

Lemma first_named_None {A} name (l : list (string * A)) :
  first_named name l = None <-> name ∉ map fst l.
Proof.
  induction l as [|[n a] l IH]; simpl.
  - split; [intros _ H; by apply elem_of_nil in H|done].
  - destruct (String.eqb n name) eqn:E.
    + apply String.eqb_eq in E as ->. split; [done|]. intros H. destruct H.
      apply list_elem_of_here.
    + apply String.eqb_neq in E. rewrite IH, not_elem_of_cons.
      split; [intros Hn; split; [congruence|exact Hn] | intros [_ Hn]; exact Hn].
Qed.

Lemma swap_absent to_swap_module postproc_module_fqn :
  forall module path,
    first_named postproc_module_fqn (Module_named_modules module path) = None ->
    _swap_postproc_module_recursive module to_swap_module postproc_module_fqn path = module.
Proof.
  intros module.
  induction module as [f ps cs IH|o ps|o m f a ds dd _] using module_induction;
    intros path H; simpl in *.
  - destruct (String.eqb path postproc_module_fqn); [discriminate|].
    f_equal. induction IH as [|[name child] cs Hchild _ IHcs]; [done|].
    rewrite first_named_app in H.
    destruct (first_named postproc_module_fqn
                (Module_named_modules child (join_path path name))) eqn:E; [discriminate|].
    simpl in Hchild. rewrite (Hchild _ E). f_equal. by apply IHcs.
  - by destruct (String.eqb path postproc_module_fqn).
  - reflexivity.
Qed.

(** X9: swapping at a name under which the tree has no module changes
    nothing: the tree returned is the tree given, and the helper that swaps
    keeps the model the caller holds. *)
Theorem swap_postproc_module_absent h p postproc_module_fqn :
  _find_postproc_module_recursive (helper_model h) postproc_module_fqn = None ->
  _swap_postproc_module_recursive (helper_model h) (PipelinedPostprocModule p)
    postproc_module_fqn "" = helper_model h /\
  helper_model (helper_swap h p postproc_module_fqn) = helper_model h /\
  (helper_input_object h = helper_model h ->
   helper_input_object (helper_swap h p postproc_module_fqn) = helper_input_object h).
Proof.
  intros H. unfold helper_swap. simpl.
  rewrite (swap_absent _ _ _ _ H). split; [reflexivity|]. split; [reflexivity|].
  intros E. destruct (is_PipelinedPostproc (helper_model h)); [reflexivity|].
  destruct postproc_module_fqn; [reflexivity|by symmetry].
Qed.

Lemma swap_postproc_module_absent_witness :
  _swap_postproc_module_recursive nested_module (PipelinedPostprocModule nested_postproc)
    "a.c" ""
  = nested_module.
Proof.
  exact (proj1 (swap_postproc_module_absent
                  (mkNodeArgsHelper nested_module 0%nat true None None [] nested_module)
                  nested_postproc "a.c" eq_refl)).
Defined.

Lemma wrapper_free_children f ps cs :
  wrapper_free (NNModule f ps cs) = true -> Forall (fun nc => wrapper_free (snd nc) = true) cs.
Proof.
  simpl. induction cs as [|[name child] cs IH]; intros H; [constructor|].
  apply andb_prop in H as [H1 H2]. constructor; [exact H1 | by apply IH].
Qed.

(** X10: in a tree without wrappers that has a module named
    [postproc_module_fqn], after the swap the module found under that name
    is the module swapped in. *)
Theorem find_after_swap_postproc_module to_swap_module postproc_module_fqn module :
  wrapper_free module = true ->
  is_Some (_find_postproc_module_recursive module postproc_module_fqn) ->
  _find_postproc_module_recursive
    (_swap_postproc_module_recursive module to_swap_module postproc_module_fqn "")
    postproc_module_fqn
  = Some to_swap_module.
Proof.
  unfold _find_postproc_module_recursive. generalize "" as path. revert module.
  intros module.
  induction module as [f ps cs IH|o ps|o m f a ds dd _] using module_induction;
    intros path Hfree Hfound.
  - pose proof (wrapper_free_children _ _ _ Hfree) as Hcs. clear Hfree.
    simpl in *. destruct (String.eqb path postproc_module_fqn) eqn:E.
    + destruct (named_modules_head to_swap_module path) as [rest ->]. simpl. by rewrite E.
    + simpl. rewrite E.
      induction IH as [|[name child] cs Hchild _ IHcs]; [by destruct Hfound|].
      apply Forall_cons in Hcs as [Hc Hcs]. simpl in Hc, Hchild.
      rewrite first_named_app in Hfound. rewrite first_named_app.
      destruct (first_named postproc_module_fqn
                  (Module_named_modules child (join_path path name))) eqn:Ec.
      * rewrite Hchild; [reflexivity|exact Hc|by rewrite Ec].
      * rewrite (swap_absent _ _ _ _ Ec), Ec. by apply IHcs.
  - simpl in *. destruct (String.eqb path postproc_module_fqn) eqn:E; [|by destruct Hfound].
    destruct (named_modules_head to_swap_module path) as [rest ->]. simpl. by rewrite E.
  - discriminate.
Qed.

Lemma find_after_swap_postproc_module_witness :
  _find_postproc_module_recursive
    (_swap_postproc_module_recursive nested_module (PipelinedPostprocModule nested_postproc)
       "a.b" "") "a.b"
  = Some (PipelinedPostprocModule nested_postproc).
Proof.
  apply find_after_swap_postproc_module; [reflexivity|].
  by exists sample_postproc_module.
Defined.

#[local] Arguments own_parameters : simpl never.

Lemma own_parameters_app l1 l2 :
  own_parameters (l1 ++ l2) = (own_parameters l1 ++ own_parameters l2)%list.
Proof. unfold own_parameters. apply flat_map_app. Qed.

Lemma named_parameters_own : forall module prefix,
    Module_named_parameters module prefix
    = own_parameters (Module_named_modules module prefix).
Proof.
  intros module.
  induction module as [fw ps cs _|o' ps|o' m f' a' ds' dd' IH] using module_induction;
    intros prefix; [reflexivity|reflexivity|].
  simpl. by rewrite IH.
Qed.

Lemma swap_keeps_own_parameters wrapped_self found f a ds dd postproc_module_fqn :
  forall module path,
    NoDup (map fst (Module_named_modules module path)) ->
    first_named postproc_module_fqn (Module_named_modules module path) = Some found ->
    own_parameters
      (Module_named_modules
         (_swap_postproc_module_recursive module
            (PipelinedPostprocModule (mkPipelinedPostproc wrapped_self found f a ds dd))
            postproc_module_fqn path) path)
    = own_parameters (Module_named_modules module path).
Proof.
  set (wrapper := PipelinedPostprocModule (mkPipelinedPostproc wrapped_self found f a ds dd)).
  intros module.
  induction module as [fw ps cs IH|o' ps|o' m f' a' ds' dd' _] using module_induction;
    intros path Hnd Hfound.
  - simpl in Hfound. simpl _swap_postproc_module_recursive.
    destruct (String.eqb path postproc_module_fqn) eqn:E.
    { injection Hfound as <-. reflexivity. }
    simpl Module_named_modules.
    change (own_parameters (?x :: ?l)) with
      (map (join_path (fst x)) (Module_parameters (snd x)) ++ own_parameters l)%list.
    simpl fst. simpl snd. simpl Module_parameters. f_equal.
    simpl in Hnd. apply NoDup_cons in Hnd as [_ Hnd].
    induction IH as [|[name child] cs Hchild _ IHcs]; [done|].
    rewrite map_app in Hnd. apply NoDup_app in Hnd as (Hnd1 & Hdisj & Hnd2).
    rewrite first_named_app in Hfound. simpl in Hchild.
    rewrite !own_parameters_app.
    destruct (first_named postproc_module_fqn
                (Module_named_modules child (join_path path name))) eqn:Ec.
    + injection Hfound as ->. rewrite (Hchild _ Hnd1 Ec). f_equal.
      assert (Hrest : first_named postproc_module_fqn
                 ((fix go (cs : list (string * Module)) : list (string * Module) :=
                     match cs with
                     | [] => []
                     | (name, child) :: cs' =>
                         (Module_named_modules child (join_path path name) ++ go cs')%list
                     end) cs) = None).
      { apply first_named_None, Hdisj.
        destruct (first_named_None postproc_module_fqn
                    (Module_named_modules child (join_path path name))) as [_ Hn].
        destruct (decide (postproc_module_fqn
                          ∈ map fst (Module_named_modules child (join_path path name))))
          as [Hin|Hnin]; [exact Hin|]. rewrite (Hn Hnin) in Ec. discriminate. }
      clear -Hrest. revert Hrest.
      induction cs as [|[n c] cs IHc]; intros Hrest; [done|].
      rewrite first_named_app in Hrest.
      destruct (first_named postproc_module_fqn (Module_named_modules c (join_path path n)))
        eqn:Ecn; [discriminate|].
      simpl. rewrite !own_parameters_app, (swap_absent _ _ _ _ Ecn). f_equal. by apply IHc.
    + rewrite (swap_absent _ _ _ _ Ec). f_equal. by apply IHcs.
  - simpl in *. destruct (String.eqb path postproc_module_fqn); [|discriminate].
    by injection Hfound as <-.
  - reflexivity.
Qed.

(** X11: let the names of the tree be distinct, and [found] the module
    under [postproc_module_fqn].  Swapping in a wrapper of [found] leaves
    the named parameters of the tree as they are, each under its dotted
    name; and the wrapper itself, asked for its named parameters under a
    prefix, yields those of [found] under that prefix, with no name of its
    own in between. *)
Theorem swap_keeps_named_parameters o found f a ds dd postproc_module_fqn module :
  NoDup (map fst (Module_named_modules module "")) ->
  _find_postproc_module_recursive module postproc_module_fqn = Some found ->
  Module_named_parameters
    (_swap_postproc_module_recursive module
       (PipelinedPostprocModule (mkPipelinedPostproc o found f a ds dd))
       postproc_module_fqn "") ""
  = Module_named_parameters module "" /\
  (forall prefix,
      Module_named_parameters
        (PipelinedPostprocModule (mkPipelinedPostproc o found f a ds dd)) prefix
      = Module_named_parameters found prefix).
Proof.
  intros Hnd Hfound. split; [|reflexivity].
  rewrite !named_parameters_own. by apply swap_keeps_own_parameters.
Qed.

Lemma swap_keeps_named_parameters_witness :
  Module_named_parameters
    (_swap_postproc_module_recursive owning_module (PipelinedPostprocModule owning_postproc)
       "a.b" "") ""
  = ["a.bias"; "a.b.w"; "a.ebc.weight"] /\
  Module_named_parameters (PipelinedPostprocModule owning_postproc) "a.b" = ["a.b.w"].
Proof.
  destruct (swap_keeps_named_parameters 1%nat
              (NNModule (nn_forward (fun pos _ => Ok (VList pos))) ["w"] []) "a.b"
              (mkCallArgs [mkArgInfo [NoopArgInfoStep]] []) None (Some 0%nat) "a.b"
              owning_module) as [Htree Hwrapper].
  - vm_compute. repeat (apply NoDup_cons; split; [|]); try apply NoDup_nil_2;
      rewrite ?elem_of_cons, ?elem_of_nil; intros H; repeat destruct H as [H|H];
      try discriminate; done.
  - reflexivity.
  - split; [exact (eq_trans Htree eq_refl) | exact (eq_trans (Hwrapper "a.b") eq_refl)].
Defined.

(** ** The per-task hooks of the session-level precision metric *)

Lemma check_tasks_complete ts :
  check_tasks ts = None -> forall task, task ∈ ts -> task_incomplete task = false.
Proof.
  induction ts as [|t ts IH]; intros H task Hin; [by apply elem_of_nil in Hin|].
  simpl in H. destruct (session_metric_def t) as [d|] eqn:Ed; [|discriminate].
  destruct (top_threshold d) as [k|] eqn:Ek; [|discriminate].
  apply elem_of_cons in Hin as [->|Hin]; [|by apply IH].
  unfold task_incomplete. by rewrite Ed, Ek.
Qed.

(** X12: the two per-task hooks reject the same configurations, a list of
    tasks and a task without session definition, with the same exception;
    on a task the constructor has accepted neither raises: the keyword
    arguments are the task's session definition, whose top threshold is
    set, and the required inputs are the session variable alone, or nothing
    when its name is missing or empty. *)
Theorem task_hooks_agree_with_constructor :
  (forall config e,
     _get_task_kwargs config = Raise e <-> _get_task_required_inputs config = Raise e) /\
  (forall {T : Type} (RecMetric_init : MetricArgs -> result T) a r task,
     PrecisionSessionMetric_init RecMetric_init a = Ok r ->
     task ∈ tasks a ->
     exists d k,
       session_metric_def task = Some d /\ top_threshold d = Some k /\
       _get_task_kwargs (OneTask task) = Ok [("session_metric_def", d)] /\
       exists inputs,
         _get_task_required_inputs (OneTask task) = Ok inputs /\
         ("" ∉ inputs) /\
         (forall n, n ∈ inputs <-> session_var_name d = Some n /\ n <> "")).
Proof.
  split.
  - intros [task|ts] e; simpl.
    + destruct (session_metric_def task) as [d|]; split; intros H;
        first [discriminate H | by inversion H].
    + split; intros H; by inversion H.
  - intros T init a r task Hinit Hin. unfold PrecisionSessionMetric_init in Hinit.
    destruct (is_fused_mode _); [discriminate|].
    destruct (0 <? _); [discriminate|].
    destruct (check_tasks (tasks a)) as [e|] eqn:Ec; [discriminate|].
    pose proof (check_tasks_complete _ Ec task Hin) as Hok. unfold task_incomplete in Hok.
    destruct (session_metric_def task) as [d|] eqn:Ed; [|discriminate].
    destruct (top_threshold d) as [k|] eqn:Ek; [|discriminate].
    exists d, k. split; [done|]. split; [done|]. simpl. rewrite Ed. split; [done|].
    eexists. split; [reflexivity|].
    destruct (session_var_name d) as [[|c s]|]; simpl.
    + split; [apply not_elem_of_empty|]. intros n. split.
      * intros H. by apply not_elem_of_empty in H.
      * intros [[= <-] Hn]. done.
    + split; [intros H; by apply elem_of_singleton in H|]. intros n.
      rewrite elem_of_singleton. split; [intros ->; done|intros [[= ->] _]; done].
    + split; [apply not_elem_of_empty|]. intros n. split.
      * intros H. by apply not_elem_of_empty in H.
      * intros [[=] _].
Qed.

Lemma task_hooks_agree_with_constructor_witness :
  _get_task_required_inputs
    (OneTask (mkRecTaskInfo "t" (Some (mkSessionMetricDef (Some "session") (Some 3) false))))
  = Ok {[ "session" ]}.
Proof.
  destruct (proj2 task_hooks_agree_with_constructor nat (fun a => Ok (length (tasks a)))
              (mkMetricArgs 1 0 8
                 [mkRecTaskInfo "t" (Some (mkSessionMetricDef (Some "session") (Some 3) false))]
                 UNFUSED_TASKS_COMPUTATION 100 0 None [])
              1%nat
              (mkRecTaskInfo "t" (Some (mkSessionMetricDef (Some "session") (Some 3) false)))
              eq_refl (list_elem_of_here _ _))
    as (d & k & _ & _ & _ & inputs & Hi & _).
  reflexivity.
Defined.

(** ** Leaf modules *)

Lemma contains_sharded_children f ps cs :
  contains_sharded (NNModule f ps cs)
  = existsb (fun nc : string * Module => contains_sharded (snd nc)) cs.
Proof. simpl. induction cs as [|[name child] cs IH]; [done|]. simpl. by rewrite IH. Qed.

Section leaf_module_facts.
Variable fx_traceable : Module -> bool.

Lemma add_leaf_names_grows path sharded_children children :
  forall names, names ⊆ add_leaf_names fx_traceable path sharded_children children names.
Proof.
  induction children as [|[name child] rest IH]; intros names; simpl; [done|].
  etrans; [|apply IH].
  destruct (decide (name ∈ sharded_children)); [done|].
  destruct (fx_traceable child); [done|]. apply union_subseteq_r.
Qed.

Lemma visit_children_sound visit cs :
  Forall (fun nc : string * Module => visit_sound visit (snd nc)) cs ->
  forall names,
    (fst (visit_children visit cs names) = ∅
     <-> existsb (fun nc : string * Module => contains_sharded (snd nc)) cs = false) /\
    names ⊆ snd (visit_children visit cs names) /\
    (existsb (fun nc : string * Module => contains_sharded (snd nc)) cs = false ->
     snd (visit_children visit cs names) = names).
Proof.
  induction 1 as [|[name child] cs Hchild _ IH]; intros names; simpl; [done|].
  destruct (Hchild name names) as (Hf & Hs & Hn). simpl in Hf, Hs, Hn.
  destruct (visit name child names) as [child_sharded names']. simpl in Hf, Hs, Hn.
  destruct (IH names') as (Hf' & Hs' & Hn').
  destruct (visit_children visit cs names') as [sharded_children names'']. simpl in *.
  subst child_sharded. destruct (contains_sharded child); simpl.
  - split; [|split; [by etrans|done]]. split; [|done].
    intros E. assert (name ∈ ({[name]} ∪ sharded_children : gset string)) as Hin
      by (apply elem_of_union_l, elem_of_singleton; reflexivity).
    rewrite E in Hin. by apply not_elem_of_empty in Hin.
  - split; [exact Hf'|]. split; [by etrans|]. intros E. rewrite (Hn' E). by apply Hn.
Qed.

Lemma helper_visit_sound path child :
  helper_sound fx_traceable child ->
  visit_sound (fun name child names =>
                 match child with
                 | ShardedModuleRef _ _ => (true, names)
                 | _ => _get_leaf_module_names_helper fx_traceable child
                          (path ++ name ++ ".")%string names
                 end) child.
Proof.
  intros H name names.
  destruct child as [f ps cs|o ps|p]; try apply (H (path ++ name ++ ".")%string names).
  simpl. done.
Qed.

Lemma finish_sound path children r names (b : bool) :
  (fst r = ∅ <-> b = false) -> names ⊆ snd r -> (b = false -> snd r = names) ->
  let result :=
    (let (sharded_children, names') := r in
     if decide (sharded_children = ∅) then (false, names')
     else (true, add_leaf_names fx_traceable path sharded_children children names')) in
  fst result = b /\ names ⊆ snd result /\ (b = false -> snd result = names).
Proof.
  destruct r as [sharded_children names']. simpl. intros Hf Hs Hn.
  destruct (decide (sharded_children = ∅)) as [E|E]; simpl.
  - split; [symmetry; by apply Hf|]. split; [done|exact Hn].
  - destruct b.
    + split; [done|]. split; [|done]. etrans; [exact Hs|]. apply add_leaf_names_grows.
    + destruct E. by apply Hf.
Qed.

Lemma helper_sound_all m : helper_sound fx_traceable m.
Proof.
  induction m as [f ps cs IH|o ps|o m f a ds dd IH] using module_induction;
    intros path names.
  - simpl is_ShardedModule. cbv iota. rewrite contains_sharded_children.
    simpl _get_leaf_module_names_helper.
    apply finish_sound; apply visit_children_sound;
      (eapply Forall_impl; [exact IH|]); intros [name child] Hc; simpl in *;
      by apply helper_visit_sound.
  - simpl. done.
  - simpl is_ShardedModule. cbv iota.
    replace (contains_sharded (PipelinedPostprocModule (mkPipelinedPostproc o m f a ds dd)))
      with (existsb (fun nc : string * Module => contains_sharded (snd nc))
              [("_postproc_module", m)]) by (simpl; apply orb_false_r).
    apply (finish_sound path [("_postproc_module", m)]
             (visit_children
                (fun name child names =>
                   match child with
                   | ShardedModuleRef _ _ => (true, names)
                   | _ => _get_leaf_module_names_helper fx_traceable child
                            (path ++ name ++ ".")%string names
                   end) [("_postproc_module", m)] names));
      apply visit_children_sound;
      (apply Forall_cons; split; [|constructor]); simpl; by apply helper_visit_sound.
Qed.

(** X13: on a module that is not itself a sharded module,
    [_get_leaf_module_names_helper] returns whether a sharded module lies
    below it; the set of names it is given only grows; and below a module
    that holds no sharded module it adds no name at all. *)
Theorem leaf_module_names_helper_sound model path leaf_module_names :
  is_ShardedModule model = false ->
  fst (_get_leaf_module_names_helper fx_traceable model path leaf_module_names)
  = contains_sharded model /\
  leaf_module_names
  ⊆ snd (_get_leaf_module_names_helper fx_traceable model path leaf_module_names) /\
  (contains_sharded model = false ->
   _get_leaf_module_names_helper fx_traceable model path leaf_module_names
   = (false, leaf_module_names)).
Proof.
  intros Hs. destruct (helper_sound_all model path leaf_module_names) as (Hf & Hg & Hn).
  rewrite Hs in Hf. split; [exact Hf|]. split; [exact Hg|].
  intros Hc. rewrite Hc in Hf. specialize (Hn Hc).
  destruct (_get_leaf_module_names_helper fx_traceable model path leaf_module_names).
  simpl in *. by subst.
Qed.

Lemma add_leaf_names_inv path sharded_children children :
  forall names n,
    n ∈ add_leaf_names fx_traceable path sharded_children children names ->
    n ∈ names \/
    exists name child,
      (name, child) ∈ children /\ (name ∉ sharded_children) /\
      fx_traceable child = false /\ n = (path ++ name)%string.
Proof.
  induction children as [|[name child] rest IH]; intros names n Hn; simpl in Hn; [by left|].
  apply IH in Hn as [Hn|(name' & child' & Hin & ?)].
  - destruct (decide (name ∈ sharded_children)) as [|Hns]; [by left|].
    destruct (fx_traceable child) eqn:Et; [by left|].
    apply elem_of_union in Hn as [Hn|Hn]; [|by left].
    apply elem_of_singleton in Hn. right. exists name, child.
    split; [apply list_elem_of_here|done].
  - right. exists name', child'. split; [by apply list_elem_of_further|done].
Qed.

Lemma visit_children_marks visit cs :
  Forall (fun nc : string * Module => visit_sound visit (snd nc)) cs ->
  forall names name child,
    (name, child) ∈ cs -> contains_sharded child = true ->
    name ∈ fst (visit_children visit cs names).
Proof.
  induction 1 as [|[name0 child0] cs Hchild _ IH]; intros names name child Hin Hc.
  { by apply elem_of_nil in Hin. }
  simpl. destruct (Hchild name0 names) as (Hf & _). simpl in Hf.
  destruct (visit name0 child0 names) as [child_sharded names']. simpl in Hf.
  specialize (IH names' name child).
  destruct (visit_children visit cs names') as [sharded_children names'']. simpl in *.
  apply elem_of_cons in Hin as [[= -> ->]|Hin].
  - rewrite Hf, Hc. apply elem_of_union_l, elem_of_singleton. reflexivity.
  - destruct child_sharded; [apply elem_of_union_r|]; by apply IH.
Qed.

Lemma visit_children_names (path : string) visit cs :
  Forall (fun nc : string * Module =>
            forall names n,
              n ∈ snd (visit (fst nc) (snd nc) names) ->
              n ∈ names \/ (is_ShardedModule (snd nc) = false /\
                            leaf_of fx_traceable (snd nc) (path ++ fst nc ++ ".")%string n))
         cs ->
  forall names n,
    n ∈ snd (visit_children visit cs names) ->
    n ∈ names \/
    exists name child,
      (name, child) ∈ cs /\ is_ShardedModule child = false /\
      leaf_of fx_traceable child (path ++ name ++ ".")%string n.
Proof.
  induction 1 as [|[name0 child0] cs Hchild _ IH]; intros names n Hn; [by left|].
  simpl in Hn. specialize (Hchild names n). simpl in Hchild.
  destruct (visit name0 child0 names) as [child_sharded names']. simpl in Hchild.
  specialize (IH names' n).
  destruct (visit_children visit cs names') as [sharded_children names'']. simpl in *.
  destruct (IH Hn) as [Hin|(name & child & Hin & Hs & Hl)].
  - destruct (Hchild Hin) as [?|[Hs Hl]]; [by left|].
    right. exists name0, child0. split; [apply list_elem_of_here|done].
  - right. exists name, child. split; [by apply list_elem_of_further|done].
Qed.

Lemma helper_visit_names path child :
  names_sound fx_traceable child ->
  forall (name : string) names n,
    n ∈ snd (match child with
             | ShardedModuleRef _ _ => (true, names)
             | _ => _get_leaf_module_names_helper fx_traceable child
                      (path ++ name ++ ".")%string names
             end) ->
    n ∈ names \/ (is_ShardedModule child = false /\
                  leaf_of fx_traceable child (path ++ name ++ ".")%string n).
Proof.
  intros H name names n Hn.
  destruct child as [f ps cs|o ps|p]; [| by left |];
    (apply H in Hn as [?|?]; [by left|by right]).
Qed.

Lemma finish_names m path (visit : string -> Module -> gset string -> bool * gset string)
      names n :
  Forall (fun nc : string * Module => visit_sound visit (snd nc)) (Module_named_children m) ->
  contains_sharded m
  = existsb (fun nc : string * Module => contains_sharded (snd nc))
      (Module_named_children m) ->
  (forall n,
     n ∈ snd (visit_children visit (Module_named_children m) names) ->
     n ∈ names \/
     exists name child,
       (name, child) ∈ Module_named_children m /\ is_ShardedModule child = false /\
       leaf_of fx_traceable child (path ++ name ++ ".")%string n) ->
  n ∈ snd (let (sharded_children, names') :=
             visit_children visit (Module_named_children m) names in
           if decide (sharded_children = ∅) then (false, names')
           else (true, add_leaf_names fx_traceable path sharded_children
                         (Module_named_children m) names')) ->
  n ∈ names \/ leaf_of fx_traceable m path n.
Proof.
  intros Hsound Hcs Hnames Hn.
  pose proof (visit_children_sound visit _ Hsound names) as (Hempty & _).
  pose proof (visit_children_marks visit _ Hsound names) as Hmarks.
  destruct (visit_children visit (Module_named_children m) names)
    as [sharded_children names'] eqn:Ev. simpl in *.
  assert (Hbelow : n ∈ names' -> n ∈ names \/ leaf_of fx_traceable m path n).
  { intros Hin. destruct (Hnames n Hin) as [?|(name & child & Hc & Hs & Hl)]; [by left|].
    right. by eapply leaf_below. }
  destruct (decide (sharded_children = ∅)) as [E|E]; simpl in Hn; [by apply Hbelow|].
  apply add_leaf_names_inv in Hn as [Hin|(name & child & Hc & Hns & Ht & ->)];
    [by apply Hbelow|].
  right. apply (leaf_here _ m path name child Hc); [| |exact Ht].
  - rewrite Hcs. destruct (existsb _ _); [done|]. destruct E. by apply Hempty.
  - destruct (contains_sharded child) eqn:Ec; [|done].
    destruct Hns. by apply (Hmarks name child).
Qed.

Lemma names_sound_all m : names_sound fx_traceable m.
Proof.
  induction m as [f ps cs IH|o ps|o m f a ds dd IH] using module_induction;
    intros path names n Hn.
  - apply (finish_names (NNModule f ps cs) path
             (fun name child names =>
                match child with
                | ShardedModuleRef _ _ => (true, names)
                | _ => _get_leaf_module_names_helper fx_traceable child
                         (path ++ name ++ ".")%string names
                end) names n); [| |  |exact Hn].
    + simpl. apply Forall_forall. intros [name child] _. simpl.
      apply helper_visit_sound, helper_sound_all.
    + apply contains_sharded_children.
    + apply visit_children_names. simpl.
      eapply Forall_impl; [exact IH|]. intros [name child] Hc names0 n0. simpl in *.
      by apply helper_visit_names.
  - left. exact Hn.
  - apply (finish_names (PipelinedPostprocModule (mkPipelinedPostproc o m f a ds dd)) path
             (fun name child names =>
                match child with
                | ShardedModuleRef _ _ => (true, names)
                | _ => _get_leaf_module_names_helper fx_traceable child
                         (path ++ name ++ ".")%string names
                end) names n); [| |  |exact Hn].
    + simpl. apply Forall_cons. split; [|constructor]. simpl.
      apply helper_visit_sound, helper_sound_all.
    + simpl. symmetry. apply orb_false_r.
    + apply visit_children_names. simpl. apply Forall_cons. split; [|constructor].
      intros names0 n0. simpl. by apply helper_visit_names.
Qed.

(** X14: every name [_get_leaf_module_names] returns is the path of a
    module that holds no sharded module and is not marked traceable, below
    a parent that does hold one: no sharded module is hidden inside a
    leaf. *)
Theorem leaf_module_names_hide_no_sharded model n :
  n ∈ _get_leaf_module_names fx_traceable model ->
  leaf_of fx_traceable model "" n.
Proof.
  unfold _get_leaf_module_names. intros Hn.
  destruct (names_sound_all model "" ∅ n Hn) as [Hin|Hl]; [|exact Hl].
  by apply not_elem_of_empty in Hin.
Qed.
End leaf_module_facts.

Lemma leaf_module_names_helper_sound_witness :
  fst (_get_leaf_module_names_helper (fun _ => false) nested_module "" ∅) = true.
Proof.
  exact (proj1 (leaf_module_names_helper_sound (fun _ => false) nested_module "" ∅ eq_refl)).
Defined.

Lemma leaf_module_names_hide_no_sharded_witness :
  leaf_of (fun _ => false) nested_module "" "a.b".
Proof.
  apply (leaf_module_names_hide_no_sharded (fun _ => false) nested_module "a.b").
  vm_compute. reflexivity.
Defined.

(** ** Scripting the modules around the sharded ones *)

Section jit_module_facts.
Variable jit_script : Module -> result Module.

Lemma script_children_optional sharded_children children :
  exists children', script_children jit_script true sharded_children children = Ok children'.
Proof.
  induction children as [|[name child] rest [rest' IH]]; simpl; [by eexists|].
  rewrite IH. destruct (decide (name ∈ sharded_children)); [by eexists|].
  destruct (jit_script child); by eexists.
Qed.

Lemma jit_visit_children_sound (visit : bool -> string -> Module -> result (bool * Module)) cs :
  Forall (fun nc : string * Module => jit_visit_sound visit (snd nc)) cs ->
  let holds := existsb (fun nc : string * Module => contains_sharded (snd nc)) cs in
  (forall optional, holds = false -> jit_visit_children (visit optional) cs = Ok (∅, cs)) /\
  (exists sc cs', jit_visit_children (visit true) cs = Ok (sc, cs')) /\
  (forall optional sc cs',
     jit_visit_children (visit optional) cs = Ok (sc, cs') -> (sc = ∅ <-> holds = false)).
Proof.
  induction 1 as [|[name child] cs Hchild _ (IH1 & (sc0 & cs0 & IH2) & IH3)]; simpl.
  { split; [done|]. split; [by eexists _, _|]. intros _ sc cs' [= <- <-]. done. }
  destruct (Hchild name) as (H1 & (child' & H2) & H3). simpl in H1, H2, H3.
  split; [|split].
  - intros optional Hh. apply orb_false_elim in Hh as [Hc Hh].
    rewrite (H1 optional Hc), (IH1 optional Hh). reflexivity.
  - rewrite H2, IH2. by eexists _, _.
  - intros optional sc cs' Hrun.
    destruct (visit optional name child) as [[b c']|e] eqn:Ev; [|discriminate].
    destruct (jit_visit_children (visit optional) cs) as [[sc1 cs1]|e] eqn:Ec; [|discriminate].
    injection Hrun as <- <-. rewrite (H3 _ _ _ Ev).
    destruct (contains_sharded child); simpl.
    + split; [|done]. intros E.
      assert (name ∈ ({[name]} ∪ sc1 : gset string)) as Hin
        by (apply elem_of_union_l, elem_of_singleton; reflexivity).
      rewrite E in Hin. by apply not_elem_of_empty in Hin.
    + by apply (IH3 optional sc1 cs1).
Qed.

Lemma jit_finish_sound (rebuild : list (string * Module) -> Module)
      (loop : bool -> result (gset string * list (string * Module))) cs (holds : bool) :
  (forall optional, holds = false -> loop optional = Ok (∅, cs)) ->
  (exists sc cs', loop true = Ok (sc, cs')) ->
  (forall optional sc cs', loop optional = Ok (sc, cs') -> (sc = ∅ <-> holds = false)) ->
  let finish (optional : bool) :=
    match loop optional with
    | Raise e => Raise e
    | Ok (sharded_children, children) =>
        if decide (sharded_children = ∅) then Ok (false, rebuild children)
        else
          match script_children jit_script optional sharded_children children with
          | Raise e => Raise e
          | Ok children' => Ok (true, rebuild children')
          end
    end in
  (forall optional, holds = false -> finish optional = Ok (false, rebuild cs)) /\
  (exists m', finish true = Ok (holds, m')) /\
  (forall optional b m', finish optional = Ok (b, m') -> b = holds).
Proof.
  intros H1 (sc & cs' & H2) H3. simpl. split; [|split].
  - intros optional Hh. rewrite (H1 optional Hh). by rewrite decide_True.
  - rewrite H2. destruct (decide (sc = ∅)) as [E|E].
    + eexists. f_equal. f_equal. symmetry. by apply (H3 true sc cs').
    + destruct (script_children_optional sc cs') as [cs'' ->]. eexists. f_equal. f_equal.
      destruct holds; [done|]. destruct E. by apply (H3 true sc cs').
  - intros optional b m' Hrun.
    destruct (loop optional) as [[sc1 cs1]|e] eqn:El; [|discriminate].
    destruct (decide (sc1 = ∅)) as [E|E].
    + injection Hrun as <- _. symmetry. by apply (H3 optional sc1 cs1).
    + destruct (script_children jit_script optional sc1 cs1); [|discriminate].
      injection Hrun as <- _. destruct holds; [done|]. destruct E.
      by apply (H3 optional sc1 cs1).
Qed.

Lemma jit_helper_visit_sound path child :
  jit_sound jit_script child ->
  jit_visit_sound (fun optional name child =>
                     match child with
                     | ShardedModuleRef _ _ => Ok (true, child)
                     | _ => _jit_modules jit_script child (path ++ name ++ ".")%string optional
                     end) child.
Proof.
  intros H name.
  destruct child as [f ps cs|o ps|p]; try apply (H (path ++ name ++ ".")%string).
  simpl. split; [done|]. split; [by eexists|]. by intros _ b c [= <- _].
Qed.

Lemma jit_sound_all m : jit_sound jit_script m.
Proof.
  induction m as [f ps cs IH|o ps|o m f a ds dd IH] using module_induction; intros path.
  - simpl is_ShardedModule. cbv iota. rewrite contains_sharded_children.
    apply (jit_finish_sound (NNModule f ps)
             (fun optional =>
                jit_visit_children
                  (fun name child =>
                     match child with
                     | ShardedModuleRef _ _ => Ok (true, child)
                     | _ => _jit_modules jit_script child (path ++ name ++ ".")%string
                              optional
                     end) cs) cs);
      apply (jit_visit_children_sound
               (fun optional name child =>
                  match child with
                  | ShardedModuleRef _ _ => Ok (true, child)
                  | _ => _jit_modules jit_script child (path ++ name ++ ".")%string optional
                  end) cs);
      (eapply Forall_impl; [exact IH|]); intros [name child] Hc; simpl in *;
      by apply jit_helper_visit_sound.
  - simpl. split; [done|]. split; [by eexists|]. by intros _ b m' [= <- _].
  - simpl is_ShardedModule. cbv iota.
    replace (contains_sharded (PipelinedPostprocModule (mkPipelinedPostproc o m f a ds dd)))
      with (existsb (fun nc : string * Module => contains_sharded (snd nc))
              [("_postproc_module", m)]) by (simpl; apply orb_false_r).
    apply (jit_finish_sound
             (fun children =>
                match children with
                | (_, wrapped') :: _ =>
                    PipelinedPostprocModule (mkPipelinedPostproc o wrapped' f a ds dd)
                | [] => PipelinedPostprocModule (mkPipelinedPostproc o m f a ds dd)
                end)
             (fun optional =>
                jit_visit_children
                  (fun name child =>
                     match child with
                     | ShardedModuleRef _ _ => Ok (true, child)
                     | _ => _jit_modules jit_script child (path ++ name ++ ".")%string
                              optional
                     end) [("_postproc_module", m)]) [("_postproc_module", m)]);
      apply (jit_visit_children_sound
               (fun optional name child =>
                  match child with
                  | ShardedModuleRef _ _ => Ok (true, child)
                  | _ => _jit_modules jit_script child (path ++ name ++ ".")%string optional
                  end) [("_postproc_module", m)]);
      (apply Forall_cons; split; [|constructor]); simpl; by apply jit_helper_visit_sound.
Qed.

(** X15: on a module that is not itself a sharded module, [_jit_modules]
    with [optional] set never raises, whatever [torch.jit.script] does; when
    it returns, with or without [optional], it returns whether a sharded
    module lies below the module; and a module that holds no sharded module
    is returned as it is, nothing in it having been scripted. *)
Theorem jit_modules_scripts_around_sharded module path :
  is_ShardedModule module = false ->
  (exists module',
     _jit_modules jit_script module path true = Ok (contains_sharded module, module')) /\
  (forall optional b module',
     _jit_modules jit_script module path optional = Ok (b, module') ->
     b = contains_sharded module) /\
  (forall optional,
     contains_sharded module = false ->
     _jit_modules jit_script module path optional = Ok (false, module)).
Proof.
  intros Hs. destruct (jit_sound_all module path) as (H1 & H2 & H3).
  rewrite Hs in H2, H3. split; [exact H2|]. split; [exact H3|exact H1].
Qed.
End jit_module_facts.

Lemma jit_modules_scripts_around_sharded_witness :
  exists module',
    _jit_modules (fun _ => Raise TypeError) nested_module "" true = Ok (true, module').
Proof.
  exact (proj1 (jit_modules_scripts_around_sharded (fun _ => Raise TypeError)
                  nested_module "" eq_refl)).
Defined.

(** ** The KJT dists: overriding and restoring *)

Lemma length_concat_imap {A B} (h : A -> nat) (l : list A) :
  forall (g : nat -> A -> list B),
    (forall i a, length (g i a) = h a) ->
    length (concat (imap g l)) = list_sum (map h l).
Proof.
  induction l as [|a l IH]; intros g Hg; simpl; [done|].
  rewrite length_app, Hg. f_equal. apply IH. intros i b. apply Hg.
Qed.

Lemma dists_refs_length (o i : nat) (l : list InputDist) :
  length (concat (imap (fun j (d : InputDist) =>
                          match _dist d with
                          | Some _ => [(o, i, j)]
                          | None => []
                          end) l))
  = dists_count l.
Proof.
  rewrite (length_concat_imap (fun d => match _dist d with Some _ => 1%nat | None => 0%nat end)).
  - induction l as [|d l IH]; [done|]. simpl. by rewrite IH.
  - intros j d. by destruct (_dist d).
Qed.

Lemma kjt_refs_length o m : length (kjt_refs o m) = kjt_count (named_modules m).
Proof.
  unfold kjt_refs.
  rewrite (length_concat_imap
             (fun nc : string * SubModule =>
                match _input_dists (snd nc) with Some l => dists_count l | None => 0%nat end)).
  - induction (named_modules m) as [|[n c] cs IH]; [done|]. simpl. by rewrite IH.
  - intros i [n c]. simpl. destruct (_input_dists c); [apply dists_refs_length|done].
Qed.

Lemma override_input_dists_count l :
  dists_count (fst (override_input_dists l)) = dists_count l /\
  length (snd (override_input_dists l)) = dists_count l.
Proof.
  induction l as [|d l [IH1 IH2]]; [done|]. simpl.
  unfold override_input_dist.
  destruct (override_input_dists l) as [l' o']. simpl in *.
  destruct (_dist d) as [k|] eqn:E; simpl; rewrite ?E, IH1, IH2; done.
Qed.

Lemma override_children_count cs :
  kjt_count (override_children cs).1.1 = kjt_count cs /\
  ((override_children cs).2 = None -> length (override_children cs).1.2 = kjt_count cs).
Proof.
  induction cs as [|[n c] cs [IH1 IH2]]; [done|]. simpl.
  unfold override_child.
  destruct (_has_uninitialized_input_dist c) as [[|]|]; [done| |];
    (destruct (_input_dists c) as [l|] eqn:El;
     [ destruct (override_input_dists_count l) as [Hc Hl];
       destruct (override_input_dists l) as [l' o];
       destruct (override_children cs) as [[cs' o'] e]; simpl in *;
       rewrite Hc, IH1; split; [done|]; intros He; rewrite length_app, Hl, IH2; done
     | destruct (override_children cs) as [[cs' o'] e]; simpl in *;
       rewrite El, IH1; split; [done|]; intros He; by rewrite IH2 ]).
Qed.

Lemma same_kjt_shape_refl w : same_kjt_shape w w.
Proof. intros o. done. Qed.

Lemma same_kjt_shape_trans w1 w2 w3 :
  same_kjt_shape w1 w2 -> same_kjt_shape w2 w3 -> same_kjt_shape w1 w3.
Proof.
  intros H1 H2 o. destruct (H1 o) as [E1 S1]. destruct (H2 o) as [E2 S2].
  split; [congruence|auto].
Qed.

Lemma same_kjt_shape_write w o m m' :
  sharded w !! o = Some m -> kjt_count (named_modules m') = kjt_count (named_modules m) ->
  same_kjt_shape w (with_sharded w (<[o := m']> (sharded w))).
Proof.
  intros Hm Hc o'. unfold kjt_count_of. simpl. destruct (decide (o' = o)) as [->|Hne].
  - rewrite lookup_insert_eq, Hm. split; [done|by eexists].
  - by rewrite lookup_insert_ne.
Qed.

Lemma override_run mods :
  forall acc w kjt w',
    foldM (fun module original_kjt_dist_forwards =>
             let* m := read_sharded module in
             let '(cs, o, e) := override_children (named_modules m) in
             let* _ := write_sharded module (with_named_modules m cs) in
             match e with
             | Some e => raise e
             | None => ret (original_kjt_dist_forwards ++ o)%list
             end) mods acc w = (Ok kjt, w') ->
    same_kjt_shape w w' /\
    length kjt = (length acc + list_sum (map (kjt_count_of w) mods))%nat /\
    (forall o, o ∈ mods -> is_Some (sharded w !! o)).
Proof.
  induction mods as [|o mods IH]; intros acc w kjt w' H; simpl in H.
  - injection H as <- <-. split; [apply same_kjt_shape_refl|]. split; [simpl; lia|].
    intros o Ho. by apply elem_of_nil in Ho.
  - apply bind_inv_Ok in H as (acc' & w1 & Hstep & H).
    apply bind_inv_Ok in Hstep as (m & w0 & Hread & Hstep).
    apply read_sharded_inv in Hread as [Hm ->].
    destruct (override_children_count (named_modules m)) as [Hc Hl].
    destruct (override_children (named_modules m)) as [[cs os] e]. simpl in Hc, Hl.
    apply bind_inv_Ok in Hstep as ([] & w0 & Hwrite & Hstep).
    unfold write_sharded, modify in Hwrite. injection Hwrite as <-.
    destruct e as [e|]; [discriminate|]. injection Hstep as <- <-.
    pose proof (same_kjt_shape_write w o m (with_named_modules m cs) Hm Hc) as Hshape.
    apply IH in H as (Hs & Hlen & Hdom). clear IH.
    split; [by eapply same_kjt_shape_trans|]. split.
    + rewrite Hlen, length_app, Hl by done. simpl.
      replace (kjt_count_of w o) with (kjt_count (named_modules m))
        by (unfold kjt_count_of; by rewrite Hm).
      match goal with
      | |- context [map (kjt_count_of ?w0) mods] =>
          replace (map (kjt_count_of w0) mods) with (map (kjt_count_of w) mods)
            by (apply map_ext; intros o'; symmetry; apply Hshape)
      end. lia.
    + intros o' Ho'. apply elem_of_cons in Ho' as [->|Ho']; [by eexists|].
      specialize (Hdom o' Ho'). simpl in Hdom.
      destruct (decide (o' = o)) as [->|Hne]; [by eexists|].
      by rewrite lookup_insert_ne in Hdom.
Qed.

Lemma restore_run (l : list (oid * Forward)) :
  forall acc w,
    (forall o, o ∈ map fst l -> is_Some (sharded w !! o)) ->
    exists refs w1,
      foldM (fun (mf : oid * Forward) kjt_dists =>
               let* m := read_sharded (fst mf) in
               let* _ := write_sharded (fst mf) (with_forward m (snd mf)) in
               ret (kjt_dists ++ kjt_refs (fst mf) m)%list) l acc w = (Ok refs, w1) /\
      same_kjt_shape w w1 /\
      length refs = (length acc + list_sum (map (kjt_count_of w) (map fst l)))%nat.
Proof.
  induction l as [|[o f] l IH]; intros acc w Hdom; simpl.
  - exists acc, w. split; [done|]. split; [apply same_kjt_shape_refl|lia].
  - destruct (Hdom o) as [m Hm]; [apply list_elem_of_here|].
    pose proof (same_kjt_shape_write w o m (with_forward m f) Hm eq_refl) as Hshape.
    destruct (IH (acc ++ kjt_refs o m)%list
                (with_sharded w (<[o := with_forward m f]> (sharded w))))
      as (refs & w1 & Hrun & Hs & Hlen).
    { intros o' Ho'. apply Hshape, Hdom. by apply list_elem_of_further. }
    exists refs, w1. split; [|split].
    + unfold bind at 1. unfold bind at 1, read_sharded at 1. rewrite Hm.
      unfold bind at 1, write_sharded at 1, modify, ret at 1. exact Hrun.
    + by eapply same_kjt_shape_trans.
    + rewrite Hlen, length_app, kjt_refs_length.
      replace (kjt_count_of w o) with (kjt_count (named_modules m))
        by (unfold kjt_count_of; by rewrite Hm).
      match goal with
      | |- context [map (kjt_count_of ?w0) (map fst l)] =>
          replace (map (kjt_count_of w0) (map fst l)) with (map (kjt_count_of w) (map fst l))
            by (apply map_ext; intros o'; symmetry; apply Hshape)
      end. lia.
Qed.

Lemma set_kjt_forwards_return (l : list (kjt_ref * KJTDistForward)) :
  forall w,
    (forall rf, rf ∈ l -> is_Some (sharded w !! rf.1.1.1)) ->
    exists w2,
      forM_ (fun kf : kjt_ref * KJTDistForward => set_kjt_forward (fst kf) (snd kf)) l w
      = (Ok tt, w2).
Proof.
  induction l as [|[[[o i] j] f] l IH]; intros w Hdom; simpl; [by eexists|].
  destruct (Hdom (o, i, j, f)) as [m Hm]; [apply list_elem_of_here|]. simpl in Hm.
  unfold bind at 1. unfold bind at 1, read_sharded at 1. rewrite Hm.
  unfold write_sharded at 1, modify. apply IH.
  intros rf Hrf. simpl. destruct (decide (rf.1.1.1 = o)) as [->|Hne].
  - rewrite lookup_insert_eq. by eexists.
  - rewrite lookup_insert_ne by done. apply Hdom. by apply list_elem_of_further.
Qed.

Lemma detach_model_returns model mods ofs kfs pps w :
  length ofs = length mods ->
  (forall o, o ∈ mods -> is_Some (sharded w !! o)) ->
  length kfs = list_sum (map (kjt_count_of w) mods) ->
  exists model' w', _pipeline_detach_model model mods ofs kfs pps w = (Ok model', w').
Proof.
  intros Hlen Hdom Hk. unfold _pipeline_detach_model.
  assert (Hfst : map fst (zip mods ofs) = mods) by (apply fst_zip; lia).
  destruct (restore_run (zip mods ofs) [] w) as (refs & w1 & Hrun & Hshape & Hrefs).
  { by rewrite Hfst. }
  pose proof (restore_forwards_run _ _ _ _ _ Hrun) as (_ & _ & _ & Hin).
  rewrite Hfst in Hrefs, Hin. simpl in Hrefs.
  unfold bind at 1. rewrite Hrun. unfold bind at 1.
  replace (length refs =? length kfs)%nat with true
    by (symmetry; apply Nat.eqb_eq; lia).
  simpl py_assert. unfold ret at 1.
  destruct (set_kjt_forwards_return (zip refs kfs) w1) as (w2 & Hset).
  { intros [r f] Hrf. apply elem_of_zip_l in Hrf. simpl.
    destruct (Hin r Hrf) as [Hnil|Hmod]; [by apply elem_of_nil in Hnil|].
    apply Hshape, Hdom, Hmod. }
  unfold bind at 1. rewrite Hset. by eexists _, _.
Qed.

Lemma initialize_or_reattach_kjt batch w w1 :
  _initialize_or_reattach batch w = (Ok tt, w1) ->
  exists handle w3 w4,
    _override_input_dist_forwards (_pipelined_modules (sdd w1)) w3
    = (Ok (_original_kjt_dist_forwards (sdd w1)), w4) /\
    sharded w1 = sharded w4 /\
    length (_original_forwards (sdd w1)) = length (_pipelined_modules (sdd w1)) /\
    fwd_hook (sdd w1) = Some handle /\ initialized (sdd w1) = true.
Proof.
  intros H. unfold _initialize_or_reattach in H.
  unfold bind at 1, get_sdd in H.
  apply bind_inv_Ok in H as (ctx & w0 & H0 & H).
  apply bind_inv_Ok in H as ([] & w0' & Hassert & H).
  unfold _assert_contexts_count in Hassert. simpl in Hassert. injection Hassert as <-.
  unfold bind at 1, get_sdd in H.
  apply bind_inv_Ok in H as ([[[[pipelined model'] originals] postprocs] np] & wr & Hrw & H).
  apply rewrite_model_saves in Hrw as (st & Ep & Eo & Hlen & _).
  rewrite Ep, Eo in Hlen.
  unfold bind at 1, update_sdd, modify in H.
  set (w2 := with_sdd wr _) in H.
  apply bind_inv_Ok in H as (sctx & w2' & Hsc & H).
  assert (w2' = w2) as ->.
  { pose proof (start_dist_context_pure w2) as Hp. by rewrite Hsc in Hp. }
  apply bind_inv_Ok in H as ([] & w3 & Hstart & H).
  apply bind_inv_Ok in H as (kjt & w4 & Hov & H).
  pose proof (distributes_start_data_dist pipelined batch sctx w2) as D3.
  rewrite Hstart in D3. simpl in D3.
  pose proof (distributes_override pipelined w3) as D4.
  rewrite Hov in D4. simpl in D4.
  pose proof (distributes_trans _ _ _ D3 D4) as (Hs4 & _).
  unfold bind, update_sdd, modify, register_forward_hook in H. simpl in H.
  injection H as <-. simpl. rewrite Hs4. simpl.
  exists (next_handle w4), w3, w4. done.
Qed.

(** X16: once [_initialize_or_reattach] has returned, [detach] returns: the
    hook handle is there, every pipelined module is in the store, and the
    assertion of [_pipeline_detach_model] on the number of KJT dists holds,
    the forwards saved by [_override_input_dist_forwards] being as many as
    the KJT dists found below the pipelined modules. *)
Theorem detach_returns_after_attach batch w w1 :
  _initialize_or_reattach batch w = (Ok tt, w1) ->
  length (_original_kjt_dist_forwards (sdd w1))
  = list_sum (map (kjt_count_of w1) (_pipelined_modules (sdd w1))) /\
  exists model' w2, detach w1 = (Ok model', w2).
Proof.
  intros H.
  apply initialize_or_reattach_kjt in H as (handle & w3 & w4 & Hov & Hsh & Hlen & Hh & Hi).
  unfold _override_input_dist_forwards in Hov.
  apply override_run in Hov as (Hshape & Hk & Hdom). simpl in Hk.
  assert (Hcount : map (kjt_count_of w1) (_pipelined_modules (sdd w1))
                   = map (kjt_count_of w3) (_pipelined_modules (sdd w1))).
  { apply map_ext. intros o. unfold kjt_count_of at 1. rewrite Hsh. apply Hshape. }
  split; [by rewrite Hcount|].
  unfold detach. unfold bind at 1, get_sdd. rewrite Hi, Hh.
  unfold bind at 1. unfold bind at 1, modify at 1.
  destruct (detach_model_returns (model (sdd w1)) (_pipelined_modules (sdd w1))
              (_original_forwards (sdd w1)) (_original_kjt_dist_forwards (sdd w1))
              (_pipelined_postprocs (sdd w1))
              (with_forward_hooks w1 (forward_hooks w1 ∖ {[handle]})))
    as (model' & w2 & Hrun).
  - exact Hlen.
  - intros o Ho. simpl. rewrite Hsh. by apply Hshape, Hdom.
  - rewrite Hk. f_equal. symmetry. exact Hcount.
  - unfold bind at 1. rewrite Hrun. by eexists _, _.
Qed.

Lemma detach_returns_after_attach_witness :
  exists model' w2,
    detach (snd (_initialize_or_reattach sample_batch (pipeline_world None)))
    = (Ok model', w2).
Proof.
  exact (proj2 (detach_returns_after_attach sample_batch (pipeline_world None)
                  (snd (_initialize_or_reattach sample_batch (pipeline_world None)))
                  ltac:(vm_compute; reflexivity))).
Defined.

(** ** Counting the resolved arguments *)

Lemma get_node_args_helper_count {X} (proj : X -> Argument) inner (l : list X) f :
  forall h w infos n h' w',
    _get_node_args_helper proj inner l f h w = (Ok ((infos, n), h'), w') ->
    length infos = n /\ (n <= length l)%nat.
Proof.
  induction l as [|x l IH]; intros h w infos n h' w' H; simpl in H.
  - injection H as <- <- _ _. split; [reflexivity | simpl; lia].
  - destruct (negb f && is_None_arg (proj x)).
    + apply bind_inv_Ok in H as ([[il k] h1] & w1 & H1 & H).
      injection H as <- <- _ _. apply IH in H1 as [<- Hle]. simpl. split; [reflexivity | lia].
    + apply bind_inv_Ok in H as ([ai h1] & w1 & _ & H).
      apply bind_inv_Ok in H as ([[il k] h2] & w2 & H2 & H).
      apply IH in H2 as [<- Hle].
      destruct ai as [a|]; injection H as <- <- _ _; simpl; split; try reflexivity; lia.
Qed.

Lemma fst_zip_take {A B} (l : list A) (k : list B) :
  (length k <= length l)%nat -> map fst (zip l k) = take (length k) l.
Proof.
  revert k. induction l as [|a l IH]; intros [|b k] Hle; simpl in *; try reflexivity; try lia.
  f_equal. apply IH. lia.
Qed.

(** X17: when [get_node_args] returns, the count it reports is the number
    of descriptors it hands back, positional and keyword together, and is at
    most the number of arguments of the node; the keyword descriptors are
    paired with the first keyword names of the node, in order, whichever
    keyword arguments they were resolved from; and when the count equals the
    number of arguments (the only case in which the callers use the
    descriptors) there is one positional descriptor per positional argument
    and the keyword descriptors carry exactly the node's keyword names. *)
Theorem get_node_args_counts node for_postproc_module h w pos kw num_found h' w' :
  get_node_args node for_postproc_module h w = (Ok ((mkCallArgs pos kw, num_found), h'), w') ->
  num_found = (length pos + length kw)%nat /\
  (num_found <= total_num_args node)%nat /\
  map fst kw = take (length kw) (map fst (node_kwargs node)) /\
  (num_found = total_num_args node ->
   length pos = length (node_args node) /\ map fst kw = map fst (node_kwargs node)).
Proof.
  intros H. unfold get_node_args, get_node_args_with in H.
  apply bind_inv_Ok in H as ([[pl pn] h1] & w1 & Hp & H).
  apply bind_inv_Ok in H as ([[kl kn] h2] & w2 & Hk & H).
  injection H as <- <- <- _ _.
  apply get_node_args_helper_count in Hp as [<- Hpl].
  apply get_node_args_helper_count in Hk as [<- Hkl].
  assert (Hz : length (zip (map fst (node_kwargs node)) kl) = length kl).
  { rewrite length_zip, length_map. lia. }
  rewrite Hz. unfold total_num_args.
  assert (Hn : map fst (zip (map fst (node_kwargs node)) kl)
               = take (length kl) (map fst (node_kwargs node))).
  { apply fst_zip_take. rewrite length_map. exact Hkl. }
  split; [reflexivity|]. split; [lia|]. split; [exact Hn|].
  intros Heq. split; [lia|]. rewrite Hn.
  apply take_ge. rewrite length_map. lia.
Qed.

Lemma get_node_args_counts_witness :
  length [mkArgInfo [NoopArgInfoStep]] = length (node_args ebc_call_weights) /\
  map fst [("weights", mkArgInfo [ScalarArgInfoStep VNone])]
  = map fst (node_kwargs ebc_call_weights).
Proof.
  exact (proj2 (proj2 (proj2
           (get_node_args_counts ebc_call_weights false ebc_helper (world_of_graph [])
              [mkArgInfo [NoopArgInfoStep]]
              [("weights", mkArgInfo [ScalarArgInfoStep VNone])] 2%nat ebc_helper
              (world_of_graph []) ltac:(vm_compute; reflexivity))))
           eq_refl).
Defined.

(** ** Grouping the splits requests by process group *)

Lemma names_per_pg_append_keys pg name d :
  map fst (names_per_pg_append pg name d)
  = if bool_decide (pg ∈ map fst d) then map fst d else (map fst d ++ [pg])%list.
Proof.
  induction d as [|[pg' names] d IH]; simpl.
  - reflexivity.
  - destruct (bool_decide (pg' = pg)) eqn:E.
    + apply bool_decide_eq_true in E as ->. simpl.
      rewrite bool_decide_eq_true_2; [reflexivity | apply list_elem_of_here].
    + apply bool_decide_eq_false in E. simpl. rewrite IH.
      destruct (bool_decide (pg ∈ map fst d)) eqn:E'.
      * apply bool_decide_eq_true in E'.
        rewrite bool_decide_eq_true_2; [reflexivity | by apply list_elem_of_further].
      * apply bool_decide_eq_false in E'.
        rewrite bool_decide_eq_false_2; [reflexivity|].
        intros [Heq|Hin]%elem_of_cons; [by apply E | by apply E'].
Qed.

Lemma names_per_pg_append_elem pg name d pg' names' :
  NoDup (map fst d) ->
  (pg', names') ∈ names_per_pg_append pg name d ->
  (pg' <> pg /\ (pg', names') ∈ d) \/
  (pg' = pg /\ exists old, names' = (old ++ [name])%list /\
                           ((pg, old) ∈ d \/ (old = [] /\ pg ∉ map fst d))).
Proof.
  induction d as [|[k names] d IH]; simpl.
  - intros _ [= -> ->]%list_elem_of_singleton. right. split; [reflexivity|].
    exists []. split; [reflexivity|]. right. split; [reflexivity | apply not_elem_of_nil].
  - intros [Hk Hnd]%NoDup_cons. destruct (bool_decide (k = pg)) eqn:E.
    + apply bool_decide_eq_true in E as ->.
      intros [Heq|Hin]%elem_of_cons.
      * injection Heq as -> ->. right. split; [reflexivity|].
        exists names. split; [reflexivity|]. left. apply list_elem_of_here.
      * left. split; [|by apply list_elem_of_further].
        intros ->. apply Hk. apply list_elem_of_fmap. by exists (pg, names').
    + apply bool_decide_eq_false in E.
      intros [Heq|Hin]%elem_of_cons.
      * injection Heq as -> ->. left. split; [congruence | apply list_elem_of_here].
      * destruct (IH Hnd Hin) as [[Hne Hd]|[-> (old & -> & [Hd|[-> Hd]])]].
        -- left. split; [exact Hne | by apply list_elem_of_further].
        -- right. split; [reflexivity|]. exists old. split; [reflexivity|].
           left. by apply list_elem_of_further.
        -- right. split; [reflexivity|]. exists []. split; [reflexivity|].
           right. split; [reflexivity|].
           intros [Heq|Hin']%elem_of_cons; [by apply E | by apply Hd].
Qed.

Lemma names_of_pg_snoc pg requests name r :
  names_of_pg pg (requests ++ [(name, r)])
  = (names_of_pg pg requests ++ if bool_decide (request_pg r = pg) then [name] else [])%list.
Proof.
  unfold names_of_pg. rewrite filter_app, map_app. f_equal.
  destruct (bool_decide (request_pg r = pg)) eqn:E.
  - apply bool_decide_eq_true in E. by rewrite filter_cons_True.
  - apply bool_decide_eq_false in E. by rewrite filter_cons_False.
Qed.

Lemma names_of_pg_nil pg requests :
  (forall nr, nr ∈ requests -> request_pg (snd nr) <> pg) -> names_of_pg pg requests = [].
Proof.
  intros H. unfold names_of_pg. induction requests as [|nr l IH]; [reflexivity|].
  rewrite filter_cons_False by (apply H, list_elem_of_here).
  apply IH. intros nr' Hin. by apply H, list_elem_of_further.
Qed.

Lemma names_per_pg_grouped requests :
  NoDup (map fst (names_per_pg requests)) /\
  (forall pg names, (pg, names) ∈ names_per_pg requests ->
     names = names_of_pg pg requests /\ names <> []) /\
  (forall nr, nr ∈ requests -> request_pg (snd nr) ∈ map fst (names_per_pg requests)).
Proof.
  unfold names_per_pg. induction requests as [|[name r] requests IH] using rev_ind.
  - simpl. split; [apply NoDup_nil_2|]. split.
    + intros pg names Hin. by apply elem_of_nil in Hin.
    + intros nr Hin. by apply elem_of_nil in Hin.
  - rewrite fold_left_app. simpl.
    set (d := fold_left _ requests []) in *. destruct IH as (Hnd & Hgroups & Hkeys).
    split; [|split].
    + rewrite names_per_pg_append_keys. destruct (bool_decide _) eqn:E; [exact Hnd|].
      apply bool_decide_eq_false in E.
      apply NoDup_app. split; [exact Hnd|]. split; [|apply NoDup_singleton].
      intros pg Hin ->%list_elem_of_singleton. by apply E.
    + intros pg names Hin. rewrite names_of_pg_snoc.
      apply names_per_pg_append_elem in Hin; [|exact Hnd].
      destruct Hin as [[Hne Hd]|[-> (old & -> & [Hd|[-> Hd]])]].
      * rewrite bool_decide_eq_false_2 by congruence. rewrite app_nil_r. by apply Hgroups.
      * rewrite bool_decide_eq_true_2 by reflexivity.
        destruct (Hgroups _ _ Hd) as [-> _]. split; [reflexivity|].
        intros Hnil. by apply app_eq_nil in Hnil as [_ ?].
      * rewrite bool_decide_eq_true_2 by reflexivity.
        rewrite names_of_pg_nil; [split; [reflexivity | discriminate]|].
        intros nr Hnr Heq. apply Hd. rewrite <- Heq. by apply Hkeys.
    + intros nr Hin. rewrite names_per_pg_append_keys.
      apply elem_of_app in Hin as [Hin|Hin].
      * destruct (bool_decide _); [by apply Hkeys|].
        apply elem_of_app. left. by apply Hkeys.
      * apply list_elem_of_singleton in Hin as ->. simpl. destruct (bool_decide _) eqn:E.
        -- by apply bool_decide_eq_true in E.
        -- apply elem_of_app. right. by apply list_elem_of_singleton.
Qed.

Lemma mapM_lift_Ok {A B} (f : A -> result B) (l : list A) (vs : list B) w :
  Forall2 (fun a v => f a = Ok v) l vs -> mapM (fun a => lift (f a)) l w = (Ok vs, w).
Proof.
  induction 1 as [|a v l vs Ha _ IH]; simpl; [reflexivity|].
  unfold bind at 1, lift at 1. rewrite Ha. unfold bind at 1. by rewrite IH.
Qed.

Lemma Forall2_total {A B} (P : A -> B -> Prop) (l : list A) :
  (forall a, a ∈ l -> exists b, P a b) -> exists k, Forall2 P l k.
Proof.
  induction l as [|a l IH]; intros H; [by exists []|].
  destruct (H a) as [b Hb]; [apply list_elem_of_here|].
  destruct IH as [k Hk]; [intros a' Ha'; by apply H, list_elem_of_further|].
  exists (b :: k). by constructor.
Qed.

Lemma with_contexts_id w ctx c :
  contexts w !! ctx = Some c -> with_contexts w (<[ctx := c]> (contexts w)) = w.
Proof. intros H. rewrite insert_id by exact H. by destruct w. Qed.

Lemma with_fused_splits_awaitables_id c :
  with_fused_splits_awaitables c (fused_splits_awaitables c) = c.
Proof. by destruct c. Qed.

Lemma fuse_loop ctx c0 groups :
  forall w c,
    contexts w !! ctx = Some c ->
    input_dist_splits_requests c = input_dist_splits_requests c0 ->
    version c = version c0 ->
    module_contexts c = module_contexts c0 ->
    module_contexts_next_batch c = module_contexts_next_batch c0 ->
    (forall pn name, pn ∈ groups -> name ∈ snd pn ->
       is_Some (assoc name (input_dist_splits_requests c0)) /\
       is_Some (fused_module_contexts c0 !! name)) ->
    exists added,
      forM_ (fun pn : option nat * list string =>
               let* c := read_context ctx in
               let* requests :=
                 mapM (fun name => lift (assoc_get name (input_dist_splits_requests c)))
                      (snd pn) in
               let* ctxs :=
                 mapM (fun name =>
                         lift (dict_get name (if version c =? 0
                                              then module_contexts_next_batch c
                                              else module_contexts c))) (snd pn) in
               write_context ctx
                 (with_fused_splits_awaitables c
                    (fused_splits_awaitables c
                     ++ [(snd pn, mkFused requests ctxs (fst pn))])%list))
            groups w
      = (Ok tt, with_contexts w
                  (<[ctx := with_fused_splits_awaitables c
                              (fused_splits_awaitables c ++ added)%list]> (contexts w))) /\
      Forall2 (fused_entry c0) groups added.
Proof.
  induction groups as [|pn groups IH]; intros w c Hc Hr Hv Hm Hn Hall.
  - exists []. split; [|constructor]. simpl.
    rewrite app_nil_r, with_fused_splits_awaitables_id, with_contexts_id by exact Hc.
    reflexivity.
  - destruct (Forall2_total
                (fun name r => assoc name (input_dist_splits_requests c0) = Some r) (snd pn))
      as [requests Hrequests].
    { intros name Hname. destruct (Hall pn name) as [[r Hr'] _]; [apply list_elem_of_here|done|].
      by exists r. }
    destruct (Forall2_total
                (fun name mc => fused_module_contexts c0 !! name = Some mc) (snd pn))
      as [ctxs Hctxs].
    { intros name Hname. destruct (Hall pn name) as [_ [mc Hmc]]; [apply list_elem_of_here|done|].
      by exists mc. }
    set (entry := (snd pn, mkFused requests ctxs (fst pn))).
    set (c1 := with_fused_splits_awaitables c (fused_splits_awaitables c ++ [entry])%list).
    destruct (IH (with_contexts w (<[ctx := c1]> (contexts w))) c1) as (added & Hrun & Hadded).
    + simpl. apply lookup_insert_eq.
    + exact Hr.
    + exact Hv.
    + exact Hm.
    + exact Hn.
    + intros pn' name Hpn Hname. apply (Hall pn' name); [by apply list_elem_of_further|done].
    + exists (entry :: added). split.
      * cbn [forM_]. unfold bind at 1. unfold bind at 1, read_context at 1. rewrite Hc.
        unfold bind at 1.
        rewrite (mapM_lift_Ok _ _ requests).
        2:{ eapply Forall2_impl; [exact Hrequests|]. intros name r Hname.
            unfold assoc_get. by rewrite Hr, Hname. }
        unfold bind at 1.
        rewrite (mapM_lift_Ok _ _ ctxs).
        2:{ eapply Forall2_impl; [exact Hctxs|]. intros name mc Hname.
            unfold dict_get. unfold fused_module_contexts in Hname.
            by rewrite Hv, Hn, Hm, Hname. }
        unfold write_context at 1, modify. fold entry. fold c1.
        rewrite Hrun. f_equal. unfold with_contexts. simpl.
        rewrite insert_insert_eq. subst c1. simpl. by rewrite <- app_assoc.
      * constructor; [|exact Hadded].
        unfold fused_entry. subst entry. simpl. done.
Qed.

Lemma assoc_is_Some {A} name (l : list (string * A)) :
  name ∈ map fst l -> is_Some (assoc name l).
Proof.
  induction l as [|[k v] l IH]; simpl; [by intros ?%elem_of_nil|].
  intros [->|Hin]%elem_of_cons.
  - rewrite String.eqb_refl. by eexists.
  - destruct (String.eqb name k); [by eexists | by apply IH].
Qed.

Lemma names_of_pg_elem pg requests name :
  name ∈ names_of_pg pg requests -> name ∈ map fst requests.
Proof.
  unfold names_of_pg. intros ([n r] & -> & Hin)%list_elem_of_fmap.
  apply list_elem_of_filter in Hin as [_ Hin].
  apply list_elem_of_fmap. by exists (n, r).
Qed.

Lemma fuse_input_dist_splits_run ctx c w :
  contexts w !! ctx = Some c ->
  (forall name, name ∈ map fst (input_dist_splits_requests c) ->
     is_Some (fused_module_contexts c !! name)) ->
  exists added,
    _fuse_input_dist_splits ctx w
    = (Ok tt, with_contexts w
                (<[ctx := with_fused_splits_awaitables c
                            (fused_splits_awaitables c ++ added)%list]> (contexts w))) /\
    Forall2 (fused_entry c) (names_per_pg (input_dist_splits_requests c)) added.
Proof.
  intros Hc Hmc.
  destruct (names_per_pg_grouped (input_dist_splits_requests c)) as (_ & Hgroups & _).
  destruct (fuse_loop ctx c (names_per_pg (input_dist_splits_requests c)) w c)
    as (added & Hrun & Hadded); try done.
  { intros [pg names] name Hpn Hname. simpl in Hname.
    destruct (Hgroups pg names Hpn) as [-> _].
    apply names_of_pg_elem in Hname. split; [by apply assoc_is_Some | by apply Hmc]. }
  exists added. split; [|exact Hadded].
  unfold _fuse_input_dist_splits. unfold bind at 1, read_context at 1. rewrite Hc.
  exact Hrun.
Qed.

(** X18: on a context in which every splits request has its module
    execution context, [_fuse_input_dist_splits] returns; it appends to
    [fused_splits_awaitables] one entry per process group met among the
    requests and changes nothing else in the store.  The groups have
    distinct process groups, none is empty, the names of a group are the
    names of the requests of its process group in the order of the requests
    (so every request is in exactly one group), and the entry of a group
    holds, name by name, the request and the module execution context of
    that name. *)
Theorem fuse_input_dist_splits_groups ctx c w :
  contexts w !! ctx = Some c ->
  (forall name, name ∈ map fst (input_dist_splits_requests c) ->
     is_Some (fused_module_contexts c !! name)) ->
  NoDup (map fst (names_per_pg (input_dist_splits_requests c))) /\
  (forall pg names, (pg, names) ∈ names_per_pg (input_dist_splits_requests c) ->
     names = names_of_pg pg (input_dist_splits_requests c) /\ names <> []) /\
  (forall nr, nr ∈ input_dist_splits_requests c ->
     request_pg (snd nr) ∈ map fst (names_per_pg (input_dist_splits_requests c))) /\
  exists added,
    _fuse_input_dist_splits ctx w
    = (Ok tt, with_contexts w
                (<[ctx := with_fused_splits_awaitables c
                            (fused_splits_awaitables c ++ added)%list]> (contexts w))) /\
    Forall2 (fused_entry c) (names_per_pg (input_dist_splits_requests c)) added.
Proof.
  intros Hc Hmc.
  destruct (names_per_pg_grouped (input_dist_splits_requests c)) as (Hnd & Hgroups & Hkeys).
  split; [exact Hnd|]. split; [exact Hgroups|]. split; [exact Hkeys|].
  by apply fuse_input_dist_splits_run.
Qed.

Lemma fuse_input_dist_splits_groups_witness :
  exists added,
    _fuse_input_dist_splits 0%nat (world_of_context requests_context)
    = (Ok tt, with_contexts (world_of_context requests_context)
                (<[0%nat := with_fused_splits_awaitables requests_context
                              (fused_splits_awaitables requests_context ++ added)%list]>
                   (contexts (world_of_context requests_context)))) /\
    Forall2 (fused_entry requests_context)
      (names_per_pg (input_dist_splits_requests requests_context)) added.
Proof.
  refine (proj2 (proj2 (proj2
            (fuse_input_dist_splits_groups 0%nat requests_context
               (world_of_context requests_context) ltac:(vm_compute; reflexivity) _)))).
  intros name Hin. simpl in Hin.
  apply elem_of_cons in Hin as [->|Hin]; [by eexists|].
  apply elem_of_cons in Hin as [->|Hin]; [by eexists|].
  apply list_elem_of_singleton in Hin as ->. by eexists.
Defined.

(** ** Starting the input distribution *)

Lemma dict_set_keys {A} key (a : A) d :
  map fst (dict_set key a d)
  = if bool_decide (key ∈ map fst d) then map fst d else (map fst d ++ [key])%list.
Proof.
  induction d as [|[k x] d IH]; simpl; [reflexivity|].
  destruct (String.eqb k key) eqn:E.
  - apply String.eqb_eq in E as ->. simpl.
    rewrite bool_decide_eq_true_2; [reflexivity | apply list_elem_of_here].
  - apply String.eqb_neq in E. simpl. rewrite IH.
    destruct (bool_decide (key ∈ map fst d)) eqn:E'.
    + apply bool_decide_eq_true in E'.
      rewrite bool_decide_eq_true_2; [reflexivity | by apply list_elem_of_further].
    + apply bool_decide_eq_false in E'.
      rewrite bool_decide_eq_false_2; [reflexivity|].
      intros [Heq|Hin]%elem_of_cons; [by apply E | by apply E'].
Qed.

Lemma dict_set_elem {A} key (a : A) d name :
  name ∈ map fst (dict_set key a d) <-> name ∈ map fst d \/ name = key.
Proof.
  rewrite dict_set_keys. destruct (bool_decide _) eqn:E.
  - apply bool_decide_eq_true in E. split; [by left|]. by intros [?| ->].
  - rewrite elem_of_app, list_elem_of_singleton. reflexivity.
Qed.

Lemma dict_set_NoDup {A} key (a : A) d :
  NoDup (map fst d) -> NoDup (map fst (dict_set key a d)).
Proof.
  intros Hnd. rewrite dict_set_keys. destruct (bool_decide _) eqn:E; [exact Hnd|].
  apply bool_decide_eq_false in E. apply NoDup_app. split; [exact Hnd|].
  split; [|apply NoDup_singleton]. intros x Hx ->%list_elem_of_singleton. by apply E.
Qed.

Lemma filed_nil w c : input_dist_splits_requests c = [] -> filed w [] c.
Proof.
  intros E. unfold filed. rewrite E. simpl. split; [|split; [apply NoDup_nil_2|]].
  - intros name. split; [by intros ?%elem_of_nil|].
    intros (o & _ & Ho & _). by apply elem_of_nil in Ho.
  - by intros name ?%elem_of_nil.
Qed.

Lemma filed_snoc w seen c c' o f request mc :
  filed w seen c ->
  forward <$> sharded w !! o = Some (Intercepting f) ->
  input_dist_splits_requests c'
  = dict_set (_name f) request (input_dist_splits_requests c) ->
  fused_module_contexts c' = <[_name f := mc]> (fused_module_contexts c) ->
  filed w (seen ++ [o]) c'.
Proof.
  intros (Hkeys & Hnd & Hmc) Hf Er Em. unfold filed. rewrite Er, Em.
  split; [|split; [by apply dict_set_NoDup|]].
  - intros name. rewrite dict_set_elem, Hkeys. split.
    + intros [(o' & f' & Ho & H)| ->].
      * exists o', f'. split; [apply elem_of_app; by left | exact H].
      * exists o, f. split; [apply elem_of_app; right; apply list_elem_of_here|done].
    + intros (o' & f' & Ho & Hf' & Hn).
      apply elem_of_app in Ho as [Ho|Ho].
      * left. by exists o', f'.
      * apply list_elem_of_singleton in Ho as ->. right. rewrite Hf in Hf'.
        by injection Hf' as <-.
  - intros name [Hin| ->]%dict_set_elem.
    + destruct (decide (name = _name f)) as [->|Hne].
      * rewrite lookup_insert_eq. by eexists.
      * rewrite lookup_insert_ne by done. by apply Hmc.
    + rewrite lookup_insert_eq. by eexists.
Qed.

Lemma filed_store w w' seen c :
  (forall o, forward <$> sharded w' !! o = forward <$> sharded w !! o) ->
  filed w seen c -> filed w' seen c.
Proof.
  intros Hf (Hkeys & Hnd & Hmc). split; [|by split].
  intros name. rewrite Hkeys. split; intros (o & f & Ho & Hfo & Hn); exists o, f.
  - by rewrite Hf.
  - by rewrite <- Hf.
Qed.

Lemma filed_context w seen c c' :
  input_dist_splits_requests c' = input_dist_splits_requests c ->
  fused_module_contexts c' = fused_module_contexts c ->
  filed w seen c -> filed w seen c'.
Proof. intros Er Em. unfold filed. by rewrite Er, Em. Qed.

Lemma start_module_run batch ctx o w c w' :
  contexts w !! ctx = Some c ->
  (let* m := read_sharded o in
   match forward m with
   | OriginalForward _ => raise (AssertionError "")
   | Intercepting forward =>
       let* ' (args, kwargs) := build_args_kwargs (_args forward) batch in
       let* module_ctx := create_context in
       let* c := read_context ctx in
       let* _ :=
         if version c =? 0 then
           write_context ctx
             (with_module_contexts_next_batch c
                (<[_name forward := module_ctx]> (module_contexts_next_batch c)))
         else
           write_context ctx
             (with_module_contexts c
                (<[_name forward := module_ctx]> (module_contexts c))) in
       let* request := lift (input_dist m module_ctx args kwargs) in
       let* c := read_context ctx in
       write_context ctx
         (with_input_dist_splits_requests c
            (dict_set (_name forward) request (input_dist_splits_requests c)))
   end) w = (Ok tt, w') ->
  exists m f request mc c',
    sharded w !! o = Some m /\ forward m = Intercepting f /\
    sharded w' = sharded w /\ contexts w' !! ctx = Some c' /\
    version c' = version c /\
    fused_splits_awaitables c' = fused_splits_awaitables c /\
    input_dist_tensors_requests c' = input_dist_tensors_requests c /\
    input_dist_splits_requests c'
    = dict_set (_name f) request (input_dist_splits_requests c) /\
    fused_module_contexts c' = <[_name f := mc]> (fused_module_contexts c).
Proof.
  intros Hc H.
  apply bind_inv_Ok in H as (m & w1 & Hm & H).
  apply read_sharded_inv in Hm as [Hm ->].
  destruct (forward m) as [orig|f] eqn:Hf; [discriminate H|].
  apply bind_inv_Ok in H as ([args kwargs] & w2 & Hb & H).
  pose proof (build_args_kwargs_caches_only (_args f) batch w) as Hco.
  rewrite Hb in Hco. simpl in Hco. destruct Hco as (Hframe & Hctxs & _).
  specialize (Hctxs ctx). rewrite Hc in Hctxs.
  destruct (contexts w2 !! ctx) as [c2|] eqn:Hc2; [|done]. destruct Hctxs as [mres ->].
  assert (Hsh : sharded w2 = sharded w).
  { unfold frame_of in Hframe. by injection Hframe. }
  apply bind_inv_Ok in H as (mctx & w3 & Hcc & H).
  unfold create_context in Hcc. injection Hcc as <- <-.
  apply bind_inv_Ok in H as (c3 & w3' & Hr & H).
  apply read_context_inv in Hr as [Hc3 ->]. simpl in Hc3. rewrite Hc2 in Hc3.
  injection Hc3 as <-.
  apply bind_inv_Ok in H as ([] & w4 & Hw & H).
  apply bind_inv_Ok in H as (request & w5 & Hl & H).
  unfold lift in Hl. injection Hl as Hrequest <-.
  apply bind_inv_Ok in H as (c5 & w5' & Hr & H).
  apply read_context_inv in Hr as [Hc5 ->].
  unfold write_context, modify in H. injection H as <-.
  exists m, f, request, (next_module_ctx w2).
  change (version (with_postproc_fwd_results c mres)) with (version c) in Hw.
  unfold fused_module_contexts.
  destruct (version c =? 0) eqn:Hv; unfold write_context, modify in Hw; injection Hw as <-;
    simpl in Hc5; rewrite lookup_insert_eq in Hc5; injection Hc5 as <-;
    (eexists; split; [exact Hm|]; split; [exact Hf|]; split; [exact Hsh|];
     split; [simpl; apply lookup_insert_eq|]; simpl; rewrite Hv; done).
Qed.

Lemma start_loop batch ctx w0 ms :
  forall seen w c w',
    contexts w !! ctx = Some c -> sharded w = sharded w0 -> filed w0 seen c ->
    forM_ (fun module =>
             let* m := read_sharded module in
             match forward m with
             | OriginalForward _ => raise (AssertionError "")
             | Intercepting forward =>
                 let* ' (args, kwargs) := build_args_kwargs (_args forward) batch in
                 let* module_ctx := create_context in
                 let* c := read_context ctx in
                 let* _ :=
                   if version c =? 0 then
                     write_context ctx
                       (with_module_contexts_next_batch c
                          (<[_name forward := module_ctx]> (module_contexts_next_batch c)))
                   else
                     write_context ctx
                       (with_module_contexts c
                          (<[_name forward := module_ctx]> (module_contexts c))) in
                 let* request := lift (input_dist m module_ctx args kwargs) in
                 let* c := read_context ctx in
                 write_context ctx
                   (with_input_dist_splits_requests c
                      (dict_set (_name forward) request (input_dist_splits_requests c)))
             end) ms w = (Ok tt, w') ->
    exists c', contexts w' !! ctx = Some c' /\ sharded w' = sharded w0 /\
               filed w0 (seen ++ ms) c' /\ version c' = version c /\
               fused_splits_awaitables c' = fused_splits_awaitables c /\
               input_dist_tensors_requests c' = input_dist_tensors_requests c.
Proof.
  induction ms as [|o ms IH]; intros seen w c w' Hc Hsh Hfiled H.
  - injection H as <-. exists c. rewrite app_nil_r. done.
  - cbn [forM_] in H. apply bind_inv_Ok in H as ([] & w1 & Hstep & H).
    apply (start_module_run batch ctx o w c w1 Hc) in Hstep
      as (m & f & request & mc & c1 & Hm & Hf & Hsh1 & Hc1 & Hv1 & Hfu1 & Ht1 & Hr1 & Hm1).
    apply (IH (seen ++ [o])%list w1 c1 w') in H as (c' & Hc' & Hsh' & Hfiled' & Hv' & Hfu' & Ht').
    + exists c'. rewrite <- app_assoc in Hfiled'. split; [exact Hc'|]. split; [exact Hsh'|].
      split; [exact Hfiled'|]. split; [congruence|]. split; congruence.
    + exact Hc1.
    + congruence.
    + eapply filed_snoc; [exact Hfiled| |exact Hr1|exact Hm1].
      rewrite <- Hsh, Hm. simpl. by rewrite Hf.
Qed.

Lemma start_data_dist_run ms batch ctx w w' c seen :
  contexts w !! ctx = Some c ->
  (version c <> 0 -> filed w seen c) ->
  _start_data_dist ms batch ctx w = (Ok tt, w') ->
  exists c' added,
    contexts w' !! ctx = Some c' /\ sharded w' = sharded w /\
    filed w ((if version c =? 0 then [] else seen) ++ ms) c' /\
    version c' = version c /\
    fused_splits_awaitables c'
    = ((if version c =? 0 then [] else fused_splits_awaitables c) ++ added)%list /\
    Forall2 (fused_entry c') (names_per_pg (input_dist_splits_requests c')) added /\
    input_dist_tensors_requests c' = input_dist_tensors_requests c.
Proof.
  intros Hc Hinit H. unfold _start_data_dist in H.
  apply bind_inv_Ok in H as (c0 & w0 & Hr & H).
  apply read_context_inv in Hr as [Hc0 ->]. rewrite Hc in Hc0. injection Hc0 as <-.
  apply bind_inv_Ok in H as ([] & w1 & Hclear & H).
  apply bind_inv_Ok in H as ([] & w2 & Hloop & H).
  destruct (version c =? 0) eqn:Hv.
  - unfold write_context, modify in Hclear. injection Hclear as <-.
    apply (start_loop batch ctx w ms [] _ _ w2 (lookup_insert_eq _ _ _)) in Hloop
      as (c2 & Hc2 & Hsh2 & Hfiled & Hv2 & Hfu2 & Ht2); [|reflexivity|by apply filed_nil].
    destruct (fuse_input_dist_splits_run ctx c2 w2 Hc2) as (added & Hrun & Hadded).
    { by destruct Hfiled as (_ & _ & ?). }
    rewrite Hrun in H. injection H as <-.
    eexists _, added. split; [simpl; apply lookup_insert_eq|]. split; [exact Hsh2|].
    split; [exact Hfiled|]. split; [exact Hv2|]. split; [simpl; by rewrite Hfu2|].
    split; [exact Hadded | exact Ht2].
  - injection Hclear as <-.
    assert (Hne : version c <> 0) by (by apply Z.eqb_neq).
    apply (start_loop batch ctx w ms seen _ _ w2 Hc) in Hloop
      as (c2 & Hc2 & Hsh2 & Hfiled & Hv2 & Hfu2 & Ht2); [|reflexivity|by apply Hinit].
    destruct (fuse_input_dist_splits_run ctx c2 w2 Hc2) as (added & Hrun & Hadded).
    { by destruct Hfiled as (_ & _ & ?). }
    rewrite Hrun in H. injection H as <-.
    eexists _, added. split; [simpl; apply lookup_insert_eq|]. split; [exact Hsh2|].
    split; [exact Hfiled|]. split; [exact Hv2|]. split; [simpl; by rewrite Hfu2|].
    split; [exact Hadded | exact Ht2].
Qed.



(** ** From the start of the input distribution to the end of the wait *)

Lemma fused_wait_requests_length requests l :
  fused_wait_requests requests = Ok l -> length l = length requests.
Proof.
  revert l. induction requests as [|r requests IH]; intros l H; simpl in H.
  - by injection H as <-.
  - destruct (splits_tensors r); [|discriminate].
    destruct (fused_wait_requests requests); [|discriminate].
    injection H as <-. simpl. f_equal. by apply IH.
Qed.

Lemma store_requests_run ctx (l : list (string * Awaitable)) :
  forall w c w',
    contexts w !! ctx = Some c ->
    forM_ (fun nr : string * Awaitable =>
             let* c := read_context ctx in
             write_context ctx
               (with_input_dist_tensors_requests c
                  (<[fst nr := snd nr]> (input_dist_tensors_requests c)))) l w
    = (Ok tt, w') ->
    exists c', contexts w' !! ctx = Some c' /\
               forall name, is_Some (input_dist_tensors_requests c !! name) \/
                            name ∈ map fst l ->
                            is_Some (input_dist_tensors_requests c' !! name).
Proof.
  induction l as [|[n r] l IH]; intros w c w' Hc H.
  - injection H as <-. exists c. split; [exact Hc|].
    intros name [?|Hin]; [done | by apply elem_of_nil in Hin].
  - cbn [forM_] in H. apply bind_inv_Ok in H as ([] & w1 & Hstep & H).
    apply bind_inv_Ok in Hstep as (c0 & w0 & Hr & Hw).
    apply read_context_inv in Hr as [Hc0 ->]. rewrite Hc in Hc0. injection Hc0 as <-.
    unfold write_context, modify in Hw. injection Hw as <-.
    eapply IH in H as (c' & Hc' & Hin); [|simpl; apply lookup_insert_eq].
    exists c'. split; [exact Hc'|]. intros name Hname. apply Hin. simpl.
    destruct (decide (name = n)) as [->|Hne].
    + left. rewrite lookup_insert_eq. by eexists.
    + rewrite lookup_insert_ne by done.
      destruct Hname as [?|[?|?]%elem_of_cons]; [by left | done | by right].
Qed.

Lemma wait_loop_run ctx (groups : list (list string * FusedKJTListSplitsAwaitable)) :
  forall w c w',
    contexts w !! ctx = Some c ->
    forM_ (fun na : list string * FusedKJTListSplitsAwaitable =>
             let* requests := lift (fused_wait (snd na)) in
             forM_ (fun nr : string * Awaitable =>
                      let* c := read_context ctx in
                      write_context ctx
                        (with_input_dist_tensors_requests c
                           (<[fst nr := snd nr]> (input_dist_tensors_requests c))))
                   (zip (fst na) requests))
          groups w
    = (Ok tt, w') ->
    exists c', contexts w' !! ctx = Some c' /\
               forall name,
                 is_Some (input_dist_tensors_requests c !! name) \/
                 (exists na, na ∈ groups /\ name ∈ fst na /\
                             length (fst na) = length (fused_requests (snd na))) ->
                 is_Some (input_dist_tensors_requests c' !! name).
Proof.
  induction groups as [|[names f] groups IH]; intros w c w' Hc H.
  - injection H as <-. exists c. split; [exact Hc|].
    intros name [?|(na & Hin & _)]; [done | by apply elem_of_nil in Hin].
  - cbn [forM_] in H. apply bind_inv_Ok in H as ([] & w1 & Hstep & H).
    apply bind_inv_Ok in Hstep as (requests & w0 & Hl & Hstore).
    unfold lift in Hl. injection Hl as Hwait <-. simpl in Hwait.
    apply fused_wait_requests_length in Hwait.
    apply (store_requests_run ctx _ w c w1 Hc) in Hstore as (c1 & Hc1 & Hin1).
    apply (IH w1 c1 w' Hc1) in H as (c' & Hc' & Hin').
    exists c'. split; [exact Hc'|]. intros name Hname. apply Hin'.
    destruct Hname as [?|(na & [->|Hna]%elem_of_cons & Hn & Hlen)].
    + left. apply Hin1. by left.
    + left. apply Hin1. right. simpl in *. rewrite fst_zip by lia. exact Hn.
    + right. by exists na.
Qed.

Lemma fused_entry_names c groups added :
  Forall2 (fused_entry c) groups added ->
  forall na, na ∈ added ->
    (exists pg, (pg, fst na) ∈ groups) /\
    length (fst na) = length (fused_requests (snd na)).
Proof.
  induction 1 as [|pn na groups added (Hn & _ & Hr & _) _ IH]; intros na' Hin.
  - by apply elem_of_nil in Hin.
  - apply elem_of_cons in Hin as [->|Hin].
    + split.
      * exists (fst pn). rewrite Hn. destruct pn. apply list_elem_of_here.
      * rewrite Hn. by eapply Forall2_length.
    + destruct (IH na' Hin) as [[pg Hpg] Hlen]. split; [|exact Hlen].
      exists pg. by apply list_elem_of_further.
Qed.

Lemma fused_entry_covers c groups added :
  Forall2 (fused_entry c) groups added ->
  forall pn, pn ∈ groups -> exists na, na ∈ added /\ fst na = snd pn.
Proof.
  induction 1 as [|pn na groups added (Hn & _) _ IH]; intros pn' Hin.
  - by apply elem_of_nil in Hin.
  - apply elem_of_cons in Hin as [->|Hin].
    + exists na. split; [apply list_elem_of_here | exact Hn].
    + destruct (IH pn' Hin) as (na' & Hna & E). exists na'.
      split; [by apply list_elem_of_further | exact E].
Qed.

(** X20: from the start of the input distribution to the end of the wait.
    When [_start_data_dist] has returned on the context the orchestrator
    starts distributions in (of version 0, or without splits request), and
    [wait_sparse_data_dist] then returns, that context holds a tensors
    request under the name of the forward of every pipelined module: what
    [_context_for_model_forward] asserts of [input_dist_tensors_requests].
    If the context held no tensors request and no fused awaitable before,
    it holds tensors requests under these names only. *)
Theorem wait_after_start_fills ms batch ctx w c w1 w2 :
  contexts w !! ctx = Some c ->
  version c = 0 \/ input_dist_splits_requests c = [] ->
  _start_data_dist ms batch ctx w = (Ok tt, w1) ->
  _start_dist_context w1 = (Ok ctx, w1) ->
  wait_sparse_data_dist w1 = (Ok tt, w2) ->
  exists c2,
    contexts w2 !! ctx = Some c2 /\
    (forall o f, o ∈ ms -> forward <$> sharded w !! o = Some (Intercepting f) ->
                 is_Some (input_dist_tensors_requests c2 !! _name f)) /\
    (input_dist_tensors_requests c = ∅ ->
     version c = 0 \/ fused_splits_awaitables c = [] ->
     forall name, is_Some (input_dist_tensors_requests c2 !! name) ->
       exists o f, o ∈ ms /\ forward <$> sharded w !! o = Some (Intercepting f) /\
                   _name f = name).
Proof.
  intros Hc Hinit Hstart Hctx Hwait.
  apply (start_data_dist_run ms batch ctx w w1 c [] Hc) in Hstart
    as (c1 & added & Hc1 & _ & Hfiled & Hv1 & Hfu & Hadded & Ht1).
  2:{ intros Hne. destruct Hinit as [Hv|Hr]; [done | by apply filed_nil]. }
  replace ((if version c =? 0 then [] else []) ++ ms)%list with ms in Hfiled
    by (by destruct (version c =? 0)).
  destruct Hfiled as (Hkeys & _ & _).
  destruct (names_per_pg_grouped (input_dist_splits_requests c1)) as (_ & Hgroups & Hpgs).
  unfold wait_sparse_data_dist in Hwait. unfold bind at 1 in Hwait.
  rewrite wait_dist_context_run, Hctx in Hwait.
  unfold bind at 1, emit at 1, modify in Hwait. set (w1' := with_trace w1 _) in Hwait.
  apply bind_inv_Ok in Hwait as (c1' & w1'' & Hread & Hwait).
  apply read_context_inv in Hread as [Hc1' ->]. simpl in Hc1'.
  rewrite Hc1 in Hc1'. injection Hc1' as <-.
  apply bind_inv_Ok in Hwait as ([] & w3 & Hloop & Hwait).
  pose proof (fills_requests_loop ctx (fused_splits_awaitables c1) w1') as Hfill.
  rewrite Hloop in Hfill. simpl in Hfill. destruct Hfill as (_ & Hk & _).
  destruct (Hk c1 Hc1) as (c3' & Hc3' & _ & Hout).
  apply (wait_loop_run ctx _ w1' c1 w3 Hc1) in Hloop as (c3 & Hc3 & Hin).
  rewrite Hc3 in Hc3'. injection Hc3' as <-.
  apply bind_inv_Ok in Hwait as (c3' & w3' & Hread & Hwait).
  apply read_context_inv in Hread as [Hc3' ->]. rewrite Hc3 in Hc3'. injection Hc3' as <-.
  apply bind_inv_Ok in Hwait as ([] & w4 & Hw4 & Hwait).
  unfold write_context, modify in Hw4. injection Hw4 as <-.
  apply bind_inv_Ok in Hwait as (c4 & w4' & Hread & Hwait).
  apply read_context_inv in Hread as [Hc4 ->]. simpl in Hc4.
  rewrite lookup_insert_eq in Hc4. injection Hc4 as <-.
  unfold write_context, modify in Hwait. injection Hwait as <-.
  eexists. split; [simpl; apply lookup_insert_eq|]. simpl. split.
  - intros o f Ho Hf. apply Hin. right.
    assert (Hname : _name f ∈ map fst (input_dist_splits_requests c1)).
    { apply Hkeys. by exists o, f. }
    apply list_elem_of_fmap in Hname as ([n r] & Hn & Hnr). simpl in Hn. subst n.
    pose proof (Hpgs _ Hnr) as Hpg. simpl in Hpg.
    apply list_elem_of_fmap in Hpg as ([pg names] & Hpg & Hpn). simpl in Hpg. subst pg.
    destruct (fused_entry_covers _ _ _ Hadded _ Hpn) as (na & Hna & Ena). simpl in Ena.
    exists na. split; [rewrite Hfu; apply elem_of_app; by right|].
    destruct (fused_entry_names _ _ _ Hadded na Hna) as [_ Hlen]. split; [|exact Hlen].
    rewrite Ena. destruct (Hgroups _ _ Hpn) as [-> _].
    unfold names_of_pg. apply list_elem_of_fmap. exists (_name f, r). split; [done|].
    by apply list_elem_of_filter.
  - intros Hempty Hstale name Hsome.
    destruct (decide (name ∈ concat (map fst (fused_splits_awaitables c1)))) as [Hin'|Hnot].
    + apply Hkeys. apply list_elem_of_In, in_concat in Hin' as (names & Hnames & Hn).
      apply in_map_iff in Hnames as (na & <- & Hna). apply list_elem_of_In in Hna, Hn.
      assert (Hadd : na ∈ added).
      { rewrite Hfu in Hna. apply elem_of_app in Hna as [Hna|Hna]; [|exact Hna].
        destruct Hstale as [Hv|Hf].
        - rewrite Hv in Hna. simpl in Hna. by apply elem_of_nil in Hna.
        - rewrite Hf in Hna. destruct (version c =? 0); by apply elem_of_nil in Hna. }
      destruct (fused_entry_names _ _ _ Hadded na Hadd) as [[pg Hpg] _].
      destruct (Hgroups _ _ Hpg) as [E _]. rewrite E in Hn.
      by apply names_of_pg_elem in Hn.
    + rewrite (Hout name Hnot), Ht1, Hempty, lookup_empty in Hsome.
      by destruct Hsome.
Qed.

Lemma wait_after_start_fills_witness :
  exists c2,
    contexts (snd (wait_sparse_data_dist
                     (snd (_start_data_dist [0%nat] sample_batch 1%nat waited_world))))
      !! 1%nat = Some c2 /\
    is_Some (input_dist_tensors_requests c2 !! "ebc").
Proof.
  destruct (wait_after_start_fills [0%nat] sample_batch 1%nat waited_world waited_context
              (snd (_start_data_dist [0%nat] sample_batch 1%nat waited_world))
              (snd (wait_sparse_data_dist
                      (snd (_start_data_dist [0%nat] sample_batch 1%nat waited_world))))
              ltac:(vm_compute; reflexivity) ltac:(right; vm_compute; reflexivity)
              ltac:(vm_compute; reflexivity) ltac:(vm_compute; reflexivity)
              ltac:(vm_compute; reflexivity))
    as (c2 & Hc2 & Hin & _).
  exists c2. split; [exact Hc2|].
  refine (Hin 0%nat (mkBaseForward PipelinedForward "ebc"
                       (mkCallArgs [mkArgInfo [NoopArgInfoStep]] []) 0%nat 1%nat
                       (Some 0%nat)) _ _).
  - apply list_elem_of_here.
  - vm_compute. reflexivity.
Defined.

(** ** Resolving an access path and replaying it *)

Lemma walk_getattr a0 name rest kw ph arg_info f h :
  _get_node_args_helper_inner_loop
    (ArgNode (mkNode call_function (TargetFunction "builtins" "getattr")
                (a0 :: ArgConst (VStr name) :: rest) kw ph)) arg_info f h
  = _get_node_args_helper_inner_loop a0 (add_step arg_info (GetAttrArgInfoStep name)) f h.
Proof. reflexivity. Qed.

Lemma walk_getitem a0 key rest kw ph arg_info f h :
  _get_node_args_helper_inner_loop
    (ArgNode (mkNode call_function (TargetFunction "_operator" "getitem")
                (a0 :: ArgConst (subscript_value key) :: rest) kw ph)) arg_info f h
  = _get_node_args_helper_inner_loop a0 (add_step arg_info (GetItemArgInfoStep key)) f h.
Proof. by destruct key. Qed.

Lemma access_walk a :
  forall arg_info for_postproc_module h w,
    _get_node_args_helper_inner_loop (ArgNode (access_node a)) arg_info for_postproc_module h w
    = (Ok (Some (mkArgInfo (NoopArgInfoStep :: access_steps a ++ steps arg_info)), h), w).
Proof.
  induction a as [|a IH name|a IH key]; intros arg_info f h w.
  - reflexivity.
  - cbn [access_node]. rewrite walk_getattr, IH.
    cbn [access_steps add_step steps].
    by rewrite <- (app_assoc (access_steps a) [GetAttrArgInfoStep name] (steps arg_info)).
  - cbn [access_node]. rewrite walk_getitem, IH.
    cbn [access_steps add_step steps].
    by rewrite <- (app_assoc (access_steps a) [GetItemArgInfoStep key] (steps arg_info)).
Qed.

Lemma access_replay a batch w :
  foldM (fun step arg => process step arg) (NoopArgInfoStep :: access_steps a) batch w
  = (access_eval a batch, w).
Proof.
  induction a as [|a IH name|a IH key].
  - reflexivity.
  - cbn [access_steps access_eval]. rewrite app_comm_cons, foldM_app.
    unfold bind at 1. rewrite IH. destruct (access_eval a batch) as [v|e]; [|reflexivity].
    cbn [foldM process]. unfold bind, lift. by destruct (py_getattr v name).
  - cbn [access_steps access_eval]. rewrite app_comm_cons, foldM_app.
    unfold bind at 1. rewrite IH. destruct (access_eval a batch) as [v|e]; [|reflexivity].
    cbn [foldM process]. unfold bind, lift. by destruct (py_getitem v key).
Qed.

(** X21: resolving and replaying an access path.  For an argument the
    traced model reads of its input by attribute reads and subscripts,
    [_get_node_args_helper_inner] returns a descriptor, whatever the mode
    and the state of the helper, and leaves the helper and the store as
    they are; the steps of the descriptor are a no-op for the placeholder
    and the accesses from the input outwards; and [process_steps] of this
    descriptor on a batch gives what the model would have read of that
    batch, raising what the model would have raised, without touching the
    store. *)
Theorem resolved_access_replays a for_postproc_module h w :
  _get_node_args_helper_inner (ArgNode (access_node a)) for_postproc_module h w
  = (Ok (Some (mkArgInfo (NoopArgInfoStep :: access_steps a)), h), w) /\
  forall batch w',
    process_steps (mkArgInfo (NoopArgInfoStep :: access_steps a)) batch w'
    = (access_eval a batch, w').
Proof.
  split.
  - unfold _get_node_args_helper_inner. rewrite access_walk. simpl. by rewrite app_nil_r.
  - intros batch w'. apply access_replay.
Qed.

(** ** Module execution contexts created by a start *)

Lemma keeps_read_sharded {A} (f : World -> A) o : preserves (keeps f) (read_sharded o).
Proof. intros w. unfold read_sharded. destruct (_ !! _); reflexivity. Qed.

Lemma keeps_read_context {A} (f : World -> A) l : preserves (keeps f) (read_context l).
Proof. intros w. unfold read_context. destruct (_ !! _); reflexivity. Qed.

Lemma keeps_get_context {A} (f : World -> A) p :
  preserves (keeps f) (PipelinedPostproc_get_context p).
Proof. intros w. unfold PipelinedPostproc_get_context. destruct (_ !! _); reflexivity. Qed.

Ltac keeps_framed f :=
  framed (@keeps_refl _ f) (@keeps_trans _ f);
  try apply keeps_context_at; try apply keeps_last_context;
  try apply keeps_read_sharded; try apply keeps_read_context; try apply keeps_get_context;
  try (intros ?; reflexivity).

Lemma keeps_build_args_kwargs c x :
  preserves (keeps next_module_ctx) (build_args_kwargs c x).
Proof.
  intros w. destruct (build_args_kwargs_caches_only c x w) as (Hframe & _).
  unfold frame_of in Hframe. unfold keeps. by injection Hframe.
Qed.

Lemma keeps_get_node_args node f h :
  preserves (keeps next_module_ctx) (get_node_args node f h).
Proof. intros w. by destruct (get_node_args_wrappers_only node f h w) as (_&_&_&?&_). Qed.

Lemma keeps_rewrite_model model context ds batch jit pf pp dfs :
  preserves (keeps next_module_ctx) (_rewrite_model model context ds batch jit pf pp dfs).
Proof.
  unfold _rewrite_model. keeps_framed next_module_ctx.
  unfold rewrite_node. keeps_framed next_module_ctx. apply keeps_get_node_args.
Qed.

Lemma keeps_override mods :
  preserves (keeps next_module_ctx) (_override_input_dist_forwards mods).
Proof.
  unfold _override_input_dist_forwards.
  apply (preserves_foldM _ (@keeps_refl _ next_module_ctx) (@keeps_trans _ next_module_ctx)).
  apply Forall_forall. intros o _ acc w. unfold bind, read_sharded.
  destruct (sharded w !! o) as [m|]; simpl; [|reflexivity].
  destruct (override_children (named_modules m)) as [[cs os] e].
  unfold write_sharded, modify. simpl. by destruct e.
Qed.

Lemma keeps_fuse ctx : preserves (keeps next_module_ctx) (_fuse_input_dist_splits ctx).
Proof. unfold _fuse_input_dist_splits. keeps_framed next_module_ctx. Qed.

Ltac kept H :=
  match type of H with
  | ?m ?w = (_, ?w') =>
      let K := fresh "K" in
      assert (K : next_module_ctx w' = next_module_ctx w);
      [ let Hk := fresh in
        assert (Hk : preserves (keeps next_module_ctx) m);
        [ | specialize (Hk w); rewrite H in Hk; exact Hk ] | ]
  end.

Lemma start_data_dist_creates ms batch ctx w w' :
  _start_data_dist ms batch ctx w = (Ok tt, w') ->
  next_module_ctx w' = (next_module_ctx w + length ms)%nat.
Proof.
  intros H. unfold _start_data_dist in H.
  apply bind_inv_Ok in H as (c & w0 & Hr & H). apply read_context_inv in Hr as [_ ->].
  apply bind_inv_Ok in H as ([] & w1 & Hclear & H).
  kept Hclear; [keeps_framed next_module_ctx|].
  apply bind_inv_Ok in H as ([] & w2 & Hloop & H).
  kept H; [apply keeps_fuse|]. rewrite K0, <- K. clear H K K0 Hclear.
  revert w1 Hloop. induction ms as [|o ms IH]; intros w1 Hloop.
  - injection Hloop as <-. simpl. lia.
  - cbn [forM_] in Hloop. apply bind_inv_Ok in Hloop as ([] & w3 & Hstep & Hloop).
    apply IH in Hloop. rewrite Hloop. simpl. 
    apply bind_inv_Ok in Hstep as (m & w4 & Hm & Hstep).
    apply read_sharded_inv in Hm as [_ ->].
    destruct (forward m) as [orig|f]; [discriminate Hstep|].
    apply bind_inv_Ok in Hstep as ([args kwargs] & w5 & Hb & Hstep).
    kept Hb; [apply keeps_build_args_kwargs|].
    apply bind_inv_Ok in Hstep as (mctx & w6 & Hcc & Hstep).
    unfold create_context in Hcc. injection Hcc as <- <-.
    kept Hstep; [keeps_framed next_module_ctx|]. simpl in K0. lia.
Qed.

Lemma initialize_or_reattach_creates batch w w' :
  _initialize_or_reattach batch w = (Ok tt, w') ->
  initialized (sdd w') = true /\
  next_module_ctx w' = (next_module_ctx w + length (_pipelined_modules (sdd w')))%nat.
Proof.
  intros H. unfold _initialize_or_reattach in H.
  unfold bind at 1, get_sdd in H.
  apply bind_inv_Ok in H as (ctx & w0 & H0 & H).
  kept H0.
  { unfold _current_context, _create_context, contexts_append, _add_context,
      alloc_context, update_sdd, get_sdd.
    keeps_framed next_module_ctx. }
  apply bind_inv_Ok in H as ([] & w0' & Hassert & H).
  unfold _assert_contexts_count in Hassert. simpl in Hassert. injection Hassert as <-.
  unfold bind at 1, get_sdd in H.
  apply bind_inv_Ok in H as ([[[[pipelined model'] originals] postprocs] np] & w1 & Hrw & H).
  kept Hrw; [apply keeps_rewrite_model|].
  unfold bind at 1, update_sdd, modify in H.
  set (w2 := with_sdd w1 _) in H.
  apply bind_inv_Ok in H as (sctx & w2' & Hsc & H).
  assert (w2' = w2) as ->.
  { pose proof (start_dist_context_pure w2) as Hp. by rewrite Hsc in Hp. }
  apply bind_inv_Ok in H as ([] & w3 & Hstart & H).
  pose proof (distributes_start_data_dist pipelined batch sctx w2) as D3.
  rewrite Hstart in D3. simpl in D3.
  apply start_data_dist_creates in Hstart.
  apply bind_inv_Ok in H as (kjt & w4 & Hov & H).
  pose proof (distributes_override pipelined w3) as D4.
  rewrite Hov in D4. simpl in D4.
  pose proof (distributes_trans _ _ _ D3 D4) as (Hs4 & _).
  kept Hov; [apply keeps_override|].
  unfold bind, update_sdd, modify, register_forward_hook in H. simpl in H.
  injection H as <-. simpl. rewrite Hs4. simpl. split; [reflexivity|].
  rewrite K1, Hstart. simpl. rewrite K0, K. reflexivity.
Qed.

(** X22: the module execution contexts a start creates.  A call of
    [start_sparse_data_dist] that returns hands back the batch it was
    given.  On an initialized orchestrator it creates one module execution
    context per pipelined module.  On an orchestrator that is not
    initialized it creates two per pipelined module: the input
    distribution of the first batch is started once inside
    [_initialize_or_reattach], and a second time by the call itself. *)
Theorem first_start_distributes_twice batch w b w' :
  start_sparse_data_dist batch w = (Ok b, w') ->
  b = batch /\ initialized (sdd w') = true /\
  next_module_ctx w'
  = (next_module_ctx w
     + (if initialized (sdd w) then 1 else 2) * length (_pipelined_modules (sdd w')))%nat.
Proof.
  intros H. unfold start_sparse_data_dist in H. unfold bind at 1, get_sdd in H.
  apply bind_inv_Ok in H as ([] & w1 & Hinit & H).
  apply bind_inv_Ok in H as (ctx & w1' & Hctx & H).
  assert (w1' = w1) as ->.
  { pose proof (start_dist_context_pure w1) as Hp. by rewrite Hctx in Hp. }
  apply bind_inv_Ok in H as ([] & w2 & Hemit & H).
  unfold emit, modify in Hemit. injection Hemit as <-.
  unfold bind at 1, get_sdd in H. simpl sdd in H.
  apply bind_inv_Ok in H as ([] & w3 & Huse & H). injection H as <- <-.
  split; [reflexivity|].
  pose proof (distributes_use_context (_pipelined_postprocs (sdd w1)) ctx
                (_start_data_dist (_pipelined_modules (sdd w1)) batch ctx)
                (distributes_start_data_dist _ _ _)
                (with_trace w1 (trace w1 ++ [StartSparseDataDist ctx]))) as D.
  rewrite Huse in D. simpl in D. destruct D as (Hs & _). simpl in Hs.
  unfold use_context_for_postprocs in Huse.
  apply bind_inv_Ok in Huse as (orig & wa & Hget & Huse).
  kept Hget; [keeps_framed next_module_ctx|].
  apply bind_inv_Ok in Huse as ([] & wb & Hset & Huse).
  kept Hset; [keeps_framed next_module_ctx|].
  apply bind_inv_Ok in Huse as ([] & wc & Hbody & Huse).
  apply start_data_dist_creates in Hbody.
  apply bind_inv_Ok in Huse as ([] & wd & Hrestore & Huse).
  kept Hrestore; [keeps_framed next_module_ctx|].
  injection Huse as <-. rewrite Hs. rewrite K1, Hbody, K0, K. simpl next_module_ctx.
  destruct (initialized (sdd w)) eqn:Hi; simpl in Hinit.
  - injection Hinit as <-. split; [exact Hi | lia].
  - apply initialize_or_reattach_creates in Hinit as [Hi1 Hn1].
    split; [exact Hi1 | lia].
Qed.

Lemma first_start_distributes_twice_witness :
  next_module_ctx (snd (start_sparse_data_dist sample_batch (pipeline_world None))) = 2%nat.
Proof.
  exact (proj2 (proj2 (first_start_distributes_twice sample_batch (pipeline_world None)
                         sample_batch
                         (snd (start_sparse_data_dist sample_batch (pipeline_world None)))
                         ltac:(vm_compute; reflexivity)))).
Defined.

(** ** Argument resolution without postproc pipelining *)

Lemma reads_only_ret {A} h (x : A) : reads_only h (ret (x, h)).
Proof. intros w. split; [reflexivity|]. intros x' h' H. by injection H. Qed.

Lemma reads_only_raise {A} h e : reads_only h (@raise (A * NodeArgsHelper) e).
Proof. intros w. split; [reflexivity|]. intros x' h' H. discriminate H. Qed.

Lemma reads_only_lift {A B} h (r : result B) (k : B -> Py (A * NodeArgsHelper)) :
  (forall b, reads_only h (k b)) -> reads_only h (bind (lift r) k).
Proof.
  intros H w. unfold bind, lift. destruct r as [b|e]; [apply H|].
  split; [reflexivity|]. intros x' h' H'. discriminate H'.
Qed.

Lemma reads_only_bind {A B} h (m : Py (A * NodeArgsHelper))
      (k : A * NodeArgsHelper -> Py (B * NodeArgsHelper)) :
  reads_only h m -> (forall a, reads_only h (k (a, h))) -> reads_only h (bind m k).
Proof.
  intros Hm Hk w. unfold bind. destruct (Hm w) as [Hw Hh].
  destruct (m w) as [[[a h1]|e] w1] eqn:E; simpl in Hw; subst w1.
  - rewrite (Hh a h1 eq_refl). apply Hk.
  - split; [reflexivity|]. intros x' h' H'. discriminate H'.
Qed.

Lemma handle_constant_reads_only inner arg ai f h :
  helper_pipeline_postproc h = false ->
  _handle_constant inner arg ai f h = ret (None, h).
Proof. intros H. unfold _handle_constant. by rewrite H. Qed.

Lemma handle_module_reads_only inner node ai h :
  helper_pipeline_postproc h = false ->
  _handle_module inner node ai h = ret (None, h).
Proof. intros H. unfold _handle_module. by rewrite H. Qed.

Lemma walk_reads_only a :
  forall ai f h, helper_pipeline_postproc h = false ->
                 reads_only h (_get_node_args_helper_inner_loop a ai f h).
Proof.
  pose (Q := fun a => forall ai f h, helper_pipeline_postproc h = false ->
                                     reads_only h (_get_node_args_helper_inner_loop a ai f h)).
  pose (P := fun a => Q a /\
               match a with
               | ArgList l => Forall Q l
               | ArgDict d => Forall (fun kv => Q (snd kv)) d
               | _ => True
               end).
  pose (Pn := fun n => Q (ArgNode n)).
  assert (HP : P a); [|exact (proj1 HP)].
  apply (argument_induction P Pn); subst P Pn Q; simpl.
  - intros n Hn. split; [exact Hn|done].
  - intros v. split; [|done]. intros ai f h Hflag.
    rewrite handle_constant_reads_only by done. apply reads_only_ret.
  - intros l Hl. split.
    + intros ai f h Hflag. rewrite handle_constant_reads_only by done. apply reads_only_ret.
    + eapply Forall_impl; [exact Hl|]. by intros a' [? _].
  - intros d Hd. split.
    + intros ai f h Hflag. rewrite handle_constant_reads_only by done. apply reads_only_ret.
    + eapply Forall_impl; [exact Hd|]. by intros a' [? _].
  - intros op target args kwargs ph Ha Hk ai f h Hflag.
    assert (Hwa : Forall (fun a => forall ai f h, helper_pipeline_postproc h = false ->
                    reads_only h (_get_node_args_helper_inner_loop a ai f h)) args).
    { eapply Forall_impl; [exact Ha|]. by intros a' [? _]. }
    assert (Hwk : Forall (fun kv : string * Argument =>
                    forall ai f h, helper_pipeline_postproc h = false ->
                    reads_only h (_get_node_args_helper_inner_loop (snd kv) ai f h)) kwargs).
    { eapply Forall_impl; [exact Hk|]. by intros a' [? _]. }
    destruct (opcode_eqb op placeholder); [apply reads_only_ret|].
    destruct (opcode_eqb op call_module).
    { rewrite handle_module_reads_only by done. apply reads_only_ret. }
    destruct (opcode_eqb op call_function).
    + apply reads_only_lift. intros [|].
      { destruct args as [|a0 [|a1 args]]; try apply reads_only_raise.
        apply Forall_cons in Hwa as [H0 _]. by apply H0. }
      apply reads_only_lift. intros [|].
      { destruct args as [|a0 [|a1 args]]; try apply reads_only_raise.
        apply Forall_cons in Hwa as [H0 _]. by apply H0. }
      apply reads_only_lift. intros [|].
      { destruct (steps ai) as [|[| |item| | | |] ?]; try apply reads_only_raise.
        destruct args as [|a0 args]; [apply reads_only_raise|].
        apply Forall_cons in Ha as [[_ H0] _].
        destruct a0 as [n|v|la|da]; try apply reads_only_raise.
        - apply reads_only_lift. intros v'.
          rewrite handle_constant_reads_only by done. apply reads_only_ret.
        - assert (Hpos : forall i,
                     reads_only h
                       (match seq_position (length la) i with
                        | Some n =>
                            (fix at_position (l : list Argument) (n : nat) :=
                               match l, n with
                               | [], _ => raise IndexError
                               | x :: _, O => _get_node_args_helper_inner_loop x ai f h
                               | _ :: l', S n' => at_position l' n'
                               end) la n
                        | None => raise IndexError
                        end)).
          { intros i. destruct (seq_position (length la) i) as [n|];
              [|apply reads_only_raise].
            clear Hwa. revert n.
            induction H0 as [|x l' Hx _ IH]; intros n; [apply reads_only_raise|].
            destruct n as [|n]; [by apply Hx | apply IH]. }
          destruct item; simpl; try apply reads_only_raise; try apply Hpos.
          apply reads_only_lift. intros v'.
          rewrite handle_constant_reads_only by done. apply reads_only_ret.
        - destruct item as [| | |s| | | | | | |];
            try (destruct (hashable _); apply reads_only_raise).
          clear Hwa. induction H0 as [|[k' x] d' Hx _ IH]; [apply reads_only_raise|].
          destruct (String.eqb k' s); [by apply Hx | apply IH]. }
      apply reads_only_lift. intros [|]; [|apply reads_only_ret].
      destruct (existsb _ _); [apply reads_only_ret|].
      clear Hk. induction Hwk as [|[k x] kw Hx _ IH].
      { destruct args as [|a0 [|a1 args]]; try apply reads_only_raise.
        apply Forall_cons in Hwa as [_ Hwa]. apply Forall_cons in Hwa as [H1 _].
        by apply H1. }
      destruct (String.eqb k "values"); [by apply Hx|]. apply IH.
    + destruct (opcode_eqb op call_method); [|apply reads_only_ret].
      destruct target as [s|? ?]; [|apply reads_only_ret].
      destruct (String.eqb s "get"); [|apply reads_only_ret].
      destruct args as [|a0 [|a1 args]]; try apply reads_only_raise.
      apply Forall_cons in Hwa as [H0 _]. by apply H0.
Qed.

Lemma get_node_args_helper_reads_only {X} (proj : X -> Argument) (l : list X) f h :
  helper_pipeline_postproc h = false ->
  reads_only h (_get_node_args_helper proj _get_node_args_helper_inner l f h).
Proof.
  intros Hflag. induction l as [|x l IH]; simpl; [apply reads_only_ret|].
  destruct (negb f && is_None_arg (proj x)).
  - apply reads_only_bind; [exact IH|]. intros [ail n]. apply reads_only_ret.
  - apply reads_only_bind; [by apply walk_reads_only|]. intros ai.
    apply reads_only_bind; [exact IH|]. intros [ail n]. destruct ai; apply reads_only_ret.
Qed.

Lemma get_node_args_reads_only node f h :
  helper_pipeline_postproc h = false -> reads_only h (get_node_args node f h).
Proof.
  intros Hflag. unfold get_node_args, get_node_args_with.
  apply reads_only_bind; [by apply get_node_args_helper_reads_only|]. intros [pl pn].
  apply reads_only_bind; [by apply get_node_args_helper_reads_only|]. intros [kl kn].
  apply reads_only_ret.
Qed.

Lemma rewrite_node_without_postprocs sm context ds pf node st w st' w' :
  helper_pipeline_postproc (args_helper st) = false ->
  rewrite_node sm context ds pf node st w = (Ok st', w') ->
  args_helper st' = args_helper st /\ postproc_context w' = postproc_context w /\
  next_oid w' = next_oid w.
Proof.
  intros Hflag H. unfold rewrite_node in H.
  destruct (sharded_target sm node) as [child|]; [|by injection H as <- <-].
  destruct (Nat.eqb (total_num_args node) 0); [by injection H as <- <-|].
  apply bind_inv_Ok in H as ([[ail nf] h] & w1 & Hg & H).
  destruct (get_node_args_reads_only node false (args_helper st) Hflag w) as [Hw Hh].
  rewrite Hg in Hw, Hh. simpl in Hw, Hh. subst w1. rewrite (Hh _ _ eq_refl) in H.
  destruct (Nat.eqb nf (total_num_args node)).
  - apply bind_inv_Ok in H as (m & w2 & Hm & H). apply read_sharded_inv in Hm as [_ ->].
    apply bind_inv_Ok in H as ([] & w3 & Hw3 & H).
    unfold write_sharded, modify in Hw3. injection Hw3 as <-. by injection H as <- <-.
  - by injection H as <- <-.
Qed.

Lemma rewrite_loop_without_postprocs sm context ds pf graph :
  forall st w st' w',
    helper_pipeline_postproc (args_helper st) = false ->
    foldM (rewrite_node sm context ds pf) graph st w = (Ok st', w') ->
    args_helper st' = args_helper st /\ postproc_context w' = postproc_context w /\
    next_oid w' = next_oid w.
Proof.
  induction graph as [|node graph IH]; intros st w st' w' Hflag H.
  - by injection H as <- <-.
  - cbn [foldM] in H. apply bind_inv_Ok in H as (st1 & w1 & Hnode & H).
    apply rewrite_node_without_postprocs in Hnode as (Hh1 & Hp1 & Hn1); [|exact Hflag].
    apply IH in H as (Hh & Hp & Hn); [|by rewrite Hh1].
    split; [congruence|]. split; congruence.
Qed.

(** X23: rewriting without postproc pipelining.  With
    [pipeline_postproc=False] the argument resolution only reads: whatever
    its outcome, [get_node_args] leaves the store as it is and hands back
    the helper it was given.  So [_rewrite_model] then returns no pipelined
    postproc, creates no wrapper, leaves the context of every wrapper as it
    is, and, when no jit is applied, returns the model it was given. *)
Theorem rewrite_model_without_postprocs model context ds batch jit pf dfs w :
  (forall node for_postproc_module h,
     helper_pipeline_postproc h = false ->
     snd (get_node_args node for_postproc_module h w) = w /\
     forall x h', fst (get_node_args node for_postproc_module h w) = Ok (x, h') -> h' = h) /\
  (forall pipelined model' originals postprocs non_pipelined w',
     _rewrite_model model context ds batch jit pf false dfs w
     = (Ok (pipelined, model', originals, postprocs, non_pipelined), w') ->
     postprocs = [] /\ (jit = false -> model' = model) /\
     postproc_context w' = postproc_context w /\ next_oid w' = next_oid w).
Proof.
  split.
  - intros node f h Hflag. by apply get_node_args_reads_only.
  - intros pipelined model' originals postprocs np w' H.
    unfold _rewrite_model in H. unfold bind at 1, get in H.
    apply bind_inv_Ok in H as (graph & w0 & Htr & H).
    unfold lift in Htr. injection Htr as _ <-.
    apply bind_inv_Ok in H as (st & w1 & Hloop & H).
    apply rewrite_loop_without_postprocs in Hloop as (Hh & Hp & Hn); [|reflexivity].
    injection H as <- <- <- <- <- <-. rewrite Hh. simpl.
    split; [reflexivity|]. split; [|by split].
    intros ->. by destruct model.
Qed.

(** ** The alternation of [run] and [get_next_batch] *)

Lemma alternates_init it : alternates (DataLoadingThread_init it).
Proof. right. simpl. left. done. Qed.

Ltac alternates_solve :=
  unfold alternates, consumer_waits in *; simpl in *;
  first [ left; reflexivity
        | right; intuition (try congruence; try discriminate) ].

Lemma alternates_step t t' : alternates t -> dlt_step t t' -> alternates t'.
Proof.
  intros I Hstep. destruct I as [Hs|I].
  { left. destruct Hstep as [t t' H | t t' H | t H | t H].
    - destruct t as [stop rest e f b p c r]. simpl in Hs. subst stop.
      unfold producer_step in H. simpl in H.
      destruct p; simpl in H; try destruct e; try destruct rest;
        inversion H; subst; reflexivity.
    - destruct t as [stop rest e f b p c r]. simpl in Hs. subst stop.
      unfold consumer_step in H. simpl in H.
      destruct c as [| | |[?|]| | | | | |]; simpl in H; try destruct f;
        inversion H; subst; reflexivity.
    - exact Hs.
    - exact Hs. }
  destruct Hstep as [t t' H | t t' H | t H | t H].
  - destruct t as [stop rest e f b p c r]. unfold producer_step in H. simpl in *.
    destruct p; simpl in H; try destruct e; try destruct stop; try destruct rest;
      inversion H; subst; clear H;
      try (left; reflexivity);
      destruct c as [| | |[?|]| | | | | |]; alternates_solve.
  - destruct t as [stop rest e f b p c r]. unfold consumer_step in H. simpl in *.
    destruct c as [| | |[?|]| | | | | |]; simpl in H; try destruct f;
      inversion H; subst; clear H;
      try (left; reflexivity);
      destruct p; alternates_solve.
  - destruct t as [stop rest e f b p c r]. simpl in H. subst c.
    unfold enter. simpl in *. destruct p; alternates_solve.
  - destruct t as [stop rest e f b p c r]. simpl in H. subst c.
    unfold enter. simpl in *. destruct p; alternates_solve.
Qed.

Lemma alternates_reachable it t : dlt_reachable it t -> alternates t.
Proof.
  induction 1 as [|t t' _ IH Hstep].
  - apply alternates_init.
  - by eapply alternates_step.
Qed.

(** X24: [get_next_batch] returns [None] only once the thread has been
    stopped, by [stop()] or by the exhaustion of the iterator.  In every
    state the two threads can reach: when [get_next_batch] has read [None]
    from the slot, [_stop] is set; and while [_stop] is not set the two
    events are never set together, the buffer-filled event is set only with
    a batch in the slot or just taken out of it, and [run] is at its loop
    head or waiting whenever [get_next_batch] is past its wait. *)
Theorem get_next_batch_none_only_when_stopped dataloader_iter t :
  dlt_reachable dataloader_iter t ->
  (consumer t = C_if_none None -> _stop t = true) /\
  (_stop t = false ->
   (_buffer_filled_event t = true -> _buffer_empty_event t = false) /\
   (_buffer_filled_event t = true -> _buffered t = None ->
    exists batch, consumer t = C_clear_filled batch) /\
   (past_wait_filled (consumer t) = true ->
    producer t = P_while \/ producer t = P_wait_empty)).
Proof.
  intros Hr. apply alternates_reachable in Hr.
  destruct t as [stop rest e f b p c r]. unfold alternates, consumer_waits in Hr. simpl in *.
  split.
  - intros ->. destruct Hr as [Hs|Hr]; [exact Hs|].
    destruct p; intuition (try congruence; try discriminate).
  - intros ->. destruct Hr as [Hs|Hr]; [discriminate Hs|].
    split; [|split].
    + intros ->. destruct p; destruct c; intuition (try congruence; try discriminate).
    + intros -> ->. destruct p; destruct c;
        try match goal with
            | |- exists batch, C_clear_filled ?x = C_clear_filled batch => by exists x
            end;
        exfalso; intuition (try congruence; try discriminate).
    + intros Hc. destruct p; try (by left); try (by right); destruct c;
        simpl in Hc; intuition (try congruence; try discriminate).
Qed.

Lemma get_next_batch_none_only_when_stopped_witness :
  _stop (mkDLT true [] true true None P_returned (C_if_none None) []) = true.
Proof.
  refine (proj1 (get_next_batch_none_only_when_stopped []
                   (mkDLT true [] true true None P_returned (C_if_none None) []) _) eq_refl).
  apply (reach_step [] (mkDLT true [] true true None P_returned C_read [])).
  - apply (reach_step [] (enter C_wait_filled (producer_steps 6 (DataLoadingThread_init [])))).
    + apply (reach_step [] (producer_steps 6 (DataLoadingThread_init []))).
      * exact (producer_steps_reachable [] 6 _ (reach_init _)).
      * apply step_get_next_batch. reflexivity.
    + apply step_consumer. reflexivity.
  - apply step_consumer. reflexivity.
Defined.

(** ** Arguments that come out of a module call *)

Lemma opcode_eqb_eq a b : opcode_eqb a b = true <-> a = b.
Proof. destruct a, b; simpl; split; intros H; try reflexivity; discriminate H. Qed.

Lemma check_args_unfold op t args kw ph :
  _check_args_for_call_module (mkNode op t args kw ph)
  = opcode_eqb op call_module
    || existsb (fun a => match a with
                         | ArgNode n => _check_args_for_call_module n
                         | _ => false
                         end) args.
Proof.
  simpl. destruct (opcode_eqb op call_module); [reflexivity|]. simpl.
  induction args as [|[n|v|l|d] args IH]; simpl; try done.
  rewrite IH. by destruct (_check_args_for_call_module n).
Qed.

Lemma check_args_spec n : _check_args_for_call_module n = true <-> from_call_module n.
Proof.
  pose (Q := fun n => _check_args_for_call_module n = true <-> from_call_module n).
  pose (P := fun a => match a with ArgNode n => Q n | _ => True end).
  change (Q n). apply (node_induction P Q); subst P Q; simpl; try done.
  intros op t args kw ph Ha _.
  change (_check_args_for_call_module (mkNode op t args kw ph) = true
          <-> from_call_module (mkNode op t args kw ph)).
  rewrite check_args_unfold, orb_true_iff, opcode_eqb_eq, existsb_exists. split.
  - intros [->|(a & Hin & Hc)]; [by apply from_call_module_here|].
    destruct a as [m|v|l|d]; try discriminate Hc.
    apply list_elem_of_In in Hin.
    apply (from_call_module_arg _ m); [exact Hin|].
    rewrite Forall_forall in Ha. by apply (Ha (ArgNode m) Hin).
  - intros H. inversion H as [n' Hop|n' a Hin Hfrom]; subst; [by left|].
    right. exists (ArgNode a). simpl in Hin. split; [by apply list_elem_of_In|].
    rewrite Forall_forall in Ha. by apply (Ha (ArgNode a) Hin).
Qed.

(** X25: arguments that come out of a module call.
    [_check_args_for_call_module] returns True exactly for a node that is a
    module call or is reached from one through positional arguments; it
    never looks at keyword arguments, nor inside a list or dict argument.
    And a [KeyedJaggedTensor] constructor one of whose arguments, positional
    or keyword, is such a node is not resolved: the resolution returns "not
    found" for it and leaves the helper and the store as they are. *)
Theorem check_args_for_call_module_spec :
  (forall n, _check_args_for_call_module n = true <-> from_call_module n) /\
  (forall op t args kwargs ph,
     _check_args_for_call_module (mkNode op t args kwargs ph)
     = _check_args_for_call_module (mkNode op t args [] None)) /\
  (forall args kwargs n for_postproc_module h w,
     ArgNode n ∈ (args ++ map snd kwargs)%list -> from_call_module n ->
     _get_node_args_helper_inner (ArgNode (KeyedJaggedTensor_call args kwargs))
       for_postproc_module h w
     = (Ok (None, h), w)).
Proof.
  split; [exact check_args_spec|]. split.
  - intros op t args kwargs ph. by rewrite !check_args_unfold.
  - intros args kwargs n f h w Hin Hfrom.
    unfold _get_node_args_helper_inner, KeyedJaggedTensor_call.
    cbn [_get_node_args_helper_inner_loop opcode_eqb].
    cbn [target_is]. unfold bind at 1, lift at 1. simpl String.eqb. cbn [andb].
    unfold bind at 1, lift at 1. simpl String.eqb. cbn [andb].
    unfold bind at 1, lift at 1. simpl String.eqb. cbn [andb].
    unfold bind at 1, lift at 1. simpl String.eqb. cbn [andb].
    replace (existsb _ (args ++ map snd kwargs)) with true; [reflexivity|].
    symmetry. apply existsb_exists. exists (ArgNode n).
    split; [by apply list_elem_of_In | by apply check_args_spec].
Qed.

(** ** An intercepting forward serves one call per distribution *)

Lemma PipelinedForward_call_pops self input kwargs w c :
  contexts w !! _context self = Some c ->
  exists c', contexts (snd (PipelinedForward_call self input kwargs w)) !! _context self
             = Some c' /\
             input_dist_tensors_requests c' !! _name self = None.
Proof.
  intros Hc. step_call. rewrite Hc. simpl.
  destruct (input_dist_tensors_requests c !! _name self) as [request|] eqn:E; simpl.
  2:{ exists c. by rewrite Hc. }
  destruct (wait request) as [data|e]; simpl.
  2:{ rewrite lookup_insert_eq. eexists; split; [done|]. simpl. apply lookup_delete_eq. }
  rewrite lookup_insert_eq. simpl.
  destruct (module_contexts c !! _name self) as [ctx|]; simpl.
  2:{ rewrite lookup_insert_eq. eexists; split; [done|]. simpl. apply lookup_delete_eq. }
  destruct (_stream self); [destruct (is_multistreamable data)|]; simpl;
    try destruct (sharded w !! _module self); simpl;
    rewrite lookup_insert_eq; eexists; (split; [done|]); simpl; apply lookup_delete_eq.
Qed.

Lemma PrefetchPipelinedForward_call_pops self input kwargs w c :
  contexts w !! _context self = Some c ->
  exists c', contexts (snd (PrefetchPipelinedForward_call self input kwargs w)) !! _context self
             = Some c' /\
             module_input_post_prefetch c' !! _name self = None.
Proof.
  intros Hc. step_call. rewrite Hc. simpl.
  destruct (module_input_post_prefetch c !! _name self) as [data|] eqn:E; simpl.
  2:{ exists c. by rewrite Hc. }
  rewrite lookup_insert_eq. simpl.
  destruct (module_contexts_post_prefetch c !! _name self) as [ctx|]; simpl.
  2:{ rewrite lookup_insert_eq. eexists; split; [done|]. simpl. apply lookup_delete_eq. }
  destruct (_stream self); [destruct (is_multistreamable data)|]; simpl;
    try destruct (sharded w !! _module self); simpl;
    rewrite lookup_insert_eq; eexists; (split; [done|]); simpl; apply lookup_delete_eq.
Qed.

(** X26: an intercepting forward serves one call per distribution.
    Whatever the outcome of a call of [PipelinedForward.__call__] on an
    existing context (a result, or an exception raised before or after the
    pending entry was popped), a second call on the same context, with any
    input, fails the usage assertion and changes nothing; likewise for
    [PrefetchPipelinedForward.__call__]. *)
Theorem intercepting_forward_serves_one_call self w c input kwargs input' kwargs' :
  contexts w !! _context self = Some c ->
  PipelinedForward_call self input' kwargs' (snd (PipelinedForward_call self input kwargs w))
  = (Raise (AssertionError PipelinedForward_usage),
     snd (PipelinedForward_call self input kwargs w)) /\
  PrefetchPipelinedForward_call self input' kwargs'
    (snd (PrefetchPipelinedForward_call self input kwargs w))
  = (Raise (AssertionError PrefetchPipelinedForward_usage),
     snd (PrefetchPipelinedForward_call self input kwargs w)).
Proof.
  intros Hc. split.
  - destruct (PipelinedForward_call_pops self input kwargs w c Hc) as (c' & Hc' & Hn).
    generalize dependent (snd (PipelinedForward_call self input kwargs w)).
    intros w1 Hc'. step_call. rewrite Hc'. simpl. by rewrite Hn.
  - destruct (PrefetchPipelinedForward_call_pops self input kwargs w c Hc) as (c' & Hc' & Hn).
    generalize dependent (snd (PrefetchPipelinedForward_call self input kwargs w)).
    intros w1 Hc'. step_call. rewrite Hc'. simpl. by rewrite Hn.
Qed.

Lemma intercepting_forward_serves_one_call_witness :
  fst (PipelinedForward_call sample_forward [] [] (world_of_context ready_context))
  = Ok (mkAwaitable (Ok (VTensor 1))) /\
  fst (PipelinedForward_call sample_forward [] []
         (snd (PipelinedForward_call sample_forward [] [] (world_of_context ready_context))))
  = Raise (AssertionError PipelinedForward_usage).
Proof.
  split; [vm_compute; reflexivity|].
  exact (f_equal fst (proj1 (intercepting_forward_serves_one_call sample_forward
                               (world_of_context ready_context) ready_context [] [] [] []
                               ltac:(vm_compute; reflexivity)))).
Defined.

(** ** Postprocs are wrapped only when they have no parameters *)

Lemma checked_children f ps cs :
  wrappers_checked (NNModule f ps cs) = true <->
  Forall (fun nc : string * Module => wrappers_checked (snd nc) = true) cs.
Proof.
  simpl. induction cs as [|[name child] cs IH]; [by split; [constructor|]|].
  rewrite andb_true_iff, IH, Forall_cons. reflexivity.
Qed.

Lemma named_modules_checked m :
  forall path, wrappers_checked m = true ->
    forall n x, (n, x) ∈ Module_named_modules m path -> wrappers_checked x = true.
Proof.
  induction m as [f ps cs IH|o ps|o m f a ds dd IH] using module_induction;
    intros path Hm n x Hin.
  - apply checked_children in Hm as Hcs. simpl in Hin.
    apply elem_of_cons in Hin as [[= -> ->]|Hin]; [exact Hm|]. clear Hm.
    induction IH as [|[name child] cs Hchild _ IHcs]; [by apply elem_of_nil in Hin|].
    apply Forall_cons in Hcs as [Hc Hcs]. simpl in Hc, Hchild.
    apply elem_of_app in Hin as [Hin|Hin]; [by eapply Hchild | by apply IHcs].
  - simpl in Hin. by apply list_elem_of_singleton in Hin as [= -> ->].
  - simpl in Hin. apply elem_of_cons in Hin as [[= -> ->]|Hin]; [exact Hm|].
    simpl in Hm. apply andb_true_iff in Hm as [_ Hm]. by eapply IH.
Qed.

Lemma first_named_elem {A} name (l : list (string * A)) a :
  first_named name l = Some a -> (name, a) ∈ l.
Proof.
  induction l as [|[n x] l IH]; simpl; [discriminate|].
  destruct (String.eqb n name) eqn:E.
  - apply String.eqb_eq in E as ->. intros [= ->]. apply list_elem_of_here.
  - intros H. by apply list_elem_of_further, IH.
Qed.

Lemma find_checked m name found :
  wrappers_checked m = true ->
  _find_postproc_module_recursive m name = Some found -> wrappers_checked found = true.
Proof.
  intros Hm Hf. apply first_named_elem in Hf. by eapply named_modules_checked.
Qed.

Lemma swap_checked new name m :
  forall path, wrappers_checked m = true -> wrappers_checked new = true ->
               wrappers_checked (_swap_postproc_module_recursive m new name path) = true.
Proof.
  induction m as [f ps cs IH|o ps|o m f a ds dd _] using module_induction;
    intros path Hm Hnew.
  - apply checked_children in Hm as Hcs. cbn [_swap_postproc_module_recursive].
    destruct (String.eqb path name); [exact Hnew|].
    apply checked_children. clear Hm.
    induction IH as [|[n child] cs Hchild _ IHcs]; [constructor|].
    apply Forall_cons in Hcs as [Hc Hcs]. constructor; [|by apply IHcs].
    simpl. by apply Hchild.
  - simpl. by destruct (String.eqb path name).
  - exact Hm.
Qed.

Lemma postprocs_add_checked p l :
  _check_postproc_pipelineable (postproc_module p) = true ->
  Forall (fun p => _check_postproc_pipelineable (postproc_module p) = true) l ->
  Forall (fun p => _check_postproc_pipelineable (postproc_module p) = true)
         (postprocs_add p l).
Proof.
  intros Hp Hl. unfold postprocs_add. destruct (existsb _ l); [exact Hl|].
  apply Forall_app. split; [exact Hl | by constructor].
Qed.

Lemma helper_add_checked h p name :
  helper_checked h ->
  _find_postproc_module_recursive (helper_model h) name = Some (PipelinedPostprocModule p) ->
  helper_checked (helper_add h p).
Proof.
  intros [Hm Hl] Hf. split; [exact Hm|]. simpl. apply postprocs_add_checked; [|exact Hl].
  apply (find_checked _ _ _ Hm) in Hf. destruct p as [o wrapped f a ds dd]. simpl in *.
  by apply andb_true_iff in Hf as [? _].
Qed.

Lemma helper_swap_checked h o found name args ds dd fqn :
  helper_checked h ->
  wrappers_checked found = true -> _check_postproc_pipelineable found = true ->
  helper_checked (helper_swap h (mkPipelinedPostproc o found name args ds dd) fqn).
Proof.
  intros [Hm Hl] Hf Hc. split; simpl.
  - apply swap_checked; [exact Hm|]. simpl. by rewrite Hc, Hf.
  - by apply postprocs_add_checked.
Qed.

Lemma keeps_helper_ret {A} (I : NodeArgsHelper -> Prop) (x : A) h :
  I h -> keeps_helper I (ret (x, h)).
Proof. intros Hh w x' h' w' H. by injection H as _ <- _. Qed.

Lemma keeps_helper_raise {A} (I : NodeArgsHelper -> Prop) e :
  keeps_helper I (@raise (A * NodeArgsHelper) e).
Proof. intros w x' h' w' H. discriminate H. Qed.

Lemma keeps_helper_lift {A B} (I : NodeArgsHelper -> Prop) (r : result B)
      (k : B -> Py (A * NodeArgsHelper)) :
  (forall b, keeps_helper I (k b)) -> keeps_helper I (bind (lift r) k).
Proof.
  intros Hk w x h' w' H. apply bind_inv_Ok in H as (b & w1 & _ & H). by eapply Hk.
Qed.

Lemma keeps_helper_bind {A B} (I : NodeArgsHelper -> Prop) (m : Py (A * NodeArgsHelper))
      (k : A * NodeArgsHelper -> Py (B * NodeArgsHelper)) :
  keeps_helper I m -> (forall a h1, I h1 -> keeps_helper I (k (a, h1))) ->
  keeps_helper I (bind m k).
Proof.
  intros Hm Hk w x h' w' H. apply bind_inv_Ok in H as ([a h1] & w1 & H1 & H2).
  eapply Hk; [eapply Hm; exact H1 | exact H2].
Qed.

Lemma keeps_helper_mapS {A B} (I : NodeArgsHelper -> Prop)
      (f : A -> NodeArgsHelper -> Py (B * NodeArgsHelper)) (l : list A) :
  Forall (fun a => forall h, I h -> keeps_helper I (f a h)) l ->
  forall h, I h -> keeps_helper I (mapS f l h).
Proof.
  induction 1 as [|a l Ha _ IH]; intros h Hh; simpl; [by apply keeps_helper_ret|].
  apply keeps_helper_bind; [by apply Ha|]. intros b h1 Hh1.
  apply keeps_helper_bind; [by apply IH|]. intros bs h2 Hh2. by apply keeps_helper_ret.
Qed.

Lemma checked_handle_collection_element inner arg f h :
  (forall f h, helper_checked h -> keeps_helper helper_checked (inner arg f h)) ->
  helper_checked h ->
  keeps_helper helper_checked (_handle_collection_element inner arg f h).
Proof.
  intros H Hh. destruct arg; simpl; try by apply keeps_helper_ret.
  apply keeps_helper_bind; [by apply H|]. intros r h1 Hh1. by apply keeps_helper_ret.
Qed.

Lemma checked_handle_constant inner arg ai f h :
  match arg with
  | ArgList l =>
      Forall (fun a => forall f h, helper_checked h ->
                                   keeps_helper helper_checked (inner a f h)) l
  | ArgDict d =>
      Forall (fun kv : string * Argument =>
                forall f h, helper_checked h ->
                            keeps_helper helper_checked (inner (snd kv) f h)) d
  | _ => True
  end ->
  helper_checked h ->
  keeps_helper helper_checked (_handle_constant inner arg ai f h).
Proof.
  intros H Hh. unfold _handle_constant.
  destruct (negb (helper_pipeline_postproc h)); [by apply keeps_helper_ret|].
  destruct arg; try by apply keeps_helper_ret.
  - apply keeps_helper_bind; [|intros vs h1 Hh1; by apply keeps_helper_ret].
    apply keeps_helper_mapS; [|exact Hh]. eapply Forall_impl; [exact H|].
    intros v Hv h0 Hh0. by apply checked_handle_collection_element.
  - apply keeps_helper_bind; [|intros vs h1 Hh1; by apply keeps_helper_ret].
    apply keeps_helper_mapS; [|exact Hh]. eapply Forall_impl; [exact H|].
    intros v Hv h0 Hh0.
    apply keeps_helper_bind; [|intros e h1 Hh1; by apply keeps_helper_ret].
    by apply checked_handle_collection_element.
Qed.

Lemma checked_get_node_args_helper {X} (proj : X -> Argument) inner (l : list X) :
  Forall (fun x => forall f h, helper_checked h ->
                               keeps_helper helper_checked (inner (proj x) f h)) l ->
  forall f h, helper_checked h ->
              keeps_helper helper_checked (_get_node_args_helper proj inner l f h).
Proof.
  induction 1 as [|x l Hx _ IH]; intros f h Hh; simpl; [by apply keeps_helper_ret|].
  destruct (negb f && is_None_arg (proj x)).
  - apply keeps_helper_bind; [by apply IH|]. intros [ail n] h1 Hh1.
    by apply keeps_helper_ret.
  - apply keeps_helper_bind; [by apply Hx|]. intros ai h1 Hh1.
    apply keeps_helper_bind; [by apply IH|]. intros [ail n] h2 Hh2.
    destruct ai; by apply keeps_helper_ret.
Qed.

Lemma checked_get_node_args_with inner node f h :
  Forall (fun a => forall f h, helper_checked h ->
                               keeps_helper helper_checked (inner a f h)) (node_args node) ->
  Forall (fun kv : string * Argument =>
            forall f h, helper_checked h ->
                        keeps_helper helper_checked (inner (snd kv) f h))
         (node_kwargs node) ->
  helper_checked h ->
  keeps_helper helper_checked (get_node_args_with inner node f h).
Proof.
  intros Ha Hk Hh. unfold get_node_args_with.
  apply keeps_helper_bind; [by apply checked_get_node_args_helper|]. intros [pl pn] h1 Hh1.
  apply keeps_helper_bind; [by apply checked_get_node_args_helper|]. intros [kl kn] h2 Hh2.
  by apply keeps_helper_ret.
Qed.

Lemma checked_new {A} found name args c ds dd
      (k : PipelinedPostproc -> Py (A * NodeArgsHelper)) :
  (forall o, keeps_helper helper_checked (k (mkPipelinedPostproc o found name args ds dd))) ->
  keeps_helper helper_checked (bind (PipelinedPostproc_new found name args c ds dd) k).
Proof.
  intros Hk w x h' w' H. apply bind_inv_Ok in H as (p & w1 & Hp & H).
  unfold PipelinedPostproc_new in Hp. injection Hp as <- _. by eapply Hk.
Qed.

Lemma checked_handle_module inner node ai h :
  Forall (fun a => forall f h, helper_checked h ->
                               keeps_helper helper_checked (inner a f h)) (node_args node) ->
  Forall (fun kv : string * Argument =>
            forall f h, helper_checked h ->
                        keeps_helper helper_checked (inner (snd kv) f h))
         (node_kwargs node) ->
  helper_checked h ->
  keeps_helper helper_checked (_handle_module inner node ai h).
Proof.
  intros Ha Hk Hh. unfold _handle_module.
  destruct (negb (helper_pipeline_postproc h)); [by apply keeps_helper_ret|].
  destruct (_find_postproc_module_recursive _ _) as [found|] eqn:Efind;
    [|by apply keeps_helper_ret].
  assert (Hfound : wrappers_checked found = true).
  { destruct Hh as [Hm _]. by eapply find_checked. }
  destruct (negb (Module_bool found)); [by apply keeps_helper_ret|].
  destruct found as [fn ps cs|o ps|p].
  - destruct (negb _) eqn:Ec; [by apply keeps_helper_ret|].
    apply negb_false_iff in Ec.
    destruct (Nat.eqb _ 0); [by apply keeps_helper_ret|].
    apply keeps_helper_bind; [by apply checked_get_node_args_with|]. intros [pa n] h1 Hh1.
    destruct (Nat.eqb _ _); [|by apply keeps_helper_ret].
    apply checked_new. intros o. apply keeps_helper_ret. by apply helper_swap_checked.
  - destruct (negb _) eqn:Ec; [by apply keeps_helper_ret|].
    apply negb_false_iff in Ec.
    destruct (Nat.eqb _ 0); [by apply keeps_helper_ret|].
    apply keeps_helper_bind; [by apply checked_get_node_args_with|]. intros [pa n] h1 Hh1.
    destruct (Nat.eqb _ _); [|by apply keeps_helper_ret].
    apply checked_new. intros o'. apply keeps_helper_ret. by apply helper_swap_checked.
  - apply keeps_helper_ret. by eapply helper_add_checked.
Qed.

Lemma walk_checked a :
  forall ai f h, helper_checked h ->
                 keeps_helper helper_checked (_get_node_args_helper_inner_loop a ai f h).
Proof.
  pose (Q := fun a => forall ai f h, helper_checked h ->
               keeps_helper helper_checked (_get_node_args_helper_inner_loop a ai f h)).
  pose (P := fun a => Q a /\
               match a with
               | ArgList l => Forall Q l
               | ArgDict d => Forall (fun kv => Q (snd kv)) d
               | _ => True
               end).
  pose (Pn := fun n => Q (ArgNode n)).
  assert (HP : P a); [|exact (proj1 HP)].
  apply (argument_induction P Pn); subst P Pn Q; simpl.
  - intros n Hn. split; [exact Hn|done].
  - intros v. split; [|done]. intros ai f h Hh. by apply checked_handle_constant.
  - intros l Hl.
    assert (Hw : Forall (fun a => forall ai f h, helper_checked h ->
                   keeps_helper helper_checked (_get_node_args_helper_inner_loop a ai f h)) l).
    { eapply Forall_impl; [exact Hl|]. by intros a' [? _]. }
    split; [|exact Hw]. intros ai f h Hh. apply checked_handle_constant; [|exact Hh].
    eapply Forall_impl; [exact Hw|]. intros a' Ha' f' h' Hh'. by apply Ha'.
  - intros d Hd.
    assert (Hw : Forall (fun kv : string * Argument => forall ai f h, helper_checked h ->
                   keeps_helper helper_checked
                     (_get_node_args_helper_inner_loop (snd kv) ai f h)) d).
    { eapply Forall_impl; [exact Hd|]. by intros a' [? _]. }
    split; [|exact Hw]. intros ai f h Hh. apply checked_handle_constant; [|exact Hh].
    eapply Forall_impl; [exact Hw|]. intros a' Ha' f' h' Hh'. by apply Ha'.
  - intros op target args kwargs ph Ha Hk ai f h Hh.
    assert (Hwa : Forall (fun a => forall ai f h, helper_checked h ->
                    keeps_helper helper_checked
                      (_get_node_args_helper_inner_loop a ai f h)) args).
    { eapply Forall_impl; [exact Ha|]. by intros a' [? _]. }
    assert (Hwk : Forall (fun kv : string * Argument => forall ai f h, helper_checked h ->
                    keeps_helper helper_checked
                      (_get_node_args_helper_inner_loop (snd kv) ai f h)) kwargs).
    { eapply Forall_impl; [exact Hk|]. by intros a' [? _]. }
    destruct (opcode_eqb op placeholder); [by apply keeps_helper_ret|].
    destruct (opcode_eqb op call_module).
    { apply checked_handle_module; [| |exact Hh].
      - eapply Forall_impl; [exact Hwa|]. intros a' Ha' f' h' Hh'. by apply Ha'.
      - eapply Forall_impl; [exact Hwk|]. intros a' Ha' f' h' Hh'. by apply Ha'. }
    destruct (opcode_eqb op call_function).
    + apply keeps_helper_lift. intros [|].
      { destruct args as [|a0 [|a1 args]]; try apply keeps_helper_raise.
        apply Forall_cons in Hwa as [H0 _]. by apply H0. }
      apply keeps_helper_lift. intros [|].
      { destruct args as [|a0 [|a1 args]]; try apply keeps_helper_raise.
        apply Forall_cons in Hwa as [H0 _]. by apply H0. }
      apply keeps_helper_lift. intros [|].
      { destruct (steps ai) as [|[| |item| | | |] ?]; try apply keeps_helper_raise.
        destruct args as [|a0 args]; [apply keeps_helper_raise|].
        apply Forall_cons in Ha as [[_ H0] _].
        destruct a0 as [n|v|la|da]; try apply keeps_helper_raise.
        - apply keeps_helper_lift. intros v'. by apply checked_handle_constant.
        - assert (Hpos : forall i,
                     keeps_helper helper_checked
                       (match seq_position (length la) i with
                        | Some n =>
                            (fix at_position (l : list Argument) (n : nat) :=
                               match l, n with
                               | [], _ => raise IndexError
                               | x :: _, O => _get_node_args_helper_inner_loop x ai f h
                               | _ :: l', S n' => at_position l' n'
                               end) la n
                        | None => raise IndexError
                        end)).
          { intros i. destruct (seq_position (length la) i) as [n|];
              [|apply keeps_helper_raise].
            clear Hwa. revert n.
            induction H0 as [|x l' Hx _ IH]; intros n; [apply keeps_helper_raise|].
            destruct n as [|n]; [by apply Hx | apply IH]. }
          destruct item; simpl; try apply keeps_helper_raise; try apply Hpos.
          apply keeps_helper_lift. intros v'. by apply checked_handle_constant.
        - destruct item as [| | |s| | | | | | |];
            try (destruct (hashable _); apply keeps_helper_raise).
          clear Hwa. induction H0 as [|[k' x] d' Hx _ IH]; [apply keeps_helper_raise|].
          destruct (String.eqb k' s); [by apply Hx | apply IH]. }
      apply keeps_helper_lift. intros [|]; [|by apply keeps_helper_ret].
      destruct (existsb _ _); [by apply keeps_helper_ret|].
      clear Hk. induction Hwk as [|[k x] kw Hx _ IH].
      { destruct args as [|a0 [|a1 args]]; try apply keeps_helper_raise.
        apply Forall_cons in Hwa as [_ Hwa]. apply Forall_cons in Hwa as [H1 _].
        by apply H1. }
      destruct (String.eqb k "values"); [by apply Hx|]. apply IH.
    + destruct (opcode_eqb op call_method); [|by apply keeps_helper_ret].
      destruct target as [s|? ?]; [|by apply keeps_helper_ret].
      destruct (String.eqb s "get"); [|by apply keeps_helper_ret].
      destruct args as [|a0 [|a1 args]]; try apply keeps_helper_raise.
      apply Forall_cons in Hwa as [H0 _]. by apply H0.
Qed.

Lemma get_node_args_checked node f h :
  helper_checked h -> keeps_helper helper_checked (get_node_args node f h).
Proof.
  intros Hh. unfold get_node_args. apply checked_get_node_args_with; [| |exact Hh].
  - apply Forall_forall. intros a _ f' h' Hh'. by apply walk_checked.
  - apply Forall_forall. intros a _ f' h' Hh'. by apply walk_checked.
Qed.

Lemma rewrite_loop_checked sm context ds pf graph :
  forall st w st' w',
    helper_checked (args_helper st) ->
    foldM (rewrite_node sm context ds pf) graph st w = (Ok st', w') ->
    helper_checked (args_helper st').
Proof.
  induction graph as [|node graph IH]; intros st w st' w' Hh H.
  - by injection H as <- _.
  - cbn [foldM] in H. apply bind_inv_Ok in H as (st1 & w1 & Hnode & H).
    eapply IH; [|exact H]. clear H IH. unfold rewrite_node in Hnode.
    destruct (sharded_target sm node) as [child|]; [|by injection Hnode as <- _].
    destruct (Nat.eqb (total_num_args node) 0); [by injection Hnode as <- _|].
    apply bind_inv_Ok in Hnode as ([[ail nf] h] & w2 & Hg & Hnode).
    apply (get_node_args_checked node false _ Hh) in Hg.
    destruct (Nat.eqb nf (total_num_args node)).
    + apply bind_inv_Ok in Hnode as (m & w3 & _ & Hnode).
      apply bind_inv_Ok in Hnode as ([] & w4 & _ & Hnode). by injection Hnode as <- _.
    + by injection Hnode as <- _.
Qed.

(** X27: postprocs are wrapped only when they have no parameters.  If
    every [PipelinedPostproc] already in the model wraps a module without
    parameters, then every pipelined postproc that [_rewrite_model] hands
    back wraps a module on which [_check_postproc_pipelineable] holds, that
    is, without a single named parameter, its own or of a submodule; and
    the same is true of every postproc [get_node_args] leaves in its
    helper. *)
Theorem rewrite_model_wraps_checked_postprocs model context ds batch jit pf pp dfs w
        pipelined model' originals postprocs non_pipelined w' :
  wrappers_checked (underlying model) = true ->
  _rewrite_model model context ds batch jit pf pp dfs w
  = (Ok (pipelined, model', originals, postprocs, non_pipelined), w') ->
  forall p, p ∈ postprocs ->
    _check_postproc_pipelineable (postproc_module p) = true /\
    Module_named_parameters (postproc_module p) "" = [].
Proof.
  intros Hm H. unfold _rewrite_model in H. unfold bind at 1, get in H.
  apply bind_inv_Ok in H as (graph & w0 & Htr & H).
  apply bind_inv_Ok in H as (st & w1 & Hloop & H).
  apply rewrite_loop_checked in Hloop as [_ Hl]; [|split; [exact Hm | constructor]].
  injection H as _ _ _ <- _ _. intros p Hp.
  rewrite Forall_forall in Hl. specialize (Hl p Hp). split; [exact Hl|].
  unfold _check_postproc_pipelineable in Hl.
  by destruct (Module_named_parameters (postproc_module p) "").
Qed.

Lemma rewrite_model_wraps_checked_postprocs_witness :
  _check_postproc_pipelineable (postproc_module nested_postproc) = true /\
  Module_named_parameters (postproc_module nested_postproc) "" = [].
Proof.
  apply (rewrite_model_wraps_checked_postprocs (BareModel nested_module) 0%nat (Some 0%nat)
           sample_batch false PipelinedForward true None nested_world
           [0%nat]
           (BareModel (_swap_postproc_module_recursive nested_module
                         (PipelinedPostprocModule nested_postproc) "a.b" ""))
           [OriginalForward 0] [nested_postproc] []
           (snd (_rewrite_model (BareModel nested_module) 0%nat (Some 0%nat) sample_batch false
                   PipelinedForward true None nested_world))).
  - reflexivity.
  - vm_compute. reflexivity.
  - apply list_elem_of_here.
Defined.

(** ** Overriding the KJT dist forwards of a module and putting them back *)

Lemma dist_refs_from_cons o i k d l :
  dist_refs_from o i k (d :: l)
  = (match _dist d with Some _ => [(o, i, k)] | None => [] end
     ++ dist_refs_from o i (S k) l)%list.
Proof.
  unfold dist_refs_from. rewrite imap_cons. cbn [concat]. rewrite Nat.add_0_r. f_equal.
  f_equal. apply imap_ext. intros j d' _. simpl. by rewrite Nat.add_succ_r.
Qed.

Lemma kjt_refs_from_cons o k n c cs :
  kjt_refs_from o k ((n, c) :: cs)
  = (match _input_dists c with Some l => dist_refs_from o k 0 l | None => [] end
     ++ kjt_refs_from o (S k) cs)%list.
Proof.
  unfold kjt_refs_from. rewrite imap_cons. cbn [concat snd]. rewrite Nat.add_0_r. f_equal.
  f_equal. apply imap_ext. intros j d' _. simpl. by rewrite Nat.add_succ_r.
Qed.

Lemma kjt_refs_from_0 o m : kjt_refs o m = kjt_refs_from o 0 (named_modules m).
Proof. reflexivity. Qed.

Lemma dist_refs_from_length o i k l : length (dist_refs_from o i k l) = dists_count l.
Proof.
  revert k. induction l as [|d l IH]; intros k; [reflexivity|].
  rewrite dist_refs_from_cons, length_app, IH. simpl. by destruct (_dist d).
Qed.

Lemma set_dist_forward_override d :
  forall k, _dist d = Some k ->
    set_dist_forward (dist_forward k) (fst (override_input_dist d)) = d.
Proof.
  intros k E. unfold override_input_dist. rewrite E. unfold set_dist_forward. simpl.
  destruct d as [[[f pg sp st]|]]; simpl in *; [|discriminate]. by injection E as <-.
Qed.

Lemma restore_dists o (n : string) flag (cpre crest : list (string * SubModule))
      (l : list InputDist) :
  forall pre : list InputDist,
    fold_left (fun cs (rf : kjt_ref * KJTDistForward) =>
                 set_kjt_forward_in cs (fst rf) (snd rf))
      (zip (dist_refs_from o (length cpre) (length pre) (fst (override_input_dists l)))
           (snd (override_input_dists l)))
      (cpre ++ (n, mkSubModule flag (Some (pre ++ fst (override_input_dists l))%list))
            :: crest)%list
    = (cpre ++ (n, mkSubModule flag (Some (pre ++ l)%list)) :: crest)%list.
Proof.
  induction l as [|d l IH]; intros pre; [reflexivity|].
  cbn [override_input_dists].
  destruct (override_input_dists l) as [l' o'] eqn:El. simpl in IH.
  destruct (_dist d) as [k|] eqn:E.
  - pose proof (set_dist_forward_override d k E) as Hd.
    unfold override_input_dist in *. rewrite E in *. cbn [fst snd] in *.
    rewrite dist_refs_from_cons. cbn [_dist app zip zip_with fold_left].
    unfold set_kjt_forward_in at 2. cbn [fst snd].
    replace (length cpre) with (length cpre + 0)%nat at 2 by lia.
    rewrite alter_app_r. cbn [alter list_alter fst snd option_map _input_dists
                              _has_uninitialized_input_dist].
    replace (length pre) with (length pre + 0)%nat at 2 by lia.
    rewrite alter_app_r. cbn [alter list_alter]. rewrite Hd.
    specialize (IH (pre ++ [d])%list). rewrite length_app, Nat.add_1_r in IH.
    rewrite <- !app_assoc in IH. exact IH.
  - unfold override_input_dist. rewrite E. cbn [fst snd app].
    rewrite dist_refs_from_cons, E. cbn [app].
    specialize (IH (pre ++ [d])%list). rewrite length_app, Nat.add_1_r in IH.
    rewrite <- !app_assoc in IH. exact IH.
Qed.

Lemma restore_children o (cs : list (string * SubModule)) :
  forall (cpre cs' : list (string * SubModule)) fs,
    override_children cs = (cs', fs, None) ->
    fold_left (fun cs (rf : kjt_ref * KJTDistForward) =>
                 set_kjt_forward_in cs (fst rf) (snd rf))
      (zip (kjt_refs_from o (length cpre) cs') fs) (cpre ++ cs')%list
    = (cpre ++ cs)%list.
Proof.
  induction cs as [|[n c] cs IH]; intros cpre cs' fs H.
  - by injection H as <- <-.
  - cbn [override_children] in H.
    destruct (override_child c) as [[c' oc]|e] eqn:Ec; [|discriminate].
    destruct (override_children cs) as [[cs'' o'] e'] eqn:Ecs.
    injection H as <- <- ->.
    specialize (IH (cpre ++ [(n, c)])%list cs'' o' eq_refl).
    rewrite length_app, Nat.add_1_r, <- !app_assoc in IH. cbn [app] in IH.
    rewrite kjt_refs_from_cons. unfold override_child in Ec.
    destruct c as [flag dists].
    assert (Hc : match dists with
                 | None => c' = mkSubModule flag None /\ oc = []
                 | Some l => c' = mkSubModule flag (Some (fst (override_input_dists l))) /\
                             oc = snd (override_input_dists l)
                 end).
    { cbn [_has_uninitialized_input_dist _input_dists] in Ec.
      destruct flag as [[|]|]; try discriminate; destruct dists as [l|];
        try destruct (override_input_dists l); by injection Ec as <- <-. }
    clear Ec. destruct dists as [l|]; destruct Hc as [-> ->].
    + cbn [_input_dists]. rewrite zip_with_app.
      2:{ rewrite dist_refs_from_length.
          destruct (override_input_dists_count l) as [-> ->]. reflexivity. }
      rewrite fold_left_app.
      pose proof (restore_dists o n flag cpre cs'' l []) as Hd. cbn [app length] in Hd.
      rewrite Hd. exact IH.
    + cbn [_input_dists app]. exact IH.
Qed.

Lemma with_sharded_id w o m :
  sharded w !! o = Some m ->
  with_sharded w (<[o := with_named_modules m (named_modules m)]> (sharded w)) = w.
Proof.
  intros Hm. rewrite insert_id; [by destruct w|]. rewrite Hm. by destruct m.
Qed.

Lemma set_kjt_forwards_on_module o (l : list (kjt_ref * KJTDistForward)) :
  forall w m,
    sharded w !! o = Some m ->
    Forall (fun rf : kjt_ref * KJTDistForward => fst (fst (fst rf)) = o) l ->
    forM_ (fun kf : kjt_ref * KJTDistForward => set_kjt_forward (fst kf) (snd kf)) l w
    = (Ok tt,
       with_sharded w
         (<[o := with_named_modules m
                   (fold_left (fun cs (rf : kjt_ref * KJTDistForward) =>
                                 set_kjt_forward_in cs (fst rf) (snd rf))
                              l (named_modules m))]> (sharded w))).
Proof.
  induction l as [|[[[o' i] j] f] l IH]; intros w m Hm Ho.
  - simpl. by rewrite with_sharded_id.
  - apply Forall_cons in Ho as [Ho' Ho]. simpl in Ho'. subst o'.
    cbn [forM_ fst snd]. unfold bind at 1. unfold set_kjt_forward at 1.
    unfold bind at 1, read_sharded at 1. rewrite Hm. unfold write_sharded at 1, modify.
    match goal with
    | |- context [with_sharded w (<[o := ?m1]> (sharded w))] =>
        rewrite (IH (with_sharded w (<[o := m1]> (sharded w))) m1);
          [|simpl; apply lookup_insert_eq|exact Ho]
    end.
    f_equal. unfold with_sharded. simpl. by rewrite insert_insert_eq.
Qed.

Lemma kjt_refs_from_module o k cs :
  Forall (fun r : kjt_ref => fst (fst r) = o) (kjt_refs_from o k cs).
Proof.
  revert k. induction cs as [|[n c] cs IH]; intros k; [constructor|].
  rewrite kjt_refs_from_cons. apply Forall_app. split; [|apply IH].
  destruct (_input_dists c) as [l|]; [|constructor]. generalize 0%nat.
  induction l as [|d l IHl]; intros j; [constructor|].
  rewrite dist_refs_from_cons. apply Forall_app. split; [|apply IHl].
  destruct (_dist d); by constructor.
Qed.

(** X28: what [_override_input_dist_forwards] does to a sharded module,
    the restoring loop of [_pipeline_detach_model] undoes.  When the
    override of a module succeeds, the KJT dists that
    [_pipeline_detach_model] finds below the overridden module are as many
    as the forwards saved, and in the same order: setting the saved
    forwards back one by one does not raise and leaves the module, and the
    whole store, exactly as they were before the override. *)
Theorem override_then_restore_kjt_forwards o m w cs fs :
  sharded w !! o = Some m ->
  override_children (named_modules m) = (cs, fs, None) ->
  length (kjt_refs o (with_named_modules m cs)) = length fs /\
  forM_ (fun kf : kjt_ref * KJTDistForward => set_kjt_forward (fst kf) (snd kf))
        (zip (kjt_refs o (with_named_modules m cs)) fs)
        (with_sharded w (<[o := with_named_modules m cs]> (sharded w)))
  = (Ok tt, w).
Proof.
  intros Hm Hov. split.
  - rewrite kjt_refs_length. simpl.
    destruct (override_children_count (named_modules m)) as [Hc Hl].
    rewrite Hov in Hc, Hl. simpl in Hc, Hl. rewrite Hl by done. exact Hc.
  - rewrite (set_kjt_forwards_on_module o _ _ (with_named_modules m cs)).
    + f_equal. unfold with_sharded. simpl. rewrite insert_insert_eq.
      rewrite kjt_refs_from_0. simpl.
      pose proof (restore_children o (named_modules m) [] cs fs Hov) as Hr.
      simpl in Hr. rewrite Hr. exact (with_sharded_id w o m Hm).
    + simpl. apply lookup_insert_eq.
    + rewrite kjt_refs_from_0. apply Forall_forall. intros [r f] Hin.
      apply elem_of_zip_l in Hin. simpl.
      pose proof (kjt_refs_from_module o 0 (named_modules (with_named_modules m cs))) as Hall.
      rewrite Forall_forall in Hall. by apply Hall.
Qed.

Lemma override_then_restore_kjt_forwards_witness :
  length (kjt_refs 0%nat
            (with_named_modules kjt_sharded_module
               (fst (fst (override_children (named_modules kjt_sharded_module))))))
  = 3%nat.
Proof.
  exact (proj1 (override_then_restore_kjt_forwards 0%nat kjt_sharded_module
                  kjt_world
                  (fst (fst (override_children (named_modules kjt_sharded_module))))
                  [OriginalKJTForward 1; OriginalKJTForward 2; OriginalKJTForward 3]
                  ltac:(vm_compute; reflexivity) ltac:(vm_compute; reflexivity))).
Defined.

(** ** Unresolved nodes inside a list argument *)

Lemma unresolved_elements f h w (l : list Argument) :
  Forall (unresolved f h w) l ->
  mapS (fun v h0 => _handle_collection_element _get_node_args_helper_inner v f h0) l h w
  = (Ok (map (fun _ => ElemObject VNone) l, h), w).
Proof.
  induction 1 as [|x l (n & -> & Hn) _ IH]; [reflexivity|].
  cbn [mapS map]. unfold bind at 1. cbn [_handle_collection_element].
  unfold bind at 1. rewrite Hn. unfold ret at 1. unfold bind at 1. rewrite IH. reflexivity.
Qed.

Lemma process_unresolved_elements (l : list Argument) batch w :
  mapM (fun v => process_element v batch) (map (fun _ : Argument => ElemObject VNone) l) w
  = (Ok (map (fun _ => VNone) l), w).
Proof.
  induction l as [|x l IH]; [reflexivity|].
  cbn [map mapM]. unfold bind at 1. cbn [process_element]. unfold ret at 1.
  unfold bind at 1. by rewrite IH.
Qed.

(** X29: an unresolved node inside a list argument.  With postproc
    pipelining on, a list argument all of whose elements are nodes the
    resolution gives up on is nevertheless resolved: [None] stands for each
    of these elements in the descriptor, and [process_steps] yields a list
    of [None]s for every batch.  A sharded module called with such a list
    as its only argument is pipelined, while a module called with one of
    these nodes itself is not. *)
Theorem unresolved_list_elements_become_None f h w (l : list Argument) :
  helper_pipeline_postproc h = true ->
  Forall (unresolved f h w) l ->
  _get_node_args_helper_inner (ArgList l) f h w
  = (Ok (Some (mkArgInfo [ListArgInfoStep (map (fun _ => ElemObject VNone) l)]), h), w) /\
  (forall batch w',
     process_steps (mkArgInfo [ListArgInfoStep (map (fun _ => ElemObject VNone) l)]) batch w'
     = (Ok (VList (map (fun _ => VNone) l)), w')) /\
  (f = false ->
   forall sm context ds pf st name ph child m,
     args_helper st = h -> sm !! name = Some child -> sharded w !! child = Some m ->
     rewrite_node sm context ds pf (mkNode call_module (TargetName name) [ArgList l] [] ph)
       st w
     = (Ok (mkRewrite (pipelined_forwards st ++ [child])
              (original_forwards st ++ [forward m]) (non_pipelined_sharded_modules st) h),
        with_sharded w
          (<[child := with_forward m
                        (Intercepting
                           (mkBaseForward pf name
                              (mkCallArgs
                                 [mkArgInfo [ListArgInfoStep
                                               (map (fun _ => ElemObject VNone) l)]] [])
                              child context ds))]> (sharded w))) /\
     forall x, x ∈ l ->
       rewrite_node sm context ds pf (mkNode call_module (TargetName name) [x] [] ph) st w
       = (Ok (mkRewrite (pipelined_forwards st) (original_forwards st)
                (non_pipelined_sharded_modules st ++ [name]) h), w)).
Proof.
  intros Hflag Hl.
  assert (Hres : _get_node_args_helper_inner (ArgList l) f h w
                 = (Ok (Some (mkArgInfo [ListArgInfoStep (map (fun _ => ElemObject VNone) l)]),
                        h), w)).
  { unfold _get_node_args_helper_inner. cbn [_get_node_args_helper_inner_loop].
    unfold _handle_constant. rewrite Hflag. cbn [negb]. unfold bind at 1.
    change (fun (a : Argument) (f0 : bool) (h' : NodeArgsHelper) =>
              _get_node_args_helper_inner_loop a (mkArgInfo []) f0 h')
      with _get_node_args_helper_inner.
    rewrite (unresolved_elements f h w l Hl). reflexivity. }
  split; [exact Hres|]. split.
  - intros batch w'. cbn [process_steps foldM]. unfold bind at 1. cbn [process].
    unfold bind at 1. rewrite process_unresolved_elements. reflexivity.
  - intros -> sm context ds pf st name ph child m Hst Hsm Hm. split.
    + assert (Hg : get_node_args (mkNode call_module (TargetName name) [ArgList l] [] ph)
                     false (args_helper st) w
                   = (Ok ((mkCallArgs
                             [mkArgInfo [ListArgInfoStep (map (fun _ => ElemObject VNone) l)]]
                             [], 1%nat), h), w)).
      { rewrite Hst. unfold get_node_args, get_node_args_with. cbn [node_args node_kwargs].
        cbn [_get_node_args_helper]. cbn [negb andb is_None_arg]. unfold bind.
        rewrite Hres. reflexivity. }
      exact (rewrite_node_pipelined sm context ds pf
               (mkNode call_module (TargetName name) [ArgList l] [] ph) child st w _ h w m
               Hsm ltac:(discriminate) Hg Hm).
    + intros x Hx. rewrite Forall_forall in Hl. destruct (Hl x Hx) as (n & -> & Hn).
      assert (Hg : get_node_args (mkNode call_module (TargetName name) [ArgNode n] [] ph)
                     false (args_helper st) w
                   = (Ok ((mkCallArgs [] [], 0%nat), h), w)).
      { rewrite Hst. unfold get_node_args, get_node_args_with. cbn [node_args node_kwargs].
        cbn [_get_node_args_helper]. cbn [negb andb is_None_arg]. unfold bind.
        rewrite Hn. reflexivity. }
      exact (rewrite_node_not_pipelined sm context ds pf
               (mkNode call_module (TargetName name) [ArgNode n] [] ph) child st w _ 0%nat h w
               Hsm ltac:(discriminate) Hg ltac:(discriminate)).
Qed.

Lemma unresolved_list_elements_become_None_witness :
  _get_node_args_helper_inner (ArgList [ArgNode weight_node]) false ebc_helper_postproc
    (world_of_graph [ebc_call_list])
  = (Ok (Some (mkArgInfo [ListArgInfoStep [ElemObject VNone]]), ebc_helper_postproc),
     world_of_graph [ebc_call_list]).
Proof.
  refine (proj1 (unresolved_list_elements_become_None false ebc_helper_postproc
                   (world_of_graph [ebc_call_list]) [ArgNode weight_node] eq_refl _)).
  constructor; [|constructor]. exists weight_node. split; reflexivity.
Defined.

(** ** Reading a placeholder key *)

Lemma replace_lbracket_app a b :
  replace_lbracket (a ++ b) = (replace_lbracket a ++ replace_lbracket b)%string.
Proof. induction a as [|c a IH]; simpl; [reflexivity|]. by rewrite IH. Qed.

Lemma plain_inv c s :
  plain (String c s) = true ->
  Ascii.eqb c dot = false /\ Ascii.eqb c lbracket = false /\ Ascii.eqb c rbracket = false /\
  plain s = true.
Proof.
  simpl. intros H. apply andb_true_iff in H as [H Hs].
  apply andb_true_iff in H as [H Hr]. apply andb_true_iff in H as [Hd Hl].
  apply negb_true_iff in Hd, Hl, Hr. done.
Qed.

Lemma replace_lbracket_plain s : plain s = true -> replace_lbracket s = s.
Proof.
  induction s as [|c s IH]; [reflexivity|]. intros (_ & Hl & _ & Hs)%plain_inv.
  simpl. by rewrite Hl, IH.
Qed.

Lemma split_dot_nonempty s : split_dot s <> [].
Proof.
  induction s as [|c s IH]; simpl; [discriminate|].
  destruct (Ascii.eqb c dot); [discriminate|]. by destruct (split_dot s).
Qed.

(** A piece of a key between two dots: a plain string, or one followed by
    a closing bracket *)
Lemma split_dot_piece a closing rest :
  plain a = true ->
  split_dot (a ++ (if closing : bool then "]" else "") ++ "." ++ rest)
  = (a ++ (if closing then "]" else ""))%string :: split_dot rest.
Proof.
  intros Ha. induction a as [|c a IH].
  - by destruct closing.
  - apply plain_inv in Ha as (Hd & _ & _ & Ha). simpl. rewrite Hd.
    simpl in IH. rewrite (IH Ha). reflexivity.
Qed.

Lemma split_dot_last a closing :
  plain a = true ->
  split_dot (a ++ (if closing : bool then "]" else ""))
  = [(a ++ (if closing then "]" else ""))%string].
Proof.
  intros Ha. induction a as [|c a IH].
  - by destruct closing.
  - apply plain_inv in Ha as (Hd & _ & _ & Ha). simpl. rewrite Hd.
    simpl in IH. rewrite (IH Ha). reflexivity.
Qed.

Lemma has_rbracket_plain a closing :
  plain a = true -> has_rbracket (a ++ (if closing : bool then "]" else "")) = closing.
Proof.
  intros Ha. induction a as [|c a IH]; [by destruct closing|].
  apply plain_inv in Ha as (_ & _ & Hr & Ha). simpl. by rewrite Hr, IH.
Qed.

Lemma drop_last_closing a : drop_last (a ++ "]") = a.
Proof.
  induction a as [|c a IH]; [reflexivity|]. destruct a as [|c' a]; [reflexivity|].
  change (String c (drop_last (String c' a ++ "]")) = String c (String c' a)).
  by rewrite IH.
Qed.

Lemma string_app_nil (s : string) : (s ++ "")%string = s.
Proof.
  induction s as [|c s IH]; [reflexivity|].
  change (String c (s ++ "") = String c s). by rewrite IH.
Qed.

Lemma split_rendered segs :
  forallb segment_plain segs = true ->
  forall a (closing : bool),
    plain a = true ->
    split_dot (a ++ (if closing then "]" else "") ++ replace_lbracket (render_segments segs))
    = (a ++ (if closing then "]" else ""))%string :: map key_piece segs.
Proof.
  induction segs as [|[name|key] segs IH]; intros Hsegs a closing Ha.
  - cbn [render_segments replace_lbracket map]. rewrite string_app_nil.
    by apply split_dot_last.
  - cbn [forallb segment_plain] in Hsegs. apply andb_true_iff in Hsegs as [Hn Hsegs].
    cbn [render_segments map key_piece].
    change ("." ++ name ++ render_segments segs)%string
      with (String dot (name ++ render_segments segs)).
    cbn [replace_lbracket]. change (Ascii.eqb dot lbracket) with false. cbv iota.
    rewrite replace_lbracket_app, (replace_lbracket_plain name Hn).
    change (String dot (name ++ replace_lbracket (render_segments segs)))
      with ("." ++ (name ++ replace_lbracket (render_segments segs)))%string.
    rewrite (split_dot_piece a closing _ Ha). f_equal.
    pose proof (IH Hsegs name false Hn) as Hrec. rewrite string_app_nil in Hrec.
    exact Hrec.
  - cbn [forallb segment_plain] in Hsegs. apply andb_true_iff in Hsegs as [Hk Hsegs].
    apply andb_true_iff in Hk as [Hk _].
    cbn [render_segments map key_piece].
    change ("[" ++ key ++ "]" ++ render_segments segs)%string
      with (String lbracket (key ++ "]" ++ render_segments segs)).
    cbn [replace_lbracket]. change (Ascii.eqb lbracket lbracket) with true. cbv iota.
    rewrite replace_lbracket_app, (replace_lbracket_plain key Hk).
    change (replace_lbracket ("]" ++ render_segments segs))
      with ("]" ++ replace_lbracket (render_segments segs))%string.
    change (String dot (key ++ "]" ++ replace_lbracket (render_segments segs)))
      with ("." ++ (key ++ "]" ++ replace_lbracket (render_segments segs)))%string.
    rewrite (split_dot_piece a closing _ Ha). f_equal.
    exact (IH Hsegs key true Hk).
Qed.

Lemma piece_step_segment seg :
  segment_plain seg = true -> piece_step (key_piece seg) = segment_step seg.
Proof.
  destruct seg as [name|key]; simpl; intros Hp; unfold piece_step.
  - pose proof (has_rbracket_plain name false Hp) as H. simpl in H.
    rewrite string_app_nil in H. by rewrite H.
  - apply andb_true_iff in Hp as [Hp _].
    pose proof (has_rbracket_plain key true Hp) as H. simpl in H.
    by rewrite H, drop_last_closing.
Qed.

Lemma append_pieces pieces :
  forall arg_info,
    fold_left
      (fun arg_info key =>
         if has_rbracket key then
           let k_ := drop_last key in
           append_step arg_info
             (GetItemArgInfoStep (match py_int k_ with
                                  | Some i => IInt i
                                  | None => IStr k_
                                  end))
         else append_step arg_info (GetAttrArgInfoStep key))
      pieces arg_info
    = mkArgInfo (steps arg_info ++ map piece_step pieces).
Proof.
  induction pieces as [|key pieces IH]; intros arg_info.
  - simpl. rewrite app_nil_r. by destruct arg_info.
  - cbn [fold_left map]. rewrite IH. unfold piece_step at 2.
    destruct (has_rbracket key); cbn [append_step steps]; by rewrite <- app_assoc.
Qed.

(** X30: reading a placeholder key.  For a placeholder whose [ph_key] is a
    name followed by accesses, each [.name] or [[key]], the names and keys
    without dot or bracket and the keys of at most 4300 ASCII characters,
    [_handle_placeholder] appends to the descriptor, after the steps it
    already holds, an attribute step for the name and one step per access
    in the order of the key: an attribute step for [.name], an item step
    for [[key]], whose key is an integer when [int(key)] succeeds (so for
    [1_0] and for a numeral between spaces too) and the string otherwise.
    Without [ph_key] it puts a single no-op step in front. *)
Theorem handle_placeholder_reads_key op target args kwargs first segs arg_info :
  plain first = true ->
  forallb segment_plain segs = true ->
  _handle_placeholder (mkNode op target args kwargs (Some (render_key first segs))) arg_info
  = mkArgInfo (steps arg_info ++ GetAttrArgInfoStep first :: map segment_step segs) /\
  _handle_placeholder (mkNode op target args kwargs None) arg_info
  = mkArgInfo (NoopArgInfoStep :: steps arg_info).
Proof.
  intros Hfirst Hsegs. split; [|reflexivity].
  unfold _handle_placeholder. cbn [node_ph_key]. unfold render_key.
  rewrite replace_lbracket_app, (replace_lbracket_plain first Hfirst).
  pose proof (split_rendered segs Hsegs first false Hfirst) as Hsplit.
  rewrite string_app_nil in Hsplit.
  change (split_dot (first ++ replace_lbracket (render_segments segs))
          = first :: map key_piece segs) in Hsplit.
  rewrite Hsplit, append_pieces. f_equal. f_equal. cbn [map]. f_equal.
  - pose proof (piece_step_segment (AttrSegment first) Hfirst) as H. exact H.
  - rewrite map_map. apply map_ext_in. intros seg Hin. apply piece_step_segment.
    rewrite forallb_forall in Hsegs. by apply Hsegs.
Qed.

Lemma handle_placeholder_reads_key_witness :
  _handle_placeholder
    (mkNode placeholder (TargetName "features") [] []
       (Some (render_key "features" [ItemSegment "marketplace"; AttrSegment "ids";
                                     ItemSegment "-1"; ItemSegment "1_0";
                                     ItemSegment " 7"; ItemSegment "1__0"])))
    (mkArgInfo [])
  = mkArgInfo [GetAttrArgInfoStep "features"; GetItemArgInfoStep (IStr "marketplace");
               GetAttrArgInfoStep "ids"; GetItemArgInfoStep (IInt (-1));
               GetItemArgInfoStep (IInt 10); GetItemArgInfoStep (IInt 7);
               GetItemArgInfoStep (IStr "1__0")].
Proof.
  exact (proj1 (handle_placeholder_reads_key placeholder (TargetName "features") [] []
                  "features" [ItemSegment "marketplace"; AttrSegment "ids"; ItemSegment "-1";
                              ItemSegment "1_0"; ItemSegment " 7"; ItemSegment "1__0"]
                  (mkArgInfo []) eq_refl eq_refl)).
Defined.

